(** * wiktextract: page parsing (newpage.py)

    A shallow embedding of the parts of [wiktextract/newpage.py] that decide
    the properties stated below: the scope buffers and their merge
    ([merge_base], [push_sense], [push_pos], [push_etym]), the section walk of
    [parse_language], the post-processing of [parse_page], and the template
    handling of [parse_sense], [parse_linkage] and [parse_any]. *)

From Stdlib Require Import String Ascii List Bool Arith Lia.
Import ListNotations.
Open Scope string_scope.
Open Scope list_scope.

Set Implicit Arguments.
Set Warnings "-register-all".

(** ** Strings as the code uses them *)

(** String concatenation, Python's [+] on [str]; [++] stays with lists. *)
Infix "+++" := String.append (right associativity, at level 60).

Definition startswith (s p : string) : bool := String.prefix p s.

Definition endswith (s suf : string) : bool :=
  let n := String.length suf in
  let m := String.length s in
  Nat.leb n m && String.eqb (substring (m - n) n s) suf.

(** [s.find(sub)]: position of the first occurrence. *)
Definition find (s sub : string) : option nat := index 0 sub s.

Definition contains (s sub : string) : bool :=
  match find s sub with Some _ => true | None => false end.

(** [s[n:]] *)
Definition drop_chars (n : nat) (s : string) : string :=
  substring n (String.length s - n) s.

(** [name in ("a", "b", ...)] *)
Definition in_names (name : string) (names : list string) : bool :=
  existsb (String.eqb name) names.

(** A byte that continues a character of more than one byte in UTF-8. *)
Definition is_continuation (c : ascii) : bool :=
  let n := nat_of_ascii c in Nat.leb 128 n && Nat.ltb n 192.

(** The one-character strings of [s], what iterating a Python [str] yields:
    a byte and the continuation bytes after it are one character. *)
Fixpoint chars (s : string) : list string :=
  match s with
  | EmptyString => []
  | String c s' =>
      let rest := chars s' in
      let continued :=
        match s' with
        | String c' _ => is_continuation c'
        | EmptyString => false
        end in
      match rest with
      | h :: t => if continued then String c h :: t
                  else String c EmptyString :: rest
      | [] => [String c EmptyString]
      end
  end.

Example chars_examples :
  chars "ab" = ["a"; "b"]
  /\ chars (String (ascii_of_nat 195) (String (ascii_of_nat 164) "b"))
     = [String (ascii_of_nat 195) (String (ascii_of_nat 164) ""); "b"].
Proof. split; reflexivity. Qed.

(** ** Values, fields and dictionaries

    What the extractors store: strings, booleans, [None], lists, tuples and
    string-keyed dictionaries.  A dictionary is an association list in
    insertion order, as a Python [dict] iterates. *)

Inductive value : Type :=
| VNone
| VBool (b : bool)
| VStr (s : string)
| VList (l : list value)
| VTuple (l : list value)
| VDict (d : list (string * value)).

(** A field of a scope buffer or of an output record: the scalar fields
    ([word], [lang], [lang_code], [pos]) hold a string, every other field is
    the list that [data_append] and [data_extend] build. *)
Inductive field : Type :=
| FStr (s : string)
| FList (l : list value).

Definition record := list (string * field).

Section Dict.
Variable A : Type.

Fixpoint lookup (k : string) (d : list (string * A)) : option A :=
  match d with
  | [] => None
  | (k', v) :: d' => if String.eqb k k' then Some v else lookup k d'
  end.

(** [d[k] = v]: an existing key keeps its place, a new key goes last. *)
Fixpoint set_key (k : string) (v : A) (d : list (string * A))
  : list (string * A) :=
  match d with
  | [] => [(k, v)]
  | (k', v') :: d' =>
      if String.eqb k k' then (k', v) :: d' else (k', v') :: set_key k v d'
  end.

Definition has_key (k : string) (d : list (string * A)) : bool :=
  match lookup k d with Some _ => true | None => false end.

Definition keys (d : list (string * A)) : list string := map fst d.

Lemma lookup_set_key_same k v d : lookup k (set_key k v d) = Some v.
Proof.
  induction d as [|[k' v'] d IH]; simpl.
  - now rewrite String.eqb_refl.
  - destruct (String.eqb k k') eqn:E; simpl; rewrite E; auto.
Qed.

Lemma lookup_set_key_other k k' v d :
  k <> k' -> lookup k (set_key k' v d) = lookup k d.
Proof.
  intros Hne. induction d as [|[k0 v0] d IH]; simpl.
  - destruct (String.eqb k k') eqn:E; auto.
    apply String.eqb_eq in E. contradiction.
  - destruct (String.eqb k' k0) eqn:E; simpl.
    + apply String.eqb_eq in E. subst k0.
      destruct (String.eqb k k') eqn:E2; auto.
      apply String.eqb_eq in E2. contradiction.
    + now rewrite IH.
Qed.

Lemma lookup_set_key k k' v d :
  lookup k (set_key k' v d) = if String.eqb k k' then Some v else lookup k d.
Proof.
  destruct (String.eqb k k') eqn:E.
  - apply String.eqb_eq in E. subst. apply lookup_set_key_same.
  - apply lookup_set_key_other. now apply String.eqb_neq.
Qed.

Lemma lookup_app k d1 d2 :
  lookup k (d1 ++ d2) =
  match lookup k d1 with Some v => Some v | None => lookup k d2 end.
Proof.
  induction d1 as [|[k' v'] d1 IH]; simpl; auto.
  destruct (String.eqb k k'); auto.
Qed.

Lemma lookup_not_in k d : ~ In k (keys d) -> lookup k d = None.
Proof.
  induction d as [|[k' v'] d IH]; simpl; auto.
  intros H. destruct (String.eqb k k') eqn:E.
  - apply String.eqb_eq in E. subst. tauto.
  - apply IH. tauto.
Qed.

Lemma lookup_in_keys k d v : lookup k d = Some v -> In k (keys d).
Proof.
  induction d as [|[k' v'] d IH]; simpl; try discriminate.
  destruct (String.eqb k k') eqn:E.
  - apply String.eqb_eq in E. auto.
  - auto.
Qed.

Lemma has_key_in k d : has_key k d = true <-> In k (keys d).
Proof.
  unfold has_key. split.
  - destruct (lookup k d) eqn:E; try discriminate.
    intros _. eapply lookup_in_keys; eauto.
  - intros H. destruct (lookup k d) eqn:E; auto.
    exfalso. induction d as [|[k' v'] d IH]; simpl in *; auto.
    destruct (String.eqb k k') eqn:E2; try discriminate.
    destruct H as [H|H]; auto.
    subst. now rewrite String.eqb_refl in E2.
Qed.
End Dict.

Unset Implicit Arguments.

(** What [list.extend(v)] appends for each kind of field on the right. *)
Definition items_of (v : field) : list value :=
  match v with
  | FList l => l
  | FStr s => map VStr (chars s)
  end.

(** Modelled from the spec: [data_append] of [datautils], the buffers'
    [append(field, value)]: the value goes to the end of the list under
    [key], and the list is created when the key is new.  A key that holds a
    string has no list to append to; the buffer is then left as it is. *)
Definition data_append (data : record) (key : string) (v : value) : record :=
  match lookup key data with
  | None => set_key key (FList [v]) data
  | Some (FList l) => set_key key (FList (l ++ [v])) data
  | Some (FStr _) => data
  end.

(** Modelled from the spec: [data_extend] of [datautils], [data_append] for
    each value in turn. *)
Definition data_extend (data : record) (key : string) (vs : list value)
  : record :=
  fold_left (fun d v => data_append d key v) vs data.

(** ** Diagnostics

    The sinks ([config.warning], [ctx.warning], [config.error],
    [config.unrecognized_template], ...) are outside this file; a call is
    recorded in the order it is made. *)
Inductive diag : Type :=
| Warning (msg : string)
| ErrorMsg (msg : string)
| DebugMsg (msg : string)
| Conflict (k : string) (kept offered : field)
| UnknownValue (template_name value : string)
| UnrecognizedTemplate (template_name context : string).

(** ** The scope buffers of parse_language and the lists they share

    [merge_base] stores with [data[k] = v] the very list of the scope into
    the record, and [extend] and [append] change a list where it is: a
    record and a scope, or two records, may hold one and the same list.  The
    lists of the buffers are therefore objects in a store, and a buffer
    holds a reference where it holds a list.  A list is only ever held under
    the key it was created for ([data_append] creates it under [key],
    [merge_base] passes it on under the same [k]), so the store is kept by
    key: [SRef n] under the key [k] is the [n]-th list created for [k]. *)

Inductive slot : Type :=
| SStr (s : string)
| SRef (n : nat).

Definition buffer := list (string * slot).

Definition list_store := list (string * list (list value)).

Fixpoint set_nth {A : Type} (i : nat) (x : A) (l : list A) : list A :=
  match l, i with
  | [], _ => []
  | _ :: l', 0 => x :: l'
  | y :: l', S i' => y :: set_nth i' x l'
  end.

(** The lists created for the key [k], in the order of their creation. *)
Definition objects (ls : list_store) (k : string) : list (list value) :=
  match lookup k ls with Some l => l | None => [] end.

Definition object (ls : list_store) (k : string) (n : nat) : list value :=
  nth n (objects ls k) [].

(** [lst.extend(items)] on the [n]-th list of [k]. *)
Definition extend_object (ls : list_store) (k : string) (n : nat)
           (items : list value) : list_store :=
  set_key k (set_nth n (object ls k n ++ items) (objects ls k)) ls.

(** A new list for [k]: the store and the reference to the list. *)
Definition new_object (ls : list_store) (k : string) (l : list value)
  : list_store * slot :=
  (set_key k (objects ls k ++ [l]) ls, SRef (List.length (objects ls k))).

(** What a slot under [k] holds, as a value. *)
Definition slot_value (ls : list_store) (k : string) (s : slot) : field :=
  match s with
  | SStr x => FStr x
  | SRef n => FList (object ls k n)
  end.

(** The buffer as the dictionary of values that it is at this moment. *)
Definition deref (ls : list_store) (d : buffer) : record :=
  map (fun kv => (fst kv, slot_value ls (fst kv) (snd kv))) d.

(** Modelled from the spec: [data_append] of [datautils] on a buffer of
    [parse_language]: the list under [key] is extended where it is, a new
    list is created when the key is new, and a key that holds a string
    leaves everything as it is. *)
Definition data_append_ref (b : list_store * buffer) (key : string)
           (v : value) : list_store * buffer :=
  let '(ls, data) := b in
  match lookup key data with
  | None =>
      let '(ls', r) := new_object ls key [v] in (ls', set_key key r data)
  | Some (SRef n) => (extend_object ls key n [v], data)
  | Some (SStr _) => (ls, data)
  end.

(** Modelled from the spec: [data_extend] of [datautils] on a buffer of
    [parse_language], [data_append] for each value in turn. *)
Definition data_extend_ref (b : list_store * buffer) (key : string)
           (vs : list value) : list_store * buffer :=
  fold_left (fun b v => data_append_ref b key v) vs b.

(** [data_append] for each pair of a key and a value in turn. *)
Definition data_append_all (b : list_store * buffer)
           (kvs : list (string * value)) : list_store * buffer :=
  fold_left (fun b kv => data_append_ref b (fst kv) (snd kv)) kvs b.

(** ** merge_base (parse_language) *)

(** [data[k] != v] for a string [data[k]] *)
Definition slot_eqb_str (s : string) (v : slot) : bool :=
  match v with SStr s' => String.eqb s s' | SRef _ => false end.

(** The state of a merge: the lists, [data], and the warnings so far. *)
Definition merging := (list_store * buffer * list diag)%type.

(** One turn of [for k, v in base.items()]. *)
Definition merge_item (st : merging) (kv : string * slot) : merging :=
  let '(ls, data, ds) := st in
  let '(k, v) := kv in
  match lookup k data with
  | None => (ls, set_key k v data, ds)
  | Some (SRef n) =>
      (extend_object ls k n (items_of (slot_value ls k v)), data, ds)
  | Some (SStr s) =>
      if slot_eqb_str s v then (ls, data, ds)
      else (ls, data, ds ++ [Conflict k (FStr s) (slot_value ls k v)])
  end.

(** [merge_base(data, base)]: the lists and [data] after the merge, and the
    warnings raised. *)
Definition merge_base (ls : list_store) (data base : buffer) : merging :=
  fold_left merge_item base (ls, data, []).

(** The conflicts [merge_base] reports, in the order of [base]. *)
Definition conflicts (ls : list_store) (data base : buffer) : list diag :=
  flat_map (fun kv =>
    match lookup (fst kv) data with
    | Some (SStr s) =>
        if slot_eqb_str s (snd kv) then []
        else [Conflict (fst kv) (FStr s) (slot_value ls (fst kv) (snd kv))]
    | _ => []
    end) base.

Definition m_lists (m : merging) : list_store := fst (fst m).
Definition m_data (m : merging) : buffer := snd (fst m).
Definition m_diags (m : merging) : list diag := snd m.

Lemma set_nth_length {A : Type} (l : list A) : forall i x,
  List.length (set_nth i x l) = List.length l.
Proof.
  induction l as [|y l IH]; intros [|i] x; simpl; auto.
Qed.

Lemma nth_set_nth {A : Type} (d : A) (l : list A) : forall i j x,
  nth j (set_nth i x l) d =
  if Nat.eqb j i && Nat.ltb i (List.length l) then x else nth j l d.
Proof.
  induction l as [|y l IH]; intros i j x.
  - destruct i, j; simpl; try reflexivity.
    + now rewrite andb_false_r.
  - destruct i as [|i], j as [|j]; simpl; try reflexivity.
    rewrite IH. reflexivity.
Qed.

Lemma objects_set_key ls k k' l :
  objects (set_key k l ls) k' = if String.eqb k' k then l else objects ls k'.
Proof.
  unfold objects. rewrite lookup_set_key.
  destruct (String.eqb k' k); reflexivity.
Qed.

(** What the turn for [(k, v)] leaves under [k], from the slot [cur] that
    [data] has there and the lists [objs] of [k]. *)
Definition settled_slot (cur : option slot) (v : slot) : slot :=
  match cur with None => v | Some s => s end.

Definition slot_items (objs : list (list value)) (v : slot) : list value :=
  match v with
  | SStr s => map VStr (chars s)
  | SRef m => nth m objs []
  end.

Definition settled_objects (objs : list (list value)) (cur : option slot)
           (v : slot) : list (list value) :=
  match cur with
  | Some (SRef n) => set_nth n (nth n objs [] ++ slot_items objs v) objs
  | _ => objs
  end.

Lemma items_of_slot_value ls k v :
  items_of (slot_value ls k v) = slot_items (objects ls k) v.
Proof. destruct v; reflexivity. Qed.

Lemma merge_item_other ls data ds k v k' :
  k' <> k ->
  lookup k' (m_data (merge_item (ls, data, ds) (k, v))) = lookup k' data
  /\ objects (m_lists (merge_item (ls, data, ds) (k, v))) k' = objects ls k'.
Proof.
  intros Hne. apply String.eqb_neq in Hne.
  unfold merge_item, m_data, m_lists.
  destruct (lookup k data) as [[s|n]|]; cbn [fst snd].
  - destruct (slot_eqb_str s v); cbn [fst snd]; auto.
  - unfold extend_object. rewrite objects_set_key, Hne. auto.
  - rewrite lookup_set_key, Hne. auto.
Qed.

Lemma merge_item_same ls data ds k v :
  lookup k (m_data (merge_item (ls, data, ds) (k, v)))
    = Some (settled_slot (lookup k data) v)
  /\ objects (m_lists (merge_item (ls, data, ds) (k, v))) k
    = settled_objects (objects ls k) (lookup k data) v.
Proof.
  unfold merge_item, m_data, m_lists.
  destruct (lookup k data) as [[s|n]|] eqn:El; cbn [fst snd settled_slot settled_objects].
  - destruct (slot_eqb_str s v); cbn [fst snd]; auto.
  - unfold extend_object. rewrite objects_set_key, String.eqb_refl.
    rewrite items_of_slot_value. auto.
  - rewrite lookup_set_key_same. auto.
Qed.

Lemma merge_item_diags ls data ds k v :
  m_diags (merge_item (ls, data, ds) (k, v))
  = ds ++ conflicts ls data [(k, v)].
Proof.
  unfold merge_item, m_diags, conflicts. cbn [flat_map fst snd].
  destruct (lookup k data) as [[s|n]|]; cbn [snd];
    try (now rewrite app_nil_r).
  destruct (slot_eqb_str s v); cbn [snd app]; now rewrite ?app_nil_r.
Qed.

Lemma conflicts_ext base : forall ls data ls' data',
  (forall k, In k (keys base) ->
     lookup k data' = lookup k data /\ objects ls' k = objects ls k) ->
  conflicts ls' data' base = conflicts ls data base.
Proof.
  induction base as [|[k0 v0] base IH]; intros ls data ls' data' H; auto.
  cbn [conflicts flat_map fst snd]. f_equal.
  - destruct (H k0) as [H1 H2]; [now left|]. rewrite H1.
    assert (Hv : slot_value ls' k0 v0 = slot_value ls k0 v0).
    { destruct v0; cbn; auto. unfold object. now rewrite H2. }
    now rewrite Hv.
  - apply IH. intros k Hin. apply H. now right.
Qed.

Lemma merge_fold base : forall ls data ds,
  NoDup (keys base) ->
  let m := fold_left merge_item base (ls, data, ds) in
  (forall k, ~ In k (keys base) ->
     lookup k (m_data m) = lookup k data /\ objects (m_lists m) k = objects ls k)
  /\ (forall k v, lookup k base = Some v ->
        lookup k (m_data m) = Some (settled_slot (lookup k data) v)
        /\ objects (m_lists m) k = settled_objects (objects ls k) (lookup k data) v)
  /\ m_diags m = ds ++ conflicts ls data base.
Proof.
  induction base as [|[k0 v0] base IH]; intros ls data ds Hnd.
  - cbn. repeat split; try discriminate. now rewrite app_nil_r.
  - cbn [keys map fst] in Hnd. inversion Hnd as [|? ? Hni Hnd']; subst.
    cbn [fold_left].
    destruct (merge_item (ls, data, ds) (k0, v0)) as [[ls1 data1] ds1] eqn:E.
    assert (Hother : forall k, k <> k0 ->
              lookup k data1 = lookup k data /\ objects ls1 k = objects ls k).
    { intros k Hk.
      pose proof (merge_item_other ls data ds k0 v0 k Hk) as Ho.
      now rewrite E in Ho. }
    assert (Hsame : lookup k0 data1 = Some (settled_slot (lookup k0 data) v0)
              /\ objects ls1 k0 = settled_objects (objects ls k0) (lookup k0 data) v0).
    { pose proof (merge_item_same ls data ds k0 v0) as Hs. now rewrite E in Hs. }
    assert (Hds : ds1 = ds ++ conflicts ls data [(k0, v0)]).
    { pose proof (merge_item_diags ls data ds k0 v0) as Hd. now rewrite E in Hd. }
    destruct (IH ls1 data1 ds1 Hnd') as (I1 & I2 & I3).
    split; [|split].
    + intros k Hk. cbn [keys map fst] in Hk.
      destruct (I1 k) as [A1 A2]; [intros H; apply Hk; now right|].
      destruct (Hother k) as [B1 B2]; [intros ->; apply Hk; now left|].
      split; congruence.
    + intros k v Hl. cbn [lookup] in Hl.
      destruct (String.eqb k k0) eqn:Ek.
      * apply String.eqb_eq in Ek. subst k0. inversion Hl; subst v0.
        destruct (I1 k Hni) as [A1 A2]. destruct Hsame as [B1 B2].
        split; congruence.
      * apply String.eqb_neq in Ek.
        destruct (I2 k v Hl) as [A1 A2]. destruct (Hother k Ek) as [B1 B2].
        rewrite B1, B2 in *. auto.
    + rewrite I3, Hds. rewrite <- app_assoc. f_equal.
      cbn [conflicts flat_map fst snd]. rewrite app_nil_r. f_equal.
      apply conflicts_ext. intros k Hin. apply Hother. intros ->. contradiction.
Qed.

Lemma lookup_none_not_in {A : Type} k (d : list (string * A)) :
  lookup k d = None -> ~ In k (keys d).
Proof.
  intros H Hin. apply has_key_in in Hin. unfold has_key in Hin.
  now rewrite H in Hin.
Qed.

Lemma lookup_some_in {A : Type} k (d : list (string * A)) v :
  lookup k d = Some v -> In (k, v) d.
Proof.
  induction d as [|[k0 v0] d IH]; simpl; try discriminate.
  destruct (String.eqb k k0) eqn:E; auto.
  apply String.eqb_eq in E. intros H. inversion H. subst. auto.
Qed.

(** C3.  [merge_base(data, base)], the merge of a scope [base] into the
    buffer [data] below it, settles every key as follows and always returns:
    a key that [data] lacks is copied from [base] (the reference itself when
    it is a list: the list is then shared); a key under which [data] holds a
    list keeps that list, extended where it is with the values of [base]
    (the concatenation of the two lists); a key under which [data] holds a
    string keeps that string, and exactly when [base] offers a different
    value a conflict warning is recorded; keys that [base] does not have
    stay as they were. *)
Theorem merge_base_settles_every_key (ls : list_store) (data base : buffer) :
  NoDup (keys base) ->
  (forall k v, lookup k base = Some v -> lookup k data = None ->
     lookup k (m_data (merge_base ls data base)) = Some v
     /\ objects (m_lists (merge_base ls data base)) k = objects ls k)
  /\ (forall k v n, lookup k base = Some v -> lookup k data = Some (SRef n) ->
        lookup k (m_data (merge_base ls data base)) = Some (SRef n)
        /\ objects (m_lists (merge_base ls data base)) k
           = set_nth n (object ls k n ++ items_of (slot_value ls k v))
                     (objects ls k))
  /\ (forall k n n', lookup k base = Some (SRef n') ->
        lookup k data = Some (SRef n) ->
        n < List.length (objects ls k) ->
        lookup k (deref (m_lists (merge_base ls data base))
                        (m_data (merge_base ls data base)))
        = Some (FList (object ls k n ++ object ls k n')))
  /\ (forall k v s, lookup k base = Some v -> lookup k data = Some (SStr s) ->
        lookup k (m_data (merge_base ls data base)) = Some (SStr s)
        /\ objects (m_lists (merge_base ls data base)) k = objects ls k
        /\ (v <> SStr s ->
            In (Conflict k (FStr s) (slot_value ls k v))
               (m_diags (merge_base ls data base))))
  /\ (forall k, lookup k base = None ->
        lookup k (m_data (merge_base ls data base)) = lookup k data
        /\ objects (m_lists (merge_base ls data base)) k = objects ls k)
  /\ m_diags (merge_base ls data base) = conflicts ls data base.
Proof.
  intros Hnd. unfold merge_base.
  destruct (merge_fold base ls data [] Hnd) as (H1 & H2 & H3).
  cbn zeta in *.
  split; [|split; [|split; [|split; [|split]]]].
  - intros k v Hb Hd. destruct (H2 k v Hb) as [A B].
    rewrite Hd in A, B. auto.
  - intros k v n Hb Hd. destruct (H2 k v Hb) as [A B].
    rewrite Hd in A, B. cbn [settled_slot settled_objects] in A, B.
    rewrite items_of_slot_value. auto.
  - intros k n n' Hb Hd Hlt. destruct (H2 k _ Hb) as [A B].
    rewrite Hd in A, B. cbn [settled_slot settled_objects slot_items] in A, B.
    set (m := fold_left merge_item base (ls, data, [])) in *.
    assert (G : forall d, lookup k d = Some (SRef n) ->
              lookup k (deref (m_lists m) d)
              = Some (FList (object (m_lists m) k n))).
    { clear. induction d as [|[k0 v0] d IH]; cbn [lookup deref map fst snd];
        try discriminate.
      destruct (String.eqb k k0) eqn:E.
      - apply String.eqb_eq in E. subst k0. intros H; inversion H; subst.
        reflexivity.
      - exact IH. }
    rewrite (G _ A). unfold object at 1. rewrite B, nth_set_nth.
    rewrite Nat.eqb_refl. apply Nat.ltb_lt in Hlt. rewrite Hlt.
    reflexivity.
  - intros k v s Hb Hd. destruct (H2 k v Hb) as [A B].
    rewrite Hd in A, B. cbn [settled_slot settled_objects] in A, B.
    split; [exact A|]. split; [exact B|].
    intros Hne. rewrite H3. cbn [app]. unfold conflicts. apply in_flat_map.
    exists (k, v). split; [now apply lookup_some_in|].
    cbn [fst snd]. rewrite Hd.
    destruct (slot_eqb_str s v) eqn:E; [|now left].
    destruct v as [s'|n']; cbn in E; try discriminate.
    apply String.eqb_eq in E. subst. contradiction.
  - intros k Hb. apply H1. now apply lookup_none_not_in.
  - exact H3.
Qed.

Lemma merge_base_settles_every_key_witness :
  let ls := [("glosses", [[VStr "a tree"]; [VStr "wood"]])] in
  let data := [("glosses", SRef 0); ("pos", SStr "noun")] in
  let base := [("word", SStr "oak"); ("glosses", SRef 1);
               ("pos", SStr "verb")] in
  lookup "word" (m_data (merge_base ls data base)) = Some (SStr "oak")
  /\ lookup "glosses" (deref (m_lists (merge_base ls data base))
                             (m_data (merge_base ls data base)))
       = Some (FList [VStr "a tree"; VStr "wood"])
  /\ lookup "pos" (m_data (merge_base ls data base)) = Some (SStr "noun")
  /\ In (Conflict "pos" (FStr "noun") (FStr "verb"))
        (m_diags (merge_base ls data base)).
Proof.
  intros ls data base.
  assert (Hnd : NoDup (keys base)).
  { unfold keys, base. simpl.
    repeat constructor; simpl; intuition discriminate. }
  destruct (merge_base_settles_every_key ls data base Hnd)
    as (H1 & _ & H3 & H4 & _).
  split; [exact (proj1 (H1 "word" (SStr "oak") eq_refl eq_refl))|].
  split; [apply (H3 "glosses" 0 1 eq_refl eq_refl); simpl; lia|].
  assert (Hne : SStr "verb" <> SStr "noun") by discriminate.
  destruct (H4 "pos" (SStr "verb") "noun" eq_refl eq_refl) as (A & _ & B).
  split; [exact A | exact (B Hne)].
Defined.

(** A list that [data] took over from [base] is one list for both: what
    is appended through one is seen through the other. *)
Example merge_base_shares_the_list :
  let ls := [("tags", [[VStr "plural"]])] in
  let base := [("tags", SRef 0)] in
  let m1 := merge_base ls [] base in
  let m2 := merge_base (m_lists m1) [] base in
  let b := data_append_ref (m_lists m2, m_data m1) "tags" (VStr "rare") in
  deref (fst b) (m_data m1) = [("tags", FList [VStr "plural"; VStr "rare"])]
  /\ deref (fst b) (m_data m2) = [("tags", FList [VStr "plural"; VStr "rare"])].
Proof. split; reflexivity. Qed.


(** ** The colour panel of parse_sense

    [{{color panel|...}}]: every positional argument is stored under
    ["color"], a hexadecimal RGB value after being rewritten. *)

(** [[0-9A-Fa-f]] *)
Definition is_hex (c : ascii) : bool :=
  let n := nat_of_ascii c in
  (Nat.leb 48 n && Nat.leb n 57) || (Nat.leb 65 n && Nat.leb n 70)
  || (Nat.leb 97 n && Nat.leb n 102).

Definition newline : string := String (ascii_of_nat 10) EmptyString.

(** [n] hexadecimal digits at the start of [s]; what follows them. *)
Fixpoint hex_run (n : nat) (s : string) : option string :=
  match n with
  | 0 => Some s
  | S n' =>
      match s with
      | String c s' => if is_hex c then hex_run n' s' else None
      | EmptyString => None
      end
  end.

(** [re.match(r"^[0-9A-Fa-f]{n}$", v)]: [$] matches at the end of the string
    and before a newline that ends it. *)
Definition match_hex (n : nat) (v : string) : bool :=
  match hex_run n v with
  | Some rest => String.eqb rest "" || String.eqb rest newline
  | None => false
  end.

(** [v[i]] as a one-character string (empty when out of range). *)
Definition char_at (i : nat) (v : string) : string := substring i 1 v.

(** The rewriting of one argument of the colour panel. *)
Definition color_panel_value (v : string) : string :=
  if match_hex 6 v then "#" +++ v
  else if match_hex 3 v then
    "#" +++ char_at 0 v +++ char_at 0 v +++ char_at 1 v +++ char_at 1 v
        +++ char_at 2 v +++ char_at 2 v
  else v.

(** [for v in vec: ...; data_append(config, data, "color", v)] *)
Definition color_panel (vec : list string) (data : record) : record :=
  fold_left (fun d v => data_append d "color" (VStr (color_panel_value v)))
            vec data.

Definition hex3 (a b c : ascii) : string :=
  String a (String b (String c EmptyString)).

Definition hex6 (a b c : ascii) : string :=
  String a (String a (String b (String b (String c (String c EmptyString))))).

Lemma match_hex_hash n s : match_hex (S n) ("#" +++ s) = false.
Proof. reflexivity. Qed.

Lemma color_panel_value_hex6 a b c :
  is_hex a = true -> is_hex b = true -> is_hex c = true ->
  color_panel_value (hex6 a b c) = "#" +++ hex6 a b c.
Proof.
  intros Ha Hb Hc. unfold color_panel_value, match_hex, hex6.
  cbn [hex_run]. now rewrite Ha, Hb, Hc.
Qed.

Lemma color_panel_value_hex3 a b c :
  is_hex a = true -> is_hex b = true -> is_hex c = true ->
  color_panel_value (hex3 a b c) = "#" +++ hex6 a b c.
Proof.
  intros Ha Hb Hc. unfold color_panel_value, match_hex, hex3.
  cbn [hex_run]. now rewrite Ha, Hb, Hc.
Qed.

Lemma color_panel_value_idem v :
  color_panel_value (color_panel_value v) = color_panel_value v.
Proof.
  unfold color_panel_value at 2 3.
  destruct (match_hex 6 v) eqn:E6.
  - unfold color_panel_value. now rewrite !match_hex_hash.
  - destruct (match_hex 3 v) eqn:E3.
    + unfold color_panel_value. now rewrite !match_hex_hash.
    + unfold color_panel_value. now rewrite E6, E3.
Qed.

(** C8, as the code has it.  A three-digit hexadecimal colour and its
    doubled six-digit form are stored as the same ["#rrggbb"] string, and
    rewriting a value twice gives what rewriting it once gives; the digits
    are stored in the letter case in which they were written. *)
Theorem color_panel_value_collapses_and_is_idempotent (a b c : ascii) :
  is_hex a = true -> is_hex b = true -> is_hex c = true ->
  color_panel_value (hex3 a b c) = color_panel_value (hex6 a b c)
  /\ color_panel_value (hex3 a b c) = "#" +++ hex6 a b c
  /\ (forall v, color_panel_value (color_panel_value v) = color_panel_value v)
  /\ (forall data,
        lookup "color" (color_panel [hex3 a b c] data) =
        lookup "color" (color_panel [hex6 a b c] data)).
Proof.
  intros Ha Hb Hc.
  pose proof (color_panel_value_hex3 a b c Ha Hb Hc) as H3.
  pose proof (color_panel_value_hex6 a b c Ha Hb Hc) as H6.
  repeat split.
  - now rewrite H3, H6.
  - exact H3.
  - exact color_panel_value_idem.
  - intros data. unfold color_panel. cbn [fold_left]. now rewrite H3, H6.
Qed.

Lemma color_panel_value_collapses_and_is_idempotent_witness :
  color_panel_value "f0a" = color_panel_value "ff00aa"
  /\ color_panel_value "f0a" = "#ff00aa".
Proof.
  destruct (@color_panel_value_collapses_and_is_idempotent
              "f"%char "0"%char "a"%char eq_refl eq_refl eq_refl)
    as (H1 & H2 & _).
  split; [exact H1 | exact H2].
Defined.

(** C8, the part the code does not do: no letter case is changed, so two
    spellings of one colour that differ in case are stored as different
    values. *)
Lemma color_panel_value_keeps_letter_case :
  color_panel_value "ABC" = "#AABBCC"
  /\ color_panel_value "abc" = "#aabbcc"
  /\ color_panel_value "aBc" = "#aaBBcc"
  /\ color_panel_value "ABC" <> color_panel_value "abc"
  /\ lookup "color" (color_panel ["ABC"] []) <> lookup "color" (color_panel ["abc"] []).
Proof.
  repeat split; try reflexivity; discriminate.
Qed.

(** ** Templates and their arguments

    What [wikitextparser] hands over for a piece of text: the template
    invocations in document order, each with its name and its arguments
    (a positional argument is named by its number), and the link targets. *)

Record template : Type := {
  t_name : string;
  t_arguments : list (string * string)
}.

Record parsed : Type := {
  templates : list template;
  wikilinks : list string
}.

(** The white space of [str.strip()], [str.split()] and of [\s] in a
    pattern: the characters for which [str.isspace()] holds.  In UTF-8 they
    are one byte (U+0009 to U+000D, U+001C to U+0020), two bytes (U+0085,
    U+00A0) or three bytes (U+1680, U+2000 to U+200A, U+2028, U+2029,
    U+202F, U+205F, U+3000). *)
Definition is_space (c : ascii) : bool :=
  let n := nat_of_ascii c in
  (Nat.leb 9 n && Nat.leb n 13) || (Nat.leb 28 n && Nat.leb n 32).

Definition is_space2 (a b : ascii) : bool :=
  Nat.eqb (nat_of_ascii a) 194
  && (Nat.eqb (nat_of_ascii b) 133 || Nat.eqb (nat_of_ascii b) 160).

Definition is_space3 (a b c : ascii) : bool :=
  let x := nat_of_ascii a in
  let y := nat_of_ascii b in
  let z := nat_of_ascii c in
  (Nat.eqb x 225 && Nat.eqb y 154 && Nat.eqb z 128)
  || (Nat.eqb x 226 && Nat.eqb y 128
      && ((Nat.leb 128 z && Nat.leb z 138)
          || Nat.eqb z 168 || Nat.eqb z 169 || Nat.eqb z 175))
  || (Nat.eqb x 226 && Nat.eqb y 129 && Nat.eqb z 159)
  || (Nat.eqb x 227 && Nat.eqb y 128 && Nat.eqb z 128).

(** [s.lstrip()] *)
Fixpoint lstrip (s : string) : string :=
  match s with
  | EmptyString => EmptyString
  | String a r1 =>
      if is_space a then lstrip r1
      else
        match r1 with
        | String b r2 =>
            if is_space2 a b then lstrip r2
            else
              match r2 with
              | String c r3 => if is_space3 a b c then lstrip r3 else s
              | EmptyString => s
              end
        | EmptyString => s
        end
  end.

(** [s.rstrip()]: nothing is left of a string that is white space only,
    and the first byte stays otherwise. *)
Fixpoint rstrip (s : string) : string :=
  match s with
  | EmptyString => EmptyString
  | String c s' =>
      if String.eqb (lstrip s) "" then EmptyString else String c (rstrip s')
  end.

(** [s.strip()] *)
Definition strip (s : string) : string := rstrip (lstrip s).

(** An ideographic space (U+3000) and a no-break space (U+00A0) are
    stripped like a blank. *)
Example strip_examples :
  let ideographic := String (ascii_of_nat 227) (String (ascii_of_nat 128)
                       (String (ascii_of_nat 128) "")) in
  let no_break := String (ascii_of_nat 194) (String (ascii_of_nat 160) "") in
  strip (" head" +++ ideographic) = "head"
  /\ strip (no_break +++ "a b" +++ no_break +++ " ") = "a b"
  /\ strip (ideographic +++ " ") = ""
  /\ strip (String (ascii_of_nat 227) (String (ascii_of_nat 128)
              (String (ascii_of_nat 129) "")))
     = String (ascii_of_nat 227) (String (ascii_of_nat 128)
         (String (ascii_of_nat 129) "")).
Proof. repeat split; reflexivity. Qed.

(** [str(i)] *)
Definition str_of_nat (n : nat) : string :=
  match n with
  | 0 => "0" | 1 => "1" | 2 => "2" | 3 => "3" | 4 => "4" | 5 => "5"
  | 6 => "6" | 7 => "7" | 8 => "8" | 9 => "9" | 10 => "10" | 11 => "11"
  | 12 => "12" | 13 => "13" | 14 => "14" | 15 => "15" | 16 => "16"
  | 17 => "17" | 18 => "18" | _ => "19"
  end.

(** [t.get_arg(name)] of [wikitextparser]: the last argument of that name. *)
Definition get_arg (t : template) (name : string) : option string :=
  lookup name (rev (map (fun a => (strip (fst a), snd a)) (t_arguments t))).

(** [while vec and not vec[-1]: vec.pop()] *)
Fixpoint pop_empty (vec : list string) : list string :=
  match vec with
  | [] => []
  | v :: vec' =>
      match pop_empty vec' with
      | [] => if String.eqb v "" then [] else [v]
      | r => v :: r
      end
  end.

(** The run's settings and the page being parsed ([WiktionaryConfig]). *)
Record config : Type := {
  capture_translations : bool;
  capture_pronunciation : bool;
  capture_compounds : bool;
  word : string
}.

Section Templates.
(** [clean_value] of [wiktextract.clean], which turns wiki markup into
    plain text, is outside this file. *)
Variable clean_value : string -> string.

(** [t_arg(config, t, arg)] *)
Definition t_arg (t : template) (arg : string) : string :=
  match get_arg t arg with
  | None => ""
  | Some v => clean_value v
  end.

(** [t_vec(config, t)]: the positional arguments 1..19, the empty ones at
    the end dropped. *)
Definition t_vec (t : template) : list string :=
  pop_empty (map (fun i => t_arg t (str_of_nat i)) (seq 1 19)).

(** [t_dict(config, t)] *)
Definition t_dict (t : template) : list (string * value) :=
  set_key "template_name" (VStr (strip (t_name t)))
    (fold_left (fun ht x => set_key (strip (fst x)) (VStr (clean_value (snd x))) ht)
               (t_arguments t) []).

(** *** parse_any *)

Definition is_lower (c : ascii) : bool :=
  let n := nat_of_ascii c in Nat.leb 97 n && Nat.leb n 122.

(** [^[a-z][a-z][a-z]?] followed by the character [sep]: what comes after
    the separator. *)
Definition after_lang_prefix (sep : ascii) (s : string) : option string :=
  match s with
  | String a (String b rest) =>
      if is_lower a && is_lower b then
        match rest with
        | String c rest' =>
            if Ascii.eqb c sep then Some rest'
            else if is_lower c then
              match rest' with
              | String d rest'' => if Ascii.eqb d sep then Some rest'' else None
              | EmptyString => None
              end
            else None
        | EmptyString => None
        end
      else None
  | _ => None
  end.

(** The word [w] followed by [($|-)] at the start of [s]. *)
Definition word_then_end_or_dash (s w : string) : bool :=
  startswith s w &&
  (let r := drop_chars (String.length w) s in
   String.eqb r "" || String.eqb r newline || startswith r "-").

(** [re.match(r"^[a-z][a-z][a-z]?-(conj|decl|infl|conjugation|declension|inflection)($|-)", name)] *)
Definition is_conjugation_template (name : string) : bool :=
  match after_lang_prefix "-" name with
  | Some rest =>
      existsb (word_then_end_or_dash rest)
        ["conj"; "decl"; "infl"; "conjugation"; "declension"; "inflection"]
  | None => false
  end.

(** The text up to the first newline: what [.*] matches. *)
Fixpoint take_line (s : string) : string :=
  match s with
  | String c s' =>
      if Nat.eqb (nat_of_ascii c) 10 then EmptyString else String c (take_line s')
  | EmptyString => EmptyString
  end.

Definition ends_line (s : string) : bool :=
  let l := take_line s in
  let r := drop_chars (String.length l) s in
  String.eqb r "" || String.eqb r newline.

(** The [re.match] of the section link: one or more characters other than
    a slash (group 2), then [/translations] (group 1 ends here), then
    optionally [#] and the rest of the line (group 4), then the end. *)
Definition match_section_link (target : string)
  : option (string * string * option string) :=
  match find target "/" with
  | Some (S i) =>
      let tword := substring 0 (S i) target in
      let rest := drop_chars (S i) target in
      if startswith rest "/translations" then
        let after := drop_chars 13 rest in
        let tpage := tword +++ "/translations" in
        if String.eqb after "" || String.eqb after newline
        then Some (tpage, tword, None)
        else match after with
             | String c body =>
                 if Ascii.eqb c "#" && ends_line body
                 then Some (tpage, tword, Some (take_line body))
                 else None
             | EmptyString => None
             end
      else None
  | _ => None
  end.

(** The state of the loop over the templates: the fields collected, the
    sense that [trans-top] opened, the loop variable [brk] of the [alter]
    branch (unbound until that branch has run over a non-empty vector),
    and the diagnostics. *)
Record any_state : Type := {
  a_data : record;
  translation_sense : option string;
  a_brk : option nat;
  a_diags : list diag
}.

(** [for brk in range(0, len(vec)): if vec[brk] == "": break] *)
Fixpoint scan_brk (vec : list string) (i : nat) (brk : option nat)
  : option nat :=
  match vec with
  | [] => brk
  | v :: vec' => if String.eqb v "" then Some i else scan_brk vec' (S i) (Some i)
  end.

Definition opt_entry (k : string) (v : string) : list (string * value) :=
  if String.eqb v "" then [] else [(k, VStr v)].

(** The entry a [{{t|...}}] or [{{t+|...}}] template is stored as. *)
Definition translation_entry (sense : option string) (t : template)
  : value :=
  let vec := t_vec t in
  VDict ([("lang", VStr (nth 0 vec "")); ("word", VStr (nth 1 vec ""))]
         ++ match sense with
            | Some s => opt_entry "sense" s
            | None => []
            end
         ++ match skipn 2 vec with
            | [] => []
            | markers => [("tags", VList (map VStr markers))]
            end
         ++ opt_entry "alt" (t_arg t "alt")
         ++ opt_entry "roman" (t_arg t "tr")
         ++ opt_entry "script" (t_arg t "sc")).

Definition alter_entry (vec : list string) (brk i : nat) : value :=
  VDict (("word", VStr (nth i vec ""))
         :: (if Nat.ltb (brk + 1 + i) (List.length vec)
             then opt_entry "dialect" (nth (brk + 1 + i) vec "")
             else [])).

(** One turn of [for t in p.templates] of [parse_any]; [None] when the
    turn raises: the [alter] branch over an empty vector reads [brk] before
    any value was bound to it, or indexes the vector with a [brk] left by
    an earlier template. *)
Definition parse_any_template (cfg : config) (sectitle : string)
           (st : any_state) (t : template) : option any_state :=
  let name := strip (t_name t) in
  let data := a_data st in
  if String.eqb name "alter" then
    let vec := t_vec t in
    match scan_brk vec 0 (a_brk st) with
    | None => None
    | Some brk =>
        if Nat.ltb (List.length vec) brk then None else
        Some {| a_data :=
                  fold_left (fun d i => data_append d "alternative" (alter_entry vec brk i))
                            (seq 0 brk) data;
                translation_sense := translation_sense st;
                a_brk := Some brk;
                a_diags := a_diags st |}
    end
  else if String.eqb name "section link" then
    match match_section_link (t_arg t "1") with
    | Some (tpage, tword, tsect) =>
        Some {| a_data :=
                  data_append data "translation_link"
                    (VTuple [VStr tpage;
                             match tsect with Some s => VStr s | None => VNone end]);
                translation_sense := translation_sense st;
                a_brk := a_brk st;
                a_diags :=
                  if String.eqb tword (word cfg) then a_diags st
                  else a_diags st ++ [UnknownValue name "TRANSLATIONS LINK"] |}
    | None => Some st
    end
  else if String.eqb name "trans-top" then
    Some {| a_data := data;
            translation_sense := Some (t_arg t "1");
            a_brk := a_brk st;
            a_diags := a_diags st |}
  else if String.eqb name "trans-bottom" then
    Some {| a_data := data;
            translation_sense := None;
            a_brk := a_brk st;
            a_diags := a_diags st |}
  else if in_names name ["t"; "t+"] then
    if capture_translations cfg then
      if Nat.ltb (List.length (t_vec t)) 2 then Some st
      else
        Some {| a_data :=
                  data_append data "translations"
                    (translation_entry (translation_sense st) t);
                translation_sense := translation_sense st;
                a_brk := a_brk st;
                a_diags := a_diags st |}
    else Some st
  else if is_conjugation_template name then
    Some {| a_data := data_append data "conjugation" (VDict (t_dict t));
            translation_sense := translation_sense st;
            a_brk := a_brk st;
            a_diags := a_diags st |}
  else if String.eqb name "enum" then
    Some {| a_data :=
              data_append data "enum"
                (VDict [("lang", VStr (t_arg t "1"));
                        ("prev", VStr (t_arg t "2"));
                        ("next", VStr (t_arg t "3"));
                        ("value", VStr (t_arg t "4"))]);
            translation_sense := translation_sense st;
            a_brk := a_brk st;
            a_diags := a_diags st |}
  else if String.eqb name "IPA" && negb (String.eqb sectitle "pronunciation") then
    Some {| a_data := data;
            translation_sense := translation_sense st;
            a_brk := a_brk st;
            a_diags := a_diags st
              ++ [ErrorMsg ("IPA outside pronunciation in section " +++ sectitle)] |}
  else Some st.

Fixpoint parse_any_templates (cfg : config) (sectitle : string)
         (ts : list template) (st : any_state) : option any_state :=
  match ts with
  | [] => Some st
  | t :: ts' =>
      match parse_any_template cfg sectitle st t with
      | Some st' => parse_any_templates cfg sectitle ts' st'
      | None => None
      end
  end.

(** One turn of [for t in p.wikilinks]. *)
Definition parse_any_wikilink (data : record) (link : string) : record :=
  let target := strip link in
  if startswith target "Category:" then
    let target := drop_chars 9 target in
    let target :=
      match after_lang_prefix ":" target with
      | Some rest => take_line rest
      | None => target
      end in
    data_append data "topics" (VDict [("word", VStr target)])
  else data.

(** [parse_any(config, data, text, sectitle, p)]: the fields of [data]
    afterwards and the diagnostics, or [None] when it raises. *)
Definition parse_any (cfg : config) (data : record) (sectitle : string)
           (p : parsed) : option (record * list diag) :=
  match parse_any_templates cfg sectitle (templates p)
          {| a_data := data; translation_sense := None;
             a_brk := None; a_diags := [] |} with
  | Some st => Some (fold_left parse_any_wikilink (wikilinks p) (a_data st),
                     a_diags st)
  | None => None
  end.

End Templates.

(** *** The sense of a group of translations (parse_any) *)

Section TranslationSense.
Variable clean_value : string -> string.
Variable cfg : config.
Variable sectitle : string.

Let step := parse_any_template clean_value cfg sectitle.
Let run := parse_any_templates clean_value cfg sectitle.

Definition is_marker (t : template) : bool :=
  in_names (strip (t_name t)) ["trans-top"; "trans-bottom"].

(** An [alter] template with at least one positional argument. *)
Definition alter_ok (t : template) : Prop :=
  strip (t_name t) = "alter" -> t_vec clean_value t <> [].

Lemma scan_brk_nonempty vec : forall i brk,
  vec <> [] ->
  exists b, scan_brk vec i brk = Some b /\ b < i + List.length vec.
Proof.
  induction vec as [|v vec IH]; intros i brk Hne; [contradiction|].
  cbn [scan_brk List.length]. destruct (String.eqb v "").
  - exists i. split; [reflexivity | lia].
  - destruct vec as [|v' vec'].
    + exists i. split; [reflexivity | simpl; lia].
    + destruct (IH (S i) (Some i)) as (b & Hb & Hlt); [discriminate|].
      exists b. split; [exact Hb | simpl in *; lia].
Qed.

Lemma step_returns st t : alter_ok t -> exists st', step st t = Some st'.
Proof.
  intros Hok. unfold step, parse_any_template.
  destruct (String.eqb (strip (t_name t)) "alter") eqn:Ea.
  - apply String.eqb_eq in Ea. specialize (Hok Ea).
    destruct (scan_brk_nonempty (t_vec clean_value t) 0 (a_brk st) Hok) as (b & Hb & Hlt).
    rewrite Hb. simpl in Hlt.
    assert (Hn : Nat.ltb (List.length (t_vec clean_value t)) b = false)
      by (apply Nat.ltb_ge; lia).
    rewrite Hn. eauto.
  - repeat match goal with
           | |- context [if ?c then _ else _] => destruct c
           | |- context [match ?c with Some _ => _ | None => _ end] => destruct c
           | |- context [let '(_, _) := ?c in _] => destruct c
           end; eauto.
Qed.

Lemma step_keeps_sense st t st' :
  step st t = Some st' -> is_marker t = false ->
  translation_sense st' = translation_sense st.
Proof.
  unfold step, parse_any_template, is_marker, in_names. cbn [existsb].
  intros H Hm.
  destruct (String.eqb (strip (t_name t)) "trans-top") eqn:E1;
    [discriminate|].
  destruct (String.eqb (strip (t_name t)) "trans-bottom") eqn:E2;
    [discriminate|].
  repeat match type of H with
         | context [if ?c then _ else _] => destruct c
         | context [match ?c with Some _ => _ | None => _ end] => destruct c
         | context [let '(_, _) := ?c in _] => destruct c
         end;
    inversion H; subst; reflexivity.
Qed.

Lemma run_app ts1 : forall ts2 st,
  run (ts1 ++ ts2) st =
  match run ts1 st with Some st' => run ts2 st' | None => None end.
Proof.
  unfold run.
  induction ts1 as [|t ts1 IH]; intros ts2 st; cbn [app parse_any_templates];
    auto.
  destruct (parse_any_template clean_value cfg sectitle st t); auto.
Qed.

Lemma run_returns ts : forall st,
  Forall alter_ok ts -> exists st', run ts st = Some st'.
Proof.
  unfold run.
  induction ts as [|t ts IH]; intros st Hok; cbn [parse_any_templates];
    eauto.
  inversion Hok; subst.
  destruct (@step_returns st t H1) as (st1 & H1'). unfold step in H1'.
  rewrite H1'. auto.
Qed.

Lemma run_keeps_sense ts : forall st st',
  run ts st = Some st' -> Forall (fun t => is_marker t = false) ts ->
  translation_sense st' = translation_sense st.
Proof.
  unfold run.
  induction ts as [|t ts IH]; intros st st' H Hm;
    cbn [parse_any_templates] in H.
  - now inversion H.
  - inversion Hm; subst.
    destruct (parse_any_template clean_value cfg sectitle st t) as [st1|] eqn:E;
      [|discriminate].
    rewrite (IH _ _ H H3). now apply (@step_keeps_sense st t st1).
Qed.

(** The [sense] an entry carries when the active marker is [m]. *)
Definition entry_sense (m : option string) : option value :=
  match m with
  | Some s => if String.eqb s "" then None else Some (VStr s)
  | None => None
  end.

Lemma lookup_opt_entry k k' v :
  k <> k' -> lookup k (opt_entry k' v) = None.
Proof.
  intros Hne. unfold opt_entry. destruct (String.eqb v ""); simpl; auto.
  destruct (String.eqb k k') eqn:E; auto.
  apply String.eqb_eq in E. contradiction.
Qed.

Lemma translation_entry_sense m t :
  exists tr, translation_entry clean_value m t = VDict tr
             /\ lookup "sense" tr = entry_sense m.
Proof.
  unfold translation_entry. eexists. split; [reflexivity|].
  rewrite !lookup_app.
  rewrite !lookup_opt_entry by discriminate.
  destruct (skipn 2 (t_vec clean_value t)) as [|mk mks]; cbn [lookup];
    rewrite ?String.eqb_refl;
  change (lookup "sense" [("lang", VStr (nth 0 (t_vec clean_value t) ""));
                          ("word", VStr (nth 1 (t_vec clean_value t) ""))])
    with (@None value);
  (destruct m as [s|]; cbn [entry_sense]; auto;
   unfold opt_entry; destruct (String.eqb s ""); reflexivity).
Qed.

Lemma step_entry st t :
  capture_translations cfg = true ->
  in_names (strip (t_name t)) ["t"; "t+"] = true ->
  2 <= List.length (t_vec clean_value t) ->
  step st t =
    Some {| a_data := data_append (a_data st) "translations"
                        (translation_entry clean_value (translation_sense st) t);
            translation_sense := translation_sense st;
            a_brk := a_brk st;
            a_diags := a_diags st |}.
Proof.
  intros Hc Hn Hl. unfold step, parse_any_template.
  assert (Hne : forall x, in_names x ["t"; "t+"] = true ->
                String.eqb x "alter" = false /\ String.eqb x "section link" = false
                /\ String.eqb x "trans-top" = false
                /\ String.eqb x "trans-bottom" = false).
  { intros x Hx. unfold in_names in Hx. cbn [existsb] in Hx.
    rewrite !orb_true_iff in Hx.
    destruct Hx as [Hx|[Hx|Hx]]; try discriminate;
      apply String.eqb_eq in Hx; subst x; repeat split; reflexivity. }
  destruct (Hne _ Hn) as (E1 & E2 & E3 & E4).
  rewrite E1, E2, E3, E4, Hn, Hc.
  assert (Hlt : Nat.ltb (List.length (t_vec clean_value t)) 2 = false)
    by (apply Nat.ltb_ge; lia).
  now rewrite Hlt.
Qed.

(** C6.  In the templates of a section, taken in document order: an entry
    ([{{t|...}}] or [{{t+|...}}] with a language and a word, translations
    being captured) that follows [{{trans-top|S}}] with no other top or
    bottom marker in between is stored with [sense = S]; an entry that
    follows [{{trans-bottom}}], or that no marker precedes, is stored
    without a [sense].  A top marker whose argument is empty gives no
    sense either. *)
Theorem translation_sense_follows_markers
        (pre mid : list template) (marker entry : template) (st0 : any_state) :
  capture_translations cfg = true ->
  Forall alter_ok (pre ++ marker :: mid) ->
  Forall (fun t => is_marker t = false) mid ->
  is_marker marker = true ->
  in_names (strip (t_name entry)) ["t"; "t+"] = true ->
  2 <= List.length (t_vec clean_value entry) ->
  (exists st2 tr,
     run (pre ++ marker :: mid) st0 = Some st2
     /\ step st2 entry =
          Some {| a_data := data_append (a_data st2) "translations" (VDict tr);
                  translation_sense := translation_sense st2;
                  a_brk := a_brk st2;
                  a_diags := a_diags st2 |}
     /\ lookup "sense" tr =
          if String.eqb (strip (t_name marker)) "trans-top"
          then entry_sense (Some (t_arg clean_value marker "1"))
          else None)
  /\ (exists st2 tr,
     run mid {| a_data := a_data st0; translation_sense := None;
                a_brk := a_brk st0; a_diags := a_diags st0 |} = Some st2
     /\ step st2 entry =
          Some {| a_data := data_append (a_data st2) "translations" (VDict tr);
                  translation_sense := None;
                  a_brk := a_brk st2;
                  a_diags := a_diags st2 |}
     /\ lookup "sense" tr = None).
Proof.
  intros Hc Hok Hmid Hmk Hn Hl.
  apply Forall_app in Hok. destruct Hok as [Hpre Hrest].
  inversion Hrest as [|? ? Hmok Hmidok]; subst.
  split.
  - destruct (@run_returns pre st0 Hpre) as (st1 & H1).
    assert (Hstep : exists st1',
              step st1 marker = Some st1'
              /\ translation_sense st1' =
                 if String.eqb (strip (t_name marker)) "trans-top"
                 then Some (t_arg clean_value marker "1") else None).
    { unfold is_marker, in_names in Hmk. cbn [existsb] in Hmk.
      rewrite !orb_true_iff in Hmk.
      unfold step, parse_any_template.
      destruct Hmk as [Hx|[Hx|Hx]]; try discriminate;
        apply String.eqb_eq in Hx; rewrite Hx; cbn;
        eexists; split; reflexivity. }
    destruct Hstep as (st1' & Hs & Hsense).
    destruct (@run_returns mid st1' Hmidok) as (st2 & H2).
    pose proof (@run_keeps_sense mid _ _ H2 Hmid) as Hkeep.
    destruct (translation_entry_sense (translation_sense st2) entry)
      as (tr & Htr & Hlk).
    exists st2, tr. repeat split.
    + rewrite run_app, H1. unfold run in *. cbn [parse_any_templates].
      unfold step in Hs. now rewrite Hs.
    + rewrite (@step_entry st2 entry Hc Hn Hl). now rewrite Htr.
    + rewrite Hlk, Hkeep, Hsense.
      destruct (String.eqb (strip (t_name marker)) "trans-top"); reflexivity.
  - set (s0 := {| a_data := a_data st0; translation_sense := None;
                  a_brk := a_brk st0; a_diags := a_diags st0 |}).
    destruct (@run_returns mid s0 Hmidok) as (st2 & H2).
    pose proof (@run_keeps_sense mid _ _ H2 Hmid) as Hkeep. simpl in Hkeep.
    destruct (translation_entry_sense (translation_sense st2) entry)
      as (tr & Htr & Hlk).
    exists st2, tr. repeat split.
    + exact H2.
    + rewrite (@step_entry st2 entry Hc Hn Hl). now rewrite Htr, Hkeep.
    + now rewrite Hlk, Hkeep.
Qed.

End TranslationSense.

Definition plain (s : string) : string := s.

Definition cfg_all : config :=
  {| capture_translations := true; capture_pronunciation := true;
     capture_compounds := true; word := "house" |}.

Definition tmpl (name : string) (args : list string) : template :=
  {| t_name := name;
     t_arguments := combine (map str_of_nat (seq 1 (List.length args))) args |}.

Definition any_start (data : record) : any_state :=
  {| a_data := data; translation_sense := None; a_brk := None; a_diags := [] |}.

(** The spec's scenario, run: a top marker, an entry, a bottom marker, an
    entry. *)
Example parse_any_translation_scenario :
  parse_any plain cfg_all [] "translations"
    {| templates := [tmpl "trans-top" ["sense A"]; tmpl "t" ["de"; "Haus"];
                     tmpl "trans-bottom" []; tmpl "t+" ["de"; "Heim"]];
       wikilinks := [] |}
  = Some ([("translations",
            FList [VDict [("lang", VStr "de"); ("word", VStr "Haus");
                          ("sense", VStr "sense A")];
                   VDict [("lang", VStr "de"); ("word", VStr "Heim")]])],
          []).
Proof. reflexivity. Qed.

Lemma translation_sense_follows_markers_witness :
  let top := tmpl "trans-top" ["sense A"] in
  let entry := tmpl "t" ["de"; "Haus"] in
  capture_translations cfg_all = true
  /\ Forall (alter_ok plain) ([] ++ top :: [])
  /\ is_marker top = true
  /\ 2 <= List.length (t_vec plain entry)
  /\ exists st2 tr,
       parse_any_templates plain cfg_all "translations" ([] ++ top :: [])
         (any_start []) = Some st2
       /\ parse_any_template plain cfg_all "translations" st2 entry =
            Some {| a_data := data_append (a_data st2) "translations" (VDict tr);
                    translation_sense := translation_sense st2;
                    a_brk := a_brk st2;
                    a_diags := a_diags st2 |}
       /\ lookup "sense" tr = Some (VStr "sense A").
Proof.
  intros top entry.
  assert (Hc : capture_translations cfg_all = true) by reflexivity.
  assert (Hok : Forall (alter_ok plain) ([] ++ top :: [])).
  { repeat constructor. intros H. vm_compute in H. discriminate H. }
  assert (Hmid : Forall (fun t => is_marker t = false) []) by constructor.
  assert (Hmk : is_marker top = true) by reflexivity.
  assert (Hn : in_names (strip (t_name entry)) ["t"; "t+"] = true) by reflexivity.
  assert (Hl : 2 <= List.length (t_vec plain entry)) by (vm_compute; lia).
  repeat split; try assumption.
  destruct (@translation_sense_follows_markers plain cfg_all "translations"
              [] [] top entry (any_start []) Hc Hok Hmid Hmk Hn Hl)
    as [(st2 & tr & H1 & H2 & H3) _].
  exists st2, tr. repeat split; assumption.
Defined.

(** ** parse_linkage: links to other words *)

(** [len(s)]: the characters of [s], its bytes that do not continue a UTF-8
    sequence. *)
Fixpoint py_len (s : string) : nat :=
  match s with
  | EmptyString => 0
  | String c s' =>
      let n := nat_of_ascii c in
      (if Nat.leb 128 n && Nat.ltb n 192 then 0 else 1) + py_len s'
  end.

Definition lower_char (c : ascii) : ascii :=
  let n := nat_of_ascii c in
  if Nat.leb 65 n && Nat.leb n 90 then ascii_of_nat (n + 32) else c.

(** [s.lower()] for a string of ASCII characters: what the examples take
    for [str.lower()].  The code's [lower] is a parameter wherever it is
    used, since it goes by the case tables of Unicode. *)
Fixpoint lower_ascii (s : string) : string :=
  match s with
  | EmptyString => EmptyString
  | String c s' => String (lower_char c) (lower_ascii s')
  end.

(** [s[:-1]] *)
Definition drop_last (s : string) : string :=
  substring 0 (String.length s - 1) s.

Fixpoint split_go (sep s : string) (skip : nat) (cur : string) : list string :=
  match s with
  | EmptyString => [cur]
  | String c s' =>
      match skip with
      | S k => split_go sep s' k cur
      | 0 =>
          if String.prefix sep s
          then cur :: split_go sep s' (String.length sep - 1) EmptyString
          else split_go sep s' 0 (cur +++ String c EmptyString)
      end
  end.

(** [s.split(sep)] for a separator that is not empty. *)
Definition split (s sep : string) : list string := split_go sep s 0 EmptyString.

(** [sorted(l)] on strings. *)
Fixpoint insert_sorted (x : string) (l : list string) : list string :=
  match l with
  | [] => [x]
  | y :: l' => if String.leb x y then x :: l else y :: insert_sorted x l'
  end.

Definition sorted (l : list string) : list string :=
  fold_right insert_sorted [] l.

(** The identity of a link: [(kind, v, sense_text, tuple(sorted(qualifiers)))]. *)
Definition link_key : Type := (string * string * option string * list string)%type.

Definition link_key_eq_dec (a b : link_key) : {a = b} + {a <> b}.
Proof.
  repeat decide equality; try apply string_dec.
Defined.

Definition key_in (k : link_key) (added : list link_key) : bool :=
  if in_dec link_key_eq_dec k added then true else false.

Section Lower.
(** [str.lower()] of Python, which lower-cases by the case tables of
    Unicode. *)
Variable lower : string -> string.

(** The word of a link, as [add_linkage] rewrites it; [None] when the text
    is one of the forms that [add_linkage] returns on. *)
Definition linkage_word (v : string) : option string :=
  let v := strip v in
  if startswith v "See also" then None
  else if contains v " Thesaurus:" then None
  else if String.eqb (lower v) "see also" then None
  else if startswith v "Category:" then None
  else
    let v := if startswith v ":Category:" then drop_chars 1 v
             else if startswith v "See " then drop_chars 4 v
             else v in
    let v := if endswith v "." then drop_last v else v in
    let v := strip v in
    if in_names v [""; "en"] then None else Some v.

(** The edge stored for a link: [{"word": v}], with ["sense"] and ["tags"]
    when they are not empty. *)
Definition edge_value (w : string) (sense : option string)
           (quals : list string) : value :=
  VDict ([("word", VStr w)]
         ++ match sense with
            | Some s => if String.eqb s "" then [] else [("sense", VStr s)]
            | None => []
            end
         ++ match quals with
            | [] => []
            | _ => [("tags", VList (map VStr quals))]
            end).

(** The variables of one [parse_linkage] call ([data], [added]) and of the
    [parse_item] call in progress ([kind], [sense_text], [qualifiers]). *)
Record link_state : Type := {
  l_data : record;
  l_added : list link_key;
  l_kind : string;
  l_sense : option string;
  l_quals : list string;
  l_diags : list diag
}.

Definition with_data (d : record) (st : link_state) : link_state :=
  {| l_data := d; l_added := l_added st; l_kind := l_kind st;
     l_sense := l_sense st; l_quals := l_quals st; l_diags := l_diags st |}.

Definition with_kind (k : string) (st : link_state) : link_state :=
  {| l_data := l_data st; l_added := l_added st; l_kind := k;
     l_sense := l_sense st; l_quals := l_quals st; l_diags := l_diags st |}.

Definition with_sense (s : option string) (st : link_state) : link_state :=
  {| l_data := l_data st; l_added := l_added st; l_kind := l_kind st;
     l_sense := s; l_quals := l_quals st; l_diags := l_diags st |}.

Definition with_quals (q : list string) (st : link_state) : link_state :=
  {| l_data := l_data st; l_added := l_added st; l_kind := l_kind st;
     l_sense := l_sense st; l_quals := q; l_diags := l_diags st |}.

Definition with_diag (d : diag) (st : link_state) : link_state :=
  {| l_data := l_data st; l_added := l_added st; l_kind := l_kind st;
     l_sense := l_sense st; l_quals := l_quals st;
     l_diags := l_diags st ++ [d] |}.

(** [add_linkage(kind, v)] *)
Definition add_linkage (kind v : string) (st : link_state) : link_state :=
  match linkage_word v with
  | None => st
  | Some w =>
      let key := (kind, w, l_sense st, sorted (l_quals st)) in
      if key_in key (l_added st) then st
      else
        {| l_data := data_append (l_data st) kind
                       (edge_value w (l_sense st) (l_quals st));
           l_added := l_added st ++ [key];
           l_kind := l_kind st;
           l_sense := l_sense st;
           l_quals := [];
           l_diags := l_diags st |}
  end.

(** [for x in xs: add_linkage(kind, x)] *)
Definition add_linkages (kind : string) (xs : list string) (st : link_state)
  : link_state :=
  fold_left (fun s x => add_linkage kind x s) xs st.

(** [data_append(config, data, "topics", {"word": topic})] *)
Definition add_topic (topic : string) (st : link_state) : link_state :=
  with_data (data_append (l_data st) "topics" (VDict [("word", VStr topic)])) st.

(** [name in "compass"], [name in ("zh-ant-saurus")]: a string on the right
    of [in] is searched for the name. *)
Definition is_substring_of (name s : string) : bool := contains s name.

Definition is_letter (c : ascii) : bool :=
  let n := nat_of_ascii c in
  (Nat.leb 65 n && Nat.leb n 90) || (Nat.leb 97 n && Nat.leb n 122).

(** The match of ["^([A-Za-z].*?) Hypernyms$"] on a name: group 1. *)
Definition hypernyms_template (name : string) : option string :=
  if endswith name " Hypernyms" then
    let v := substring 0 (String.length name - 10) name in
    match v with
    | String c _ =>
        if is_letter c && negb (contains v newline) then Some v else None
    | EmptyString => None
    end
  else None.

(** A piece of text with what [wikitextparser.parse] finds in it. *)
Record item : Type := {
  i_text : string;
  i_parsed : parsed
}.

Section Linkage.
Variable clean_value : string -> string.
(** [clean_quals] of [wiktextract.clean] and [ignored_templates] of
    [wikttemplates] are outside this file. *)
Variable clean_quals : list string -> list string.
Variable ignored_templates : list string.
(** The regular expressions over free text, matched by Python's [re]:
    group 1 of each match of two or more apostrophes, characters other
    than an apostrophe, two or more apostrophes; groups 1 and 3 of the
    match of a parenthesised head, an optional colon and space, and the
    rest; and the text with every parenthesised part and the white space
    after it removed. *)
Variable re_italics : string -> list string.
Variable re_paren_head : string -> option (string * string).
Variable re_drop_parens : string -> string.

Variable cfg : config.

Let targ := t_arg clean_value.
Let tvec := t_vec clean_value.

Definition g2_qualifiers (v : string) : option (list string) :=
  if String.eqb v "m" then Some ["masculine"]
  else if String.eqb v "f" then Some ["feminine"]
  else if String.eqb v "n" then Some ["neuter"]
  else if String.eqb v "c" then Some ["common"]
  else if String.eqb v "p" then Some ["plural"]
  else if String.eqb v "m-p" then Some ["masculine"; "plural"]
  else if String.eqb v "f-p" then Some ["feminine"; "plural"]
  else None.

(** The branches that reset the qualifiers, take the sense from [title]
    and add every positional argument under a fixed kind. *)
Definition titled_group (kind : string) (t : template) (st : link_state)
  : link_state :=
  with_sense None
    (add_linkages kind (tvec t)
       (with_sense (Some (targ t "title")) (with_quals [] st))).

Definition string_value (v : value) : string :=
  match v with VStr s => s | _ => "" end.

(** One turn of the second [for t in p.templates] of [parse_item]. *)
Definition parse_item_template (st : link_state) (t : template)
  : link_state :=
  let name := strip (t_name t) in
  let kind := l_kind st in
  if in_names name ["l"; "link"; "l/ja"; "1"] then
    add_linkage kind (targ t "2") st
  else if in_names name ["wikipedia"; "Wikipedia"; "w"; "wp"] then
    add_linkage kind (targ t "1") st
  else if in_names name ["w2"] then
    add_linkage kind (targ t "2") st
  else if in_names name ["ja-r"; "ja-r/args"] then
    add_linkage kind (targ t "1") st
  else if in_names name ["ja-l"; "lang"; "zh-l"; "ko-l"; "vi-l"; "th-l"] then
    add_linkage kind (targ t "1") st
  else if String.eqb name "vern" then st
  else if String.eqb name "taxlink" then st
  else if in_names name ["q"; "qual"; "qualifier"; "qf"; "i";
                         "lb"; "lbl"; "label"; "a"; "accent"] then
    with_quals (l_quals st ++ clean_quals (tl (tvec t))) st
  else if in_names name ["topics"; "categorize"; "catlangname"; "c"; "C";
                         "cln"; "top"; "categorise"; "catlangcode"] then
    fold_left (fun s topic => add_topic topic s) (tl (tvec t)) st
  else if in_names name ["zh-cat"] then
    fold_left (fun s topic => add_topic topic s) (tvec t) st
  else if String.eqb name "g2" then
    match g2_qualifiers (targ t "1") with
    | Some q => with_quals (l_quals st ++ q) st
    | None => with_diag (UnknownValue name (targ t "1")) st
    end
  else if in_names name ["sense"; "gloss"; "s"] then
    with_sense (Some (targ t "1")) st
  else if in_names name ["syn"; "synonyms"] then
    add_linkages "synonyms" (tl (tvec t)) st
  else if in_names name ["syn2"; "syn3"; "syn4"; "syn5"; "syn1";
                         "syn2-u"; "syn3-u"; "syn4-u"; "syn5-u"] then
    titled_group "synonyms" t st
  else if in_names name ["ant"; "antonyms"] then
    add_linkage "antonyms" (targ t "2") st
  else if in_names name ["ant5"; "ant4"; "ant3"; "ant2"; "ant1";
                         "ant5-u"; "ant4-u"; "ant3-u"; "ant2-u"] then
    titled_group "antonyms" t st
  else if in_names name ["hyp5"; "hyp4"; "hyp3"; "hyp2"; "hyp1";
                         "hyp5-u"; "hyp4-u"; "hyp3-u"; "hyp2-u"] then
    titled_group "hyponyms" t st
  else if in_names name ["der5"; "der4"; "der3"; "der2"; "der1"; "zh-der";
                         "der5-u"; "der4-u"; "der3-u"; "der2-u";
                         "zh-der"; "vi-der";
                         "Template:User:Donnanz/der3-u";
                         "derived terms"; "rootsee"; "prefixsee"] then
    titled_group "derived" t st
  else if in_names name ["rel5"; "rel4"; "rel3"; "rel2"; "rel1";
                         "rel5-u"; "rel4-u"; "rel3-u"; "rel2-u"] then
    titled_group "related" t st
  else if is_substring_of name "compass" then
    fold_left (fun s key =>
                 match lookup key (t_dict clean_value t) with
                 | Some v => if String.eqb (string_value v) "" then s
                             else add_linkage "related" (string_value v) s
                 | None => s
                 end)
              ["n"; "ne"; "e"; "se"; "s"; "sw"; "w"; "ne"] st
  else if in_names name ["rel-top3"; "rel-top4"; "rel-top5";
                         "rel-top2"; "rel-top"] then
    with_kind "related" (with_sense (Some (targ t "1")) (with_quals [] st))
  else if in_names name ["hyp-top3"; "hyp-top4"; "hyp-top5"; "hyp-top2"] then
    with_kind "hyponym" (with_sense (Some (targ t "1")) (with_quals [] st))
  else if in_names name ["der-top"; "der-top2"; "der-top3"; "der-top4";
                         "der-top5"; "der top"; "der bottom"] then
    with_kind "derived" (with_sense (Some (targ t "1")) (with_quals [] st))
  else if in_names name ["rel-bottom"; "rel-bottom1"; "rel-bottom2";
                         "rel-bottom3"; "rel-bottom4"; "rel-bottom5"] then
    with_sense None (with_quals [] st)
  else if in_names name ["col1"; "col1-u"; "col2"; "col2-u"; "col3"; "col3-u";
                         "col4"; "col4-u"; "col5"; "col5-u"] then
    add_linkages kind (tl (tvec t))
      (with_sense (Some (targ t "title")) (with_quals [] st))
  else if String.eqb name "bullet list" then
    add_linkages kind (tvec t) (with_sense None (with_quals [] st))
  else if in_names name ["zh-synonym"; "zh-syn-saurus"] then
    let st := with_kind "synonyms" st in
    if String.eqb (targ t "1") (word cfg) then st
    else add_linkage "synonyms" (targ t "1") st
  else if is_substring_of name "zh-ant-saurus" then
    let st := with_kind "antonyms" st in
    if String.eqb (targ t "1") (word cfg) then st
    else add_linkage "antonyms" (targ t "1") st
  else if String.eqb name "zh-dial" then
    let st := with_kind "synonyms" (with_quals (l_quals st ++ ["dialectical"]) st) in
    if String.eqb (targ t "1") (word cfg) then st
    else add_linkage "synonyms" (targ t "1") st
  else if in_names name ["Template:letter-shaped"; "letter-shaped"] then
    add_topic "English terms defived from the shape of letters" st
  else if in_names name ["Template:object-shaped"; "object-shaped"] then
    add_topic "English terms defived from the shape of objects" st
  else if in_names name ["t"; "t+"; "ux"; "trans-top"; "w"; "pedlink";
                         "affixes"; "ISBN"; "specieslite"; "projectlink";
                         "wikispecies"; "comcatlite"; "wikidata";
                         "mid5"; "top5"; "compass-fi"; "derivsee";
                         "small";
                         "presidential nomics";
                         "video frames";
                         "polyominoes";
                         "mediagenic terms";
                         "common names of Valerianella locusta";
                         "ga-prepositional contractions";
                         "ga-copular forms";
                         "compoundsee";
                         "Japanese demonstratives";
                         "Spanish possessive adjectives";
                         "Spanish possessive pronouns";
                         "French possessive adjectives";
                         "French possessive pronouns";
                         "French personal pronouns"] then st
  else if startswith name "list:" || startswith name "R:"
          || startswith name "table:" then st
  else match hypernyms_template name with
       | Some v => add_linkage "hypernyms" v st
       | None =>
           if in_names name ignored_templates then st
           else with_diag (UnrecognizedTemplate name "linkage") st
       end.

(** [for t in p.wikilinks: ... add_linkage("synonyms", target)] *)
Definition add_thesaurus_links (links : list string) (st : link_state)
  : link_state :=
  fold_left (fun s link =>
               let target := strip link in
               if startswith target "Thesaurus:"
               then add_linkage "synonyms" target s else s)
            links st.

(** The first loop over the templates of a short item: the sense, the
    links of [{{l|...}}], the qualifiers. *)
Definition scan_short_item (st : link_state * list (string * string))
           (t : template) : link_state * list (string * string) :=
  let '(s, links) := st in
  let name := strip (t_name t) in
  if String.eqb name "sense" then (with_sense (Some (targ t "1")) s, links)
  else if String.eqb name "l" then (s, links ++ [(l_kind s, targ t "2")])
  else if String.eqb name "qualifier" then
    (with_quals (l_quals s ++ tvec t) s, links)
  else (s, links).

(** [for m in re.finditer(...)] over the italic spans: the state and
    [found]. *)
Definition scan_italic (st : link_state * bool) (span : string)
  : link_state * bool :=
  let '(s, found) := st in
  let v := clean_value span in
  if startswith v "(" && endswith v ")"
  then (with_sense (Some (drop_last (drop_chars 1 v))) s, found)
  else (add_linkage (l_kind s) v s, true).

(** The first character of the text is one of ["*:"]. *)
Definition starts_with_marker (text : string) : bool :=
  match text with
  | String c _ => Ascii.eqb c "*" || Ascii.eqb c ":"
  | EmptyString => false
  end.

(** [parse_item(text, kind, is_item)], from the state that holds [data]
    and [added]; the item's own variables start afresh. *)
Definition parse_item (it : item) (kind : string) (st0 : link_state)
  : link_state :=
  let text := i_text it in
  let p := i_parsed it in
  let st := with_kind kind (with_sense None (with_quals [] st0)) in
  let item := clean_value text in
  if Nat.ltb (py_len text) 200 && negb (String.eqb text "")
     && negb (starts_with_marker text) && negb (String.eqb item "")
  then
    let item := if startswith item "For more, see "
                then drop_chars 14 item else item in
    let '(st, links) := fold_left scan_short_item (templates p) (st, []) in
    match links with
    | (kind, link) :: _ => add_linkage kind link (with_quals [] (with_kind kind st))
    | [] =>
        let '(st, found) := fold_left scan_italic (re_italics text) (st, false) in
        if found then st
        else
          let '(st, item) :=
            match re_paren_head item with
            | Some (q, rest) => (with_sense (Some q) st, rest)
            | None => (st, item)
            end in
          let item := re_drop_parens item in
          let st :=
            fold_left (fun s v =>
              fold_left (fun s vv =>
                           add_linkage (l_kind s) (hd "" (split vv " - ")) s)
                        (split v ", ") s)
              (split item "; ") st in
          if String.eqb (l_kind st) "synonyms"
          then add_thesaurus_links (wikilinks p) st
          else st
    end
  else
    add_thesaurus_links (wikilinks p)
      (fold_left parse_item_template (templates p) st).

(** [parse_linkage(config, data, kind, text, p)]: [lists] are the items of
    [p.lists()], [rest] is the text left when the lists are cut out (not
    yet stripped).  Returns [data], [added] and the diagnostics. *)
Definition parse_linkage (data : record) (kind : string)
           (lists : list (list item)) (rest : item) : link_state :=
  let st := {| l_data := data; l_added := []; l_kind := kind;
               l_sense := None; l_quals := []; l_diags := [] |} in
  let st := fold_left (fun s it => parse_item it kind s) (concat lists) st in
  if String.eqb (strip (i_text rest)) "" then st
  else parse_item {| i_text := strip (i_text rest); i_parsed := i_parsed rest |}
                  kind st.

End Linkage.

End Lower.

(** *** Examples *)

Definition starred (text : string) (ts : list template) : item :=
  {| i_text := text; i_parsed := {| templates := ts; wikilinks := [] |} |}.

Definition no_text : item := starred "" [].

Definition parse_linkage_plain (data : record) (kind : string)
           (lists : list (list item)) (rest : item) : link_state :=
  parse_linkage lower_ascii plain (fun q => q) [] (fun _ => [])
                (fun _ => None) (fun s => s) cfg_all data kind lists rest.

(** The spec's scenario: the same link from two different templates. *)
Example parse_linkage_same_link_twice :
  l_data (parse_linkage_plain [] "synonyms"
            [[starred "* {{l|en|foo}}, {{syn|en|foo}}"
                      [tmpl "l" ["en"; "foo"]; tmpl "syn" ["en"; "foo"]]]]
            no_text)
  = [("synonyms", FList [VDict [("word", VStr "foo")]])].
Proof. reflexivity. Qed.

(** C7.  The code at the input on which it leaves the claim: the key in
    [added] holds [sense_text] as it is, [None] after [l] and the empty
    string of the absent [title] after [col3], while the edge gets a [sense]
    only from a non-empty [sense_text]: the same edge, with the same kind,
    word, no sense and no qualifier, is in the output twice. *)
Example parse_linkage_no_sense_and_empty_sense :
  l_data (parse_linkage_plain [] "synonyms"
            [[starred "* {{l|en|foo}}, {{col3|en|foo}}"
                      [tmpl "l" ["en"; "foo"]; tmpl "col3" ["en"; "foo"]]]]
            no_text)
  = [("synonyms", FList [VDict [("word", VStr "foo")];
                         VDict [("word", VStr "foo")]])].
Proof. reflexivity. Qed.

(** ** parse_page: post-processing of the records of a page *)

(** [a == b] on stored values; dictionaries compare by content, whatever
    the order of their keys. *)
Fixpoint value_eqb (a b : value) {struct a} : bool :=
  match a, b with
  | VNone, VNone => true
  | VBool x, VBool y => Bool.eqb x y
  | VStr x, VStr y => String.eqb x y
  | VList l1, VList l2 =>
      (fix go (l1 l2 : list value) : bool :=
         match l1, l2 with
         | [], [] => true
         | x :: l1', y :: l2' => value_eqb x y && go l1' l2'
         | _, _ => false
         end) l1 l2
  | VTuple l1, VTuple l2 =>
      (fix go (l1 l2 : list value) : bool :=
         match l1, l2 with
         | [], [] => true
         | x :: l1', y :: l2' => value_eqb x y && go l1' l2'
         | _, _ => false
         end) l1 l2
  | VDict d1, VDict d2 =>
      Nat.eqb (List.length d1) (List.length d2)
      && (fix go (d1 : list (string * value)) : bool :=
            match d1 with
            | [] => true
            | (k, v) :: d1' =>
                match lookup k d2 with
                | Some v' => value_eqb v v'
                | None => false
                end && go d1'
            end) d1
  | _, _ => false
  end.

Fixpoint values_eqb (l1 l2 : list value) : bool :=
  match l1, l2 with
  | [], [] => true
  | x :: l1', y :: l2' => value_eqb x y && values_eqb l1' l2'
  | _, _ => false
  end.

Definition field_eqb (a b : field) : bool :=
  match a, b with
  | FStr x, FStr y => String.eqb x y
  | FList x, FList y => values_eqb x y
  | _, _ => false
  end.

(** [a == b] on what [dict.get] returns. *)
Definition opt_field_eqb (a b : option field) : bool :=
  match a, b with
  | None, None => true
  | Some x, Some y => field_eqb x y
  | _, _ => false
  end.

(** The truth value of what [dict.get] returns. *)
Definition truthy (f : option field) : bool :=
  match f with
  | None => false
  | Some (FStr s) => negb (String.eqb s "")
  | Some (FList l) => match l with [] => false | _ => true end
  end.

Definition is_str (s : string) (f : option field) : bool :=
  opt_field_eqb f (Some (FStr s)).

(** [(pos, cpos) in (("noun", "adj"), ("noun", "name"), ...)] *)
Definition compatible_pair (pos cpos : option field) : bool :=
  existsb (fun pc => is_str (fst pc) pos && is_str (snd pc) cpos)
          [("noun", "adj"); ("noun", "name"); ("name", "noun");
           ("name", "adj"); ("adj", "noun"); ("adj", "name")].

(** ["participle" in s.get("tags", ())] for one element [s] of
    [dt.get("senses", ())]; [None] when it raises. *)
Definition sense_has_participle (s : value) : option bool :=
  match s with
  | VDict d =>
      match lookup "tags" d with
      | None => Some false
      | Some (VList l) | Some (VTuple l) =>
          Some (existsb (value_eqb (VStr "participle")) l)
      | Some (VStr t) => Some (contains t "participle")
      | Some (VDict d') => Some (has_key "participle" d')
      | Some VNone | Some (VBool _) => None
      end
  | _ => None
  end.

(** [any(... for s in senses)], left to right, stopping at the first hit. *)
Fixpoint any_participle (senses : list value) : option bool :=
  match senses with
  | [] => Some false
  | s :: rest =>
      match sense_has_participle s with
      | None => None
      | Some true => Some true
      | Some false => any_participle rest
      end
  end.

Definition senses_have_participle (dt : record) : option bool :=
  match lookup "senses" dt with
  | None => Some false
  | Some f => any_participle (items_of f)
  end.

(** The condition under which [data], whose part of speech is [pos], takes
    the conjugation of [dt]. *)
Definition donor_matches (pos : option field) (dt : record) : option bool :=
  let cpos := lookup "pos" dt in
  if opt_field_eqb pos cpos || compatible_pair pos cpos then Some true
  else if is_str "adj" pos && is_str "verb" cpos then senses_have_participle dt
  else Some false.

(** [for dt in datas: ...]: the conjugation to adopt ([Some None] when the
    loop ends without one, [None] when it raises). *)
Fixpoint find_conjugation (data : record) (dts : list record)
  : option (option field) :=
  match dts with
  | [] => Some None
  | dt :: rest =>
      if negb (opt_field_eqb (lookup "lang" data) (lookup "lang" dt))
      then find_conjugation data rest
      else if negb (truthy (lookup "conjugation" dt))
      then find_conjugation data rest
      else match donor_matches (lookup "pos" data) dt with
           | None => None
           | Some true => Some (lookup "conjugation" dt)
           | Some false => find_conjugation data rest
           end
  end.

(** The records of a page are objects that [datas], [by_lang] and [ret]
    share: they live in a store and are named by their index in it.  A
    record comes in with the values it holds when [parse_language]
    returns. *)
Definition store := list record.

Definition fetch (st : store) (i : nat) : record := nth i st [].

(** The list under [topics], empty when there is none. *)
Definition topic_list (r : record) : list value :=
  match lookup "topics" r with Some (FList l) => l | _ => [] end.

(** The dictionaries in the lists under [topics] are objects as well:
    [merge_base] gives a record the list of an enclosing buffer
    ([data[k] = v]) or puts the dictionaries of the buffer in the record's
    own list ([extend]), so one dictionary can be in the lists of several
    records, and an assignment into it shows in each of them.  [idents]
    tells which dictionary an entry is: [ids i] has, for the record of
    index [i], the identities of the entries of its list under [topics], in
    the order of the list; the store holds, for each entry, the dictionary
    as it is now. *)
Definition idents := nat -> list nat.

Definition set_ids (i : nat) (l : list nat) (ids : idents) : idents :=
  fun j => if Nat.eqb j i then l else ids j.

(** The identities when [parse_language] has returned: [ident i p] names
    the dictionary at place [p] of the topics of the record of index [i]. *)
Definition idents_of (ident : nat -> nat -> nat) (st : store) : idents :=
  fun i => map (ident i) (seq 0 (List.length (topic_list (fetch st i)))).

(** One turn of [for data in lang_datas] of the conjugation loop. *)
Definition share_conjugation (datas : list nat) (st : store) (i : nat)
  : option store :=
  let data := fetch st i in
  if has_key "conjugation" data then Some st
  else if negb (truthy (lookup "pos" data)) then None
  else match find_conjugation data (map (fetch st) datas) with
       | None => None
       | Some None => Some st
       | Some (Some conjs) => Some (set_nth i (set_key "conjugation" conjs data) st)
       end.

Fixpoint share_conjugations (datas : list nat) (group : list nat) (st : store)
  : option store :=
  match group with
  | [] => Some st
  | i :: rest =>
      match share_conjugation datas st i with
      | Some st' => share_conjugations datas rest st'
      | None => None
      end
  end.

(** [t["inaccurate"] = True] *)
Definition mark_inaccurate (t : value) : option value :=
  match t with
  | VDict d => Some (VDict (set_key "inaccurate" (VBool true) d))
  | _ => None
  end.

Fixpoint mark_all (ts : list value) : option (list value) :=
  match ts with
  | [] => Some []
  | t :: rest =>
      match mark_inaccurate t, mark_all rest with
      | Some t', Some rest' => Some (t' :: rest')
      | _, _ => None
      end
  end.

(** [for t in topics: t["inaccurate"] = True], on the topics of the last
    record: a list of dictionaries is marked, the empty string passes, and
    anything else raises.  The result is what [topics] holds after the
    loop. *)
Definition mark_topics (f : field) : option field :=
  match f with
  | FList l => match mark_all l with Some l' => Some (FList l') | None => None end
  | FStr s => if String.eqb s "" then Some f else None
  end.

(** A dictionary once [inaccurate] is set in it. *)
Definition mark_dict (t : value) : value :=
  match t with
  | VDict d => VDict (set_key "inaccurate" (VBool true) d)
  | _ => t
  end.

(** What a list [ts] of the dictionaries [ids] shows once the dictionaries
    [marked] have got [inaccurate]. *)
Fixpoint mark_shown (marked ids : list nat) (ts : list value) : list value :=
  match ids, ts with
  | a :: ids', t :: ts' =>
      (if existsb (Nat.eqb a) marked then mark_dict t else t)
      :: mark_shown marked ids' ts'
  | _, _ => ts
  end.

Definition mark_record (marked ids : list nat) (r : record) : record :=
  match lookup "topics" r with
  | Some (FList l) => set_key "topics" (FList (mark_shown marked ids l)) r
  | _ => r
  end.

Fixpoint mark_from (j : nat) (marked : list nat) (ids : idents) (st : store)
  : store :=
  match st with
  | [] => []
  | r :: rest => mark_record marked (ids j) r :: mark_from (S j) marked ids rest
  end.

(** The assignments of [for t in topics: t["inaccurate"] = True] as the
    records of the page show them: the dictionaries [marked] are changed in
    place, in whatever list they are. *)
Definition mark_objects (marked : list nat) (ids : idents) (st : store) : store :=
  mark_from 0 marked ids st.

(** [a + b] *)
Definition field_add (a b : field) : option field :=
  match a, b with
  | FList x, FList y => Some (FList (x ++ y))
  | FStr x, FStr y => Some (FStr (x +++ y))
  | _, _ => None
  end.

Definition get_or_empty (k : string) (r : record) : field :=
  match lookup k r with Some f => f | None => FList [] end.

(** One turn of [for data in lang_datas[:-1]] of the topic loop; [topics]
    is the list of the last record and [objs] the dictionaries in it.  The
    new list holds the dictionaries of the record's list and then those of
    [topics], the same objects. *)
Definition add_topics (topics : field) (objs : list nat)
           (ps : store * idents) (i : nat) : option (store * idents) :=
  let st := fst ps in
  let ids := snd ps in
  let data := fetch st i in
  match field_add (get_or_empty "topics" data) topics with
  | None => None
  | Some new_topics =>
      if truthy (Some new_topics)
      then Some (set_nth i (set_key "topics" new_topics data) st,
                 set_ids i (ids i ++ objs) ids)
      else Some ps
  end.

Fixpoint add_topics_all (topics : field) (objs : list nat) (group : list nat)
         (ps : store * idents) : option (store * idents) :=
  match group with
  | [] => Some ps
  | i :: rest =>
      match add_topics topics objs ps i with
      | Some ps' => add_topics_all topics objs rest ps'
      | None => None
      end
  end.

(** [if len(lang_datas) > 1: ...] *)
Definition propagate_topics (group : list nat) (ps : store * idents)
  : option (store * idents) :=
  let st := fst ps in
  let ids := snd ps in
  if Nat.ltb 1 (List.length group) then
    let j := last group 0 in
    match mark_topics (get_or_empty "topics" (fetch st j)) with
    | None => None
    | Some topics =>
        add_topics_all topics (ids j) (removelast group)
                       (mark_objects (ids j) ids st, ids)
    end
  else Some ps.

(** The body of [for lang, lang_datas in by_lang.items()]. *)
Definition process_group (datas : list nat) (ps : store * idents)
           (group : list nat) : option (store * idents) :=
  match share_conjugations datas group (fst ps) with
  | Some st' => propagate_topics group (st', snd ps)
  | None => None
  end.

Fixpoint process_groups (datas : list nat) (groups : list (string * list nat))
         (ps : store * idents) : option (store * idents) :=
  match groups with
  | [] => Some ps
  | (_, g) :: rest =>
      match process_group datas ps g with
      | Some ps' => process_groups datas rest ps'
      | None => None
      end
  end.

(** [by_lang[data["lang"]].append(data)] *)
Fixpoint group_add (lang : string) (i : nat) (groups : list (string * list nat))
  : list (string * list nat) :=
  match groups with
  | [] => [(lang, [i])]
  | (l, g) :: rest =>
      if String.eqb lang l then (l, g ++ [i]) :: rest
      else (l, g) :: group_add lang i rest
  end.

(** The first loop's [by_lang], over the records numbered from [i]; a
    record without ["lang"] is left out, a ["lang"] that is a list cannot
    be a key and raises. *)
Fixpoint by_lang_from (i : nat) (rs : list record)
         (groups : list (string * list nat))
  : option (list (string * list nat)) :=
  match rs with
  | [] => Some groups
  | r :: rest =>
      match lookup "lang" r with
      | None => by_lang_from (S i) rest groups
      | Some (FStr lang) => by_lang_from (S i) rest (group_add lang i groups)
      | Some (FList _) => None
      end
  end.

(** [datas] when the first loop ends: the records of the language section
    parsed last. *)
Definition last_datas (outputs : list (list record)) : list nat :=
  match rev outputs with
  | [] => []
  | rs :: before => seq (List.length (concat (rev before))) (List.length rs)
  end.

(** [parse_page] from the point where [parse_language] has returned
    [outputs], one list of records for each language section parsed, in page
    order, with [ident] for the identities of the dictionaries under
    [topics]: the records returned, or [None] when an assertion or an
    operation on a value raises. *)
Definition parse_page (ident : nat -> nat -> nat) (outputs : list (list record))
  : option (list record) :=
  let st := concat outputs in
  match by_lang_from 0 st [] with
  | None => None
  | Some groups =>
      match process_groups (last_datas outputs) groups (st, idents_of ident st) with
      | None => None
      | Some ps => Some (flat_map (fun g => map (fetch (fst ps)) (snd g)) groups)
      end
  end.

(** Every record with dictionaries of its own: the pairing of the record
    and the place. *)
Definition own_topics (i p : nat) : nat := (i + p) * (i + p + 1) / 2 + p.

Definition noun_without : record :=
  [("glosses", FList [VStr "a building"]); ("pos", FStr "noun");
   ("word", FStr "house"); ("lang", FStr "English"); ("lang_code", FStr "en")].

Definition adj_with_x : record :=
  [("glosses", FList [VStr "of a house"]); ("pos", FStr "adj");
   ("conjugation", FList [VDict [("template_name", VStr "en-decl-x")]]);
   ("word", FStr "house"); ("lang", FStr "English"); ("lang_code", FStr "en")].

(** The spec's scenario, run. *)
Example parse_page_noun_takes_adj_conjugation :
  option_map (map (lookup "conjugation")) (parse_page own_topics [[noun_without; adj_with_x]])
  = Some [Some (FList [VDict [("template_name", VStr "en-decl-x")]]);
          Some (FList [VDict [("template_name", VStr "en-decl-x")]])].
Proof. reflexivity. Qed.

(** *** The store *)

Lemma fetch_set_nth (st : store) : forall i j x,
  fetch (set_nth i x st) j =
  if Nat.eqb j i && Nat.ltb i (List.length st) then x else fetch st j.
Proof.
  unfold fetch.
  induction st as [|y st IH]; intros i j x.
  - replace (Nat.ltb i (List.length (@nil record))) with false
      by (symmetry; apply Nat.ltb_ge; simpl; lia).
    rewrite andb_false_r. destruct i; reflexivity.
  - destruct i as [|i], j as [|j]; cbn [set_nth nth List.length]; auto.
Qed.



(** What no pass of the post-processing changes: the number of records,
    every field other than [conjugation] and [topics], and a conjugation
    that is there. *)
Definition evolves (st st' : store) : Prop :=
  List.length st' = List.length st
  /\ forall j,
       (forall k, k <> "conjugation" -> k <> "topics" ->
                  lookup k (fetch st' j) = lookup k (fetch st j))
       /\ (forall c, lookup "conjugation" (fetch st j) = Some c ->
                     lookup "conjugation" (fetch st' j) = Some c).

Lemma evolves_refl st : evolves st st.
Proof. split; auto. Qed.

Lemma evolves_trans st1 st2 st3 :
  evolves st1 st2 -> evolves st2 st3 -> evolves st1 st3.
Proof.
  intros [L1 H1] [L2 H2]. split; [congruence|].
  intros j. destruct (H1 j) as [A1 B1]. destruct (H2 j) as [A2 B2].
  split.
  - intros k Hk1 Hk2. rewrite A2, A1; auto.
  - intros c Hc. auto.
Qed.

Lemma has_key_false {A : Type} k (d : list (string * A)) :
  has_key k d = false -> lookup k d = None.
Proof. unfold has_key. destruct (lookup k d); easy. Qed.


Lemma evolves_set_field st i k v :
  (k = "topics" \/ (k = "conjugation" /\ lookup k (fetch st i) = None)) ->
  evolves st (set_nth i (set_key k v (fetch st i)) st).
Proof.
  intros Hk. split; [apply set_nth_length|].
  intros j. rewrite fetch_set_nth.
  destruct (Nat.eqb j i && Nat.ltb i (List.length st)) eqn:E; [|auto].
  apply andb_true_iff in E. destruct E as [E _].
  apply Nat.eqb_eq in E. subst j. split.
  - intros k' H1 H2. apply lookup_set_key_other.
    destruct Hk as [->|[-> _]]; auto.
  - intros c Hc. destruct Hk as [->|[-> Hn]].
    + rewrite lookup_set_key_other by discriminate. exact Hc.
    + congruence.
Qed.

(** **** The conjugation loop *)

Lemma share_conjugation_cases datas st i st' :
  share_conjugation datas st i = Some st' ->
  st' = st
  \/ (lookup "conjugation" (fetch st i) = None
      /\ exists conjs,
           find_conjugation (fetch st i) (map (fetch st) datas) = Some (Some conjs)
           /\ st' = set_nth i (set_key "conjugation" conjs (fetch st i)) st).
Proof.
  unfold share_conjugation.
  destruct (has_key "conjugation" (fetch st i)) eqn:Hk.
  - intros H. inversion H. now left.
  - destruct (negb _); [discriminate|].
    destruct (find_conjugation _ _) as [[conjs|]|] eqn:Hf; try discriminate.
    + intros H. inversion H. right. split; [now apply has_key_false|].
      eauto.
    + intros H. inversion H. now left.
Qed.

Lemma share_conjugation_evolves datas st i st' :
  share_conjugation datas st i = Some st' -> evolves st st'.
Proof.
  intros H. apply share_conjugation_cases in H.
  destruct H as [->|(Hn & conjs & _ & ->)].
  - apply evolves_refl.
  - apply evolves_set_field. auto.
Qed.


Lemma share_conjugations_evolves datas group : forall st st',
  share_conjugations datas group st = Some st' -> evolves st st'.
Proof.
  induction group as [|i group IH]; intros st st' H; simpl in H.
  - inversion H. apply evolves_refl.
  - destruct (share_conjugation datas st i) as [st1|] eqn:E; [|discriminate].
    eapply evolves_trans; [eapply share_conjugation_evolves; eauto | eauto].
Qed.


(** **** The topic loop *)






(** ***** Marks in place *)



Lemma mark_record_other marked ids r k :
  k <> "topics" -> lookup k (mark_record marked ids r) = lookup k r.
Proof.
  intros Hk. unfold mark_record.
  destruct (lookup "topics" r) as [[s|l]|]; auto.
  now apply lookup_set_key_other.
Qed.



Lemma fetch_mark_from marked ids : forall st j0 j,
  fetch (mark_from j0 marked ids st) j
  = mark_record marked (ids (j0 + j)) (fetch st j).
Proof.
  unfold fetch.
  induction st as [|r st IH]; intros j0 j; simpl.
  - now destruct j.
  - destruct j as [|j].
    + now rewrite Nat.add_0_r.
    + rewrite IH. now rewrite Nat.add_succ_r.
Qed.

Lemma fetch_mark_objects marked ids st j :
  fetch (mark_objects marked ids st) j
  = mark_record marked (ids j) (fetch st j).
Proof. unfold mark_objects. now rewrite fetch_mark_from. Qed.

Lemma mark_from_length marked ids : forall st j0,
  List.length (mark_from j0 marked ids st) = List.length st.
Proof. induction st as [|r st IH]; intros j0; simpl; auto. Qed.

Lemma mark_objects_length marked ids st :
  List.length (mark_objects marked ids st) = List.length st.
Proof. apply mark_from_length. Qed.

Lemma mark_objects_evolves marked ids st :
  evolves st (mark_objects marked ids st).
Proof.
  split; [apply mark_objects_length|].
  intros j. rewrite fetch_mark_objects. split.
  - intros k _ Hk. now apply mark_record_other.
  - intros c Hc. rewrite mark_record_other by discriminate. exact Hc.
Qed.


(** ***** The lists made by [+] *)

Lemma add_topics_cases topics objs st ids i st' ids' :
  add_topics topics objs (st, ids) i = Some (st', ids') ->
  exists new_topics,
    field_add (get_or_empty "topics" (fetch st i)) topics = Some new_topics
    /\ ((truthy (Some new_topics) = true
         /\ st' = set_nth i (set_key "topics" new_topics (fetch st i)) st
         /\ ids' = set_ids i (ids i ++ objs) ids)
        \/ (truthy (Some new_topics) = false /\ st' = st /\ ids' = ids)).
Proof.
  unfold add_topics. cbn [fst snd].
  destruct (field_add _ _) as [nt|]; [|discriminate].
  destruct (truthy (Some nt)) eqn:E; intros H; inversion H; eauto 7.
Qed.

Lemma add_topics_evolves topics objs st ids i st' ids' :
  add_topics topics objs (st, ids) i = Some (st', ids') -> evolves st st'.
Proof.
  intros H. apply add_topics_cases in H.
  destruct H as (nt & _ & [(_ & -> & _)|(_ & -> & _)]).
  - apply evolves_set_field. auto.
  - apply evolves_refl.
Qed.


Lemma add_topics_all_evolves topics objs group : forall st ids st' ids',
  add_topics_all topics objs group (st, ids) = Some (st', ids') ->
  evolves st st'.
Proof.
  induction group as [|i group IH]; intros st ids st' ids' H; simpl in H.
  - inversion H. apply evolves_refl.
  - destruct (add_topics topics objs (st, ids) i) as [[st1 ids1]|] eqn:E;
      [|discriminate].
    eapply evolves_trans; [eapply add_topics_evolves; eauto | eauto].
Qed.


Lemma propagate_topics_evolves group st ids st' ids' :
  propagate_topics group (st, ids) = Some (st', ids') -> evolves st st'.
Proof.
  unfold propagate_topics. cbn [fst snd].
  destruct (Nat.ltb 1 (List.length group));
    [|intros H; inversion H; apply evolves_refl].
  destruct (mark_topics _) as [topics|]; [|discriminate].
  intros H. apply add_topics_all_evolves in H.
  eapply evolves_trans; [|exact H].
  apply mark_objects_evolves.
Qed.




(** **** What the topic loop leaves in the records of its group *)

Lemma field_add_falsy own topics nt :
  field_add own topics = Some nt -> truthy (Some nt) = false -> own = nt.
Proof.
  destruct own as [x|x], topics as [y|y]; simpl; try discriminate;
    intros H; inversion H; subst; simpl.
  - destruct x; simpl; [|discriminate].
    intros Hy. apply negb_false_iff, String.eqb_eq in Hy. now subst.
  - destruct x; simpl; [|discriminate].
    destruct y; simpl; [reflexivity | discriminate].
Qed.

Lemma get_or_empty_set k f r : get_or_empty k (set_key k f r) = f.
Proof. unfold get_or_empty. now rewrite lookup_set_key_same. Qed.

(** **** The groups of [by_lang] *)

Definition group_indices (groups : list (string * list nat)) : list nat :=
  flat_map (fun g => snd g) groups.

From Stdlib Require Import Permutation.

Lemma group_add_perm lang i groups :
  Permutation (group_indices (group_add lang i groups))
              (i :: group_indices groups).
Proof.
  induction groups as [|[l g] groups IH]; simpl.
  - apply Permutation_refl.
  - destruct (String.eqb lang l); simpl.
    + rewrite <- app_assoc. simpl.
      apply Permutation_sym, Permutation_middle.
    + eapply Permutation_trans; [apply Permutation_app_head, IH|].
      apply Permutation_sym, Permutation_middle.
Qed.

Lemma by_lang_from_indices rs : forall i groups groups',
  by_lang_from i rs groups = Some groups' ->
  NoDup (group_indices groups) ->
  (forall x, In x (group_indices groups) -> x < i) ->
  NoDup (group_indices groups')
  /\ (forall x, In x (group_indices groups') -> x < i + List.length rs).
Proof.
  induction rs as [|r rs IH]; intros i groups groups' H Hnd Hlt; simpl in H.
  - inversion H; subst. split; auto. intros x Hx. specialize (Hlt x Hx). lia.
  - destruct (lookup "lang" r) as [[lang|l]|]; try discriminate.
    + apply IH in H.
      * destruct H as [H1 H2]. split; auto.
        intros x Hx. specialize (H2 x Hx). simpl. lia.
      * eapply Permutation_NoDup;
          [apply Permutation_sym, group_add_perm|].
        constructor; auto. intros Hin. specialize (Hlt i Hin). lia.
      * intros x Hx.
        apply (Permutation_in _ (group_add_perm lang i groups)) in Hx.
        destruct Hx as [<-|Hx]; [lia|]. specialize (Hlt x Hx). lia.
    + apply IH in H; auto.
      * destruct H as [H1 H2]. split; auto.
        intros x Hx. specialize (H2 x Hx). simpl. lia.
      * intros x Hx. specialize (Hlt x Hx). lia.
Qed.

Lemma group_add_keeps lang i groups x :
  In x (group_indices groups) -> In x (group_indices (group_add lang i groups)).
Proof.
  intros H.
  apply (Permutation_in _ (Permutation_sym (group_add_perm lang i groups))).
  now right.
Qed.

Lemma by_lang_from_keeps rs : forall i groups groups' x,
  by_lang_from i rs groups = Some groups' ->
  In x (group_indices groups) -> In x (group_indices groups').
Proof.
  induction rs as [|r rs IH]; intros i groups groups' x H Hin; simpl in H.
  - now inversion H; subst.
  - destruct (lookup "lang" r) as [[lang|l]|]; try discriminate.
    + eapply IH; eauto. now apply group_add_keeps.
    + eapply IH; eauto.
Qed.

Lemma by_lang_from_member rs : forall i groups groups' n,
  by_lang_from i rs groups = Some groups' ->
  n < List.length rs ->
  lookup "lang" (nth n rs []) <> None ->
  In (i + n) (group_indices groups').
Proof.
  induction rs as [|r rs IH]; intros i groups groups' n H Hn Hl;
    simpl in *; [lia|].
  destruct n as [|n].
  - destruct (lookup "lang" r) as [[lang|l]|]; try discriminate; try tauto.
    eapply by_lang_from_keeps; eauto.
    apply (Permutation_in _ (Permutation_sym (group_add_perm lang i groups))).
    left. lia.
  - replace (i + S n) with (S i + n) by lia.
    destruct (lookup "lang" r) as [[lang|l]|]; try discriminate;
      eapply IH; eauto; lia.
Qed.

(** **** Records on which the post-processing does not raise *)


























Lemma process_group_evolves datas st ids g st' ids' :
  process_group datas (st, ids) g = Some (st', ids') -> evolves st st'.
Proof.
  unfold process_group. cbn [fst snd].
  destruct (share_conjugations datas g st) as [st1|] eqn:E; [|discriminate].
  intros H. eapply evolves_trans.
  - eapply share_conjugations_evolves; eauto.
  - eapply propagate_topics_evolves; eauto.
Qed.


Lemma process_groups_evolves datas groups : forall st ids st' ids',
  process_groups datas groups (st, ids) = Some (st', ids') -> evolves st st'.
Proof.
  induction groups as [|[l g] groups IH]; intros st ids st' ids' H;
    simpl in H.
  - inversion H. apply evolves_refl.
  - destruct (process_group datas (st, ids) g) as [[st1 ids1]|] eqn:E;
      [|discriminate].
    eapply evolves_trans; [eapply process_group_evolves; eauto | eauto].
Qed.



Lemma topic_list_of_get_or_empty r l :
  get_or_empty "topics" r = FList l -> topic_list r = l.
Proof.
  unfold get_or_empty, topic_list.
  destruct (lookup "topics" r) as [[s|x]|]; intros H; inversion H; auto.
Qed.


(** **** What the topic loop leaves in every record of the page *)


(** [xs] for the records of [lang_datas[:-1]], nothing for the others. *)
Definition extra {A : Type} (group : list nat) (i : nat) (xs : list A)
  : list A :=
  if existsb (Nat.eqb i) (removelast group) then xs else [].




































Definition topic (w : string) : value := VDict [("word", VStr w)].

Definition rec_topics (pos : string) (ts : list value) : record :=
  [("glosses", FList [VStr "g"]); ("pos", FStr pos); ("topics", FList ts);
   ("word", FStr "w"); ("lang", FStr "English"); ("lang_code", FStr "en")].

(** Three records with dictionaries of their own. *)
Example parse_page_topics_scenario :
  option_map (map topic_list)
    (parse_page own_topics
       [[rec_topics "noun" [topic "Trees"]; rec_topics "verb" [];
         rec_topics "adj" [topic "Colors"]]])
  = Some [[topic "Trees";
           VDict [("word", VStr "Colors"); ("inaccurate", VBool true)]];
          [VDict [("word", VStr "Colors"); ("inaccurate", VBool true)]];
          [VDict [("word", VStr "Colors"); ("inaccurate", VBool true)]]].
Proof. reflexivity. Qed.

(** One dictionary for all: the two senses of a part of speech whose
    buffer holds the topic take the very list of the buffer in
    [merge_base]. *)
Definition one_topic (i p : nat) : nat := 0.

(** The mark on the topic of the last record shows in the first record's
    own topic, the same dictionary. *)
Example parse_page_shared_topic :
  option_map (map topic_list)
    (parse_page one_topic
       [[rec_topics "noun" [topic "Colors"]; rec_topics "noun" [topic "Colors"]]])
  = Some [[VDict [("word", VStr "Colors"); ("inaccurate", VBool true)];
           VDict [("word", VStr "Colors"); ("inaccurate", VBool true)]];
          [VDict [("word", VStr "Colors"); ("inaccurate", VBool true)]]].
Proof. reflexivity. Qed.


(** **** Who gives a conjugation to whom *)


























Definition verb_with_x : record :=
  [("glosses", FList [VStr "to break"]); ("pos", FStr "verb");
   ("conjugation", FList [VDict [("template_name", VStr "fr-conj-x")]]);
   ("word", FStr "casse"); ("lang", FStr "French"); ("lang_code", FStr "fr")].


Definition adj_plain : record :=
  [("glosses", FList [VStr "broken"]); ("pos", FStr "adj");
   ("word", FStr "casse"); ("lang", FStr "French"); ("lang_code", FStr "fr")].


(** The records of a language section that is not the last one parsed find
    no record to take from: [datas] holds the last section's records. *)
Example parse_page_earlier_language_takes_nothing :
  option_map (map (lookup "conjugation"))
    (parse_page own_topics [[noun_without; adj_with_x]; [adj_plain; verb_with_x]])
  = Some [None;
          Some (FList [VDict [("template_name", VStr "en-decl-x")]]);
          None;
          Some (FList [VDict [("template_name", VStr "fr-conj-x")]])].
Proof. reflexivity. Qed.

(** ** The document tree and the collaborators of parse_language *)

(** The node kinds of [wikitextprocessor] that the walk tells apart. *)
Inductive NodeKind : Type :=
| ROOT | LEVEL2 | LEVEL3 | LEVEL4 | LEVEL5 | LEVEL6
| ITALIC | BOLD | HLINE | LIST | LIST_ITEM | PREFORMATTED | LINK
| TEMPLATE | TABLE | TABLE_ROW | TABLE_CELL | HTML.

Definition NodeKind_eqb (a b : NodeKind) : bool :=
  match a, b with
  | ROOT, ROOT | LEVEL2, LEVEL2 | LEVEL3, LEVEL3 | LEVEL4, LEVEL4
  | LEVEL5, LEVEL5 | LEVEL6, LEVEL6 | ITALIC, ITALIC | BOLD, BOLD
  | HLINE, HLINE | LIST, LIST | LIST_ITEM, LIST_ITEM
  | PREFORMATTED, PREFORMATTED | LINK, LINK | TEMPLATE, TEMPLATE
  | TABLE, TABLE | TABLE_ROW, TABLE_ROW | TABLE_CELL, TABLE_CELL
  | HTML, HTML => true
  | _, _ => false
  end.

(** [kind in (LEVEL2, LEVEL3, LEVEL4, LEVEL5, LEVEL6)] *)
Definition is_level (k : NodeKind) : bool :=
  match k with
  | LEVEL2 | LEVEL3 | LEVEL4 | LEVEL5 | LEVEL6 => true
  | _ => false
  end.

(** [kind in (LEVEL3, LEVEL4, LEVEL5, LEVEL6)] *)
Definition is_sublevel (k : NodeKind) : bool :=
  match k with
  | LEVEL3 | LEVEL4 | LEVEL5 | LEVEL6 => true
  | _ => false
  end.

(** A child of a node is a string or a [WikiNode].  [args] of a list or a
    list item is its prefix ([sarg]); [args] of a heading is the nodes of
    its title ([nargs]). *)
Inductive node : Type :=
| Text (s : string)
| WikiNode (kind : NodeKind) (sarg : string) (nargs : list node)
           (children : list node).

(** ** Induction on the document tree *)

Section NodeInduction.
Variable P : node -> Prop.
Hypothesis P_text : forall s, P (Text s).
Hypothesis P_node : forall kind sarg nargs children,
  Forall P children -> P (WikiNode kind sarg nargs children).

Fixpoint node_induction (n : node) : P n :=
  match n with
  | Text s => P_text s
  | WikiNode kind sarg nargs children =>
      P_node kind sarg nargs children
        ((fix all (l : list node) : Forall P l :=
            match l with
            | [] => Forall_nil P
            | c :: l' => Forall_cons c (node_induction c) (all l')
            end) children)
  end.

End NodeInduction.

(** The key of a template argument as the expansion hook sees it: a number
    for a positional argument, a name otherwise. *)
Inductive ht_key : Type :=
| KInt (n : nat)
| KStr (s : string).

Definition ht_key_eqb (a b : ht_key) : bool :=
  match a, b with
  | KInt n, KInt m => Nat.eqb n m
  | KStr s, KStr t => String.eqb s t
  | _, _ => false
  end.

Definition ht := list (ht_key * string).

(** [ht.get(k)] *)
Fixpoint ht_get (k : ht_key) (h : ht) : option string :=
  match h with
  | [] => None
  | (k', v) :: h' => if ht_key_eqb k k' then Some v else ht_get k h'
  end.

(** What rendering a node does with the hook it is given: it ends with the
    text, or it calls [template_fn(name, ht)] and goes on from the answer
    ([None] lets the template expand as usual). *)
Inductive expansion : Type :=
| Rendered (text : string)
| Ask (name : string) (args : ht) (k : option string -> expansion).

(** An entry of [part_of_speech_map]. *)
Record pos_info : Type := {
  pi_pos : string;
  pi_tags : option (list string);
  pi_warning : option string;
  pi_error : option string
}.

(** What a Translations section stores: [data_append(config, data, "tags",
    "to be checked")] or [data_append(config, data, "translations", tr)]. *)
Inductive xlat_item : Type :=
| ToBeChecked
| Translation (tr : value).

(** The collaborators: the cleaner, the tables, the renderer of the
    document tree with its expansion hook, the parsers of
    [form_descriptions], and Python's [re] on free text.

    [parse_word_head] and [parse_sense_tags] store into the dictionary they
    are given through [data_append] and [data_extend]: they are taken as
    the keys and values they append, from their text and the dictionary as
    it is.  The linkage and translation extractors nested in
    [parse_language] store through [data_append] only, and report errors;
    what they draw from a section is taken from the collaborators
    ([linkage_items], [translation_items]: what is stored, and the
    diagnostics), where it ends up is modelled. *)
Record collaborators : Type := {
  clean_value : string -> string;
  html_unescape : string -> string;
  language_codes : list string;
  part_of_speech_map : string -> option pos_info;
  node_to_html : node -> expansion;
  parse_word_head : string -> string -> record -> list (string * value);
  parse_sense_tags : string -> record -> list (string * value);
  parse_pronunciation_tags :
    string -> list (string * value) -> list (string * value);
  translation_items : node -> list xlat_item * list diag;
  linkage_items : string -> node -> list (string * value) * list diag;
  (** group 1 of the first parenthesised part of an audio description *)
  re_audio_tags : string -> option string;
  (** group 1 and the text after the match of the parenthesised tags that
      open a pronunciation line *)
  re_pron_tags : string -> option (string * string);
  (** group 1 of the Tokyo pronunciation *)
  re_tokyo : string -> option string;
  (** group 1 of [Rhymes: ...] *)
  re_rhymes : string -> option string;
  (** the matches of a phonemic or phonetic transcription *)
  re_transcriptions : string -> list string;
  (** group 1 of [Syllabification: ...] *)
  re_syllabification : string -> option string;
  (** [str.lower()], which lower-cases by the case tables of Unicode *)
  lower : string -> string
}.

(** [str(n)] for any number. *)
Fixpoint digits_of (fuel n : nat) (acc : string) : string :=
  match fuel with
  | 0 => acc
  | S fuel' =>
      let d := String (ascii_of_nat (48 + n mod 10)) EmptyString in
      if Nat.ltb n 10 then d +++ acc
      else digits_of fuel' (n / 10) (d +++ acc)
  end.

Definition decimal (n : nat) : string := digits_of (S n) n EmptyString.

Definition ht_key_string (k : ht_key) : string :=
  match k with
  | KInt n => decimal n
  | KStr s => s
  end.

Section Rendering.
Variable E : collaborators.
Variable S : Type.

(** The hook of a rendering: the answer and the state it leaves. *)
Definition template_fn := string -> ht -> S -> option string * S.

Fixpoint run_expansion (fn : template_fn) (e : expansion) (s : S)
  : string * S :=
  match e with
  | Rendered text => (text, s)
  | Ask name args k =>
      let '(answer, s') := fn name args s in
      run_expansion fn (k answer) s'
  end.

(** [recurse(value)] of [clean_node] over a list of strings and nodes. *)
Fixpoint render_all (fn : template_fn) (value : list node) (s : S)
  : string * S :=
  match value with
  | [] => (EmptyString, s)
  | Text t :: rest =>
      let '(r, s') := render_all fn rest s in (t +++ r, s')
  | n :: rest =>
      let '(h, s1) := run_expansion fn (node_to_html E n) s in
      let '(r, s2) := render_all fn rest s1 in
      (h +++ r, s2)
  end.

(** [clean_node(config, ctx, value, template_fn)] *)
Definition clean_node (fn : template_fn) (value : list node) (s : S)
  : string * S :=
  let '(v, s') := render_all fn value s in (clean_value E v, s').

(** [template_fn=None] *)
Definition no_template_fn : template_fn := fun _ _ s => (None, s).

End Rendering.

Arguments run_expansion {S} fn e s.
Arguments render_all E {S} fn value s.
Arguments clean_node E {S} fn value s.

Example decimal_examples :
  map decimal [0; 7; 10; 19; 205] = ["0"; "7"; "10"; "19"; "205"].
Proof. reflexivity. Qed.

(** ** parse_language: the walk over the sections of one language *)

(** The variables of one [parse_language] call, and the lists that the
    buffers hold. *)
Record wstate : Type := {
  objs : list_store;
  base : buffer;
  sense_data : buffer;
  pos_data : buffer;
  etym_data : buffer;
  pos_datas : list buffer;
  etym_datas : list buffer;
  page_datas : list buffer;
  stack : list string;
  diags : list diag;
  section_counts : list string
}.

Definition set_base (b : list_store * buffer) (st : wstate) : wstate :=
  {| objs := fst b; base := snd b; sense_data := sense_data st;
     pos_data := pos_data st; etym_data := etym_data st;
     pos_datas := pos_datas st; etym_datas := etym_datas st;
     page_datas := page_datas st; stack := stack st; diags := diags st;
     section_counts := section_counts st |}.

Definition set_sense_data (b : list_store * buffer) (st : wstate) : wstate :=
  {| objs := fst b; base := base st; sense_data := snd b;
     pos_data := pos_data st; etym_data := etym_data st;
     pos_datas := pos_datas st; etym_datas := etym_datas st;
     page_datas := page_datas st; stack := stack st; diags := diags st;
     section_counts := section_counts st |}.

Definition set_pos_data (b : list_store * buffer) (st : wstate) : wstate :=
  {| objs := fst b; base := base st; sense_data := sense_data st;
     pos_data := snd b; etym_data := etym_data st;
     pos_datas := pos_datas st; etym_datas := etym_datas st;
     page_datas := page_datas st; stack := stack st; diags := diags st;
     section_counts := section_counts st |}.

Definition set_etym_data (b : list_store * buffer) (st : wstate) : wstate :=
  {| objs := fst b; base := base st; sense_data := sense_data st;
     pos_data := pos_data st; etym_data := snd b;
     pos_datas := pos_datas st; etym_datas := etym_datas st;
     page_datas := page_datas st; stack := stack st; diags := diags st;
     section_counts := section_counts st |}.

Definition set_stack (v : list string) (st : wstate) : wstate :=
  {| objs := objs st; base := base st; sense_data := sense_data st;
     pos_data := pos_data st; etym_data := etym_data st;
     pos_datas := pos_datas st; etym_datas := etym_datas st;
     page_datas := page_datas st; stack := v; diags := diags st;
     section_counts := section_counts st |}.

Definition add_diags (ds : list diag) (st : wstate) : wstate :=
  {| objs := objs st; base := base st; sense_data := sense_data st;
     pos_data := pos_data st; etym_data := etym_data st;
     pos_datas := pos_datas st; etym_datas := etym_datas st;
     page_datas := page_datas st; stack := stack st; diags := diags st ++ ds;
     section_counts := section_counts st |}.

Definition count_section (t : string) (st : wstate) : wstate :=
  {| objs := objs st; base := base st; sense_data := sense_data st;
     pos_data := pos_data st; etym_data := etym_data st;
     pos_datas := pos_datas st; etym_datas := etym_datas st;
     page_datas := page_datas st; stack := stack st; diags := diags st;
     section_counts := section_counts st ++ [t] |}.

(** [if not d]: the dictionary is empty. *)
Definition is_empty {A : Type} (d : list (string * A)) : bool :=
  match d with [] => true | _ => false end.

(** [push_sense()] *)
Definition push_sense (st : wstate) : wstate :=
  if is_empty (sense_data st) then st
  else
    {| objs := objs st; base := base st; sense_data := [];
       pos_data := pos_data st; etym_data := etym_data st;
       pos_datas := pos_datas st ++ [sense_data st];
       etym_datas := etym_datas st; page_datas := page_datas st;
       stack := stack st; diags := diags st;
       section_counts := section_counts st |}.

(** [for data in datas: merge_base(data, scope); out.append(data)]: the
    lists, the merged buffers in their order and the warnings. *)
Fixpoint merge_all (ls : list_store) (datas : list buffer) (scope : buffer)
  : list_store * list buffer * list diag :=
  match datas with
  | [] => (ls, [], [])
  | data :: rest =>
      let m := merge_base ls data scope in
      let '(ls', merged, ds) := merge_all (m_lists m) rest scope in
      (ls', m_data m :: merged, m_diags m ++ ds)
  end.

(** [push_pos()] *)
Definition push_pos (st : wstate) : wstate :=
  let st := push_sense st in
  let '(ls, merged, ds) := merge_all (objs st) (pos_datas st) (pos_data st) in
  {| objs := ls; base := base st; sense_data := sense_data st;
     pos_data := []; etym_data := etym_data st; pos_datas := [];
     etym_datas := etym_datas st ++ merged; page_datas := page_datas st;
     stack := stack st; diags := diags st ++ ds;
     section_counts := section_counts st |}.

(** [push_etym()] *)
Definition push_etym (st : wstate) : wstate :=
  let st := push_pos st in
  let '(ls, merged, ds) := merge_all (objs st) (etym_datas st) (etym_data st) in
  {| objs := ls; base := base st; sense_data := sense_data st;
     pos_data := pos_data st; etym_data := []; pos_datas := pos_datas st;
     etym_datas := []; page_datas := page_datas st ++ merged;
     stack := stack st; diags := diags st ++ ds;
     section_counts := section_counts st |}.
(** The match of an opening parenthesised qualifier, an optional colon and
    white space at the start of a gloss: group 1 and the text after the
    match. *)
Definition qualifier_head (gloss : string) : option (string * string) :=
  match gloss with
  | String c rest =>
      if Ascii.eqb c "(" then
        match find rest ")" with
        | Some i =>
            let after := drop_chars (i + 1) rest in
            let after := if startswith after ":" then drop_chars 1 after
                         else after in
            Some (substring 0 i rest, lstrip after)
        | None => None
        end
      else None
  | EmptyString => None
  end.

(** The parts of speech that a head template name may end with. *)
Definition head_words : list string :=
  ["plural-noun"; "plural noun"; "noun"; "verb"; "adj"; "adv";
   "name"; "proper-noun"; "proper noun"; "prop"; "pron"; "phrase";
   "decl noun"; "decl-noun"; "prefix"; "clitic"; "number"; "ordinal";
   "syllable"; "suffix"; "affix"; "pos"; "gerund"; "combining form";
   "combining-form"; "converb"; "cont"; "con"; "interj"; "det"; "part";
   "part-form"; "postp"; "prep"].

(** [re.search(head_tag_re, name)]: [head] or [Han char], or a language
    code, a dash, one of [head_words], and a dash or the end. *)
Definition is_head_tag (codes : list string) (name : string) : bool :=
  in_names name ["head"; "Han char"; "head" +++ newline; "Han char" +++ newline]
  || existsb (fun code =>
                startswith name (code +++ "-")
                && existsb (word_then_end_or_dash
                              (drop_chars (String.length code + 1) name))
                           head_words)
             codes.

(** The search of a dash, one of the conjugation words, and a dash or the
    end, anywhere in a template name. *)
Fixpoint is_decl_conj_template (name : string) : bool :=
  match name with
  | EmptyString => false
  | String c rest =>
      (Ascii.eqb c "-"
       && existsb (word_then_end_or_dash rest)
                  ["conj"; "decl"; "ndecl"; "adecl"; "infl"; "conjugation";
                   "declension"; "inflection"])
      || is_decl_conj_template rest
  end.

(** [re.split(r"\n\n+", s)]: [nl] newlines are pending after [cur]. *)
Fixpoint split_paragraphs_go (s : string) (nl : nat) (cur : string)
  : list string :=
  match s with
  | EmptyString =>
      match nl with
      | 0 => [cur]
      | 1 => [cur +++ newline]
      | _ => [cur; EmptyString]
      end
  | String c s' =>
      if Nat.eqb (nat_of_ascii c) 10 then split_paragraphs_go s' (S nl) cur
      else
        match nl with
        | 0 => split_paragraphs_go s' 0 (cur +++ String c EmptyString)
        | 1 => split_paragraphs_go s' 0 (cur +++ newline +++ String c EmptyString)
        | _ => cur :: split_paragraphs_go s' 0 (String c EmptyString)
        end
  end.

Definition split_paragraphs (s : string) : list string :=
  split_paragraphs_go s 0 EmptyString.

Example split_paragraphs_examples :
  split_paragraphs ("a" +++ newline +++ "b" +++ newline +++ newline
                    +++ newline +++ "c" +++ newline +++ newline)
  = ["a" +++ newline +++ "b"; "c"; ""].
Proof. reflexivity. Qed.

(** The first part of a part-of-speech section: [pre], [lists] and
    [first_para] while the children are gone through. *)
Record pos_scan : Type := {
  pre : list node;
  lists : list node;
  first_para : bool
}.

(** [for p in re.split(...)] over one string child. *)
Fixpoint scan_paragraphs (ps : list string) (sc : pos_scan) : pos_scan :=
  match ps with
  | [] => sc
  | p :: rest =>
      match pre sc with
      | _ :: _ => {| pre := pre sc; lists := lists sc; first_para := false |}
      | [] =>
          scan_paragraphs rest
            (if String.eqb p "" then sc
             else {| pre := pre sc ++ [Text p]; lists := lists sc;
                     first_para := first_para sc |})
      end
  end.

(** [for node in posnode.children], up to its [break]. *)
Fixpoint scan_pos_children (children : list node) (sc : pos_scan) : pos_scan :=
  match children with
  | [] => sc
  | Text s :: rest =>
      scan_pos_children rest (scan_paragraphs (split_paragraphs s) sc)
  | WikiNode kind sarg nargs ch :: rest =>
      if NodeKind_eqb kind LIST then
        {| pre := pre sc; lists := lists sc ++ [WikiNode kind sarg nargs ch];
           first_para := first_para sc |}
      else if is_level kind then sc
      else if first_para sc then
        scan_pos_children rest
          {| pre := pre sc ++ [WikiNode kind sarg nargs ch];
             lists := lists sc; first_para := first_para sc |}
      else scan_pos_children rest sc
  end.

(** [x.kind not in (NodeKind.LIST,)] or [x] is a string *)
Definition not_a_list (n : node) : bool :=
  match n with
  | Text _ => true
  | WikiNode kind _ _ _ => negb (NodeKind_eqb kind LIST)
  end.

(** The last character of [s] is a colon; [None] when [s] is empty
    ([s[-1]] raises). *)
Definition ends_with_colon (s : string) : option bool :=
  if String.eqb s "" then None else Some (endswith s ":").

Section Walk.
Variable E : collaborators.
Variable cfg : config.

(** A buffer together with the lists: what an extractor works on. *)
Definition scoped := (list_store * buffer)%type.

(** [sense_template_fn(name, ht)], on [sense_data]. *)
Definition sense_template_fn : template_fn scoped :=
  fun name args sense =>
    if in_names name ["LDL"] then (Some "", sense)
    else if in_names name ["syn"; "synonyms"] then
      ((Some "",
        (fix loop (idx : list nat) (d : scoped) : scoped :=
           match idx with
           | [] => d
           | i :: rest =>
               match ht_get (KInt i) args with
               | None => d
               | Some w =>
                   if String.eqb w "" then d
                   else loop rest (data_append_ref d "synonyms"
                                     (VDict [("word", VStr w)]))
               end
           end) (seq 2 18) sense))
    else (None, sense).

(** The gloss of a list item after the qualifiers that open it are taken
    off: the qualifiers, if any, and the gloss. *)
Definition split_gloss (gloss : string) : option string * string :=
  let '(q, gloss) :=
    match qualifier_head gloss with
    | Some (q, rest) => (Some q, strip rest)
    | None => (None, gloss)
    end in
  (q, if startswith gloss ", " then drop_chars 2 gloss else gloss).

(** [parse_sense(pos, node)] nested in [parse_language], for a list item
    with the given children. *)
Definition parse_sense_item (pos : string) (children : list node)
           (st : wstate) : wstate :=
  let st := push_sense st in
  let lst := filter not_a_list children in
  let '(gloss, sense) :=
    clean_node E sense_template_fn lst (objs st, sense_data st) in
  let ds := if String.eqb gloss ""
            then [Warning (pos +++ ": empty gloss")] else [] in
  let '(q, gloss) := split_gloss gloss in
  let sense :=
    match q with
    | Some q =>
        data_append_all sense
          (parse_sense_tags E q (deref (fst sense) (snd sense)))
    | None => sense
    end in
  add_diags ds (set_sense_data (data_append_ref sense "glosses" (VStr gloss)) st).

(** The dictionary that a head or conjugation template is recorded as
    ([decode_html_entities] leaves a key that is a number as it is; it is
    written in decimal here). *)
Definition template_record (name : string) (args : ht) : value :=
  VDict (set_key "template_name" (VStr name)
           (fold_left (fun d kv =>
                         set_key (match fst kv with
                                  | KInt n => decimal n
                                  | KStr s => html_unescape E s
                                  end)
                                 (VStr (html_unescape E (snd kv))) d)
                      args [])).

(** [head_template_fn(name, ht)], on [pos_data]. *)
Definition head_template_fn : template_fn scoped :=
  fun name args pos_data =>
    if in_names name ["examples"; "wikipedia"; "stroke order"; "zh-forms"]
    then (Some "", pos_data)
    else if String.eqb name "number box" then (Some "", pos_data)
    else if String.eqb name "enum" then (Some "", pos_data)
    else if String.eqb name "Han simplified forms" then (Some "", pos_data)
    else if String.eqb name "ja-kanji forms" then (Some "", pos_data)
    else if is_head_tag (language_codes E) name
    then (None, data_append_ref pos_data "heads" (template_record name args))
    else (None, pos_data).

(** The loop over the children of the sense list; [None] when a child is
    a string or a list item without a prefix, which raises. *)
Fixpoint parse_sense_list (pos : string) (items : list node) (st : wstate)
  : option wstate :=
  match items with
  | [] => Some st
  | Text _ :: _ => None
  | WikiNode kind sarg _ children :: rest =>
      if negb (NodeKind_eqb kind LIST_ITEM) then
        parse_sense_list pos rest
          (add_diags [Warning (pos +++ ": non-list-item inside list")] st)
      else
        match ends_with_colon sarg with
        | None => None
        | Some true => parse_sense_list pos rest st
        | Some false =>
            parse_sense_list pos rest (parse_sense_item pos children st)
        end
  end.

Fixpoint parse_sense_lists (pos : string) (ls : list node) (st : wstate)
  : option wstate :=
  match ls with
  | [] => Some st
  | Text _ :: _ => None
  | WikiNode _ _ _ children :: rest =>
      match parse_sense_list pos children st with
      | Some st' => parse_sense_lists pos rest st'
      | None => None
      end
  end.

(** [pos_data["pos"] = pos] *)
Definition set_pos (pos : string) (st : wstate) : wstate :=
  set_pos_data (objs st, set_key "pos" (SStr pos) (pos_data st)) st.

(** [parse_part_of_speech(posnode, pos)], for the children of [posnode]. *)
Definition parse_part_of_speech (children : list node) (pos : string)
           (st : wstate) : option wstate :=
  let st := set_pos pos st in
  let sc := scan_pos_children children
              {| pre := []; lists := []; first_para := true |} in
  match lists sc with
  | [] => Some (add_diags [Warning (pos +++ ": no sense list found")] st)
  | ls =>
      let '(text, pd) :=
        clean_node E head_template_fn (pre sc) (objs st, pos_data st) in
      let pd := data_append_all pd
                  (parse_word_head E pos text (deref (fst pd) (snd pd))) in
      parse_sense_lists pos ls (set_pos_data pd st)
  end.

(** [parse_pronunciation_template_fn(name, ht)], on [enprs] and [audios]. *)
Definition parse_pronunciation_template_fn
  : template_fn (list string * list value) :=
  fun name args s =>
    let '(enprs, audios) := s in
    if String.eqb name "enPR" then
      match ht_get (KInt 1) args with
      | Some enpr =>
          (Some "", (if String.eqb enpr "" then enprs else enprs ++ [enpr],
                     audios))
      | None => (Some "", s)
      end
    else if String.eqb name "audio" then
      let filename := match ht_get (KInt 2) args with Some f => f | None => "" end in
      let desc := match ht_get (KInt 3) args with Some d => d | None => "" end in
      let audio := [("file", VStr filename)] in
      let audio := match re_audio_tags E desc with
                   | Some tags => parse_pronunciation_tags E tags audio
                   | None => audio
                   end in
      let audio := if String.eqb desc "" then audio
                   else set_key "text" (VStr desc) audio in
      (Some "", (enprs, audios ++ [VDict audio]))
    else if in_names name ["picdic"; "picdicimg"; "langname"] then (Some "", s)
    else (None, s).

(** What one turn of [for origtext in text.split("*")] appends, in order:
    the key and the value of each [data_append]. *)
Definition pronunciation_piece (enprs : list string) (audios : list value)
           (origtext : string) : list (string * value) :=
  let '(tagstext, text) :=
    match re_pron_tags E origtext with
    | Some (tags, rest) => (tags, rest)
    | None => ("", origtext)
    end in
  let field := if contains origtext "IPA" then "ipa" else "other" in
  let sound (k v : string) : string * value :=
    ("sounds", VDict (parse_pronunciation_tags E tagstext [(k, VStr v)])) in
  match re_tokyo E origtext with
  | Some p => [sound field p]
  | None => []
  end
  ++ match re_rhymes E text with
     | Some endings =>
         flat_map (fun ending =>
                     if String.eqb (strip ending) "" then []
                     else [sound "rhymes" (strip ending)])
                  (split endings ",")
     | None => []
     end
  ++ map (sound field) (re_transcriptions E text)
  ++ map (sound "enpr") enprs
  ++ map (fun a => ("sounds", a)) audios
  ++ match re_syllabification E text with
     | Some s => [("syllabification", VStr s)]
     | None => []
     end.

(** Everything [parse_pronunciation] appends to the dictionary it chose. *)
Definition pronunciation_appends (children : list node)
  : list (string * value) :=
  let '(text, (enprs, audios)) :=
    clean_node E parse_pronunciation_template_fn children ([], []) in
  flat_map (pronunciation_piece enprs audios) (split text "*").

(** [parse_pronunciation(node)] for a heading with the given children:
    [data = etym_data if etym_data else base]. *)
Definition parse_pronunciation (children : list node) (st : wstate) : wstate :=
  if negb (is_empty (etym_data st))
  then set_etym_data
         (data_append_all (objs st, etym_data st) (pronunciation_appends children))
         st
  else set_base
         (data_append_all (objs st, base st) (pronunciation_appends children))
         st.

(** [decl_conj_template_fn(name, ht)], on [pos_data]. *)
Definition decl_conj_template_fn : template_fn scoped :=
  fun name args pos_data =>
    if is_decl_conj_template name
    then (Some "",
          data_append_ref pos_data "conjugation" (template_record name args))
    else (None, pos_data).

(** [parse_declension_conjugation(node)] *)
Definition parse_declension_conjugation (n : node) (st : wstate) : wstate :=
  set_pos_data
    (snd (run_expansion decl_conj_template_fn (node_to_html E n)
            (objs st, pos_data st)))
    st.

(** What [parse_translations(data, xlatnode)] appends to [data]. *)
Definition translation_appends (n : node) : list (string * value) :=
  map (fun it =>
         match it with
         | ToBeChecked => ("tags", VStr "to be checked")
         | Translation tr => ("translations", tr)
         end)
      (fst (translation_items E n)).

Definition in_pos_map (s : string) : bool :=
  match part_of_speech_map E s with Some _ => true | None => false end.

(** [if stack[-1] in part_of_speech_map: data = pos_data else: data =
    etym_data], then an extractor that appends [kvs] to [data] and reports
    [ds]. *)
Definition into_pos_or_etym (kvs : list (string * value)) (ds : list diag)
           (st : wstate) : wstate :=
  add_diags ds
    (if in_pos_map (last (stack st) "")
     then set_pos_data (data_append_all (objs st, pos_data st) kvs) st
     else set_etym_data (data_append_all (objs st, etym_data st) kvs) st).

(** [parse_translations(data, node)] after the choice of [data]. *)
Definition parse_translations (n : node) (st : wstate) : wstate :=
  into_pos_or_etym (translation_appends n) (snd (translation_items E n)) st.

(** [parse_linkage(data, field, node)] nested in [parse_language], after
    the choice of [data]. *)
Definition parse_linkage_section (field : string) (n : node) (st : wstate)
  : wstate :=
  into_pos_or_etym (fst (linkage_items E field n))
                   (snd (linkage_items E field n)) st.

Definition pop_stack (st : wstate) : wstate :=
  set_stack (removelast (stack st)) st.

Definition push_stack (t : string) (st : wstate) : wstate :=
  set_stack (stack st ++ [t]) st.

Definition opt_diag (w : option string) (mk : string -> diag) : list diag :=
  match w with Some m => [mk m] | None => [] end.

(** The title of a heading: [clean_node(config, ctx, node.args)]. *)
Definition heading_title (nargs : list node) : string :=
  fst (clean_node E (no_template_fn unit) nargs tt).

(** The start of a part-of-speech section, up to [parse_part_of_speech]:
    the flush, the diagnostics of the table entry, and its tags. *)
Definition enter_pos (t : string) (dt : pos_info) (st : wstate) : wstate :=
  let st := push_pos st in
  let st := add_diags
              (opt_diag (pi_warning dt) (fun m => Warning (t +++ ": " +++ m))
               ++ opt_diag (pi_error dt) (fun m => ErrorMsg (t +++ ": " +++ m)))
              st in
  match pi_tags dt with
  | Some tags =>
      set_pos_data
        (data_extend_ref (objs st, pos_data st) "tags" (map VStr tags)) st
  | None => st
  end.

(** One turn of [for node in langnode.children] of [process_children]. *)
Fixpoint process_node (n : node) (st : wstate) {struct n} : option wstate :=
  match n with
  | Text _ => Some st
  | WikiNode kind sarg nargs children =>
      if negb (is_sublevel kind) then Some st
      else
        let recurse :=
          fix loop (l : list node) (s : wstate) {struct l} : option wstate :=
            match l with
            | [] => Some s
            | c :: l' =>
                match process_node c s with
                | Some s' => loop l' s'
                | None => None
                end
            end in
        let t := heading_title nargs in
        let pos := lower E t in
        if String.eqb t "Pronunciation" then
          if capture_pronunciation cfg then
            let st := parse_pronunciation children st in
            if negb (has_key "sounds" (etym_data st))
               && negb (has_key "sounds" (base st))
            then Some (add_diags
                         [Warning "no pronunciations found from pronunciation section"]
                         st)
            else Some st
          else Some st
        else if startswith t "Etymology" then
          match recurse children (push_stack t (push_etym st)) with
          | Some st' => Some (pop_stack st')
          | None => None
          end
        else
          match part_of_speech_map E pos with
          | Some dt =>
              match parse_part_of_speech children (pi_pos dt)
                      (enter_pos t dt st) with
              | Some st =>
                  match recurse children (push_stack (pi_pos dt) st) with
                  | Some st' => Some (pop_stack st')
                  | None => None
                  end
              | None => None
              end
          | None =>
              let this := WikiNode kind sarg nargs children in
              if String.eqb t "Translations" then
                Some (parse_translations this st)
              else if in_names t ["Declension"; "Conjugation"] then
                Some (parse_declension_conjugation this st)
              else if in_names pos ["hypernyms"; "hyponyms"; "antonyms";
                                    "synonyms"; "abbreviations"; "proverbs"] then
                Some (parse_linkage_section pos this st)
              else if String.eqb pos "compounds" then
                if capture_compounds cfg then
                  Some (parse_linkage_section "compounds" this st)
                else Some st
              else if String.eqb pos "derived terms" then
                Some (parse_linkage_section "derived" this st)
              else if in_names pos ["related terms"; "related characters"] then
                Some (parse_linkage_section "related" this st)
              else if in_names t ["Anagrams"; "Further reading"; "References";
                                  "Quotations"; "Descendants"] then
                Some st
              else
                match recurse children (push_stack t (count_section t st)) with
                | Some st' => Some (pop_stack st')
                | None => None
                end
          end
  end.

(** [process_children(langnode)], for the children of [langnode]. *)
Fixpoint process_children (l : list node) (st : wstate) : option wstate :=
  match l with
  | [] => Some st
  | c :: l' =>
      match process_node c st with
      | Some st' => process_children l' st'
      | None => None
      end
  end.

(** The state [parse_language] starts from. *)
Definition start_state (title language lang_code : string) : wstate :=
  {| objs := [];
     base := [("word", SStr title); ("lang", SStr language);
              ("lang_code", SStr lang_code)];
     sense_data := []; pos_data := []; etym_data := [];
     pos_datas := []; etym_datas := []; page_datas := [];
     stack := []; diags := []; section_counts := [] |}.

(** The state when the walk over the sections is over, before the last
    scopes are flushed. *)
Definition walked (title language lang_code : string) (children : list node)
  : option wstate :=
  match process_children children
          (push_stack "TOP" (start_state title language lang_code)) with
  | Some st => Some (pop_stack st)
  | None => None
  end.

(** [parse_language(ctx, config, langnode, language, lang_code)], where
    [title] is [ctx.title] and [children] are the children of [langnode]:
    the records returned, as the values they hold on return, and the
    diagnostics; [None] when it raises. *)
Definition parse_language (title language lang_code : string)
           (children : list node) : option (list record * list diag) :=
  match walked title language lang_code children with
  | Some st =>
      let st := push_etym st in
      let '(ls, ret, ds) := merge_all (objs st) (page_datas st) (base st) in
      Some (map (deref ls) ret, diags st ++ ds)
  | None => None
  end.

End Walk.

(** ** A small environment for the examples

    Rendering gives the text of a node, a template asks the hook and
    renders as the empty text otherwise; the tables know three parts of
    speech; a qualifier becomes a tag; a transcription is what stands
    between two slashes. *)

Fixpoint node_text (n : node) : string :=
  match n with
  | Text s => s
  | WikiNode _ _ _ children =>
      (fix all (l : list node) : string :=
         match l with
         | [] => EmptyString
         | c :: l' => node_text c +++ all l'
         end) children
  end.

(** The positional arguments of a template node, numbered from 1 (the
    name is argument 0 of the node). *)
Fixpoint positional (i : nat) (l : list node) : ht :=
  match l with
  | [] => []
  | a :: l' => (KInt i, node_text a) :: positional (S i) l'
  end.

(** The rendering of a node: the texts in it, and for each template in it
    the answer of the hook, or nothing when the hook gives [None]. *)
Fixpoint to_html (n : node) (k : string -> expansion) : expansion :=
  match n with
  | Text s => k s
  | WikiNode TEMPLATE _ (name :: args) _ =>
      Ask (node_text name) (positional 1 args)
          (fun answer => k (match answer with Some s => s | None => "" end))
  | WikiNode _ _ _ children =>
      (fix all (l : list node) (k : string -> expansion) : expansion :=
         match l with
         | [] => k EmptyString
         | c :: l' => to_html c (fun s => all l' (fun r => k (s +++ r)))
         end) children k
  end.

Definition example_to_html (n : node) : expansion := to_html n Rendered.

Definition example_pos_map (s : string) : option pos_info :=
  if String.eqb s "noun" then
    Some {| pi_pos := "noun"; pi_tags := None; pi_warning := None;
            pi_error := None |}
  else if String.eqb s "verb" then
    Some {| pi_pos := "verb"; pi_tags := None; pi_warning := None;
            pi_error := None |}
  else if String.eqb s "adjective" then
    Some {| pi_pos := "adj"; pi_tags := None; pi_warning := None;
            pi_error := None |}
  else None.

(** The texts between two slashes that hold neither a slash nor a comma. *)
Fixpoint slashed (s : string) (open : option string) : list string :=
  match s with
  | EmptyString => []
  | String c s' =>
      if Ascii.eqb c "/" then
        match open with
        | Some inner =>
            if String.eqb inner "" then slashed s' (Some "")
            else ("/" +++ inner +++ "/") :: slashed s' None
        | None => slashed s' (Some "")
        end
      else if Ascii.eqb c "," then slashed s' None
      else
        match open with
        | Some inner => slashed s' (Some (inner +++ String c EmptyString))
        | None => slashed s' None
        end
  end.

(** The entries of a list node, each as the dictionary of a word. *)
Definition entry_words (n : node) : list value :=
  match n with
  | Text _ => []
  | WikiNode _ _ _ children =>
      flat_map (fun c =>
                  match c with
                  | WikiNode LIST _ _ items =>
                      map (fun i => VDict [("word", VStr (strip (node_text i)))])
                          items
                  | _ => []
                  end) children
  end.

Definition example_env : collaborators :=
  {| clean_value := strip;
     html_unescape := fun s => s;
     language_codes := ["en"; "de"];
     part_of_speech_map := example_pos_map;
     node_to_html := example_to_html;
     parse_word_head := fun pos text _ =>
       if String.eqb text "" then [] else [("forms", VDict [("form", VStr text)])];
     parse_sense_tags := fun q _ => [("tags", VStr q)];
     parse_pronunciation_tags := fun tags d =>
       if String.eqb tags "" then d else set_key "tags" (VList [VStr tags]) d;
     translation_items := fun n => (map Translation (entry_words n), []);
     linkage_items := fun field n =>
       (map (fun w => (field, w)) (entry_words n), []);
     re_audio_tags := fun _ => None;
     re_pron_tags := fun _ => None;
     re_tokyo := fun _ => None;
     re_rhymes := fun _ => None;
     re_transcriptions := fun text => slashed text None;
     re_syllabification := fun _ => None;
     lower := lower_ascii |}.

Definition heading (kind : NodeKind) (title : string) (children : list node)
  : node :=
  WikiNode kind "" [Text title] children.

Definition sense_list (glosses : list string) : node :=
  WikiNode LIST "#" []
    (map (fun g => WikiNode LIST_ITEM "#" [] [Text g]) glosses).

(** ** The walk: equations and first facts *)

Section WalkFacts.
Variable E : collaborators.
Variable cfg : config.

(** [process_node] on a heading, with [process_children] for the walk over
    its children. *)
Lemma process_node_heading kind sarg nargs children st :
  is_sublevel kind = true ->
  process_node E cfg (WikiNode kind sarg nargs children) st =
  let t := heading_title E nargs in
  let pos := lower E t in
  if String.eqb t "Pronunciation" then
    if capture_pronunciation cfg then
      let st := parse_pronunciation E children st in
      if negb (has_key "sounds" (etym_data st))
         && negb (has_key "sounds" (base st))
      then Some (add_diags
                   [Warning "no pronunciations found from pronunciation section"]
                   st)
      else Some st
    else Some st
  else if startswith t "Etymology" then
    match process_children E cfg children (push_stack t (push_etym st)) with
    | Some st' => Some (pop_stack st')
    | None => None
    end
  else
    match part_of_speech_map E pos with
    | Some dt =>
        match parse_part_of_speech E children (pi_pos dt)
                (enter_pos t dt st) with
        | Some st =>
            match process_children E cfg children
                    (push_stack (pi_pos dt) st) with
            | Some st' => Some (pop_stack st')
            | None => None
            end
        | None => None
        end
    | None =>
        let this := WikiNode kind sarg nargs children in
        if String.eqb t "Translations" then
          Some (parse_translations E this st)
        else if in_names t ["Declension"; "Conjugation"] then
          Some (parse_declension_conjugation E this st)
        else if in_names pos ["hypernyms"; "hyponyms"; "antonyms";
                              "synonyms"; "abbreviations"; "proverbs"] then
          Some (parse_linkage_section E pos this st)
        else if String.eqb pos "compounds" then
          if capture_compounds cfg then
            Some (parse_linkage_section E "compounds" this st)
          else Some st
        else if String.eqb pos "derived terms" then
          Some (parse_linkage_section E "derived" this st)
        else if in_names pos ["related terms"; "related characters"] then
          Some (parse_linkage_section E "related" this st)
        else if in_names t ["Anagrams"; "Further reading"; "References";
                            "Quotations"; "Descendants"] then
          Some st
        else
          match process_children E cfg children
                  (push_stack t (count_section t st)) with
          | Some st' => Some (pop_stack st')
          | None => None
          end
    end.
Proof.
  intros Hk. cbn [process_node]. rewrite Hk. reflexivity.
Qed.

(** A node that [process_children] passes over: a string, or a node that
    is not a heading of level 3 to 6. *)
Definition passed_over (n : node) : bool :=
  match n with
  | Text _ => true
  | WikiNode kind _ _ _ => negb (is_sublevel kind)
  end.

Lemma process_node_passed_over n st :
  passed_over n = true -> process_node E cfg n st = Some st.
Proof.
  destruct n as [s|kind sarg nargs children]; cbn [passed_over process_node].
  - reflexivity.
  - intros ->. reflexivity.
Qed.

Lemma process_children_passed_over l : forall st,
  forallb passed_over l = true -> process_children E cfg l st = Some st.
Proof.
  induction l as [|n l IH]; intros st H; cbn [process_children forallb] in *.
  - reflexivity.
  - apply andb_true_iff in H. destruct H as [Hn Hl].
    rewrite process_node_passed_over by exact Hn. now apply IH.
Qed.

Lemma process_children_app l1 : forall l2 st,
  process_children E cfg (l1 ++ l2) st =
  match process_children E cfg l1 st with
  | Some st' => process_children E cfg l2 st'
  | None => None
  end.
Proof.
  induction l1 as [|n l1 IH]; intros l2 st; cbn [process_children app].
  - reflexivity.
  - destruct (process_node E cfg n st); auto.
Qed.

Lemma sense_data_push_sense st : sense_data (push_sense st) = [].
Proof.
  unfold push_sense. destruct (sense_data st) eqn:Es; cbn; auto.
Qed.

Lemma push_sense_idle st : sense_data st = [] -> push_sense st = st.
Proof. unfold push_sense. now intros ->. Qed.

Lemma merge_all_length scope : forall datas ls,
  List.length (snd (fst (merge_all ls datas scope))) = List.length datas.
Proof.
  induction datas as [|d datas IH]; intros ls; cbn [merge_all]; auto.
  specialize (IH (m_lists (merge_base ls d scope))).
  destruct (merge_all (m_lists (merge_base ls d scope)) datas scope)
    as [[ls' merged] ds].
  cbn in *. now rewrite IH.
Qed.

Lemma push_pos_clears st :
  sense_data (push_pos st) = [] /\ pos_datas (push_pos st) = []
  /\ pos_data (push_pos st) = [].
Proof.
  unfold push_pos.
  destruct (merge_all (objs (push_sense st)) (pos_datas (push_sense st))
              (pos_data (push_sense st))) as [[ls merged] ds].
  cbn [sense_data pos_datas pos_data].
  split; [apply sense_data_push_sense | split; reflexivity].
Qed.

(** A flush with no sense collected: the part-of-speech buffer is dropped
    and nothing else changes. *)
Lemma push_pos_nothing_collected st :
  sense_data st = [] -> pos_datas st = [] ->
  push_pos st =
  {| objs := objs st; base := base st; sense_data := [];
     pos_data := []; etym_data := etym_data st; pos_datas := [];
     etym_datas := etym_datas st; page_datas := page_datas st;
     stack := stack st; diags := diags st;
     section_counts := section_counts st |}.
Proof.
  intros Hs Hp. unfold push_pos. rewrite (push_sense_idle st Hs).
  rewrite Hp. cbn [merge_all]. cbv beta iota zeta.
  rewrite !app_nil_r, Hs. reflexivity.
Qed.

End WalkFacts.

(** ** Sections that collect no sense *)

Section LeafSections.
Variable E : collaborators.
Variable cfg : config.

(** The headings that [process_children] hands to one extractor and does
    not walk into: Pronunciation, Translations, Declension and Conjugation,
    the linkage sections, and the sections it leaves alone. *)
Definition leaf_title (t : string) : bool :=
  String.eqb t "Pronunciation"
  || (negb (startswith t "Etymology")
      && negb (in_pos_map E (lower E t))
      && (String.eqb t "Translations"
          || in_names t ["Declension"; "Conjugation"]
          || in_names (lower E t) ["hypernyms"; "hyponyms"; "antonyms";
                                 "synonyms"; "abbreviations"; "proverbs"]
          || String.eqb (lower E t) "compounds"
          || String.eqb (lower E t) "derived terms"
          || in_names (lower E t) ["related terms"; "related characters"]
          || in_names t ["Anagrams"; "Further reading"; "References";
                         "Quotations"; "Descendants"])).

(** A heading that [process_children] does not recognize: it counts the
    section and walks into it. *)
Definition walked_title (t : string) : bool :=
  negb (String.eqb t "Pronunciation")
  && negb (startswith t "Etymology")
  && negb (in_pos_map E (lower E t))
  && negb (leaf_title t).

(** A child that brings no sense: passed over, the heading of a section
    that is not walked into, or a heading that is not recognized over
    children that bring no sense. *)
Fixpoint brings_no_sense (n : node) : bool :=
  match n with
  | Text _ => true
  | WikiNode kind _ nargs children =>
      negb (is_sublevel kind) || leaf_title (heading_title E nargs)
      || (walked_title (heading_title E nargs)
          && forallb brings_no_sense children)
  end.

(** The buffers of collected senses, and the stack, are the same in both
    states. *)
Definition same_collected (st st' : wstate) : Prop :=
  sense_data st' = sense_data st /\ pos_datas st' = pos_datas st
  /\ etym_datas st' = etym_datas st /\ page_datas st' = page_datas st
  /\ stack st' = stack st.

Lemma same_collected_refl st : same_collected st st.
Proof. repeat split. Qed.

Lemma same_collected_trans a b c :
  same_collected a b -> same_collected b c -> same_collected a c.
Proof.
  unfold same_collected. intuition congruence.
Qed.

Lemma into_pos_or_etym_same kvs ds st :
  same_collected st (into_pos_or_etym E kvs ds st).
Proof.
  unfold into_pos_or_etym.
  destruct (in_pos_map E (last (stack st) "")); repeat split.
Qed.

Lemma parse_pronunciation_same children st :
  same_collected st (parse_pronunciation E children st).
Proof.
  unfold parse_pronunciation.
  destruct (negb (is_empty (etym_data st))); repeat split.
Qed.

(** A heading that is not recognized: the section is counted and its
    children are walked. *)
Lemma process_node_walked kind sarg nargs children st :
  is_sublevel kind = true ->
  walked_title (heading_title E nargs) = true ->
  process_node E cfg (WikiNode kind sarg nargs children) st
  = match process_children E cfg children
            (push_stack (heading_title E nargs)
               (count_section (heading_title E nargs) st)) with
    | Some st' => Some (pop_stack st')
    | None => None
    end.
Proof.
  intros Hk Hw. rewrite process_node_heading by exact Hk. cbv zeta.
  unfold walked_title in Hw.
  apply andb_true_iff in Hw. destruct Hw as [Hw Hleaf].
  apply andb_true_iff in Hw. destruct Hw as [Hw Hpos].
  apply andb_true_iff in Hw. destruct Hw as [Hp Het].
  apply negb_true_iff in Hp, Het, Hpos, Hleaf.
  unfold leaf_title in Hleaf. rewrite Hp, Het, Hpos in Hleaf.
  cbn [negb andb orb] in Hleaf.
  rewrite Hp, Het. unfold in_pos_map in Hpos.
  destruct (part_of_speech_map E (lower E (heading_title E nargs)));
    [discriminate|].
  repeat match goal with
         | H : (_ || _) = false |- _ =>
             apply orb_false_iff in H; destruct H
         end.
  repeat match goal with
         | H : ?x = false |- context [?x] => rewrite H
         end.
  reflexivity.
Qed.

Lemma brings_no_sense_node kind sarg nargs children :
  brings_no_sense (WikiNode kind sarg nargs children)
  = negb (is_sublevel kind) || leaf_title (heading_title E nargs)
    || (walked_title (heading_title E nargs)
        && forallb brings_no_sense children).
Proof. reflexivity. Qed.

Lemma same_collected_walked t st s2 :
  same_collected (push_stack t (count_section t st)) s2 ->
  same_collected st (pop_stack s2).
Proof.
  intros (A & B & C & D & F). unfold same_collected, pop_stack.
  cbn [sense_data pos_datas etym_datas page_datas stack set_stack
       push_stack count_section] in *.
  rewrite F, removelast_last. auto.
Qed.

Lemma brings_no_sense_leaf kind sarg nargs children st :
  is_sublevel kind = true ->
  leaf_title (heading_title E nargs) = true ->
  exists st',
    process_node E cfg (WikiNode kind sarg nargs children) st = Some st'
    /\ same_collected st st'.
Proof.
  intros Hk Hleaf. rewrite process_node_heading by exact Hk. cbv zeta.
  unfold leaf_title in Hleaf.
  destruct (String.eqb (heading_title E nargs) "Pronunciation") eqn:Hp.
  - destruct (capture_pronunciation cfg).
    + pose proof (parse_pronunciation_same children st) as Hs.
      destruct (negb (has_key "sounds" (etym_data (parse_pronunciation E children st)))
                && negb (has_key "sounds" (base (parse_pronunciation E children st))));
        eexists; (split; [reflexivity|]); exact Hs.
    + exists st. split; [reflexivity | apply same_collected_refl].
  - cbn [orb] in Hleaf.
    apply andb_true_iff in Hleaf. destruct Hleaf as [Hleaf Hwhich].
    apply andb_true_iff in Hleaf. destruct Hleaf as [Het Hpos].
    apply negb_true_iff in Het. apply negb_true_iff in Hpos.
    rewrite Het. unfold in_pos_map in Hpos.
    destruct (part_of_speech_map E (lower E (heading_title E nargs)));
      try discriminate.
    destruct (String.eqb (heading_title E nargs) "Translations").
    { eexists. split; [reflexivity|]. apply into_pos_or_etym_same. }
    destruct (in_names (heading_title E nargs) ["Declension"; "Conjugation"]).
    { eexists. split; [reflexivity|]. repeat split. }
    destruct (in_names (lower E (heading_title E nargs))
                ["hypernyms"; "hyponyms"; "antonyms"; "synonyms";
                 "abbreviations"; "proverbs"]).
    { eexists. split; [reflexivity|]. apply into_pos_or_etym_same. }
    destruct (String.eqb (lower E (heading_title E nargs)) "compounds").
    { destruct (capture_compounds cfg); eexists; (split; [reflexivity|]);
        [apply into_pos_or_etym_same | apply same_collected_refl]. }
    destruct (String.eqb (lower E (heading_title E nargs)) "derived terms").
    { eexists. split; [reflexivity|]. apply into_pos_or_etym_same. }
    destruct (in_names (lower E (heading_title E nargs))
                ["related terms"; "related characters"]).
    { eexists. split; [reflexivity|]. apply into_pos_or_etym_same. }
    cbn [orb] in Hwhich. rewrite Hwhich.
    exists st. split; [reflexivity | apply same_collected_refl].
Qed.

Lemma brings_no_sense_step n :
  brings_no_sense n = true ->
  forall st,
  exists st', process_node E cfg n st = Some st' /\ same_collected st st'.
Proof.
  induction n as [s|kind sarg nargs children IH] using node_induction;
    intros Hn st.
  - exists st. split; [reflexivity | apply same_collected_refl].
  - rewrite brings_no_sense_node in Hn.
    destruct (is_sublevel kind) eqn:Hk; cbn [negb orb] in Hn.
    2:{ exists st. split; [|apply same_collected_refl].
        cbn [process_node]. now rewrite Hk. }
    destruct (leaf_title (heading_title E nargs)) eqn:Hleaf.
    { now apply brings_no_sense_leaf. }
    cbn [orb] in Hn. apply andb_true_iff in Hn. destruct Hn as [Hw Hch].
    rewrite (process_node_walked _ _ _ _ _ Hk Hw).
    assert (Hwalk : forall s, exists s',
              process_children E cfg children s = Some s'
              /\ same_collected s s').
    { clear - IH Hch. induction IH as [|c l Hc Hl IHl]; intros s;
        cbn [process_children].
      - exists s. split; [reflexivity | apply same_collected_refl].
      - cbn [forallb] in Hch. apply andb_true_iff in Hch.
        destruct Hch as [Hc' Hl'].
        destruct (Hc Hc' s) as (s1 & -> & S1).
        destruct (IHl Hl' s1) as (s2 & E2 & S2).
        exists s2. split; [exact E2 | eapply same_collected_trans; eauto]. }
    destruct (Hwalk (push_stack (heading_title E nargs)
                       (count_section (heading_title E nargs) st)))
      as (s2 & -> & S2).
    exists (pop_stack s2). split; [reflexivity|].
    eapply same_collected_walked; eauto.
Qed.

Lemma brings_no_sense_walk l : forall st,
  forallb brings_no_sense l = true ->
  exists st', process_children E cfg l st = Some st' /\ same_collected st st'.
Proof.
  induction l as [|n l IH]; intros st H; cbn [forallb process_children] in *.
  - exists st. split; [reflexivity | apply same_collected_refl].
  - apply andb_true_iff in H. destruct H as [Hn Hl].
    destruct (brings_no_sense_step n Hn st) as (st1 & E1 & S1).
    rewrite E1. destruct (IH st1 Hl) as (st2 & E2 & S2).
    exists st2. split; [exact E2 | eapply same_collected_trans; eauto].
Qed.

End LeafSections.

(** ** A part-of-speech section without a sense list *)

Definition no_scan : pos_scan :=
  {| pre := []; lists := []; first_para := true |}.

Lemma parse_part_of_speech_no_list (E : collaborators) children pos st :
  lists (scan_pos_children children no_scan) = [] ->
  parse_part_of_speech E children pos st
  = Some (add_diags [Warning (pos +++ ": no sense list found")]
            (set_pos pos st)).
Proof.
  intros H. unfold parse_part_of_speech. fold no_scan. now rewrite H.
Qed.

Definition template_node (name : string) (args : list string) : node :=
  WikiNode TEMPLATE "" (Text name :: map Text args) [].

(** A noun section with a declension table and no sense list. *)
Definition noun_without_senses : list node :=
  [Text "oak";
   heading LEVEL4 "Declension" [template_node "en-decl-noun" ["oaks"]]].

(** The declension table is collected into the part-of-speech buffer, and
    the language section still gives no record. *)
Example parse_language_pos_without_senses :
  (exists st, walked example_env cfg_all "oak" "English" "en"
                [heading LEVEL3 "Noun" noun_without_senses] = Some st
              /\ deref (objs st) (pos_data st)
                 = [("pos", FStr "noun");
                    ("conjugation",
                     FList [VDict [("1", VStr "oaks");
                                   ("template_name", VStr "en-decl-noun")]])])
  /\ parse_language example_env cfg_all "oak" "English" "en"
       [heading LEVEL3 "Noun" noun_without_senses]
     = Some ([], [Warning "noun: no sense list found"]).
Proof.
  split; [eexists; split; reflexivity | reflexivity].
Qed.

(** ** What an append reaches *)

Lemma data_append_ref_other_key ls (d : buffer) key v k :
  k <> key ->
  objects (fst (data_append_ref (ls, d) key v)) k = objects ls k
  /\ lookup k (snd (data_append_ref (ls, d) key v)) = lookup k d.
Proof.
  intros Hne. apply String.eqb_neq in Hne. unfold data_append_ref.
  destruct (lookup key d) as [[s|n]|]; cbn [fst snd new_object].
  - auto.
  - unfold extend_object. rewrite objects_set_key, Hne. auto.
  - rewrite objects_set_key, lookup_set_key, Hne. auto.
Qed.

(** A list that the buffer does not hold under [key] stays as it is, and
    the buffer does not come to hold it. *)
Lemma data_append_ref_other_list ls (d : buffer) key v n :
  n < List.length (objects ls key) ->
  lookup key d <> Some (SRef n) ->
  object (fst (data_append_ref (ls, d) key v)) key n = object ls key n
  /\ n < List.length (objects (fst (data_append_ref (ls, d) key v)) key)
  /\ lookup key (snd (data_append_ref (ls, d) key v)) <> Some (SRef n).
Proof.
  intros Hlt Hne. unfold data_append_ref.
  destruct (lookup key d) as [[s|m]|] eqn:El; cbn [fst snd new_object].
  - rewrite El. auto.
  - unfold extend_object, object.
    rewrite objects_set_key, String.eqb_refl, nth_set_nth, set_nth_length.
    rewrite El. split; [|auto].
    destruct (Nat.eqb n m) eqn:Enm; cbn [andb]; auto.
    apply Nat.eqb_eq in Enm. subst. contradiction.
  - unfold object. rewrite objects_set_key, String.eqb_refl.
    rewrite lookup_set_key_same, length_app. cbn [List.length].
    split; [|split].
    + now rewrite app_nth1.
    + lia.
    + intros H. inversion H. lia.
Qed.

Lemma data_append_all_other_key kvs : forall ls (d : buffer) k,
  ~ In k (map fst kvs) ->
  objects (fst (data_append_all (ls, d) kvs)) k = objects ls k
  /\ lookup k (snd (data_append_all (ls, d) kvs)) = lookup k d.
Proof.
  induction kvs as [|[key v] kvs IH]; intros ls d k Hni;
    cbn [data_append_all fold_left fst snd map In] in *; auto.
  destruct (data_append_ref (ls, d) key v) as [ls1 d1] eqn:E1.
  fold (data_append_all (ls1, d1) kvs).
  destruct (IH ls1 d1 k) as [A B]; [tauto|].
  destruct (data_append_ref_other_key ls d key v k) as [C D];
    [intros ->; tauto|].
  rewrite E1 in C, D. cbn [fst snd] in C, D. split; congruence.
Qed.

Lemma data_append_all_other_list kvs : forall ls (d : buffer) k n,
  n < List.length (objects ls k) ->
  lookup k d <> Some (SRef n) ->
  object (fst (data_append_all (ls, d) kvs)) k n = object ls k n.
Proof.
  unfold data_append_all.
  induction kvs as [|[key v] kvs IH]; intros ls d k n Hlt Hne;
    cbn [fold_left]; auto.
  change (data_append_ref (ls, d) (fst (key, v)) (snd (key, v)))
    with (data_append_ref (ls, d) key v).
  destruct (data_append_ref (ls, d) key v) as [ls1 d1] eqn:E1.
  destruct (String.eqb k key) eqn:Ek.
  - apply String.eqb_eq in Ek. subst key.
    destruct (data_append_ref_other_list ls d k v n Hlt Hne) as (A & B & C).
    rewrite E1 in A, B, C. cbn [fst snd] in A, B, C.
    rewrite <- A. apply IH; assumption.
  - apply String.eqb_neq in Ek.
    destruct (data_append_ref_other_key ls d key v k Ek) as [A B].
    rewrite E1 in A, B. cbn [fst snd] in A, B.
    transitivity (object ls1 k n).
    + apply IH; [now rewrite A | now rewrite B].
    + unfold object. now rewrite A.
Qed.

(** ** The target of parse_pronunciation *)

Section PronunciationTarget.
Variable E : collaborators.
Variable cfg : config.

Lemma pronunciation_piece_keys enprs audios origtext k :
  In k (map fst (pronunciation_piece E enprs audios origtext)) ->
  k = "sounds" \/ k = "syllabification".
Proof.
  unfold pronunciation_piece.
  destruct (re_pron_tags E origtext) as [[tags rest]|];
    rewrite !map_app, !in_app_iff, !map_map; cbn [fst];
    (intros [H|[H|[H|[H|[H|H]]]]];
     [ destruct (re_tokyo E origtext); cbn in H; intuition
     | match type of H with
       | In _ (map _ match ?r with _ => _ end) =>
           destruct r; [|destruct H];
           apply in_map_iff in H; destruct H as ([k' v'] & <- & H);
           apply in_flat_map in H; destruct H as (e & _ & H);
           destruct (String.eqb (strip e) ""); cbn in H; [destruct H|];
           destruct H as [H|[]]; inversion H; auto
       end
     | apply in_map_iff in H; destruct H as (? & <- & _); auto
     | apply in_map_iff in H; destruct H as (? & <- & _); auto
     | apply in_map_iff in H; destruct H as (? & <- & _); auto
     | match type of H with
       | In _ (map _ match ?r with _ => _ end) =>
           destruct r; cbn in H; intuition
       end ]).
Qed.

Lemma pronunciation_appends_keys children k :
  In k (map fst (pronunciation_appends E children)) ->
  k = "sounds" \/ k = "syllabification".
Proof.
  unfold pronunciation_appends.
  destruct (clean_node E (parse_pronunciation_template_fn E) children ([], []))
    as [text [enprs audios]].
  intros H. apply in_map_iff in H. destruct H as ([k' v] & <- & H).
  apply in_flat_map in H. destruct H as (piece & _ & H).
  apply (pronunciation_piece_keys enprs audios piece).
  apply in_map_iff. exists (k', v). auto.
Qed.

End PronunciationTarget.

(** What the code does at a Pronunciation heading, with the capture of
    pronunciations on: what the extractor finds is appended to the
    etymology buffer when that buffer already holds a field, and to the
    base otherwise (the test of the code is [if etym_data], the truth value
    of the dictionary).  The buffers of the sense and of the part of speech,
    the collected records and the stack stay as they are; only lists under
    [sounds] and [syllabification] change, and among them only the one that
    the chosen buffer holds, or a new one. *)
Theorem pronunciation_goes_to_nonempty_etymology_or_base
        (E : collaborators) (cfg : config)
        (kind : NodeKind) (sarg : string) (nargs children : list node)
        (st : wstate) :
  is_sublevel kind = true ->
  heading_title E nargs = "Pronunciation" ->
  capture_pronunciation cfg = true ->
  exists st',
    process_node E cfg (WikiNode kind sarg nargs children) st = Some st'
    /\ sense_data st' = sense_data st /\ pos_data st' = pos_data st
    /\ pos_datas st' = pos_datas st /\ etym_datas st' = etym_datas st
    /\ page_datas st' = page_datas st /\ stack st' = stack st
    /\ (is_empty (etym_data st) = false ->
        base st' = base st
        /\ (objs st', etym_data st')
           = data_append_all (objs st, etym_data st)
               (pronunciation_appends E children)
        /\ forall k n, n < List.length (objects (objs st) k) ->
             lookup k (etym_data st) <> Some (SRef n) ->
             object (objs st') k n = object (objs st) k n)
    /\ (is_empty (etym_data st) = true ->
        etym_data st' = []
        /\ (objs st', base st')
           = data_append_all (objs st, base st)
               (pronunciation_appends E children)
        /\ forall k n, n < List.length (objects (objs st) k) ->
             lookup k (base st) <> Some (SRef n) ->
             object (objs st') k n = object (objs st) k n)
    /\ (forall k, k <> "sounds" -> k <> "syllabification" ->
        objects (objs st') k = objects (objs st) k).
Proof.
  intros Hk Ht Hc.
  rewrite process_node_heading by exact Hk. cbv zeta.
  rewrite Ht, Hc. cbn [String.eqb Ascii.eqb Bool.eqb].
  set (st1 := parse_pronunciation E children st).
  assert (H : sense_data st1 = sense_data st /\ pos_data st1 = pos_data st
            /\ pos_datas st1 = pos_datas st /\ etym_datas st1 = etym_datas st
            /\ page_datas st1 = page_datas st /\ stack st1 = stack st
            /\ (is_empty (etym_data st) = false ->
                base st1 = base st
                /\ (objs st1, etym_data st1)
                   = data_append_all (objs st, etym_data st)
                       (pronunciation_appends E children)
                /\ forall k n, n < List.length (objects (objs st) k) ->
                     lookup k (etym_data st) <> Some (SRef n) ->
                     object (objs st1) k n = object (objs st) k n)
            /\ (is_empty (etym_data st) = true ->
                etym_data st1 = []
                /\ (objs st1, base st1)
                   = data_append_all (objs st, base st)
                       (pronunciation_appends E children)
                /\ forall k n, n < List.length (objects (objs st) k) ->
                     lookup k (base st) <> Some (SRef n) ->
                     object (objs st1) k n = object (objs st) k n)
            /\ (forall k, k <> "sounds" -> k <> "syllabification" ->
                objects (objs st1) k = objects (objs st) k)).
  { unfold st1, parse_pronunciation.
    destruct (is_empty (etym_data st)) eqn:Ee; cbn [negb];
      cbn [sense_data pos_data pos_datas etym_datas page_datas stack base
           etym_data objs set_etym_data set_base];
      (do 6 (split; [reflexivity|])).
    - split; [discriminate|]. split.
      + intros _. split.
        * destruct (etym_data st); [reflexivity | discriminate].
        * split; [now destruct (data_append_all _ _)|].
          intros k n Hlt Hne. now apply data_append_all_other_list.
      + intros k K1 K2. apply data_append_all_other_key.
        intros Hin. apply pronunciation_appends_keys in Hin. tauto.
    - split.
      + intros _. split; [reflexivity|].
        split; [now destruct (data_append_all _ _)|].
        intros k n Hlt Hne. now apply data_append_all_other_list.
      + split; [discriminate|].
        intros k K1 K2. apply data_append_all_other_key.
        intros Hin. apply pronunciation_appends_keys in Hin. tauto. }
  clearbody st1.
  destruct (negb (has_key "sounds" (etym_data st1))
            && negb (has_key "sounds" (base st1)));
    eexists; (split; [reflexivity|]); exact H.
Qed.

(** Two etymologies; the pronunciation comes first under the first one. *)
Definition two_etymologies : list node :=
  [heading LEVEL3 "Etymology 1"
     [heading LEVEL4 "Pronunciation" [Text "/ouk/"];
      heading LEVEL4 "Noun" [Text "oak"; sense_list ["a tree"]]];
   heading LEVEL3 "Etymology 2"
     [heading LEVEL4 "Verb" [Text "oak"; sense_list ["to season in oak"]]]].

(** The state in which the children of the first Etymology heading are
    walked. *)
Definition under_etymology_1 : wstate :=
  push_stack "Etymology 1"
    (push_etym (push_stack "TOP" (start_state "oak" "English" "en"))).

Lemma pronunciation_goes_to_nonempty_etymology_or_base_witness :
  exists st',
    process_node example_env cfg_all
      (heading LEVEL4 "Pronunciation" [Text "/ouk/"]) under_etymology_1
    = Some st'
    /\ pos_data st' = [] /\ sense_data st' = [] /\ etym_data st' = []
    /\ deref (objs st') (base st')
       = [("word", FStr "oak"); ("lang", FStr "English");
          ("lang_code", FStr "en");
          ("sounds", FList [VDict [("other", VStr "/ouk/")]])].
Proof.
  destruct (pronunciation_goes_to_nonempty_etymology_or_base
              example_env cfg_all LEVEL4 "" [Text "Pronunciation"]
              [Text "/ouk/"] under_etymology_1 eq_refl eq_refl eq_refl)
    as (st' & H & A & B & _ & _ & _ & _ & _ & D & _).
  exists st'. split; [exact H|].
  split; [exact B|]. split; [exact A|].
  destruct (D eq_refl) as (D1 & D2 & _).
  split; [exact D1|].
  pose proof (f_equal fst D2) as Ho. pose proof (f_equal snd D2) as Hb.
  cbn [fst snd] in Ho, Hb. rewrite Ho, Hb. reflexivity.
Defined.

(** C5.  The code at the input on which it leaves the claim: with the
    first Etymology heading open (it is on top of the stack) and its buffer
    still empty, the pronunciation found under it goes to the base and not
    to the buffer of the etymology, and the record of the second etymology
    carries it as well. *)
Lemma pronunciation_under_open_etymology_goes_to_base :
  last (stack under_etymology_1) "" = "Etymology 1"
  /\ (exists st',
        process_node example_env cfg_all
          (heading LEVEL4 "Pronunciation" [Text "/ouk/"]) under_etymology_1
        = Some st'
        /\ etym_data st' = []
        /\ lookup "sounds" (deref (objs st') (base st'))
           = Some (FList [VDict [("other", VStr "/ouk/")]]))
  /\ parse_language example_env cfg_all "oak" "English" "en" two_etymologies
     = Some ([[("glosses", FList [VStr "a tree"]); ("pos", FStr "noun");
               ("forms", FList [VDict [("form", VStr "oak")]]);
               ("word", FStr "oak"); ("lang", FStr "English");
               ("lang_code", FStr "en");
               ("sounds", FList [VDict [("other", VStr "/ouk/")]])];
              [("glosses", FList [VStr "to season in oak"]);
               ("pos", FStr "verb");
               ("forms", FList [VDict [("form", VStr "oak")]]);
               ("word", FStr "oak"); ("lang", FStr "English");
               ("lang_code", FStr "en");
               ("sounds", FList [VDict [("other", VStr "/ouk/")]])]],
             []).
Proof.
  split; [reflexivity|]. split; [|reflexivity].
  eexists. split; [reflexivity|]. split; reflexivity.
Qed.

(** ** What a merge does to a buffer, key by key *)

(** The slot under [k] after the merge of [scope] into [data]: the one that
    [data] has, or else the one of [scope]. *)
Definition merged_slot (data scope : buffer) (k : string) : option slot :=
  match lookup k data with
  | Some s => Some s
  | None => lookup k scope
  end.

Lemma merge_item_slot ls (data : buffer) ds k v k' :
  lookup k' (m_data (merge_item (ls, data, ds) (k, v)))
  = merged_slot data [(k, v)] k'.
Proof.
  unfold merged_slot, merge_item, m_data. cbn [lookup].
  destruct (lookup k data) as [[s|n]|] eqn:El; cbn [fst snd].
  - destruct (slot_eqb_str s v); cbn [fst snd];
      destruct (lookup k' data) eqn:E'; auto;
      destruct (String.eqb k' k) eqn:Ek; auto;
      apply String.eqb_eq in Ek; subst; congruence.
  - destruct (lookup k' data) eqn:E'; auto.
    destruct (String.eqb k' k) eqn:Ek; auto.
    apply String.eqb_eq in Ek; subst; congruence.
  - rewrite lookup_set_key.
    destruct (String.eqb k' k) eqn:Ek.
    + apply String.eqb_eq in Ek. subst. now rewrite El.
    + destruct (lookup k' data); auto.
Qed.

Lemma merge_fold_slot scope : forall ls (data : buffer) ds k,
  lookup k (m_data (fold_left merge_item scope (ls, data, ds)))
  = merged_slot data scope k.
Proof.
  induction scope as [|[k0 v0] scope IH]; intros ls data ds k;
    cbn [fold_left].
  - unfold merged_slot. cbn. now destruct (lookup k data).
  - destruct (merge_item (ls, data, ds) (k0, v0)) as [[ls1 data1] ds1] eqn:E.
    rewrite IH. unfold merged_slot at 1.
    pose proof (merge_item_slot ls data ds k0 v0 k) as H.
    rewrite E in H. unfold m_data in H. cbn [fst snd] in H. rewrite H.
    unfold merged_slot. cbn [lookup].
    destruct (lookup k data); auto.
    destruct (String.eqb k k0); auto.
Qed.

Lemma merge_fold_objects scope : forall ls (data : buffer) ds k,
  ~ In k (keys scope) ->
  objects (m_lists (fold_left merge_item scope (ls, data, ds))) k
  = objects ls k.
Proof.
  induction scope as [|[k0 v0] scope IH]; intros ls data ds k Hni;
    cbn [fold_left]; auto.
  cbn [keys map fst In] in Hni.
  destruct (merge_item (ls, data, ds) (k0, v0)) as [[ls1 data1] ds1] eqn:E.
  rewrite IH by tauto.
  destruct (merge_item_other ls data ds k0 v0 k) as [_ H];
    [intros ->; tauto|].
  now rewrite E in H.
Qed.

Lemma merge_base_slot ls data scope k :
  lookup k (m_data (merge_base ls data scope)) = merged_slot data scope k.
Proof. apply merge_fold_slot. Qed.

Lemma merge_base_objects ls data scope k :
  ~ In k (keys scope) ->
  objects (m_lists (merge_base ls data scope)) k = objects ls k.
Proof. apply merge_fold_objects. Qed.

Lemma merge_all_slots scope : forall datas ls,
  Forall2 (fun d d' => forall k, lookup k d' = merged_slot d scope k)
          datas (snd (fst (merge_all ls datas scope))).
Proof.
  induction datas as [|d datas IH]; intros ls; cbn [merge_all].
  - constructor.
  - specialize (IH (m_lists (merge_base ls d scope))).
    destruct (merge_all (m_lists (merge_base ls d scope)) datas scope)
      as [[ls' merged] ds].
    cbn [fst snd] in *. constructor; [|exact IH].
    intros k. apply merge_base_slot.
Qed.

Lemma merge_all_objects scope k : forall datas ls,
  ~ In k (keys scope) ->
  objects (fst (fst (merge_all ls datas scope))) k = objects ls k.
Proof.
  induction datas as [|d datas IH]; intros ls Hni; cbn [merge_all]; auto.
  specialize (IH (m_lists (merge_base ls d scope)) Hni).
  destruct (merge_all (m_lists (merge_base ls d scope)) datas scope)
    as [[ls' merged] ds].
  cbn [fst snd] in *. rewrite IH. now apply merge_base_objects.
Qed.

(** ** Keys that only the walk itself writes *)

(** The gloss of a sense and the fields of the base. *)
Definition base_key (k : string) : bool :=
  in_names k ["glosses"; "word"; "lang"; "lang_code"].

(** Those, and the part of speech. *)
Definition reserved (k : string) : bool :=
  base_key k || String.eqb k "pos".

Lemma base_key_reserved k : base_key k = true -> reserved k = true.
Proof. unfold reserved. now intros ->. Qed.

Definition unreserved (kvs : list (string * value)) : Prop :=
  forall kv, In kv kvs -> reserved (fst kv) = false.

(** The parsers of [form_descriptions] and the linkage extractor store
    tags, forms, topics and linkages: never a gloss, never a part of
    speech, never a field of the base. *)
Definition keeps_reserved (E : collaborators) : Prop :=
  (forall q view, unreserved (parse_sense_tags E q view))
  /\ (forall pos text view, unreserved (parse_word_head E pos text view))
  /\ (forall field n, reserved field = false ->
        unreserved (fst (linkage_items E field n))).

Lemma unreserved_app a b : unreserved a -> unreserved b -> unreserved (a ++ b).
Proof.
  intros Ha Hb kv Hin. apply in_app_or in Hin. destruct Hin; auto.
Qed.

Lemma unreserved_nil : unreserved [].
Proof. intros kv []. Qed.

Lemma unreserved_not_in kvs k :
  unreserved kvs -> reserved k = true -> ~ In k (map fst kvs).
Proof.
  intros Hu Hr Hin. apply in_map_iff in Hin. destruct Hin as (kv & <- & Hin).
  rewrite (Hu kv Hin) in Hr. discriminate.
Qed.

Lemma data_append_all_app (b : scoped) kvs1 kvs2 :
  data_append_all b (kvs1 ++ kvs2)
  = data_append_all (data_append_all b kvs1) kvs2.
Proof. unfold data_append_all. apply fold_left_app. Qed.

Lemma data_extend_ref_as_appends (b : scoped) key vs :
  data_extend_ref b key vs = data_append_all b (map (fun v => (key, v)) vs).
Proof.
  unfold data_extend_ref, data_append_all. revert b.
  induction vs as [|v vs IH]; intros b; cbn [fold_left map fst snd]; auto.
Qed.

(** A run of appends under keys that are not reserved. *)
Definition appends_free (b b' : scoped) : Prop :=
  exists kvs, unreserved kvs /\ b' = data_append_all b kvs.

Lemma appends_free_refl b : appends_free b b.
Proof. exists []. split; [apply unreserved_nil | reflexivity]. Qed.

Lemma appends_free_trans a b c :
  appends_free a b -> appends_free b c -> appends_free a c.
Proof.
  intros (k1 & U1 & ->) (k2 & U2 & ->). exists (k1 ++ k2).
  split; [now apply unreserved_app | now rewrite data_append_all_app].
Qed.

Lemma appends_free_one b key v :
  reserved key = false -> appends_free b (data_append_ref b key v).
Proof.
  intros Hr. exists [(key, v)]. split; [|reflexivity].
  intros kv [<-|[]]. exact Hr.
Qed.

Lemma appends_free_all b kvs :
  unreserved kvs -> appends_free b (data_append_all b kvs).
Proof. intros Hu. exists kvs. auto. Qed.

(** Such a run leaves the lists of a reserved key and the slot under it
    as they are. *)
Lemma appends_free_frame ls (d : buffer) ls' d' k :
  appends_free (ls, d) (ls', d') -> reserved k = true ->
  objects ls' k = objects ls k /\ lookup k d' = lookup k d.
Proof.
  intros (kvs & Hu & Heq) Hr.
  destruct (data_append_all_other_key kvs ls d k) as [A B];
    [now apply unreserved_not_in|].
  rewrite <- Heq in A, B. exact (conj A B).
Qed.

Section Hooks.
Variable E : collaborators.

(** A hook that only appends under keys that are not reserved. *)
Definition hook_appends_free (fn : template_fn scoped) : Prop :=
  forall name args b, appends_free b (snd (fn name args b)).

(** A hook whose answer does not depend on the buffer. *)
Definition hook_answer_fixed (fn : template_fn scoped) : Prop :=
  forall name args b b', fst (fn name args b) = fst (fn name args b').

Lemma run_expansion_appends_free fn :
  hook_appends_free fn ->
  forall e b, appends_free b (snd (run_expansion fn e b)).
Proof.
  intros Hfn e. induction e as [text|name args k IH]; intros b;
    cbn [run_expansion].
  - apply appends_free_refl.
  - specialize (Hfn name args b).
    destruct (fn name args b) as [answer b1]. cbn [snd] in Hfn.
    eapply appends_free_trans; [exact Hfn | apply IH].
Qed.

Lemma render_all_appends_free fn :
  hook_appends_free fn ->
  forall value b, appends_free b (snd (render_all E fn value b)).
Proof.
  intros Hfn value. induction value as [|n value IH]; intros b;
    cbn [render_all].
  - apply appends_free_refl.
  - destruct n as [t|kind sarg nargs children].
    + specialize (IH b). destruct (render_all E fn value b) as [r b']. exact IH.
    + pose proof (run_expansion_appends_free fn Hfn
                    (node_to_html E (WikiNode kind sarg nargs children)) b) as H1.
      destruct (run_expansion fn
                  (node_to_html E (WikiNode kind sarg nargs children)) b)
        as [h b1].
      specialize (IH b1). destruct (render_all E fn value b1) as [r b2].
      cbn [snd] in *. eapply appends_free_trans; eauto.
Qed.

Lemma clean_node_appends_free fn value b :
  hook_appends_free fn -> appends_free b (snd (clean_node E fn value b)).
Proof.
  intros Hfn. unfold clean_node.
  pose proof (render_all_appends_free fn Hfn value b) as H.
  destruct (render_all E fn value b) as [v b']. exact H.
Qed.

Lemma run_expansion_text_fixed fn :
  hook_answer_fixed fn ->
  forall e b b', fst (run_expansion fn e b) = fst (run_expansion fn e b').
Proof.
  intros Hfn e. induction e as [text|name args k IH]; intros b b';
    cbn [run_expansion].
  - reflexivity.
  - specialize (Hfn name args b b').
    destruct (fn name args b) as [a1 b1], (fn name args b') as [a2 b2].
    cbn [fst] in Hfn. subst a2. apply IH.
Qed.

Lemma clean_node_text_fixed fn value :
  hook_answer_fixed fn ->
  forall b b', fst (clean_node E fn value b) = fst (clean_node E fn value b').
Proof.
  intros Hfn. unfold clean_node.
  assert (H : forall b b',
            fst (render_all E fn value b) = fst (render_all E fn value b')).
  { induction value as [|n value IH]; intros b b'; cbn [render_all].
    - reflexivity.
    - destruct n as [t|kind sarg nargs children].
      + specialize (IH b b').
        destruct (render_all E fn value b) as [r1 c1],
                 (render_all E fn value b') as [r2 c2].
        cbn [fst] in *. now subst.
      + pose proof (run_expansion_text_fixed fn Hfn
                      (node_to_html E (WikiNode kind sarg nargs children)) b b')
          as H1.
        destruct (run_expansion fn
                    (node_to_html E (WikiNode kind sarg nargs children)) b)
          as [h1 c1].
        destruct (run_expansion fn
                    (node_to_html E (WikiNode kind sarg nargs children)) b')
          as [h2 c2].
        specialize (IH c1 c2).
        destruct (render_all E fn value c1) as [r1 d1],
                 (render_all E fn value c2) as [r2 d2].
        cbn [fst] in *. now subst. }
  intros b b'. specialize (H b b').
  destruct (render_all E fn value b) as [v1 c1],
           (render_all E fn value b') as [v2 c2].
  cbn [fst] in *. now subst.
Qed.

End Hooks.

(** ** The senses collected during the walk *)

(** The buffer [d] holds under [glosses] a list with the one gloss [g]. *)
Definition holds_gloss (ls : list_store) (d : buffer) (g : string) : Prop :=
  exists n, lookup "glosses" d = Some (SRef n)
            /\ nth_error (objects ls "glosses") n = Some [VStr g].

(** A collected sense: its own gloss, and no field of the base yet. *)
Definition sense_ok (ls : list_store) (d : buffer) (g : string) : Prop :=
  holds_gloss ls d g
  /\ lookup "word" d = None /\ lookup "lang" d = None
  /\ lookup "lang_code" d = None.

(** A scope buffer without a gloss and without a field of the base. *)
Definition scope_free (d : buffer) : Prop :=
  forall k, base_key k = true -> lookup k d = None.

(** The senses that the walk holds, oldest first: those flushed to the
    etymology, those of the part of speech, and the one being built. *)
Definition collected (st : wstate) : list buffer :=
  etym_datas st ++ pos_datas st
  ++ (if is_empty (sense_data st) then [] else [sense_data st]).

Section Collected.
Variables title language lang_code : string.

(** The state of a walk that has collected the senses with the glosses
    [gs], none of them flushed to the page yet. *)
Definition collecting (gs : list string) (st : wstate) : Prop :=
  page_datas st = []
  /\ Forall2 (sense_ok (objs st)) (collected st) gs
  /\ scope_free (pos_data st) /\ scope_free (etym_data st)
  /\ lookup "glosses" (base st) = None
  /\ lookup "word" (base st) = Some (SStr title)
  /\ lookup "lang" (base st) = Some (SStr language)
  /\ lookup "lang_code" (base st) = Some (SStr lang_code).

Lemma sense_ok_frame ls ls' d d' g :
  (exists extra, objects ls' "glosses" = objects ls "glosses" ++ extra) ->
  (forall k, base_key k = true -> lookup k d' = lookup k d) ->
  sense_ok ls d g -> sense_ok ls' d' g.
Proof.
  intros (extra & Hx) Hd ((n & Hn & Hg) & Hw & Hl & Hc).
  unfold sense_ok, holds_gloss.
  rewrite !Hd by reflexivity. repeat split; auto.
  exists n. split; [exact Hn|]. rewrite Hx.
  rewrite nth_error_app1; [exact Hg|].
  apply nth_error_Some. congruence.
Qed.

Lemma senses_ok_frame ls ls' gs : forall ds,
  (exists extra, objects ls' "glosses" = objects ls "glosses" ++ extra) ->
  Forall2 (sense_ok ls) ds gs -> Forall2 (sense_ok ls') ds gs.
Proof.
  intros ds Hx H. induction H; constructor; auto.
  eapply sense_ok_frame; eauto.
Qed.

Lemma same_glosses ls ls' :
  objects ls' "glosses" = objects ls "glosses" ->
  exists extra, objects ls' "glosses" = objects ls "glosses" ++ extra.
Proof. intros H. exists []. now rewrite app_nil_r. Qed.

Lemma collecting_stack gs st v :
  collecting gs st -> collecting gs (set_stack v st).
Proof. exact (fun H => H). Qed.

Lemma collecting_diags gs st ds :
  collecting gs st -> collecting gs (add_diags ds st).
Proof. exact (fun H => H). Qed.

Lemma collecting_count gs st t :
  collecting gs st -> collecting gs (count_section t st).
Proof. exact (fun H => H). Qed.

Lemma collecting_append_pos gs st b :
  collecting gs st -> appends_free (objs st, pos_data st) b ->
  collecting gs (set_pos_data b st).
Proof.
  intros (Hp & Hs & Fp & Fe & Bg & Bw & Bl & Bc) Ha.
  destruct b as [ls' d'].
  unfold collecting, collected.
  cbn [page_datas objs etym_datas pos_datas sense_data pos_data etym_data base
       set_pos_data fst snd].
  split; [exact Hp|]. split.
  - eapply senses_ok_frame; [|exact Hs]. apply same_glosses.
    now apply (appends_free_frame _ _ _ _ "glosses" Ha).
  - split; [|auto 10].
    intros k Hk.
    destruct (appends_free_frame _ _ _ _ k Ha (base_key_reserved _ Hk))
      as [_ ->].
    now apply Fp.
Qed.

Lemma collecting_append_etym gs st b :
  collecting gs st -> appends_free (objs st, etym_data st) b ->
  collecting gs (set_etym_data b st).
Proof.
  intros (Hp & Hs & Fp & Fe & Bg & Bw & Bl & Bc) Ha.
  destruct b as [ls' d'].
  unfold collecting, collected.
  cbn [page_datas objs etym_datas pos_datas sense_data pos_data etym_data base
       set_etym_data fst snd].
  split; [exact Hp|]. split.
  - eapply senses_ok_frame; [|exact Hs]. apply same_glosses.
    now apply (appends_free_frame _ _ _ _ "glosses" Ha).
  - split; [exact Fp|]. split; [|auto 10].
    intros k Hk.
    destruct (appends_free_frame _ _ _ _ k Ha (base_key_reserved _ Hk))
      as [_ ->].
    now apply Fe.
Qed.

Lemma collecting_append_base gs st b :
  collecting gs st -> appends_free (objs st, base st) b ->
  collecting gs (set_base b st).
Proof.
  intros (Hp & Hs & Fp & Fe & Bg & Bw & Bl & Bc) Ha.
  destruct b as [ls' d'].
  unfold collecting, collected.
  cbn [page_datas objs etym_datas pos_datas sense_data pos_data etym_data base
       set_base fst snd].
  split; [exact Hp|]. split.
  - eapply senses_ok_frame; [|exact Hs]. apply same_glosses.
    now apply (appends_free_frame _ _ _ _ "glosses" Ha).
  - split; [exact Fp|]. split; [exact Fe|].
    destruct (appends_free_frame _ _ _ _ "glosses" Ha eq_refl) as [_ ->].
    destruct (appends_free_frame _ _ _ _ "word" Ha eq_refl) as [_ ->].
    destruct (appends_free_frame _ _ _ _ "lang" Ha eq_refl) as [_ ->].
    destruct (appends_free_frame _ _ _ _ "lang_code" Ha eq_refl) as [_ ->].
    auto.
Qed.

End Collected.

Section Flushes.
Variables title language lang_code : string.

Lemma scope_free_no_key d k : scope_free d -> base_key k = true ->
  ~ In k (keys d).
Proof. intros Hf Hk. apply lookup_none_not_in. now apply Hf. Qed.

Lemma merged_slot_scope_free d scope k :
  scope_free scope -> base_key k = true ->
  merged_slot d scope k = lookup k d.
Proof.
  intros Hf Hk. unfold merged_slot. rewrite (Hf k Hk).
  now destruct (lookup k d).
Qed.

(** The merge of a scope without reserved keys keeps every collected
    sense as it is. *)
Lemma merge_all_collected scope gs : forall datas ls,
  scope_free scope ->
  Forall2 (sense_ok ls) datas gs ->
  Forall2 (sense_ok (fst (fst (merge_all ls datas scope))))
          (snd (fst (merge_all ls datas scope))) gs
  /\ objects (fst (fst (merge_all ls datas scope))) "glosses"
     = objects ls "glosses".
Proof.
  intros datas ls Hf Hs.
  assert (Hobj : objects (fst (fst (merge_all ls datas scope))) "glosses"
                 = objects ls "glosses").
  { apply merge_all_objects. now apply scope_free_no_key. }
  split; [|exact Hobj].
  pose proof (merge_all_slots scope datas ls) as Hsl.
  revert Hsl Hobj.
  generalize (fst (fst (merge_all ls datas scope))) as ls'.
  generalize (snd (fst (merge_all ls datas scope))) as merged.
  intros merged ls' Hsl Hobj. revert gs Hs.
  induction Hsl as [|d d' datas merged Hd Hsl IH]; intros gs Hs;
    inversion Hs; subst; constructor; auto.
  eapply sense_ok_frame; [apply same_glosses; exact Hobj| |eassumption].
  intros k Hk. rewrite Hd. now apply merged_slot_scope_free.
Qed.

Lemma collected_push_sense st : collected (push_sense st) = collected st.
Proof.
  unfold push_sense, collected.
  destruct (sense_data st) as [|kv d] eqn:Es; cbn [is_empty].
  - now rewrite Es.
  - cbn [etym_datas pos_datas sense_data is_empty].
    now rewrite <- app_assoc, app_nil_r.
Qed.

Lemma collecting_push_sense gs st :
  collecting title language lang_code gs st -> collecting title language lang_code gs (push_sense st).
Proof.
  intros (Hp & Hs & Fp & Fe & B). unfold collecting.
  rewrite collected_push_sense.
  unfold push_sense. destruct (is_empty (sense_data st)); cbn; auto 10.
Qed.

Lemma collecting_push_pos gs st :
  collecting title language lang_code gs st -> collecting title language lang_code gs (push_pos st).
Proof.
  intros H. apply collecting_push_sense in H.
  destruct H as (Hp & Hs & Fp & Fe & B).
  unfold push_pos.
  pose proof (sense_data_push_sense st) as Hsd.
  set (st1 := push_sense st) in *.
  unfold collected in Hs. rewrite Hsd in Hs. cbn [is_empty] in Hs.
  rewrite app_nil_r in Hs.
  apply Forall2_app_inv_l in Hs. destruct Hs as (ge & gp & He & Hpd & ->).
  destruct (merge_all_collected (pos_data st1) gp (pos_datas st1) (objs st1)
              Fp Hpd) as [Hm Ho].
  destruct (merge_all (objs st1) (pos_datas st1) (pos_data st1))
    as [[ls merged] ds].
  cbn [fst snd] in Hm, Ho.
  unfold collecting, collected.
  cbn [page_datas objs etym_datas pos_datas sense_data pos_data etym_data base].
  rewrite Hsd. cbn [is_empty app]. rewrite app_nil_r.
  split; [exact Hp|]. split.
  - apply Forall2_app; [|exact Hm].
    eapply senses_ok_frame; [apply same_glosses; exact Ho | exact He].
  - split; [intros k _; reflexivity|]. split; [exact Fe | exact B].
Qed.

Lemma collecting_nothing st :
  collecting title language lang_code [] st ->
  etym_datas st = [] /\ pos_datas st = [] /\ sense_data st = [].
Proof.
  intros (_ & Hs & _). inversion Hs as [H0 H1|]. unfold collected in *.
  symmetry in H0.
  apply app_eq_nil in H0. destruct H0 as [He H0].
  apply app_eq_nil in H0. destruct H0 as [Hp H0].
  repeat split; auto.
  destruct (sense_data st); [reflexivity | discriminate].
Qed.

(** [push_etym] before any sense is collected drops both scope buffers. *)
Lemma collecting_push_etym_nothing st :
  collecting title language lang_code [] st ->
  collecting title language lang_code [] (push_etym st).
Proof.
  intros H. apply collecting_push_pos in H.
  destruct (collecting_nothing _ H) as (He & Hp & Hs).
  destruct H as (Hpg & Hc & Fp & Fe & B).
  unfold push_etym. rewrite He. cbn [merge_all].
  unfold collecting, collected.
  cbn [page_datas objs etym_datas pos_datas sense_data pos_data etym_data base].
  rewrite Hpg, Hp, Hs. cbn [app is_empty].
  split; [reflexivity|]. split; [constructor|].
  split; [exact Fp|]. split; [intros k _; reflexivity | exact B].
Qed.

End Flushes.

(** ** One sense *)

Section OneSense.
Variable E : collaborators.
Variables title language lang_code : string.
Hypothesis laws : keeps_reserved E.

(** The gloss that [parse_sense] stores for a list item: the rendering of
    its children without the sublists, less the qualifiers that open it. *)
Definition item_gloss (children : list node) : string :=
  snd (split_gloss
         (fst (clean_node E sense_template_fn (filter not_a_list children)
                 ([], [])))).

Lemma sense_template_fn_appends_free : hook_appends_free sense_template_fn.
Proof.
  intros name args b. unfold sense_template_fn.
  destruct (in_names name ["LDL"]); [apply appends_free_refl|].
  destruct (in_names name ["syn"; "synonyms"]); [|apply appends_free_refl].
  cbn [snd]. generalize (seq 2 18) as idx. intros idx. revert b.
  induction idx as [|i idx IH]; intros b.
  - apply appends_free_refl.
  - destruct (ht_get (KInt i) args) as [w|]; [|apply appends_free_refl].
    destruct (String.eqb w ""); [apply appends_free_refl|].
    eapply appends_free_trans; [|apply IH].
    now apply appends_free_one.
Qed.

Lemma sense_template_fn_answer_fixed : hook_answer_fixed sense_template_fn.
Proof.
  intros name args b b'. unfold sense_template_fn.
  destruct (in_names name ["LDL"]); [reflexivity|].
  destruct (in_names name ["syn"; "synonyms"]); reflexivity.
Qed.

Lemma set_key_not_empty {A : Type} k (v : A) d : is_empty (set_key k v d) = false.
Proof.
  destruct d as [|[k' v'] d]; cbn; auto. destruct (String.eqb k k'); auto.
Qed.

Lemma collecting_parse_sense_item gs pos children st :
  collecting title language lang_code gs st ->
  collecting title language lang_code (gs ++ [item_gloss children])
    (parse_sense_item E pos children st).
Proof.
  intros H. apply collecting_push_sense in H.
  pose proof (sense_data_push_sense st) as Hsd.
  unfold parse_sense_item. set (st1 := push_sense st) in *.
  rewrite Hsd.
  pose proof (clean_node_appends_free E sense_template_fn
                (filter not_a_list children) (objs st1, ([] : buffer))
                sense_template_fn_appends_free) as Ha.
  pose proof (clean_node_text_fixed E sense_template_fn
                (filter not_a_list children) sense_template_fn_answer_fixed
                (objs st1, ([] : buffer)) ([], [])) as Ht.
  unfold item_gloss. rewrite <- Ht. clear Ht.
  destruct (clean_node E sense_template_fn (filter not_a_list children)
              (objs st1, ([] : buffer))) as [gloss sense].
  cbn [fst snd] in *.
  destruct (split_gloss gloss) as [q g]. cbn [snd].
  set (sense2 := match q with
                 | Some q0 =>
                     data_append_all sense
                       (parse_sense_tags E q0 (deref (fst sense) (snd sense)))
                 | None => sense
                 end).
  assert (Ha2 : appends_free (objs st1, ([] : buffer)) sense2).
  { unfold sense2. destruct q as [q0|]; [|exact Ha].
    eapply appends_free_trans; [exact Ha|].
    apply appends_free_all. apply laws. }
  clearbody sense2. destruct sense2 as [ls2 d2].
  destruct (appends_free_frame _ _ _ _ "glosses" Ha2 eq_refl) as [Og Lg].
  destruct (appends_free_frame _ _ _ _ "word" Ha2 eq_refl) as [_ Lw].
  destruct (appends_free_frame _ _ _ _ "lang" Ha2 eq_refl) as [_ Ll].
  destruct (appends_free_frame _ _ _ _ "lang_code" Ha2 eq_refl) as [_ Lc].
  cbn [lookup] in Lg, Lw, Ll, Lc.
  assert (Hda : data_append_ref (ls2, d2) "glosses" (VStr g)
               = (set_key "glosses" (objects ls2 "glosses" ++ [[VStr g]]) ls2,
                  set_key "glosses"
                    (SRef (List.length (objects ls2 "glosses"))) d2)).
  { unfold data_append_ref, new_object. now rewrite Lg. }
  rewrite Hda. clear Hda.
  destruct H as (Hp & Hs & Fp & Fe & B).
  unfold collected in Hs. rewrite Hsd in Hs. cbn [is_empty] in Hs.
  rewrite app_nil_r in Hs.
  unfold collecting, collected.
  cbn [page_datas objs etym_datas pos_datas sense_data pos_data etym_data base
       set_sense_data add_diags fst snd].
  rewrite set_key_not_empty.
  split; [exact Hp|]. split; [|auto].
  rewrite app_assoc. apply Forall2_app.
  - eapply senses_ok_frame; [|exact Hs].
    exists [[VStr g]]. rewrite objects_set_key. cbn [String.eqb Ascii.eqb Bool.eqb].
    now rewrite Og.
  - constructor; [|constructor].
    unfold sense_ok, holds_gloss.
    rewrite lookup_set_key_same.
    rewrite !lookup_set_key_other by discriminate.
    split; [|auto].
    eexists. split; [reflexivity|].
    rewrite objects_set_key. cbn [String.eqb Ascii.eqb Bool.eqb].
    rewrite nth_error_app2 by lia. now rewrite Nat.sub_diag.
Qed.

End OneSense.

(** ** Sections that bring no sense keep what is collected *)

Section QuietSections.
Variable E : collaborators.
Variable cfg : config.
Variables title language lang_code : string.
Hypothesis laws : keeps_reserved E.

Lemma pronunciation_appends_unreserved children :
  unreserved (pronunciation_appends E children).
Proof.
  intros kv Hin.
  destruct (pronunciation_appends_keys E children (fst kv)) as [-> | ->];
    [apply in_map; exact Hin | reflexivity | reflexivity].
Qed.

Lemma translation_appends_unreserved n :
  unreserved (translation_appends E n).
Proof.
  intros kv Hin. unfold translation_appends in Hin.
  apply in_map_iff in Hin. destruct Hin as (it & <- & _).
  destruct it; reflexivity.
Qed.

Lemma decl_conj_template_fn_appends_free :
  hook_appends_free (decl_conj_template_fn E).
Proof.
  intros name args b. unfold decl_conj_template_fn.
  destruct (is_decl_conj_template name); cbn [snd].
  - now apply appends_free_one.
  - apply appends_free_refl.
Qed.

Lemma head_template_fn_appends_free :
  hook_appends_free (head_template_fn E).
Proof.
  intros name args b. unfold head_template_fn.
  repeat match goal with
         | |- context [if ?c then _ else _] =>
             destruct c; cbn [snd]; try apply appends_free_refl
         end.
  now apply appends_free_one.
Qed.

Lemma collecting_into_pos_or_etym gs kvs ds st :
  unreserved kvs ->
  collecting title language lang_code gs st ->
  collecting title language lang_code gs (into_pos_or_etym E kvs ds st).
Proof.
  intros Hu H. unfold into_pos_or_etym.
  destruct (in_pos_map E (last (stack st) ""));
    [apply (collecting_append_pos title language lang_code gs st)
    |apply (collecting_append_etym title language lang_code gs st)];
    auto using appends_free_all.
Qed.

Lemma collecting_parse_pronunciation gs children st :
  collecting title language lang_code gs st ->
  collecting title language lang_code gs (parse_pronunciation E children st).
Proof.
  intros H. unfold parse_pronunciation.
  destruct (negb (is_empty (etym_data st)));
    [apply (collecting_append_etym title language lang_code gs st)
    |apply (collecting_append_base title language lang_code gs st)];
    auto using appends_free_all, pronunciation_appends_unreserved.
Qed.

Lemma in_names_In name names : in_names name names = true -> In name names.
Proof.
  unfold in_names. intros H. apply existsb_exists in H.
  destruct H as (x & Hin & Hx). apply String.eqb_eq in Hx. now subst.
Qed.

Lemma collecting_leaf_section kind sarg nargs children gs st :
  is_sublevel kind = true ->
  leaf_title E (heading_title E nargs) = true ->
  collecting title language lang_code gs st ->
  exists st', process_node E cfg (WikiNode kind sarg nargs children) st = Some st'
              /\ collecting title language lang_code gs st'.
Proof.
  intros Hk Hn H.
  rewrite process_node_heading by exact Hk. cbv zeta.
  unfold leaf_title in Hn.
  destruct (String.eqb (heading_title E nargs) "Pronunciation") eqn:Hp.
  - destruct (capture_pronunciation cfg).
    + pose proof (collecting_parse_pronunciation gs children st H) as Hs.
      destruct (negb (has_key "sounds" (etym_data (parse_pronunciation E children st)))
                && negb (has_key "sounds" (base (parse_pronunciation E children st))));
        eexists; (split; [reflexivity|]); exact Hs.
    + exists st. split; [reflexivity | exact H].
  - cbn [orb] in Hn.
    apply andb_true_iff in Hn. destruct Hn as [Hn Hwhich].
    apply andb_true_iff in Hn. destruct Hn as [Het Hpos].
    apply negb_true_iff in Het. apply negb_true_iff in Hpos.
    rewrite Het. unfold in_pos_map in Hpos.
    destruct (part_of_speech_map E (lower E (heading_title E nargs)));
      try discriminate.
    destruct (String.eqb (heading_title E nargs) "Translations").
    { eexists. split; [reflexivity|].
      apply collecting_into_pos_or_etym;
        auto using translation_appends_unreserved. }
    destruct (in_names (heading_title E nargs) ["Declension"; "Conjugation"]).
    { eexists. split; [reflexivity|].
      apply (collecting_append_pos title language lang_code gs st); auto.
      apply run_expansion_appends_free.
      apply decl_conj_template_fn_appends_free. }
    destruct (in_names (lower E (heading_title E nargs))
                ["hypernyms"; "hyponyms"; "antonyms"; "synonyms";
                 "abbreviations"; "proverbs"]) eqn:Hlk.
    { eexists. split; [reflexivity|].
      apply collecting_into_pos_or_etym; auto. apply laws.
      apply in_names_In in Hlk. cbn [In] in Hlk.
      repeat (destruct Hlk as [<-|Hlk]; [reflexivity|]).
      destruct Hlk. }
    destruct (String.eqb (lower E (heading_title E nargs)) "compounds").
    { destruct (capture_compounds cfg); eexists; (split; [reflexivity|]);
        [apply collecting_into_pos_or_etym; auto; now apply laws | exact H]. }
    destruct (String.eqb (lower E (heading_title E nargs)) "derived terms").
    { eexists. split; [reflexivity|].
      apply collecting_into_pos_or_etym; auto. now apply laws. }
    destruct (in_names (lower E (heading_title E nargs))
                ["related terms"; "related characters"]).
    { eexists. split; [reflexivity|].
      apply collecting_into_pos_or_etym; auto. now apply laws. }
    cbn [orb] in Hwhich. rewrite Hwhich.
    exists st. split; [reflexivity | exact H].
Qed.

Lemma collecting_leaf n :
  brings_no_sense E n = true ->
  forall gs st,
  collecting title language lang_code gs st ->
  exists st', process_node E cfg n st = Some st'
              /\ collecting title language lang_code gs st'.
Proof.
  induction n as [s|kind sarg nargs children IH] using node_induction;
    intros Hn gs st H.
  - exists st. split; [reflexivity | exact H].
  - rewrite brings_no_sense_node in Hn.
    destruct (is_sublevel kind) eqn:Hk; cbn [negb orb] in Hn.
    2:{ exists st. split; [|exact H]. cbn [process_node]. now rewrite Hk. }
    destruct (leaf_title E (heading_title E nargs)) eqn:Hleaf.
    { now apply collecting_leaf_section. }
    cbn [orb] in Hn. apply andb_true_iff in Hn. destruct Hn as [Hw Hch].
    rewrite (process_node_walked E cfg _ _ _ _ _ Hk Hw).
    assert (Hwalk : forall s, collecting title language lang_code gs s ->
              exists s', process_children E cfg children s = Some s'
                         /\ collecting title language lang_code gs s').
    { clear - IH Hch. induction IH as [|c l Hc Hl IHl]; intros s Hs;
        cbn [process_children].
      - exists s. split; [reflexivity | exact Hs].
      - cbn [forallb] in Hch. apply andb_true_iff in Hch.
        destruct Hch as [Hc' Hl'].
        destruct (Hc Hc' gs s Hs) as (s1 & -> & S1). now apply IHl. }
    destruct (Hwalk (push_stack (heading_title E nargs)
                       (count_section (heading_title E nargs) st)) H)
      as (s2 & -> & S2).
    exists (pop_stack s2). split; [reflexivity | exact S2].
Qed.

Lemma collecting_leaves l : forall gs st,
  forallb (brings_no_sense E) l = true ->
  collecting title language lang_code gs st ->
  exists st', process_children E cfg l st = Some st'
              /\ collecting title language lang_code gs st'.
Proof.
  induction l as [|n l IH]; intros gs st Hl H;
    cbn [forallb process_children] in *.
  - exists st. auto.
  - apply andb_true_iff in Hl. destruct Hl as [Hn Hl].
    destruct (collecting_leaf n Hn gs st H) as (st1 & E1 & H1).
    rewrite E1. now apply IH.
Qed.

End QuietSections.

(** ** A part-of-speech section with a sense list of two items *)

(** A child that [parse_part_of_speech] goes past on its way to the
    sense list: a string, or a node that is neither a list nor a heading. *)
Definition before_list (n : node) : bool :=
  match n with
  | Text _ => true
  | WikiNode kind _ _ _ => negb (NodeKind_eqb kind LIST) && negb (is_level kind)
  end.

Lemma lists_scan_paragraphs ps : forall sc,
  lists (scan_paragraphs ps sc) = lists sc.
Proof.
  induction ps as [|p ps IH]; intros sc; cbn [scan_paragraphs]; auto.
  destruct (pre sc); [|reflexivity].
  rewrite IH. now destruct (String.eqb p "").
Qed.

Lemma scan_finds_the_list P sarg nargs ch Q : forall sc,
  forallb before_list P = true ->
  lists (scan_pos_children (P ++ WikiNode LIST sarg nargs ch :: Q) sc)
  = lists sc ++ [WikiNode LIST sarg nargs ch].
Proof.
  induction P as [|n P IH]; intros sc HP; cbn [app scan_pos_children forallb] in *.
  - reflexivity.
  - apply andb_true_iff in HP. destruct HP as [Hn HP].
    destruct n as [s|k a b c]; cbn [before_list] in Hn.
    + rewrite (IH (scan_paragraphs (split_paragraphs s) sc) HP).
      now rewrite lists_scan_paragraphs.
    + apply andb_true_iff in Hn. destruct Hn as [H1 H2].
      apply negb_true_iff in H1. apply negb_true_iff in H2.
      rewrite H1, H2.
      destruct (first_para sc).
      * now rewrite (IH {| pre := pre sc ++ [WikiNode k a b c];
                           lists := lists sc; first_para := true |} HP).
      * now rewrite (IH sc HP).
Qed.

Lemma before_list_brings_no_sense (E : collaborators) n :
  before_list n = true -> brings_no_sense E n = true.
Proof.
  destruct n as [s|k a b c]; cbn [before_list brings_no_sense]; auto.
  intros H. apply andb_true_iff in H. destruct H as [_ H].
  apply negb_true_iff in H. destruct k; try discriminate; reflexivity.
Qed.

Section PosSection.
Variable E : collaborators.
Variable cfg : config.
Variables title language lang_code : string.
Hypothesis laws : keeps_reserved E.

Lemma scope_free_set_pos d pos :
  scope_free d -> scope_free (set_key "pos" (SStr pos) d).
Proof.
  intros Hf k Hk. rewrite lookup_set_key_other; [now apply Hf|].
  intros ->. discriminate.
Qed.

Lemma collecting_set_pos gs pos st :
  collecting title language lang_code gs st ->
  collecting title language lang_code gs (set_pos pos st).
Proof.
  intros (Hp & Hs & Fp & Fe & B). unfold set_pos, collecting, collected.
  cbn [page_datas objs etym_datas pos_datas sense_data pos_data etym_data base
       set_pos_data fst snd].
  split; [exact Hp|]. split; [exact Hs|].
  split; [now apply scope_free_set_pos | auto].
Qed.

Lemma collecting_enter_pos gs t dt st :
  collecting title language lang_code gs st ->
  collecting title language lang_code gs (enter_pos t dt st).
Proof.
  intros H. apply collecting_push_pos in H. unfold enter_pos.
  destruct (pi_tags dt) as [tags|]; [|exact H].
  apply (collecting_append_pos title language lang_code gs); [exact H|].
  cbn [objs pos_data add_diags].
  rewrite data_extend_ref_as_appends. apply appends_free_all.
  intros kv Hin. apply in_map_iff in Hin. destruct Hin as (v & <- & _).
  reflexivity.
Qed.

(** The heading of a part of speech over a sense list of two items: both
    senses are collected, each with its own gloss. *)
Lemma collecting_pos_section gs st kind sarg nargs dt P la ln Q
      s1 n1 c1 s2 n2 c2 :
  is_sublevel kind = true ->
  String.eqb (heading_title E nargs) "Pronunciation" = false ->
  startswith (heading_title E nargs) "Etymology" = false ->
  part_of_speech_map E (lower E (heading_title E nargs)) = Some dt ->
  forallb before_list P = true ->
  forallb (brings_no_sense E) Q = true ->
  ends_with_colon s1 = Some false ->
  ends_with_colon s2 = Some false ->
  collecting title language lang_code gs st ->
  exists st',
    process_node E cfg
      (WikiNode kind sarg nargs
         (P ++ WikiNode LIST la ln
                 [WikiNode LIST_ITEM s1 n1 c1; WikiNode LIST_ITEM s2 n2 c2]
            :: Q)) st = Some st'
    /\ collecting title language lang_code
         (gs ++ [item_gloss E c1; item_gloss E c2]) st'.
Proof.
  intros Hk Hp Het Hpos HP HQ H1 H2 H.
  rewrite process_node_heading by exact Hk. cbv zeta.
  rewrite Hp, Het, Hpos.
  apply (collecting_enter_pos gs (heading_title E nargs) dt) in H.
  set (st1 := enter_pos (heading_title E nargs) dt st) in *.
  unfold parse_part_of_speech. fold no_scan.
  rewrite (scan_finds_the_list P la ln
             [WikiNode LIST_ITEM s1 n1 c1; WikiNode LIST_ITEM s2 n2 c2] Q
             no_scan HP). cbn [lists no_scan app].
  apply (collecting_set_pos gs (pi_pos dt)) in H.
  set (st2 := set_pos (pi_pos dt) st1) in *.
  set (sc := scan_pos_children _ no_scan).
  pose proof (clean_node_appends_free E (head_template_fn E) (pre sc)
                (objs st2, pos_data st2) (head_template_fn_appends_free E))
    as Ha.
  destruct (clean_node E (head_template_fn E) (pre sc) (objs st2, pos_data st2))
    as [text pd].
  cbn [snd] in Ha.
  assert (Ha2 : appends_free (objs st2, pos_data st2)
                  (data_append_all pd
                     (parse_word_head E (pi_pos dt) text
                        (deref (fst pd) (snd pd))))).
  { eapply appends_free_trans; [exact Ha|]. apply appends_free_all.
    apply laws. }
  apply (collecting_append_pos title language lang_code gs st2 _ H) in Ha2.
  set (st3 := set_pos_data _ st2) in *.
  cbn [parse_sense_lists parse_sense_list NodeKind_eqb negb].
  rewrite H1, H2.
  apply (collecting_parse_sense_item E title language lang_code laws
           gs (pi_pos dt) c1) in Ha2.
  apply (collecting_parse_sense_item E title language lang_code laws
           (gs ++ [item_gloss E c1]) (pi_pos dt) c2) in Ha2.
  rewrite <- app_assoc in Ha2. cbn [app] in Ha2.
  set (st5 := parse_sense_item E (pi_pos dt) c2 _) in *.
  destruct (collecting_leaves E cfg title language lang_code laws
              (P ++ WikiNode LIST la ln
                      [WikiNode LIST_ITEM s1 n1 c1; WikiNode LIST_ITEM s2 n2 c2]
                 :: Q)
              (gs ++ [item_gloss E c1; item_gloss E c2])
              (push_stack (pi_pos dt) st5)) as (st6 & E6 & H6).
  - rewrite forallb_app. cbn [forallb brings_no_sense is_sublevel negb orb].
    rewrite HQ, andb_true_r.
    clear - HP. induction P as [|n P IH]; cbn [forallb] in *; auto.
    apply andb_true_iff in HP. destruct HP as [Hn HP].
    rewrite (before_list_brings_no_sense E n Hn). now apply IH.
  - exact Ha2.
  - rewrite E6. exists (pop_stack st6). split; [reflexivity | exact H6].
Qed.

End PosSection.

(** ** The last flush *)

Lemma lookup_deref ls (d : buffer) k :
  lookup k (deref ls d) = option_map (slot_value ls k) (lookup k d).
Proof.
  induction d as [|[k0 v0] d IH]; cbn [deref map lookup fst snd option_map].
  - reflexivity.
  - destruct (String.eqb k k0) eqn:Ek; [|exact IH].
    apply String.eqb_eq in Ek. now subst.
Qed.

Lemma keys_deref ls (d : buffer) : keys (deref ls d) = keys d.
Proof.
  unfold keys, deref. rewrite map_map. reflexivity.
Qed.

(** Seen through the values, an append to a buffer is the append to the
    dictionary that the buffer is. *)
Lemma data_append_ref_value ls (d : buffer) key v k :
  (forall n, lookup key d = Some (SRef n) ->
             n < List.length (objects ls key)) ->
  lookup k (deref (fst (data_append_ref (ls, d) key v))
                  (snd (data_append_ref (ls, d) key v)))
  = lookup k (data_append (deref ls d) key v).
Proof.
  intros Hin. unfold data_append_ref, data_append.
  rewrite (lookup_deref ls d key).
  destruct (lookup key d) as [[s|n]|] eqn:El;
    cbn [option_map slot_value fst snd new_object].
  - reflexivity.
  - rewrite lookup_deref, lookup_set_key, lookup_deref.
    destruct (String.eqb k key) eqn:Ek.
    + apply String.eqb_eq in Ek. subst k. rewrite El.
      cbn [option_map slot_value]. unfold extend_object, object.
      rewrite objects_set_key, String.eqb_refl, nth_set_nth, Nat.eqb_refl.
      specialize (Hin n eq_refl). apply Nat.ltb_lt in Hin. now rewrite Hin.
    + destruct (lookup k d) as [[s|m]|]; cbn [option_map slot_value]; auto.
      unfold extend_object, object. now rewrite objects_set_key, Ek.
  - rewrite lookup_deref, !lookup_set_key, lookup_deref.
    destruct (String.eqb k key) eqn:Ek.
    + apply String.eqb_eq in Ek. subst k.
      cbn [option_map slot_value]. unfold object.
      rewrite objects_set_key, String.eqb_refl.
      rewrite app_nth2 by lia. now rewrite Nat.sub_diag.
    + destruct (lookup k d) as [[s|m]|]; cbn [option_map slot_value]; auto.
      unfold object. now rewrite objects_set_key, Ek.
Qed.

Lemma in_keys_lookup {A : Type} k (d : list (string * A)) :
  In k (keys d) <-> lookup k d <> None.
Proof.
  rewrite <- has_key_in. unfold has_key.
  destruct (lookup k d); split; intros; congruence.
Qed.

Section LastFlush.
Variables title language lang_code : string.

(** A record of the output: the one gloss [g] of its sense, the fields of
    the base, and the keys of the etymology [etym]. *)
Definition glossed_record (etym : buffer) (r : record) (g : string) : Prop :=
  lookup "glosses" r = Some (FList [VStr g])
  /\ lookup "word" r = Some (FStr title)
  /\ lookup "lang" r = Some (FStr language)
  /\ lookup "lang_code" r = Some (FStr lang_code)
  /\ forall k, In k (keys etym) -> In k (keys r).

(** What [parse_language] returns from the state [st] at the end of the
    walk: the last [push_etym], then the merge of the base. *)
Definition finish (st : wstate) : list record * list diag :=
  let st := push_etym st in
  let '(ls, ret, ds) := merge_all (objs st) (page_datas st) (base st) in
  (map (deref ls) ret, diags st ++ ds).

Lemma collecting_finish gs st :
  collecting title language lang_code gs st ->
  Forall2 (glossed_record (etym_data st)) (fst (finish st)) gs.
Proof.
  intros H.
  assert (Hetym : etym_data (push_pos st) = etym_data st
                  /\ base (push_pos st) = base st).
  { unfold push_pos.
    destruct (merge_all (objs (push_sense st)) (pos_datas (push_sense st))
                (pos_data (push_sense st))) as [[ls merged] ds].
    cbn. unfold push_sense. destruct (is_empty (sense_data st)); auto. }
  destruct Hetym as [Hetym Hbase].
  apply collecting_push_pos in H.
  destruct (push_pos_clears st) as (Hsd & Hpd & _).
  unfold finish, push_etym. set (s1 := push_pos st) in *.
  destruct H as (Hpg & Hs & _ & Fe & Bg & Bw & Bl & Bc).
  unfold collected in Hs. rewrite Hsd, Hpd in Hs. cbn [is_empty app] in Hs.
  rewrite app_nil_r in Hs. rewrite Hetym in *. rewrite Hbase in *.
  destruct (merge_all_collected (etym_data st) gs (etym_datas s1) (objs s1)
              Fe Hs) as [Hm _].
  pose proof (merge_all_slots (etym_data st) (etym_datas s1) (objs s1)) as Hsl.
  destruct (merge_all (objs s1) (etym_datas s1) (etym_data st))
    as [[ls2 merged] ds2].
  cbn [fst snd] in Hm, Hsl.
  cbn [objs page_datas base diags]. rewrite Hpg. cbn [app].
  assert (Hkeys : Forall (fun d' => forall k, In k (keys (etym_data st)) ->
                                    lookup k d' <> None) merged).
  { clear - Hsl. induction Hsl as [|d d' ds ds' Hd Hsl IH]; constructor; auto.
    intros k Hin. rewrite Hd. unfold merged_slot.
    destruct (lookup k d); [discriminate|]. now apply in_keys_lookup. }
  pose proof (merge_all_slots (base st) merged ls2) as Hsl3.
  assert (Hobj : objects (fst (fst (merge_all ls2 merged (base st)))) "glosses"
                 = objects ls2 "glosses").
  { apply merge_all_objects. now apply lookup_none_not_in. }
  destruct (merge_all ls2 merged (base st)) as [[ls3 ret] ds3].
  cbn [fst snd] in *.
  clear Hsl Hs. revert gs Hm Hkeys.
  induction Hsl3 as [|d r ds rs Hr Hsl3 IH]; intros gs Hm Hkeys;
    inversion Hm as [|? g ? gs' Hok Hm']; subst; cbn [map]; constructor.
  - inversion Hkeys as [|? ? Hk Hkeys']; subst.
    destruct Hok as ((n & Hn & Hg) & Hw & Hl & Hc).
    unfold glossed_record. rewrite !lookup_deref, !Hr. unfold merged_slot.
    rewrite Hn, Hw, Hl, Hc, Bw, Bl, Bc. cbn [option_map slot_value].
    split.
    { unfold object. rewrite Hobj.
      now rewrite (nth_error_nth _ _ _ Hg). }
    split; [reflexivity|]. split; [reflexivity|]. split; [reflexivity|].
    intros k Hin. rewrite keys_deref. apply in_keys_lookup.
    rewrite Hr. unfold merged_slot.
    specialize (Hk k Hin). destruct (lookup k d); [discriminate | contradiction].
  - apply IH; [exact Hm'|]. now inversion Hkeys.
Qed.

End LastFlush.

(** ** The lists of the store during the appends and the merges *)

(** The lists of [ls] are lists of [ls'], each with what it held and maybe
    more after it. *)
Definition store_grows (ls ls' : list_store) : Prop :=
  forall k,
    List.length (objects ls k) <= List.length (objects ls' k)
    /\ forall n, exists more, object ls' k n = object ls k n ++ more.

Lemma store_grows_refl ls : store_grows ls ls.
Proof.
  intros k. split; [lia|]. intros n. exists []. now rewrite app_nil_r.
Qed.

Lemma store_grows_trans a b c :
  store_grows a b -> store_grows b c -> store_grows a c.
Proof.
  intros H1 H2 k. destruct (H1 k) as [L1 G1]. destruct (H2 k) as [L2 G2].
  split; [lia|]. intros n.
  destruct (G1 n) as (m1 & E1). destruct (G2 n) as (m2 & E2).
  exists (m1 ++ m2). now rewrite E2, E1, app_assoc.
Qed.

(** An entry of a buffer that is in order: a reference to a list of the
    store, or a string under a key that only the walk writes. *)
Definition slot_tidy (ls : list_store) (kv : string * slot) : Prop :=
  match snd kv with
  | SRef n => n < List.length (objects ls (fst kv))
  | SStr _ => reserved (fst kv) = true
  end.

Definition tidy (ls : list_store) (d : buffer) : Prop :=
  Forall (slot_tidy ls) d.

Lemma slot_tidy_grows ls ls' kv :
  store_grows ls ls' -> slot_tidy ls kv -> slot_tidy ls' kv.
Proof.
  intros Hg. unfold slot_tidy. destruct kv as [k [s|n]]; cbn [fst snd]; auto.
  destruct (Hg k) as [L _]. lia.
Qed.

Lemma tidy_grows ls ls' d : store_grows ls ls' -> tidy ls d -> tidy ls' d.
Proof.
  intros Hg H. unfold tidy in *. rewrite Forall_forall in *.
  intros kv Hin. eapply slot_tidy_grows; eauto.
Qed.

Lemma tidy_set_key ls k v (d : buffer) :
  slot_tidy ls (k, v) -> tidy ls d -> tidy ls (set_key k v d).
Proof.
  intros Hv H. unfold tidy in *.
  induction d as [|[k' v'] d IH]; cbn [set_key].
  - constructor; [exact Hv | constructor].
  - inversion H as [|? ? Hk' Hd]; subst.
    destruct (String.eqb k k') eqn:E.
    + apply String.eqb_eq in E. subst k'. constructor; assumption.
    + constructor; auto.
Qed.

Lemma tidy_lookup ls (d : buffer) k s :
  tidy ls d -> lookup k d = Some s -> slot_tidy ls (k, s).
Proof.
  intros H Hl. unfold tidy in H. rewrite Forall_forall in H.
  apply H. now apply lookup_some_in.
Qed.

Lemma tidy_nil ls : tidy ls [].
Proof. constructor. Qed.

Lemma object_extend_object ls k n items k' n' :
  object (extend_object ls k n items) k' n'
  = if String.eqb k' k && Nat.eqb n' n && Nat.ltb n (List.length (objects ls k))
    then object ls k n ++ items
    else object ls k' n'.
Proof.
  unfold extend_object, object. rewrite objects_set_key.
  destruct (String.eqb k' k) eqn:Ek; cbn [andb]; [|reflexivity].
  apply String.eqb_eq in Ek. subst k'. rewrite nth_set_nth.
  destruct (Nat.eqb n' n && Nat.ltb n (List.length (objects ls k))) eqn:En;
    [reflexivity|reflexivity].
Qed.

Lemma objects_length_extend_object ls k n items k' :
  List.length (objects (extend_object ls k n items) k')
  = List.length (objects ls k').
Proof.
  unfold extend_object. rewrite objects_set_key.
  destruct (String.eqb k' k) eqn:Ek; [|reflexivity].
  apply String.eqb_eq in Ek. subst k'. apply set_nth_length.
Qed.

Lemma extend_object_grows ls k n items :
  store_grows ls (extend_object ls k n items).
Proof.
  intros k'. split.
  - rewrite objects_length_extend_object. lia.
  - intros n'. rewrite object_extend_object.
    destruct (String.eqb k' k && Nat.eqb n' n
              && Nat.ltb n (List.length (objects ls k))) eqn:E.
    + apply andb_true_iff in E. destruct E as [E _].
      apply andb_true_iff in E. destruct E as [Ek En].
      apply String.eqb_eq in Ek. apply Nat.eqb_eq in En. subst.
      exists items. reflexivity.
    + exists []. now rewrite app_nil_r.
Qed.

Lemma new_object_grows ls k l :
  store_grows ls (fst (new_object ls k l)).
Proof.
  intros k'. unfold new_object, object. cbn [fst].
  rewrite objects_set_key.
  destruct (String.eqb k' k) eqn:Ek.
  - apply String.eqb_eq in Ek. subst k'. split.
    + rewrite length_app. lia.
    + intros n. destruct (Nat.lt_ge_cases n (List.length (objects ls k))).
      * exists []. rewrite app_nth1 by assumption. now rewrite app_nil_r.
      * rewrite (nth_overflow (objects ls k)) by assumption.
        eexists. reflexivity.
  - split; [lia|]. intros n. exists []. now rewrite app_nil_r.
Qed.

Lemma data_append_ref_store (b : scoped) key v :
  store_grows (fst b) (fst (data_append_ref b key v))
  /\ (tidy (fst b) (snd b) ->
      tidy (fst (data_append_ref b key v)) (snd (data_append_ref b key v))).
Proof.
  destruct b as [ls d]. unfold data_append_ref. cbn [fst snd].
  destruct (lookup key d) as [[s|n]|] eqn:El.
  - cbn [fst snd]. split; [apply store_grows_refl | auto].
  - cbn [fst snd]. split; [apply extend_object_grows|].
    apply tidy_grows, extend_object_grows.
  - pose proof (new_object_grows ls key [v]) as Hg.
    unfold new_object in *. cbn [fst snd] in *. split; [exact Hg|].
    intros H. apply tidy_set_key; [|eapply tidy_grows; eauto].
    unfold slot_tidy. cbn [fst snd]. rewrite objects_set_key, String.eqb_refl.
    rewrite length_app. cbn [List.length]. lia.
Qed.

Lemma data_append_all_store kvs : forall b : scoped,
  store_grows (fst b) (fst (data_append_all b kvs))
  /\ (tidy (fst b) (snd b) ->
      tidy (fst (data_append_all b kvs)) (snd (data_append_all b kvs))).
Proof.
  unfold data_append_all.
  induction kvs as [|[key v] kvs IH]; intros b; cbn [fold_left fst snd].
  - split; [apply store_grows_refl | auto].
  - destruct (data_append_ref_store b key v) as [G1 T1].
    destruct (IH (data_append_ref b key v)) as [G2 T2].
    split; [eapply store_grows_trans; eauto | auto].
Qed.

Lemma appends_free_store (b b' : scoped) :
  appends_free b b' ->
  store_grows (fst b) (fst b')
  /\ (tidy (fst b) (snd b) -> tidy (fst b') (snd b')).
Proof. intros (kvs & _ & ->). apply data_append_all_store. Qed.

Lemma merge_item_store ls (data : buffer) ds kv :
  store_grows ls (m_lists (merge_item (ls, data, ds) kv))
  /\ (slot_tidy ls kv -> tidy ls data ->
      tidy (m_lists (merge_item (ls, data, ds) kv))
           (m_data (merge_item (ls, data, ds) kv))).
Proof.
  destruct kv as [k v]. unfold merge_item, m_lists, m_data.
  destruct (lookup k data) as [[s|n]|] eqn:El; cbn [fst snd].
  - destruct (slot_eqb_str s v); cbn [fst snd];
      (split; [apply store_grows_refl | auto]).
  - split; [apply extend_object_grows|].
    intros _. apply tidy_grows, extend_object_grows.
  - split; [apply store_grows_refl|]. intros Hv H. now apply tidy_set_key.
Qed.

Lemma merge_fold_store scope : forall ls (data : buffer) ds,
  store_grows ls (m_lists (fold_left merge_item scope (ls, data, ds)))
  /\ (tidy ls scope -> tidy ls data ->
      tidy (m_lists (fold_left merge_item scope (ls, data, ds)))
           (m_data (fold_left merge_item scope (ls, data, ds)))).
Proof.
  induction scope as [|kv scope IH]; intros ls data ds; cbn [fold_left].
  - split; [apply store_grows_refl | auto].
  - destruct (merge_item_store ls data ds kv) as [G1 T1].
    destruct (merge_item (ls, data, ds) kv) as [[ls1 d1] ds1].
    unfold m_lists, m_data in G1, T1. cbn [fst snd] in G1, T1.
    destruct (IH ls1 d1 ds1) as [G2 T2].
    split; [eapply store_grows_trans; eauto|].
    intros Hs Hd. inversion Hs as [|? ? Hkv Hrest]; subst.
    apply T2; [eapply tidy_grows; eauto | auto].
Qed.

Lemma merge_all_store scope : forall datas ls,
  store_grows ls (fst (fst (merge_all ls datas scope)))
  /\ (tidy ls scope -> Forall (tidy ls) datas ->
      Forall (tidy (fst (fst (merge_all ls datas scope))))
             (snd (fst (merge_all ls datas scope)))).
Proof.
  induction datas as [|d datas IH]; intros ls; cbn [merge_all].
  - split; [apply store_grows_refl | constructor].
  - destruct (merge_fold_store scope ls d []) as [G1 T1].
    fold (merge_base ls d scope) in G1, T1.
    destruct (IH (m_lists (merge_base ls d scope))) as [G2 T2].
    destruct (merge_all (m_lists (merge_base ls d scope)) datas scope)
      as [[ls' merged] ds].
    cbn [fst snd] in *.
    split; [eapply store_grows_trans; eauto|].
    intros Hs Hd. inversion Hd as [|? ? Hd1 Hrest]; subst.
    constructor.
    + eapply tidy_grows; [exact G2 | auto].
    + apply T2; [eapply tidy_grows; eauto|].
      eapply Forall_impl; [|exact Hrest].
      intros x. now apply tidy_grows.
Qed.

(** Under [k] the buffer holds a list of the store in which [items] stand
    together. *)
Definition holds (ls : list_store) (d : buffer) (k : string)
           (items : list value) : Prop :=
  exists m before after_,
    lookup k d = Some (SRef m)
    /\ object ls k m = before ++ items ++ after_.

Lemma holds_grows ls ls' d k items :
  store_grows ls ls' -> holds ls d k items -> holds ls' d k items.
Proof.
  intros Hg (m & b & a & Hl & Ho). destruct (Hg k) as [_ G].
  destruct (G m) as (more & Hm).
  exists m, b, (a ++ more). split; [exact Hl|].
  now rewrite Hm, Ho, <- !app_assoc.
Qed.

Lemma holds_part ls d k items more :
  holds ls d k (items ++ more) -> holds ls d k items.
Proof.
  intros (m & b & a & Hl & Ho). exists m, b, (more ++ a).
  split; [exact Hl|]. now rewrite Ho, <- !app_assoc.
Qed.

Lemma holds_same_slot ls (d d' : buffer) k items :
  lookup k d' = lookup k d -> holds ls d k items -> holds ls d' k items.
Proof.
  intros He (m & b & a & Hl & Ho). exists m, b, a. split; congruence.
Qed.

(** The merge of a scope leaves, under a key of the scope that holds a
    list, a list in which the items of the scope's list stand together:
    the very list of the scope, or the buffer's own list extended with
    them. *)
Lemma merge_fold_holds k n :
  reserved k = false ->
  forall scope ls (data : buffer) ds,
    In (k, SRef n) scope -> tidy ls scope -> tidy ls data ->
    holds (m_lists (fold_left merge_item scope (ls, data, ds)))
          (m_data (fold_left merge_item scope (ls, data, ds)))
          k (object ls k n).
Proof.
  intros Hr. induction scope as [|kv scope IH]; intros ls data ds Hin Hs Hd;
    [contradiction|].
  cbn [fold_left]. inversion Hs as [|? ? Hkv Hrest]; subst.
  destruct (merge_item_store ls data ds kv) as [G1 T1].
  specialize (T1 Hkv Hd).
  destruct Hin as [->|Hin].
  - pose proof (merge_fold_slot scope) as Hslot.
    pose proof (merge_fold_store scope) as Hstore.
    clear G1 T1.
    destruct (lookup k data) as [[s|m]|] eqn:El.
    + apply (tidy_lookup _ _ _ _ Hd) in El. unfold slot_tidy in El.
      cbn [fst snd] in El. congruence.
    + assert (Hm : m < List.length (objects ls k))
        by (apply (tidy_lookup _ _ _ _ Hd) in El; exact El).
      assert (Hmi : merge_item (ls, data, ds) (k, SRef n)
                    = (extend_object ls k m (object ls k n), data, ds))
        by (unfold merge_item; now rewrite El).
      rewrite Hmi. clear Hmi.
      set (ls1 := extend_object ls k m (object ls k n)) in *.
      exists m, (object ls k m).
      destruct (Hstore ls1 data ds) as [G2 _].
      destruct (G2 k) as [_ G]. destruct (G m) as (more & Hmore).
      exists more. split.
      * rewrite Hslot. unfold merged_slot. now rewrite El.
      * rewrite Hmore. unfold ls1. rewrite object_extend_object.
        rewrite String.eqb_refl, Nat.eqb_refl.
        apply Nat.ltb_lt in Hm. rewrite Hm. cbn [andb].
        now rewrite <- app_assoc.
    + assert (Hmi : merge_item (ls, data, ds) (k, SRef n)
                    = (ls, set_key k (SRef n) data, ds))
        by (unfold merge_item; now rewrite El).
      rewrite Hmi. clear Hmi.
      exists n, [].
      destruct (Hstore ls (set_key k (SRef n) data) ds) as [G2 _].
      destruct (G2 k) as [_ G]. destruct (G n) as (more & Hmore).
      exists more. split.
      * rewrite Hslot. unfold merged_slot.
        now rewrite lookup_set_key_same.
      * exact Hmore.
  - destruct (merge_item (ls, data, ds) kv) as [[ls1 d1] ds1].
    unfold m_lists, m_data in G1, T1. cbn [fst snd] in G1, T1.
    destruct (G1 k) as [_ G]. destruct (G n) as (more & Hmore).
    apply holds_part with (more := more). rewrite <- Hmore.
    apply IH; auto. eapply tidy_grows; eauto.
Qed.

Lemma merge_all_holds k n scope :
  reserved k = false -> In (k, SRef n) scope ->
  forall datas ls,
    tidy ls scope -> Forall (tidy ls) datas ->
    Forall (fun d' => holds (fst (fst (merge_all ls datas scope))) d' k
                        (object ls k n))
           (snd (fst (merge_all ls datas scope))).
Proof.
  intros Hr Hin. induction datas as [|d datas IH]; intros ls Hs Hd;
    cbn [merge_all].
  - constructor.
  - inversion Hd as [|? ? Hd1 Hrest]; subst.
    pose proof (merge_fold_holds k n Hr scope ls d [] Hin Hs Hd1) as H1.
    destruct (merge_fold_store scope ls d []) as [G1 _].
    fold (merge_base ls d scope) in H1, G1.
    destruct (merge_all_store scope datas (m_lists (merge_base ls d scope)))
      as [G2 _].
    specialize (IH (m_lists (merge_base ls d scope))).
    destruct (merge_all (m_lists (merge_base ls d scope)) datas scope)
      as [[ls' merged] ds].
    cbn [fst snd] in *. constructor.
    + eapply holds_grows; eauto.
    + destruct (G1 k) as [_ G]. destruct (G n) as (more & Hmore).
      eapply Forall_impl; [|apply IH].
      * intros d' Hd'. rewrite Hmore in Hd'. eapply holds_part; eauto.
      * eapply tidy_grows; eauto.
      * eapply Forall_impl; [|exact Hrest]. intros x. now apply tidy_grows.
Qed.

(** ** The part of speech of every sense *)

(** The senses that wait for their part of speech. *)
Definition waiting (st : wstate) : list buffer :=
  pos_datas st ++ (if is_empty (sense_data st) then [] else [sense_data st]).

(** A sense that is flushed to the etymology has its part of speech. *)
Definition sense_flushed (ls : list_store) (d : buffer) (p : string) : Prop :=
  lookup "pos" d = Some (SStr p) /\ tidy ls d.

(** A sense that waits has none, and the part-of-speech buffer has it. *)
Definition sense_waits (ls : list_store) (pos_buffer : buffer)
           (d : buffer) (p : string) : Prop :=
  lookup "pos" d = None /\ lookup "pos" pos_buffer = Some (SStr p)
  /\ tidy ls d.

(** The state of a walk that holds senses of the parts of speech [ps],
    oldest first, with every buffer in order and no part of speech in the
    etymology buffer. *)
Definition placed (ps : list string) (st : wstate) : Prop :=
  exists pe pw,
    ps = pe ++ pw
    /\ Forall2 (sense_flushed (objs st)) (etym_datas st) pe
    /\ Forall2 (sense_waits (objs st) (pos_data st)) (waiting st) pw
    /\ tidy (objs st) (pos_data st)
    /\ tidy (objs st) (etym_data st)
    /\ lookup "pos" (etym_data st) = None.

Lemma Forall2_impl {A B : Type} (P Q : A -> B -> Prop) l1 l2 :
  (forall a b, P a b -> Q a b) -> Forall2 P l1 l2 -> Forall2 Q l1 l2.
Proof. intros H F. induction F; constructor; auto. Qed.

Lemma placed_frame ps st st' :
  placed ps st ->
  etym_datas st' = etym_datas st -> waiting st' = waiting st ->
  store_grows (objs st) (objs st') ->
  lookup "pos" (pos_data st') = lookup "pos" (pos_data st) ->
  tidy (objs st') (pos_data st') -> tidy (objs st') (etym_data st') ->
  lookup "pos" (etym_data st') = None ->
  placed ps st'.
Proof.
  intros (pe & pw & -> & He & Hw & _) E1 E2 Hg Hp Tp Te Le.
  exists pe, pw. rewrite E1, E2. repeat split; auto.
  - eapply Forall2_impl; [|exact He].
    intros d p [A B]. split; [exact A | eapply tidy_grows; eauto].
  - eapply Forall2_impl; [|exact Hw].
    intros d p (A & B & C). split; [exact A|].
    split; [congruence | eapply tidy_grows; eauto].
Qed.

Lemma placed_append_pos ps st b :
  placed ps st -> appends_free (objs st, pos_data st) b ->
  placed ps (set_pos_data b st).
Proof.
  intros H Ha. destruct b as [ls' d'].
  destruct (appends_free_store _ _ Ha) as [Hg Ht].
  destruct (appends_free_frame _ _ _ _ "pos" Ha eq_refl) as [_ Hl].
  pose proof H as (pe & pw & _ & _ & _ & Tp & Te & Le).
  apply (placed_frame ps st); auto.
  cbn [objs etym_data set_pos_data fst snd] in *.
  eapply tidy_grows; eauto.
Qed.

Lemma placed_append_etym ps st b :
  placed ps st -> appends_free (objs st, etym_data st) b ->
  placed ps (set_etym_data b st).
Proof.
  intros H Ha. destruct b as [ls' d'].
  destruct (appends_free_store _ _ Ha) as [Hg Ht].
  destruct (appends_free_frame _ _ _ _ "pos" Ha eq_refl) as [_ Hl].
  pose proof H as (pe & pw & _ & _ & _ & Tp & Te & Le).
  apply (placed_frame ps st); auto;
    cbn [objs etym_data pos_data set_etym_data fst snd] in *.
  - eapply tidy_grows; eauto.
  - congruence.
Qed.

Lemma placed_append_base ps st (b : scoped) :
  placed ps st -> store_grows (objs st) (fst b) ->
  placed ps (set_base b st).
Proof.
  intros H Hg.
  pose proof H as (pe & pw & _ & _ & _ & Tp & Te & Le).
  apply (placed_frame ps st); auto;
    cbn [objs etym_data pos_data set_base fst snd] in *;
    eapply tidy_grows; eauto.
Qed.

Lemma waiting_push_sense st : waiting (push_sense st) = waiting st.
Proof.
  unfold push_sense, waiting.
  destruct (sense_data st) as [|kv d] eqn:Es; cbn [is_empty].
  - now rewrite Es.
  - cbn [pos_datas sense_data is_empty]. now rewrite app_nil_r.
Qed.

Lemma placed_push_sense ps st : placed ps st -> placed ps (push_sense st).
Proof.
  intros H. pose proof H as (pe & pw & _ & _ & _ & Tp & Te & Le).
  apply (placed_frame ps st); auto.
  - unfold push_sense. now destruct (is_empty (sense_data st)).
  - apply waiting_push_sense.
  - unfold push_sense. destruct (is_empty (sense_data st));
      apply store_grows_refl.
  - unfold push_sense. now destruct (is_empty (sense_data st)).
  - unfold push_sense. now destruct (is_empty (sense_data st)).
  - unfold push_sense. now destruct (is_empty (sense_data st)).
  - unfold push_sense. now destruct (is_empty (sense_data st)).
Qed.

Lemma Forall2_merged {A B : Type} (R : A -> A -> Prop) (W Q : A -> B -> Prop)
      (T : A -> Prop) :
  (forall d d' p, R d d' -> W d p -> T d' -> Q d' p) ->
  forall datas merged ps,
    Forall2 R datas merged -> Forall2 W datas ps -> Forall T merged ->
    Forall2 Q merged ps.
Proof.
  intros H datas merged ps HR. revert ps.
  induction HR as [|d d' datas merged Hd HR IH]; intros ps HW HT;
    inversion HW; subst; constructor.
  - inversion HT; subst. eauto.
  - inversion HT; subst. eauto.
Qed.

(** After [push_pos] every sense has its part of speech, and none waits. *)
Lemma placed_push_pos ps st :
  placed ps st ->
  Forall2 (sense_flushed (objs (push_pos st))) (etym_datas (push_pos st)) ps
  /\ placed ps (push_pos st).
Proof.
  intros H. apply placed_push_sense in H.
  pose proof (sense_data_push_sense st) as Hsd.
  unfold push_pos. set (st1 := push_sense st) in *.
  destruct H as (pe & pw & -> & He & Hw & Tp & Te & Le).
  unfold waiting in Hw. rewrite Hsd in Hw. cbn [is_empty] in Hw.
  rewrite app_nil_r in Hw.
  pose proof (merge_all_slots (pos_data st1) (pos_datas st1) (objs st1))
    as Hsl.
  destruct (merge_all_store (pos_data st1) (pos_datas st1) (objs st1))
    as [Hg Ht].
  assert (Htidy : Forall (tidy (objs st1)) (pos_datas st1)).
  { clear - Hw. induction Hw as [|d p ds ps (_ & _ & T) _ IH];
      constructor; auto. }
  specialize (Ht Tp Htidy).
  destruct (merge_all (objs st1) (pos_datas st1) (pos_data st1))
    as [[ls merged] ds].
  cbn [fst snd] in *.
  assert (Hall : Forall2 (sense_flushed ls) (etym_datas st1 ++ merged)
                         (pe ++ pw)).
  { apply Forall2_app.
    - eapply Forall2_impl; [|exact He].
      intros d p [A B]. split; [exact A | eapply tidy_grows; eauto].
    - apply (Forall2_merged
               (fun d d' => forall k, lookup k d' = merged_slot d (pos_data st1) k)
               (sense_waits (objs st1) (pos_data st1))
               (sense_flushed ls) (tidy ls)) with (datas := pos_datas st1);
        auto.
      intros d d' p Hd (A & B & _) T. split; [|exact T].
      rewrite Hd. unfold merged_slot. now rewrite A. }
  cbn [objs etym_datas]. split; [exact Hall|].
  exists (pe ++ pw), []. unfold waiting.
  cbn [objs etym_datas pos_datas sense_data pos_data etym_data].
  rewrite Hsd. cbn [is_empty app]. rewrite app_nil_r.
  split; [reflexivity|]. split; [exact Hall|]. split; [constructor|].
  split; [apply tidy_nil|]. split; [eapply tidy_grows; eauto | exact Le].
Qed.

Lemma placed_nothing st :
  placed [] st ->
  etym_datas st = [] /\ pos_datas st = [] /\ sense_data st = [].
Proof.
  intros (pe & pw & Hps & He & Hw & _).
  symmetry in Hps. apply app_eq_nil in Hps. destruct Hps as [-> ->].
  inversion He as [H0|]. inversion Hw as [H1|]. unfold waiting in H1.
  symmetry in H1. apply app_eq_nil in H1. destruct H1 as [Hp Hs].
  repeat split; auto. destruct (sense_data st); [reflexivity|discriminate].
Qed.

(** [push_etym] before any sense is collected drops both scope buffers. *)
Lemma placed_push_etym_nothing st : placed [] st -> placed [] (push_etym st).
Proof.
  intros H. apply placed_push_pos in H. destruct H as [_ H].
  destruct (placed_nothing _ H) as (He & Hp & Hs).
  unfold push_etym. rewrite He. cbn [merge_all].
  exists [], []. unfold waiting.
  cbn [objs etym_datas pos_datas sense_data pos_data etym_data].
  rewrite Hp, Hs. cbn [app is_empty].
  destruct H as (_ & _ & _ & _ & _ & Tp & _).
  split; [reflexivity|]. split; [constructor|]. split; [constructor|].
  split; [exact Tp|]. split; [apply tidy_nil | reflexivity].
Qed.

Section PlacedWalk.
Variable E : collaborators.
Variable cfg : config.
Hypothesis laws : keeps_reserved E.

(** A new sense waits for the part of speech of the buffer. *)
Lemma placed_parse_sense_item ps p pos children st :
  placed ps st -> lookup "pos" (pos_data st) = Some (SStr p) ->
  placed (ps ++ [p]) (parse_sense_item E pos children st)
  /\ pos_data (parse_sense_item E pos children st) = pos_data st.
Proof.
  intros H Hpos. apply placed_push_sense in H.
  pose proof (sense_data_push_sense st) as Hsd.
  assert (Hpd : pos_data (push_sense st) = pos_data st).
  { unfold push_sense. now destruct (is_empty (sense_data st)). }
  unfold parse_sense_item. set (st1 := push_sense st) in *.
  rewrite Hsd.
  pose proof (clean_node_appends_free E sense_template_fn
                (filter not_a_list children) (objs st1, ([] : buffer))
                sense_template_fn_appends_free) as Ha.
  destruct (clean_node E sense_template_fn (filter not_a_list children)
              (objs st1, ([] : buffer))) as [gloss sense].
  cbn [fst snd] in *.
  destruct (split_gloss gloss) as [q g].
  set (sense2 := match q with
                 | Some q0 =>
                     data_append_all sense
                       (parse_sense_tags E q0 (deref (fst sense) (snd sense)))
                 | None => sense
                 end).
  assert (Ha2 : appends_free (objs st1, ([] : buffer)) sense2).
  { unfold sense2. destruct q as [q0|]; [|exact Ha].
    eapply appends_free_trans; [exact Ha|].
    apply appends_free_all. apply laws. }
  clearbody sense2. destruct sense2 as [ls2 d2].
  destruct (appends_free_frame _ _ _ _ "glosses" Ha2 eq_refl) as [_ Lg].
  destruct (appends_free_frame _ _ _ _ "pos" Ha2 eq_refl) as [_ Lp].
  destruct (appends_free_store _ _ Ha2) as [G2 T2].
  cbn [fst snd lookup] in Lg, Lp, G2, T2. specialize (T2 (tidy_nil _)).
  destruct (data_append_ref_store (ls2, d2) "glosses" (VStr g)) as [G3 T3].
  cbn [fst snd] in G3, T3. specialize (T3 T2).
  assert (Hda : data_append_ref (ls2, d2) "glosses" (VStr g)
               = (set_key "glosses" (objects ls2 "glosses" ++ [[VStr g]]) ls2,
                  set_key "glosses"
                    (SRef (List.length (objects ls2 "glosses"))) d2)).
  { unfold data_append_ref, new_object. now rewrite Lg. }
  rewrite Hda in *. clear Hda. cbn [fst snd] in G3, T3.
  set (ls3 := set_key "glosses" (objects ls2 "glosses" ++ [[VStr g]]) ls2) in *.
  set (d3 := set_key "glosses" (SRef (List.length (objects ls2 "glosses"))) d2)
    in *.
  assert (G13 : store_grows (objs st1) ls3)
    by (eapply store_grows_trans; eauto).
  destruct H as (pe & pw & -> & He & Hw & Tp & Te & Le).
  unfold waiting in Hw. rewrite Hsd in Hw. cbn [is_empty] in Hw.
  rewrite app_nil_r in Hw.
  split; [|cbn [pos_data add_diags set_sense_data]; exact Hpd].
  exists pe, (pw ++ [p]). unfold waiting.
  cbn [objs etym_datas pos_datas sense_data pos_data etym_data
       set_sense_data add_diags fst snd].
  unfold d3 at 1. rewrite set_key_not_empty.
  split; [now rewrite app_assoc|]. split.
  { eapply Forall2_impl; [|exact He].
    intros d p0 [A B]. split; [exact A | eapply tidy_grows; eauto]. }
  split.
  { apply Forall2_app.
    - eapply Forall2_impl; [|exact Hw].
      intros d p0 (A & B & C). split; [exact A|].
      split; [exact B | eapply tidy_grows; eauto].
    - constructor; [|constructor]. split; [|split].
      + unfold d3. rewrite lookup_set_key_other by discriminate. exact Lp.
      + rewrite Hpd. exact Hpos.
      + exact T3. }
  split; [eapply tidy_grows; eauto|].
  split; [eapply tidy_grows; eauto | exact Le].
Qed.

Lemma placed_set_pos ps pos st :
  placed ps st -> waiting st = [] ->
  placed ps (set_pos pos st)
  /\ lookup "pos" (pos_data (set_pos pos st)) = Some (SStr pos)
  /\ waiting (set_pos pos st) = [].
Proof.
  intros (pe & pw & -> & He & Hw & Tp & Te & Le) Hn.
  rewrite Hn in Hw. inversion Hw; subst.
  unfold set_pos. split; [|split].
  - exists pe, []. unfold waiting in *.
    cbn [objs etym_datas pos_datas sense_data pos_data etym_data
         set_pos_data fst snd].
    rewrite Hn. repeat split; auto; try constructor.
    apply tidy_set_key; [reflexivity | exact Tp].
  - cbn [pos_data set_pos_data snd]. apply lookup_set_key_same.
  - exact Hn.
Qed.

Lemma placed_enter_pos ps t dt st :
  placed ps st ->
  placed ps (enter_pos t dt st) /\ waiting (enter_pos t dt st) = [].
Proof.
  intros H. apply placed_push_pos in H. destruct H as [_ H].
  destruct (push_pos_clears st) as (Hsd & Hpd & _).
  unfold enter_pos.
  destruct (pi_tags dt) as [tags|].
  - split.
    + apply (placed_append_pos ps); [exact H|].
      cbn [objs pos_data add_diags].
      rewrite data_extend_ref_as_appends. apply appends_free_all.
      intros kv Hin. apply in_map_iff in Hin. destruct Hin as (v & <- & _).
      reflexivity.
    + unfold waiting. cbn [pos_datas sense_data set_pos_data add_diags].
      now rewrite Hsd, Hpd.
  - split; [exact H|].
    unfold waiting. cbn [pos_datas sense_data add_diags].
    now rewrite Hsd, Hpd.
Qed.

Lemma placed_into_pos_or_etym ps kvs ds st :
  unreserved kvs -> placed ps st -> placed ps (into_pos_or_etym E kvs ds st).
Proof.
  intros Hu H. unfold into_pos_or_etym.
  destruct (in_pos_map E (last (stack st) ""));
    [apply (placed_append_pos ps st) | apply (placed_append_etym ps st)];
    auto using appends_free_all.
Qed.

Lemma placed_parse_pronunciation ps children st :
  placed ps st -> placed ps (parse_pronunciation E children st).
Proof.
  intros H. unfold parse_pronunciation.
  destruct (negb (is_empty (etym_data st))).
  - apply (placed_append_etym ps st); auto.
    apply appends_free_all, pronunciation_appends_unreserved.
  - apply (placed_append_base ps st); auto.
    apply (data_append_all_store _ (objs st, base st)).
Qed.

Lemma placed_leaf_section kind sarg nargs children ps st :
  is_sublevel kind = true ->
  leaf_title E (heading_title E nargs) = true ->
  placed ps st ->
  exists st', process_node E cfg (WikiNode kind sarg nargs children) st = Some st'
              /\ placed ps st'.
Proof.
  intros Hk Hn H.
  rewrite process_node_heading by exact Hk. cbv zeta.
  unfold leaf_title in Hn.
  destruct (String.eqb (heading_title E nargs) "Pronunciation") eqn:Hp.
  - destruct (capture_pronunciation cfg).
    + pose proof (placed_parse_pronunciation ps children st H) as Hs.
      destruct (negb (has_key "sounds" (etym_data (parse_pronunciation E children st)))
                && negb (has_key "sounds" (base (parse_pronunciation E children st))));
        eexists; (split; [reflexivity|]); exact Hs.
    + exists st. split; [reflexivity | exact H].
  - cbn [orb] in Hn.
    apply andb_true_iff in Hn. destruct Hn as [Hn Hwhich].
    apply andb_true_iff in Hn. destruct Hn as [Het Hpos].
    apply negb_true_iff in Het. apply negb_true_iff in Hpos.
    rewrite Het. unfold in_pos_map in Hpos.
    destruct (part_of_speech_map E (lower E (heading_title E nargs)));
      try discriminate.
    destruct (String.eqb (heading_title E nargs) "Translations").
    { eexists. split; [reflexivity|].
      apply placed_into_pos_or_etym;
        auto using translation_appends_unreserved. }
    destruct (in_names (heading_title E nargs) ["Declension"; "Conjugation"]).
    { eexists. split; [reflexivity|].
      apply (placed_append_pos ps st); auto.
      apply run_expansion_appends_free.
      apply decl_conj_template_fn_appends_free. }
    destruct (in_names (lower E (heading_title E nargs))
                ["hypernyms"; "hyponyms"; "antonyms"; "synonyms";
                 "abbreviations"; "proverbs"]) eqn:Hlk.
    { eexists. split; [reflexivity|].
      apply placed_into_pos_or_etym; auto. apply laws.
      apply in_names_In in Hlk. cbn [In] in Hlk.
      repeat (destruct Hlk as [<-|Hlk]; [reflexivity|]).
      destruct Hlk. }
    destruct (String.eqb (lower E (heading_title E nargs)) "compounds").
    { destruct (capture_compounds cfg); eexists; (split; [reflexivity|]);
        [apply placed_into_pos_or_etym; auto; now apply laws | exact H]. }
    destruct (String.eqb (lower E (heading_title E nargs)) "derived terms").
    { eexists. split; [reflexivity|].
      apply placed_into_pos_or_etym; auto. now apply laws. }
    destruct (in_names (lower E (heading_title E nargs))
                ["related terms"; "related characters"]).
    { eexists. split; [reflexivity|].
      apply placed_into_pos_or_etym; auto. now apply laws. }
    cbn [orb] in Hwhich. rewrite Hwhich.
    exists st. split; [reflexivity | exact H].
Qed.

Lemma placed_leaf n :
  brings_no_sense E n = true ->
  forall ps st,
  placed ps st ->
  exists st', process_node E cfg n st = Some st' /\ placed ps st'.
Proof.
  induction n as [s|kind sarg nargs children IH] using node_induction;
    intros Hn ps st H.
  - exists st. split; [reflexivity | exact H].
  - rewrite brings_no_sense_node in Hn.
    destruct (is_sublevel kind) eqn:Hk; cbn [negb orb] in Hn.
    2:{ exists st. split; [|exact H]. cbn [process_node]. now rewrite Hk. }
    destruct (leaf_title E (heading_title E nargs)) eqn:Hleaf.
    { now apply placed_leaf_section. }
    cbn [orb] in Hn. apply andb_true_iff in Hn. destruct Hn as [Hw Hch].
    rewrite (process_node_walked E cfg _ _ _ _ _ Hk Hw).
    assert (Hwalk : forall s, placed ps s ->
              exists s', process_children E cfg children s = Some s'
                         /\ placed ps s').
    { clear - IH Hch. induction IH as [|c l Hc Hl IHl]; intros s Hs;
        cbn [process_children].
      - exists s. split; [reflexivity | exact Hs].
      - cbn [forallb] in Hch. apply andb_true_iff in Hch.
        destruct Hch as [Hc' Hl'].
        destruct (Hc Hc' ps s Hs) as (s1 & -> & S1). now apply IHl. }
    destruct (Hwalk (push_stack (heading_title E nargs)
                       (count_section (heading_title E nargs) st)) H)
      as (s2 & -> & S2).
    exists (pop_stack s2). split; [reflexivity | exact S2].
Qed.

Lemma placed_leaves l : forall ps st,
  forallb (brings_no_sense E) l = true ->
  placed ps st ->
  exists st', process_children E cfg l st = Some st' /\ placed ps st'.
Proof.
  induction l as [|n l IH]; intros ps st Hl H;
    cbn [forallb process_children] in *.
  - exists st. auto.
  - apply andb_true_iff in Hl. destruct Hl as [Hn Hl].
    destruct (placed_leaf n Hn ps st H) as (st1 & E1 & H1).
    rewrite E1. now apply IH.
Qed.

(** The heading of a part of speech over a sense list of two items: both
    senses are held for the part of speech of the table entry. *)
Lemma placed_pos_section ps st kind sarg nargs dt P la ln Q
      s1 n1 c1 s2 n2 c2 :
  is_sublevel kind = true ->
  String.eqb (heading_title E nargs) "Pronunciation" = false ->
  startswith (heading_title E nargs) "Etymology" = false ->
  part_of_speech_map E (lower E (heading_title E nargs)) = Some dt ->
  forallb before_list P = true ->
  forallb (brings_no_sense E) Q = true ->
  ends_with_colon s1 = Some false ->
  ends_with_colon s2 = Some false ->
  placed ps st ->
  exists st',
    process_node E cfg
      (WikiNode kind sarg nargs
         (P ++ WikiNode LIST la ln
                 [WikiNode LIST_ITEM s1 n1 c1; WikiNode LIST_ITEM s2 n2 c2]
            :: Q)) st = Some st'
    /\ placed (ps ++ [pi_pos dt; pi_pos dt]) st'.
Proof.
  intros Hk Hp Het Hpos HP HQ H1 H2 H.
  rewrite process_node_heading by exact Hk. cbv zeta.
  rewrite Hp, Het, Hpos.
  destruct (placed_enter_pos ps (heading_title E nargs) dt st H) as [H0 W0].
  set (st1 := enter_pos (heading_title E nargs) dt st) in *.
  unfold parse_part_of_speech. fold no_scan.
  rewrite (scan_finds_the_list P la ln
             [WikiNode LIST_ITEM s1 n1 c1; WikiNode LIST_ITEM s2 n2 c2] Q
             no_scan HP). cbn [lists no_scan app].
  destruct (placed_set_pos ps (pi_pos dt) st1 H0 W0) as (Hs & Lp & Ws).
  set (st2 := set_pos (pi_pos dt) st1) in *.
  set (sc := scan_pos_children _ no_scan).
  pose proof (clean_node_appends_free E (head_template_fn E) (pre sc)
                (objs st2, pos_data st2) (head_template_fn_appends_free E))
    as Ha.
  destruct (clean_node E (head_template_fn E) (pre sc) (objs st2, pos_data st2))
    as [text pd].
  cbn [snd] in Ha.
  assert (Ha2 : appends_free (objs st2, pos_data st2)
                  (data_append_all pd
                     (parse_word_head E (pi_pos dt) text
                        (deref (fst pd) (snd pd))))).
  { eapply appends_free_trans; [exact Ha|]. apply appends_free_all.
    apply laws. }
  pose proof (placed_append_pos ps st2 _ Hs Ha2) as H3.
  assert (Lp3 : lookup "pos"
                  (snd (data_append_all pd
                          (parse_word_head E (pi_pos dt) text
                             (deref (fst pd) (snd pd)))))
                = Some (SStr (pi_pos dt))).
  { revert Ha2.
    generalize (data_append_all pd
                  (parse_word_head E (pi_pos dt) text
                     (deref (fst pd) (snd pd)))).
    intros [ls3 d3] Ha3. cbn [snd].
    destruct (appends_free_frame _ _ _ _ "pos" Ha3 eq_refl) as [_ ->].
    exact Lp. }
  set (st3 := set_pos_data _ st2) in *.
  cbn [parse_sense_lists parse_sense_list NodeKind_eqb negb].
  rewrite H1, H2.
  destruct (placed_parse_sense_item ps (pi_pos dt) (pi_pos dt) c1 st3 H3 Lp3)
    as [H4 Pd4].
  set (st4 := parse_sense_item E (pi_pos dt) c1 st3) in *.
  destruct (placed_parse_sense_item _ (pi_pos dt) (pi_pos dt) c2 st4 H4)
    as [H5 _].
  { rewrite Pd4. exact Lp3. }
  rewrite <- app_assoc in H5. cbn [app] in H5.
  set (st5 := parse_sense_item E (pi_pos dt) c2 st4) in *.
  destruct (placed_leaves
              (P ++ WikiNode LIST la ln
                      [WikiNode LIST_ITEM s1 n1 c1; WikiNode LIST_ITEM s2 n2 c2]
                 :: Q)
              (ps ++ [pi_pos dt; pi_pos dt])
              (push_stack (pi_pos dt) st5)) as (st6 & E6 & H6).
  - rewrite forallb_app. cbn [forallb].
    rewrite brings_no_sense_node. cbn [is_sublevel negb orb].
    rewrite HQ, andb_true_r.
    clear - HP. induction P as [|n P IH]; cbn [forallb] in *; auto.
    apply andb_true_iff in HP. destruct HP as [Hn HP].
    rewrite (before_list_brings_no_sense E n Hn). now apply IH.
  - exact H5.
  - rewrite E6. exists (pop_stack st6). split; [reflexivity | exact H6].
Qed.

End PlacedWalk.

(** ** The part of speech and the fields of the etymology in the output *)

(** What a record of the output holds from the scopes above its sense: its
    part of speech [p], and, under every key of the etymology buffer, a
    list in which the items of the etymology's list stand together, in
    their order. *)
Definition placed_record (st : wstate) (r : record) (p : string) : Prop :=
  lookup "pos" r = Some (FStr p)
  /\ forall k f, lookup k (deref (objs st) (etym_data st)) = Some f ->
       exists items before after_,
         f = FList items
         /\ lookup k r = Some (FList (before ++ items ++ after_)).

Lemma push_pos_keeps st :
  etym_data (push_pos st) = etym_data st
  /\ base (push_pos st) = base st
  /\ page_datas (push_pos st) = page_datas st
  /\ store_grows (objs st) (objs (push_pos st)).
Proof.
  unfold push_pos.
  destruct (merge_all_store (pos_data (push_sense st))
              (pos_datas (push_sense st)) (objs (push_sense st))) as [G _].
  destruct (merge_all (objs (push_sense st)) (pos_datas (push_sense st))
              (pos_data (push_sense st))) as [[ls merged] ds].
  cbn [fst snd etym_data base page_datas objs] in *.
  unfold push_sense in *. destruct (is_empty (sense_data st)); auto.
Qed.

Lemma scope_unreserved (d : buffer) k s :
  scope_free d -> lookup "pos" d = None -> lookup k d = Some s ->
  reserved k = false.
Proof.
  intros Hf Hp Hl. unfold reserved.
  destruct (base_key k) eqn:Hb; [rewrite (Hf k Hb) in Hl; discriminate|].
  destruct (String.eqb k "pos") eqn:Ek; [|reflexivity].
  apply String.eqb_eq in Ek. subst. congruence.
Qed.

Lemma Forall2_map_l {A B C : Type} (f : A -> B) (P : B -> C -> Prop) l1 l2 :
  Forall2 (fun a c => P (f a) c) l1 l2 -> Forall2 P (map f l1) l2.
Proof. intros H. induction H; cbn [map]; constructor; auto. Qed.

Lemma placed_finish ps st :
  placed ps st -> scope_free (etym_data st) -> page_datas st = [] ->
  Forall2 (placed_record st) (fst (finish st)) ps.
Proof.
  intros H Hfree Hpg.
  destruct (placed_push_pos ps st H) as [Hfl Hpl].
  destruct (push_pos_keeps st) as (Ee & Eb & Ep & G1).
  unfold finish, push_etym. set (s1 := push_pos st) in *.
  destruct Hpl as (_ & _ & _ & _ & _ & _ & Te & Le).
  rewrite Ee in Te, Le.
  pose proof (merge_all_slots (etym_data s1) (etym_datas s1) (objs s1)) as Hsl.
  destruct (merge_all_store (etym_data s1) (etym_datas s1) (objs s1))
    as [G2 _].
  assert (Htidy : Forall (tidy (objs s1)) (etym_datas s1)).
  { clear - Hfl. induction Hfl as [|d p ds ps [_ T] _ IH]; constructor; auto. }
  assert (Hholds : forall k n, reserved k = false ->
            In (k, SRef n) (etym_data s1) ->
            Forall (fun d' => holds (fst (fst (merge_all (objs s1)
                                       (etym_datas s1) (etym_data s1))))
                                d' k (object (objs s1) k n))
                   (snd (fst (merge_all (objs s1) (etym_datas s1)
                                (etym_data s1))))).
  { intros k n Hr Hin. apply merge_all_holds; auto. now rewrite Ee. }
  rewrite Ee in *.
  destruct (merge_all (objs s1) (etym_datas s1) (etym_data st))
    as [[ls2 merged] ds2].
  cbn [fst snd] in *.
  cbn [objs page_datas base diags]. rewrite Ep, Hpg, Eb. cbn [app].
  pose proof (merge_all_slots (base st) merged ls2) as Hsl3.
  destruct (merge_all_store (base st) merged ls2) as [G3 _].
  destruct (merge_all ls2 merged (base st)) as [[ls3 ret] ds3].
  cbn [fst snd] in *.
  assert (Hq : Forall2
                 (fun d' p =>
                    lookup "pos" d' = Some (SStr p)
                    /\ forall k n, reserved k = false ->
                         In (k, SRef n) (etym_data st) ->
                         holds ls2 d' k (object (objs s1) k n))
                 merged ps).
  { apply (Forall2_merged
             (fun d d' => forall k, lookup k d' = merged_slot d (etym_data st) k)
             (sense_flushed (objs s1))
             (fun d' p =>
                lookup "pos" d' = Some (SStr p)
                /\ forall k n, reserved k = false ->
                     In (k, SRef n) (etym_data st) ->
                     holds ls2 d' k (object (objs s1) k n))
             (fun d' => forall k n, reserved k = false ->
                          In (k, SRef n) (etym_data st) ->
                          holds ls2 d' k (object (objs s1) k n)))
      with (datas := etym_datas s1); auto.
    - intros d d' p Hd [A _] T. split; [|exact T].
      rewrite Hd. unfold merged_slot. now rewrite A.
    - apply Forall_forall. intros d' Hin k n Hr Hi.
      specialize (Hholds k n Hr Hi). rewrite Forall_forall in Hholds.
      now apply Hholds. }
  apply Forall2_map_l.
  apply (Forall2_merged
           (fun d' r => forall k, lookup k r = merged_slot d' (base st) k)
           (fun d' p =>
              lookup "pos" d' = Some (SStr p)
              /\ forall k n, reserved k = false ->
                   In (k, SRef n) (etym_data st) ->
                   holds ls2 d' k (object (objs s1) k n))
           (fun r p => placed_record st (deref ls3 r) p)
           (fun _ => True)) with (datas := merged); auto.
  2:{ apply Forall_forall. auto. }
  intros d' r p Hr [Hp Hh] _. split.
  - rewrite lookup_deref, Hr. unfold merged_slot. now rewrite Hp.
  - intros k f Hf. rewrite lookup_deref in Hf.
    destruct (lookup k (etym_data st)) as [[v|n]|] eqn:El;
      cbn [option_map slot_value] in Hf; [| |discriminate].
    + pose proof (tidy_lookup _ _ _ _ Te El) as Hv.
      unfold slot_tidy in Hv. cbn [fst snd] in Hv.
      rewrite (scope_unreserved _ _ _ Hfree Le El) in Hv. discriminate.
    + inversion Hf; subst f. clear Hf.
      pose proof (scope_unreserved _ _ _ Hfree Le El) as Hres.
      specialize (Hh k n Hres (lookup_some_in _ _ _ El)).
      destruct (G1 k) as [_ Gk]. destruct (Gk n) as (more & Hmore).
      rewrite Hmore in Hh. apply holds_part in Hh.
      apply (holds_grows _ _ _ _ _ G3) in Hh.
      destruct Hh as (m & before & after_ & Hm & Ho).
      exists (object (objs st) k n), before, after_.
      split; [reflexivity|].
      rewrite lookup_deref, Hr. unfold merged_slot. rewrite Hm.
      cbn [option_map slot_value]. now rewrite Ho.
Qed.

(** ** One etymology, two parts of speech, two senses each *)

(** A part-of-speech section for the part of speech [p] over a sense list
    of two items with the children [c1] and [c2]: a heading whose title is
    in [part_of_speech_map]; before the list only strings and nodes that
    are neither a list nor a heading; after it only what brings no sense. *)
Inductive pos_section (E : collaborators)
  : node -> string -> list node -> list node -> Prop :=
| PosSection kind sarg nargs dt P la ln Q s1 n1 c1 s2 n2 c2 :
    is_sublevel kind = true ->
    String.eqb (heading_title E nargs) "Pronunciation" = false ->
    startswith (heading_title E nargs) "Etymology" = false ->
    part_of_speech_map E (lower E (heading_title E nargs)) = Some dt ->
    forallb before_list P = true ->
    forallb (brings_no_sense E) Q = true ->
    ends_with_colon s1 = Some false ->
    ends_with_colon s2 = Some false ->
    pos_section E
      (WikiNode kind sarg nargs
         (P ++ WikiNode LIST la ln
                 [WikiNode LIST_ITEM s1 n1 c1; WikiNode LIST_ITEM s2 n2 c2]
            :: Q))
      (pi_pos dt) c1 c2.

Lemma parse_language_finish E cfg title language lang_code children :
  parse_language E cfg title language lang_code children
  = option_map finish (walked E cfg title language lang_code children).
Proof.
  unfold parse_language, finish.
  destruct (walked E cfg title language lang_code children) as [st|];
    cbn [option_map]; [|reflexivity].
  now destruct (merge_all (objs (push_etym st)) (page_datas (push_etym st))
                  (base (push_etym st))) as [[ls ret] ds].
Qed.

Lemma etymology_is_not_pronunciation t :
  startswith t "Etymology" = true -> String.eqb t "Pronunciation" = false.
Proof.
  intros H. destruct (String.eqb t "Pronunciation") eqn:E; [|reflexivity].
  apply String.eqb_eq in E. subst. discriminate.
Qed.

Lemma collecting_start title language lang_code :
  collecting title language lang_code []
    (push_stack "TOP" (start_state title language lang_code)).
Proof.
  unfold collecting, collected. cbn.
  split; [reflexivity|]. split; [constructor|].
  split; [intros k _; reflexivity|]. split; [intros k _; reflexivity|].
  auto.
Qed.

Lemma placed_start title language lang_code :
  placed [] (push_stack "TOP" (start_state title language lang_code)).
Proof.
  exists [], []. unfold waiting. cbn.
  split; [reflexivity|]. split; [constructor|]. split; [constructor|].
  split; [apply tidy_nil|]. split; [apply tidy_nil | reflexivity].
Qed.

Section Walking.
Variable E : collaborators.
Variable cfg : config.
Variables title language lang_code : string.
Hypothesis laws : keeps_reserved E.

(** A record of the output for the sense with the gloss [g] in a section
    of the part of speech [p], after the walk has ended in [st]: the one
    gloss of its sense, its part of speech, the fields of the base, and
    the fields of the etymology, each a list that holds the items of the
    etymology's list. *)
Definition merged_record (st : wstate) (r : record) (gp : string * string)
  : Prop :=
  lookup "glosses" r = Some (FList [VStr (fst gp)])
  /\ lookup "pos" r = Some (FStr (snd gp))
  /\ lookup "word" r = Some (FStr title)
  /\ lookup "lang" r = Some (FStr language)
  /\ lookup "lang_code" r = Some (FStr lang_code)
  /\ forall k f, lookup k (deref (objs st) (etym_data st)) = Some f ->
       exists items before after_,
         f = FList items
         /\ lookup k r = Some (FList (before ++ items ++ after_)).

(** The walk holds the senses [gps], each a gloss and a part of speech. *)
Definition walking (gps : list (string * string)) (st : wstate) : Prop :=
  collecting title language lang_code (map fst gps) st
  /\ placed (map snd gps) st.

Lemma walking_leaves l gps st :
  forallb (brings_no_sense E) l = true -> walking gps st ->
  exists st', process_children E cfg l st = Some st' /\ walking gps st'.
Proof.
  intros Hl [Hc Hp].
  destruct (collecting_leaves E cfg title language lang_code laws l _ st Hl Hc)
    as (s1 & E1 & C1).
  destruct (placed_leaves E cfg laws l _ st Hl Hp) as (s2 & E2 & P2).
  assert (s2 = s1) by congruence. subst s2.
  exists s1. split; [exact E1 | split; assumption].
Qed.

Lemma walking_pos_section gps st n p c1 c2 :
  pos_section E n p c1 c2 -> walking gps st ->
  exists st',
    process_node E cfg n st = Some st'
    /\ walking (gps ++ [(item_gloss E c1, p); (item_gloss E c2, p)]) st'.
Proof.
  intros Hn [Hc Hp].
  destruct Hn as [k a g dt P la ln Q s1 n1 c1 s2 n2 c2 K T U M HP HQ X1 X2].
  destruct (collecting_pos_section E cfg title language lang_code laws
              _ st k a g dt P la ln Q s1 n1 c1 s2 n2 c2
              K T U M HP HQ X1 X2 Hc) as (sa & Ea & Ca).
  destruct (placed_pos_section E cfg laws
              _ st k a g dt P la ln Q s1 n1 c1 s2 n2 c2
              K T U M HP HQ X1 X2 Hp) as (sb & Eb & Pb).
  assert (sb = sa) by congruence. subst sb.
  exists sa. split; [exact Ea|]. unfold walking.
  rewrite !map_app. cbn [map fst snd]. split; assumption.
Qed.

Lemma walking_finish gps st :
  walking gps st -> Forall2 (merged_record st) (fst (finish st)) gps.
Proof.
  intros [Hc Hp].
  pose proof (collecting_finish title language lang_code _ st Hc) as Hf.
  pose proof Hc as (Hpg & _ & _ & Fe & _).
  pose proof (placed_finish _ st Hp Fe Hpg) as Hq.
  revert Hf Hq. generalize (fst (finish st)) as recs. clear.
  induction gps as [|[g p] gps IH]; intros recs Hf Hq; cbn [map] in *.
  - inversion Hf; subst. constructor.
  - inversion Hf as [|r ? rs ? Hr Hrs]; subst.
    inversion Hq as [|? ? ? ? Hr' Hrs']; subst.
    constructor; [|now apply IH].
    destruct Hr as (A & B & C & D & _). destruct Hr' as [P' Q'].
    unfold merged_record. cbn [fst snd]. auto 10.
Qed.

End Walking.

(** C1.  A language section that holds one Etymology heading with two
    part-of-speech sections, each over a sense list of two items, and
    besides them only what brings no sense (strings, lists, the sections
    of pronunciation, translations, linkages and the like, headings that
    are not recognized, at any depth), gives exactly four records, in the
    order of the senses.  Each record holds the one gloss of its own
    sense, the part of speech of its own section, [word], [lang] and
    [lang_code] of the base, and every field that the etymology buffer
    holds when the walk ends: a list, whose items stand together, in their
    order, in the record's list under the same key. *)
Theorem parse_language_two_parts_of_speech_two_senses
        (E : collaborators) (cfg : config)
        (title language lang_code : string)
        (A B C D F : list node) (kind : NodeKind) (sarg : string)
        (nargs : list node) (pos1 pos2 : node) (p1 p2 : string)
        (c11 c12 c21 c22 : list node) :
  keeps_reserved E ->
  forallb (brings_no_sense E) A = true ->
  forallb (brings_no_sense E) B = true ->
  forallb (brings_no_sense E) C = true ->
  forallb (brings_no_sense E) D = true ->
  forallb (brings_no_sense E) F = true ->
  is_sublevel kind = true ->
  startswith (heading_title E nargs) "Etymology" = true ->
  pos_section E pos1 p1 c11 c12 ->
  pos_section E pos2 p2 c21 c22 ->
  exists st recs ds,
    walked E cfg title language lang_code
      (A ++ WikiNode kind sarg nargs (C ++ pos1 :: D ++ pos2 :: F) :: B)
    = Some st
    /\ parse_language E cfg title language lang_code
         (A ++ WikiNode kind sarg nargs (C ++ pos1 :: D ++ pos2 :: F) :: B)
       = Some (recs, ds)
    /\ List.length recs = 4
    /\ Forall2 (merged_record title language lang_code st) recs
         [(item_gloss E c11, p1); (item_gloss E c12, p1);
          (item_gloss E c21, p2); (item_gloss E c22, p2)].
Proof.
  intros laws HA HB HC HD HF Hk Het H1 H2.
  assert (Hw : exists st,
             walked E cfg title language lang_code
               (A ++ WikiNode kind sarg nargs (C ++ pos1 :: D ++ pos2 :: F) :: B)
             = Some st
             /\ walking title language lang_code
                  [(item_gloss E c11, p1); (item_gloss E c12, p1);
                   (item_gloss E c21, p2); (item_gloss E c22, p2)] st).
  { unfold walked. rewrite process_children_app.
    destruct (walking_leaves E cfg title language lang_code laws A [] _ HA
                (conj (collecting_start title language lang_code)
                      (placed_start title language lang_code)))
      as (sa & Ea & Ia).
    rewrite Ea. cbn [process_children].
    rewrite process_node_heading by exact Hk. cbv zeta.
    rewrite (etymology_is_not_pronunciation _ Het), Het.
    assert (Ie : walking title language lang_code []
                   (push_stack (heading_title E nargs) (push_etym sa))).
    { destruct Ia as [Ic Ip]. split.
      - apply collecting_push_etym_nothing in Ic. exact Ic.
      - apply placed_push_etym_nothing in Ip. exact Ip. }
    rewrite process_children_app.
    destruct (walking_leaves E cfg title language lang_code laws C [] _ HC Ie)
      as (sc & Ec & Ic).
    rewrite Ec. cbn [process_children].
    destruct (walking_pos_section E cfg title language lang_code laws
                [] sc pos1 p1 c11 c12 H1 Ic) as (s1 & E1 & I1).
    rewrite E1. cbn [app] in I1.
    rewrite process_children_app.
    destruct (walking_leaves E cfg title language lang_code laws D _ _ HD I1)
      as (sd & Ed & Id).
    rewrite Ed. cbn [process_children].
    destruct (walking_pos_section E cfg title language lang_code laws
                _ sd pos2 p2 c21 c22 H2 Id) as (s2 & E2 & I2).
    rewrite E2. cbn [app] in I2.
    destruct (walking_leaves E cfg title language lang_code laws F _ _ HF I2)
      as (sf & Ef & If).
    rewrite Ef.
    destruct (walking_leaves E cfg title language lang_code laws B _
                (pop_stack sf) HB If) as (sb & Eb & Ib).
    rewrite Eb. exists (pop_stack sb). split; [reflexivity | exact Ib]. }
  destruct Hw as (st & Hwalk & Hc).
  pose proof (walking_finish title language lang_code _ st Hc) as Hf.
  exists st, (fst (finish st)), (snd (finish st)).
  split; [exact Hwalk|]. split.
  - rewrite parse_language_finish, Hwalk. cbn [option_map].
    now destruct (finish st).
  - split; [|exact Hf].
    apply Forall2_length in Hf. exact Hf.
Qed.

Lemma example_env_keeps_reserved : keeps_reserved example_env.
Proof.
  split; [|split].
  - intros q view kv [<-|[]]. reflexivity.
  - intros pos text view kv. cbn.
    destruct (String.eqb text ""); [intros [] | intros [<-|[]]; reflexivity].
  - intros field n Hf kv Hin. cbn in Hin.
    apply in_map_iff in Hin. destruct Hin as (w & <- & _). exact Hf.
Qed.

Definition entry_list (words : list string) : node :=
  WikiNode LIST "*" [] (map (fun w => WikiNode LIST_ITEM "*" [] [Text w]) words).

(** One etymology with a noun and a verb of two senses each. *)
Definition oak_noun : node :=
  heading LEVEL4 "Noun"
    [Text "oak"; sense_list ["(botany) a tree"; "wood"];
     heading LEVEL5 "Synonyms" [entry_list ["quercus"]]].

Definition oak_verb : node :=
  heading LEVEL4 "Verb" [Text "oak"; sense_list ["to oak"; "to be oak"]].

Definition oak_page : list node :=
  [Text "A tree.";
   heading LEVEL3 "Etymology"
     [Text "From somewhere.";
      heading LEVEL4 "Pronunciation" [Text "/ouk/"];
      oak_noun;
      heading LEVEL4 "Usage notes"
        [Text "Rare."; heading LEVEL5 "See also" [entry_list ["elm"]]];
      oak_verb;
      heading LEVEL4 "Translations" [entry_list ["Eiche"]]]].

Lemma oak_noun_section :
  pos_section example_env oak_noun "noun" [Text "(botany) a tree"]
    [Text "wood"].
Proof.
  apply (PosSection example_env LEVEL4 "" [Text "Noun"]
           {| pi_pos := "noun"; pi_tags := None; pi_warning := None;
              pi_error := None |}
           [Text "oak"] "#" [] [heading LEVEL5 "Synonyms" [entry_list ["quercus"]]]
           "#" [] [Text "(botany) a tree"] "#" [] [Text "wood"]);
    reflexivity.
Qed.

Lemma oak_verb_section :
  pos_section example_env oak_verb "verb" [Text "to oak"] [Text "to be oak"].
Proof.
  apply (PosSection example_env LEVEL4 "" [Text "Verb"]
           {| pi_pos := "verb"; pi_tags := None; pi_warning := None;
              pi_error := None |}
           [Text "oak"] "#" [] []
           "#" [] [Text "to oak"] "#" [] [Text "to be oak"]);
    reflexivity.
Qed.

Lemma parse_language_two_parts_of_speech_two_senses_witness :
  exists st recs ds,
    walked example_env cfg_all "oak" "English" "en" oak_page = Some st
    /\ parse_language example_env cfg_all "oak" "English" "en" oak_page
       = Some (recs, ds)
    /\ List.length recs = 4
    /\ Forall2 (merged_record "oak" "English" "en" st) recs
         [("a tree", "noun"); ("wood", "noun");
          ("to oak", "verb"); ("to be oak", "verb")].
Proof.
  exact (parse_language_two_parts_of_speech_two_senses
           example_env cfg_all "oak" "English" "en"
           [Text "A tree."] []
           [Text "From somewhere."; heading LEVEL4 "Pronunciation" [Text "/ouk/"]]
           [heading LEVEL4 "Usage notes"
              [Text "Rare."; heading LEVEL5 "See also" [entry_list ["elm"]]]]
           [heading LEVEL4 "Translations" [entry_list ["Eiche"]]]
           LEVEL3 "" [Text "Etymology"] oak_noun oak_verb "noun" "verb"
           [Text "(botany) a tree"] [Text "wood"]
           [Text "to oak"] [Text "to be oak"]
           example_env_keeps_reserved
           eq_refl eq_refl eq_refl eq_refl eq_refl eq_refl eq_refl
           oak_noun_section oak_verb_section).
Defined.

(** The four records of the page, as they are returned. *)
Example parse_language_oak :
  parse_language example_env cfg_all "oak" "English" "en" oak_page
  = Some
      ([[("tags", FList [VStr "botany"]);
         ("glosses", FList [VStr "a tree"]); ("pos", FStr "noun");
         ("forms", FList [VDict [("form", VStr "oak")]]);
         ("synonyms", FList [VDict [("word", VStr "quercus")]]);
         ("translations", FList [VDict [("word", VStr "Eiche")]]);
         ("word", FStr "oak"); ("lang", FStr "English");
         ("lang_code", FStr "en");
         ("sounds", FList [VDict [("other", VStr "/ouk/")]])];
        [("glosses", FList [VStr "wood"]); ("pos", FStr "noun");
         ("forms", FList [VDict [("form", VStr "oak")]]);
         ("synonyms", FList [VDict [("word", VStr "quercus")]]);
         ("translations", FList [VDict [("word", VStr "Eiche")]]);
         ("word", FStr "oak"); ("lang", FStr "English");
         ("lang_code", FStr "en");
         ("sounds", FList [VDict [("other", VStr "/ouk/")]])];
        [("glosses", FList [VStr "to oak"]); ("pos", FStr "verb");
         ("forms", FList [VDict [("form", VStr "oak")]]);
         ("translations", FList [VDict [("word", VStr "Eiche")]]);
         ("word", FStr "oak"); ("lang", FStr "English");
         ("lang_code", FStr "en");
         ("sounds", FList [VDict [("other", VStr "/ouk/")]])];
        [("glosses", FList [VStr "to be oak"]); ("pos", FStr "verb");
         ("forms", FList [VDict [("form", VStr "oak")]]);
         ("translations", FList [VDict [("word", VStr "Eiche")]]);
         ("word", FStr "oak"); ("lang", FStr "English");
         ("lang_code", FStr "en");
         ("sounds", FList [VDict [("other", VStr "/ouk/")]])]],
       []).
Proof. reflexivity. Qed.

(** The two senses of a part of speech take its list of synonyms over as
    one list: the synonym of the etymology is appended to it once for each
    of them, and both records show it twice. *)
Example parse_language_shared_synonyms :
  parse_language example_env cfg_all "oak" "English" "en"
    [heading LEVEL3 "Etymology"
       [heading LEVEL4 "Noun"
          [Text "oak"; sense_list ["a tree"; "wood"];
           heading LEVEL5 "Synonyms" [entry_list ["quercus"]]];
        heading LEVEL4 "Synonyms" [entry_list ["tree"]]]]
  = Some
      ([[("glosses", FList [VStr "a tree"]); ("pos", FStr "noun");
         ("forms", FList [VDict [("form", VStr "oak")]]);
         ("synonyms",
          FList [VDict [("word", VStr "quercus")];
                 VDict [("word", VStr "tree")]; VDict [("word", VStr "tree")]]);
         ("word", FStr "oak"); ("lang", FStr "English");
         ("lang_code", FStr "en")];
        [("glosses", FList [VStr "wood"]); ("pos", FStr "noun");
         ("forms", FList [VDict [("form", VStr "oak")]]);
         ("synonyms",
          FList [VDict [("word", VStr "quercus")];
                 VDict [("word", VStr "tree")]; VDict [("word", VStr "tree")]]);
         ("word", FStr "oak"); ("lang", FStr "English");
         ("lang_code", FStr "en")]],
       []).
Proof. reflexivity. Qed.

(** ** parse_sense: the templates of a gloss *)

(** [s.split()]: the runs of characters between white space. *)
Fixpoint split_ws_go (s cur : string) : list string :=
  let flush := if String.eqb cur "" then [] else [cur] in
  match s with
  | EmptyString => flush
  | String a r1 =>
      let go_on := split_ws_go r1 (cur +++ String a EmptyString) in
      if is_space a then flush ++ split_ws_go r1 ""
      else
        match r1 with
        | String b r2 =>
            if is_space2 a b then flush ++ split_ws_go r2 ""
            else
              match r2 with
              | String c r3 =>
                  if is_space3 a b c then flush ++ split_ws_go r3 ""
                  else go_on
              | EmptyString => go_on
              end
        | EmptyString => go_on
        end
  end.

Definition split_ws (s : string) : list string := split_ws_go s "".

(** [[a-z0-9]+] for a whole string *)
Definition is_lower_alnum (s : string) : bool :=
  negb (String.eqb s "")
  && forallb (fun c => let n := nat_of_ascii c in
                       (Nat.leb 97 n && Nat.leb n 122)
                       || (Nat.leb 48 n && Nat.leb n 57))
             (list_ascii_of_string s).

(** Group 1 of the match of a name against [table:], a category without
    a slash, and optionally a slash and lower-case letters and digits up to
    the end. *)
Definition table_category (name : string) : option string :=
  if startswith name "table:" then
    let rest := drop_chars 6 name in
    match find rest "/" with
    | None => Some rest
    | Some i =>
        if is_lower_alnum (drop_chars (i + 1) rest)
        then Some (substring 0 i rest) else None
    end
  else None.

Example table_category_examples :
  map table_category ["table:colors"; "table:colors/en"; "table:a/b/c";
                      "table:colors/"; "tables"; "table:"]
  = [Some "colors"; Some "colors"; None; None; None; Some ""].
Proof. reflexivity. Qed.

(** The search of a name for [IPA], for [RQ:], [Template:RQ:] or [R:] at
    its start, or for one of the romanization endings. *)
Definition is_reference_family (name : string) : bool :=
  contains name "IPA"
  || startswith name "RQ:" || startswith name "Template:RQ:"
  || startswith name "R:"
  || endswith name "-romanization" || endswith name "-romanji"
  || endswith name "romanization of".

(** A form map of [wikttemplates]: the argument keys under [_keys], and
    the tags of a value. *)
Record form_map : Type := {
  fm_keys : list ht_key;
  fm_tags : string -> option (list string)
}.

(** [form_map[v]] for a [v in form_map]; the entry [_keys] is in the
    dictionary as well. *)
Definition fm_lookup (fm : form_map) (v : string)
  : option (list (option string)) :=
  if String.eqb v "_keys"
  then Some (map (fun k => match k with KStr s => Some s | KInt _ => None end)
                 (fm_keys fm))
  else option_map (map Some) (fm_tags fm v).

(** An entry of [form_of_map]. *)
Record form_of_entry : Type := {
  fo_error : bool;
  fo_alt_of : option (list string);
  fo_inflection_of : option (list string)
}.

(** What [parse_sense] carries from one template to the next: [data], the
    local variable [state] (unbound at first), and the diagnostics. *)
Record sense_state : Type := {
  s_data : record;
  s_state : option string;
  s_diags : list diag
}.

Definition upd (f : record -> record) (st : sense_state) : sense_state :=
  {| s_data := f (s_data st); s_state := s_state st; s_diags := s_diags st |}.

Definition report (d : diag) (st : sense_state) : sense_state :=
  {| s_data := s_data st; s_state := s_state st; s_diags := s_diags st ++ [d] |}.

(** [data_append(config, data, key, v)] *)
Definition put (key : string) (v : value) : sense_state -> sense_state :=
  upd (fun d => data_append d key v).

(** [data_extend(config, data, key, vs)] *)
Definition put_all (key : string) (vs : list value)
  : sense_state -> sense_state :=
  upd (fun d => data_extend d key vs).

Definition tag (s : string) : sense_state -> sense_state :=
  put "tags" (VStr s).

Definition tag_all (l : list string) : sense_state -> sense_state :=
  put_all "tags" (map VStr l).

(** [{"word": x}] *)
Definition word_entry (x : string) : value := VDict [("word", VStr x)].

(** [{"word": x, "type": kind}] *)
Definition typed_entry (x kind : string) : value :=
  VDict [("word", VStr x); ("type", VStr kind)].

(** Statements one after the other. *)
Definition steps (l : list (sense_state -> sense_state))
  : sense_state -> sense_state :=
  fun st => fold_left (fun s f => f s) l st.

(** [for x in l: body(x)] *)
Definition for_each {A : Type} (l : list A)
           (body : A -> sense_state -> sense_state)
  : sense_state -> sense_state :=
  fun st => fold_left (fun s x => body x s) l st.

(** An [if / elif / else] chain over one value: the first case whose test
    the value passes, or the [else]. *)
Definition choose (x : string)
           (cases : list ((string -> bool) * (sense_state -> sense_state)))
           (otherwise : sense_state -> sense_state)
  : sense_state -> sense_state :=
  match List.find (fun c => fst c x) cases with
  | Some c => snd c
  | None => otherwise
  end.

(** [x in (a, b, ...)] *)
Definition one_of (names : list string) : string -> bool :=
  fun x => in_names x names.

(** [x in ("abc")]: without a comma the parentheses hold a string, and
    [in] searches it. *)
Definition part_of (s : string) : string -> bool :=
  fun x => is_substring_of x s.

Definition nothing : sense_state -> sense_state := fun st => st.

Section ParseSense.
(** Outside this file: the cleaners of [wiktextract.clean], the helpers
    [data_alt_of] and [data_inflection_of] of [datautils], the tables of
    [wikttemplates], [form_of] and [places], the parser of [wikitextparser],
    and how a template, a string and [data] are printed in a message. *)
Variable clean_value : string -> string.
Variable clean_quals : list string -> list string.
Variable data_alt_of : record -> template -> list string -> record.
Variable data_inflection_of : record -> template -> list string -> record.
Variable generic_verb_form_map : form_map.
Variable es_verb_form_map : form_map.
Variable nl_verb_form_map : form_map.
Variable de_verb_form_map : form_map.
Variable form_of_map : string -> option form_of_entry.
Variable place_prefixes : string -> option string.
Variable ignored_templates : list string.
Variable default_tags : list string.
Variable default_parenthesize_tags : list string.
Variable wikitext_parse : string -> parsed.
(** where the match of [langtag_colon_re] at the start of a string ends *)
Variable re_langtag_colon : string -> option nat.
(** group 1 of the match, letter case ignored, of a prefix that ends in a
    colon and [pref] or [suf] *)
Variable re_place_affix : string -> option string.
Variable show_template : template -> string.
Variable py_repr : string -> string.
Variable show_data : record -> string.
Variable cfg : config.
Variable use_text : bool.
(** [str.lower()] of Python *)
Variable lower : string -> string.

(** [t_arg(config, t, k)] and [t_vec(config, t)] *)
Definition targ (t : template) (k : string) : string := t_arg clean_value t k.

Definition tvec (t : template) : list string := t_vec clean_value t.

(** [config.unknown_value(t, v)] *)
Definition unknown_value (t : template) (v : string)
  : sense_state -> sense_state :=
  report (UnknownValue (strip (t_name t)) v).

(** [data_alt_of(config, data, t, tags)] *)
Definition alt_of (tags : list string) (t : template)
  : sense_state -> sense_state :=
  upd (fun d => data_alt_of d t tags).

(** [data_inflection_of(config, data, t, tags)] *)
Definition inflection_of (tags : list string) (t : template)
  : sense_state -> sense_state :=
  upd (fun d => data_inflection_of d t tags).

(** [t_arg(config, t, k)] for a key of a form map. *)
Definition arg_of_key (t : template) (k : ht_key) : string :=
  match k with
  | KInt n => targ t (decimal n)
  | KStr s => targ t s
  end.

(** [verb_form_map_fn(config, data, name, t, form_map)]; [None] where an
    [assert] fails. *)
Definition verb_form_map_fn (t : template) (fm : form_map)
           (st : sense_state) : option sense_state :=
  fold_left
    (fun acc k =>
       match acc with
       | None => None
       | Some s =>
           let v := arg_of_key t k in
           if String.eqb v "" then Some s
           else
             match fm_lookup fm v with
             | Some lst =>
                 fold_left (fun acc x =>
                              match acc, x with
                              | Some s, Some x => Some (tag x s)
                              | _, _ => None
                              end) lst (Some s)
             | None => Some (unknown_value t v s)
             end
       end)
    (fm_keys fm)
    (Some (put "inflection_of" (VStr (targ t "1")) st)).

(** The keys of [{{given name}}] that are passed over. *)
Definition given_name_skipped : list string :=
  ["template_name"; "usage"; "f"; "var"; "var2";
   "from"; "from2"; "from3"; "from4"; "from5"; "fron";
   "fromt"; "meaning"; "m"; "mt"; "f";
   "diminutive"; "diminutive2";
   "dim"; "dim2"; "dim3"; "dim4"; "dim5";
   "dim6"; "dim7"; "dim8"; "eq"; "eq2"; "eq3"; "eq4";
   "eq5"; "A"; "3"].

(** The text of a value of [t_dict]. *)
Definition text_of (v : value) : string :=
  match v with VStr s => s | _ => "" end.

Definition given_name (t : template) : sense_state -> sense_state :=
  steps
    [tag_all ["person"; "given_name"];
     for_each (t_dict clean_value t)
       (fun kv =>
          let k := fst kv in
          let v := text_of (snd kv) in
          if in_names k given_name_skipped then nothing
          else if String.eqb k "sort" then put "sort" (VStr v)
          else if String.eqb v "en"
                  || (String.eqb k "1" && Nat.leb (py_len v) 3) then nothing
          else choose v
                 [(one_of ["male_or_female"; "unisex"], nothing);
                  (one_of ["male"], tag "masculine");
                  (one_of ["female"], tag "feminine")]
                 (unknown_value t v))].

(** A link to another project, skipped in examples. *)
Definition wikipedia_link (v : string) : sense_state -> sense_state :=
  if use_text then put "wikipedia" (VStr v) else nothing.

(** An abbreviation of another term. *)
Definition abbreviation_of (t : template) : sense_state -> sense_state :=
  let x := targ t "2" in
  if startswith x "w:" then
    steps [wikipedia_link (drop_chars 2 x);
           put "alt_of" (VStr (drop_chars 2 x)); tag "abbreviation"]
  else steps [put "alt_of" (VStr x); tag "abbreviation"].

(** [{{inflected form of}}], [{{form of}}] *)
Definition form_of (t : template) : sense_state -> sense_state :=
  let form := targ t "2" in
  let term := targ t "3" in
  match form_of_map form with
  | Some dt =>
      steps
        [if fo_error dt
         then report (ErrorMsg ("Potentially erroneus word form specifier: "
                                +++ py_repr form))
         else nothing;
         match fo_alt_of dt, fo_inflection_of dt with
         | Some tags, _ => steps [tag_all tags; put "alt_of" (VStr term)]
         | None, Some tags =>
             steps [tag_all tags; put "inflection_of" (VStr term)]
         | None, None =>
             report (DebugMsg ("Internal unimplemented word form specifier: "
                               +++ py_repr form))
         end]
  | None =>
      report (ErrorMsg ("Unrecognized word form specifier: " +++ py_repr form))
  end.

(** The grammatical forms of [{{noun form of}}]. *)
Definition noun_form_of (t : template) : sense_state -> sense_state :=
  steps
    [put "inflection_of" (VStr (targ t "2"));
     for_each (skipn 2 (tvec t))
       (fun x =>
          if String.eqb x "" then nothing
          else choose x
                 [(one_of ["acc"; "accusative"], tag "accusative");
                  (one_of ["gen"; "genitive"], tag "genitive");
                  (one_of ["dat"; "dative"], tag "dative");
                  (one_of ["nom"; "nominative"], tag "nominative");
                  (one_of ["s"; "sg"; "singular"], tag "singular");
                  (one_of ["p"; "pl"; "plural"], tag "plural");
                  (one_of ["def"; "definite"], tag "definite");
                  (one_of ["loc"; "locative"], tag "locative");
                  (one_of ["voc"; "vocative"], tag "vocative");
                  (one_of ["ins"; "instrumental"], tag "instrumental");
                  (one_of ["ess"; "essive"], tag "essive");
                  (one_of ["ela"; "elative"], tag "elative");
                  (one_of ["ade"; "adessive"], tag "adessive");
                  (one_of ["ine"; "inessive"], tag "inessive");
                  (one_of ["par"; "partitive"], tag "partitive");
                  (part_of "acc//dat", tag_all ["accusative"; "dative"]);
                  (part_of "nom//acc", tag_all ["accusative"; "nominative"])]
                 (unknown_value t x))].

(** [{{+obj}}], [{{+OBJ}}], [{{construed with}}] *)
Definition object_construction (t : template) : sense_state -> sense_state :=
  let v := if negb (String.eqb (targ t "lang") "")
           then targ t "1" else targ t "2" in
  choose v
    [(one_of ["dat"; "dative"], tag "object_dative");
     (one_of ["acc"; "accusative"], tag "object_accusative");
     (one_of ["ela"; "elative"], tag "object_elative");
     (one_of ["abl"; "ablative"], tag "object_ablative");
     (one_of ["gen"; "genitive"], tag "object_genitive");
     (one_of ["nom"; "nominative"], tag "object_nominative");
     (one_of ["ins"; "instructive"], tag "object_instructive");
     (one_of ["obl"; "oblique"], tag "object_oblique");
     (one_of ["loc"; "locative"], tag "object_locative");
     (one_of ["participial"], tag "object_participial");
     (one_of ["subj"; "subjunctive"], tag "object_subjunctive");
     (one_of ["with"], put "object_preposition" (VStr "with"));
     (one_of ["avec"], put "object_preposition" (VStr "avec"));
     (one_of [""],
      report (Warning ("empty/missing object construction argument in "
                       +++ show_template t)))]
    (unknown_value t v).

(** [vec[0]], which raises on an empty list. *)
Definition first_arg (l : list string) : option string :=
  match l with x :: _ => Some x | [] => None end.

Definition es_adj_form_of (t : template) (st : sense_state)
  : option sense_state :=
  match first_arg (tvec t) with
  | None => None
  | Some base =>
      Some (steps
              [put "inflection_of" (VStr base);
               for_each (skipn 1 (tvec t))
                 (fun x =>
                    choose x
                      [(one_of ["f"], tag "feminine");
                       (one_of ["m"], tag "masculine");
                       (one_of ["sg"], tag "singular");
                       (one_of ["pl"], tag "plural")]
                      (unknown_value t x))] st)
  end.

Definition es_compound_of (t : template) : sense_state -> sense_state :=
  let infinitive := targ t "1" +++ targ t "2" in
  let pron2 := targ t "5" in
  let mood := targ t "mood" in
  let person := targ t "person" in
  steps
    [put "inflection_of" (VStr infinitive);
     tag "pron-compound";
     put "pron1" (VStr (targ t "4"));
     if String.eqb pron2 "" then nothing else put "pron2" (VStr pron2);
     choose mood
       [(one_of ["inf"; "infinitive"], tag "infinitive");
        (one_of ["part"; "participle"; "adv"; "adverbial"; "ger";
                 "gedund"; "gerundive"; "gerundio";
                 "present participle"; "present-participle"],
         tag "participle");
        (one_of ["imp"; "imperative"], tag "imperative");
        (one_of ["pret"; "preterite"], tag "preterite");
        (one_of ["pres"; "present"], tag "present");
        (one_of ["refl"; "reflexive"], tag "reflexive");
        (one_of ["impf"; "imperfect"], tag "imperfect");
        (one_of ["subjunctive"], tag "subjunctive")]
       (unknown_value t mood);
     choose person
       [(one_of ["tú"; "tu"; "inf"],
         tag_all ["second-person"; "singular"; "informal"]);
        (one_of ["vosotros"; "v"; "inf-pl"],
         tag_all ["second-person"; "plural"; "informal"]);
        (one_of ["nosotros"], tag_all ["third-person"]);
        (one_of ["usted"; "ud"; "f"],
         tag_all ["second-person"; "singular"; "formal"]);
        (one_of ["ustedes"; "uds"; "uds."; "f-pl"],
         tag_all ["second-person"; "plural"; "formal"]);
        (one_of ["vos"], tag_all ["first-person"; "singular"; "nominative"]);
        (one_of ["él"], tag_all ["third-person"; "singular"; "masculine"]);
        (one_of ["s"], tag_all ["singular"]);
        (one_of ["me"], tag_all ["first-person"; "singular"; "accusative"]);
        (one_of ["se"], tag_all ["first-person"; "singular"; "reflexive"]);
        (one_of ["le"], tag_all ["third-person"; "singular"; "dative"]);
        (one_of [""], nothing)]
       (unknown_value t person)].

(** The forms that follow the base in an adjective or noun form
    template. *)
Definition forms_after_base (t : template)
           (cases : list ((string -> bool) * (sense_state -> sense_state)))
  : sense_state -> sense_state :=
  steps
    [put "inflection_of" (VStr (targ t "1"));
     for_each (skipn 1 (tvec t))
       (fun x => choose x cases (unknown_value t x))].

(** [{{nl-noun form of}}], [{{nl-adj form of}}] *)
Definition form_then_base (t : template)
           (cases : list ((string -> bool) * (sense_state -> sense_state)))
  : sense_state -> sense_state :=
  steps
    [put "inflection_of" (VStr (targ t "2"));
     choose (targ t "1") cases (unknown_value t (targ t "1"))].
(** The person and number of [{{fi-verb form of}}]. *)
Definition fi_verb_mapping (v : string) : option (list string) :=
  lookup v
    [("1s", ["first-person"; "singular"]);
     ("2s", ["second-person"; "singular"]);
     ("3s", ["third-person"; "singular"]);
     ("1p", ["first-person"; "plural"]);
     ("2p", ["second-person"; "plural"]);
     ("3p", ["third-person"; "plural"]);
     ("p", ["plural"]);
     ("plural", ["plural"]);
     ("s", ["singular"]);
     ("pass", ["passive"]);
     ("cond", ["conditional"]);
     ("potn", ["potential"]);
     ("impr", ["imperative"]);
     ("pres", ["present"]);
     ("past", ["past"])].

(** [for k in t.arguments: k = k.name.strip()] *)
Definition argument_names (t : template) : list string :=
  map (fun a => strip (fst a)) (t_arguments t).

Definition fi_verb_form_of (t : template) : sense_state -> sense_state :=
  steps
    [put "inflection_of" (VStr (targ t "1"));
     for_each (argument_names t)
       (fun k =>
          if in_names k ["1"; "c"; "nodot"; "suffix"] then nothing
          else
            let v := targ t k in
            match fi_verb_mapping v with
            | Some tags => tag_all tags
            | None => steps [unknown_value t v; tag_all [v]]
            end)].

(** The values of [{{fi-form of}}] that are known. *)
Definition fi_form_known : list string :=
  ["1"; "2"; "3"; "impersonal";
   "first-person"; "second-person"; "third-person";
   "first-person singular"; "first-person plural";
   "second-person singular"; "second-person plural";
   "third-person singular"; "third-person plural";
   "first, second, and third person";
   "singular or plural";
   "plural"; "singular"; "present"; "past";
   "imperative"; "present connegative";
   "indicative connegative";
   "indicative present";
   "indicative past";
   "potential present";
   "conditional present";
   "potential present connegative";
   "connegative"; "partitive"; "optative";
   "eventive";
   "singular and plural"; "passive";
   "indicative"; "conditional"; "potential"].

(** The spelling of a value of [{{fi-form of}}] made uniform. *)
Definition fi_form_value (v : string) : string :=
  if in_names v ["first-person"; "first person"; "1p"] then "first-person"
  else if in_names v ["second-person"; "second person"; "2p"]
  then "second-person"
  else if in_names v ["third-person"; "third person"; "3p"]
  then "third-person"
  else if String.eqb v "connegative present" then "present connegative"
  else if in_names v ["singural"; "s"] then "singular"
  else if is_substring_of v "p," then "plural"
  else if String.eqb v "pres" then "present"
  else if String.eqb v "imperfect" then "past"
  else v.

Definition fi_form_of (t : template) : sense_state -> sense_state :=
  steps
    [put "inflection_of" (VStr (targ t "1"));
     for_each ["suffix"; "suffix2"; "suffix3"]
       (fun k => if String.eqb (targ t k) "" then nothing
                 else put "suffix" (VStr (targ t k)));
     for_each (argument_names t)
       (fun k =>
          if in_names k ["1"; "2"; "3"; "suffix"; "suffix2"; "suffix3";
                         "c"; "n"; "type"; "lang"] then nothing
          else if String.eqb (targ t k) "" || String.eqb (targ t k) "-"
          then nothing
          else
            let v := fi_form_value (targ t k) in
            steps
              [if negb (String.eqb k "case") && negb (in_names v fi_form_known)
               then unknown_value t v else nothing;
               choose v
                 [(one_of ["singular and plural"; "singular or plural"],
                   steps [tag "singular"; tag "plural"]);
                  (one_of ["first-person singular"],
                   steps [tag "singular"; tag "first-person"]);
                  (one_of ["first-person plural"],
                   steps [tag "plural"; tag "first-person"]);
                  (one_of ["second-person singular"],
                   steps [tag "singular"; tag "second-person"]);
                  (one_of ["second-person plural"],
                   steps [tag "plural"; tag "second-person"]);
                  (one_of ["third-person singular"],
                   steps [tag "singular"; tag "third-person"]);
                  (one_of ["third-person plural"],
                   steps [tag "plural"; tag "third-person"]);
                  (one_of ["first, second, and third person"], nothing);
                  (one_of ["present connegative"],
                   steps [tag "present"; tag "connegative"]);
                  (one_of ["indicative connegative"],
                   steps [tag "indicative"; tag "connegative"]);
                  (one_of ["potential present connegative"],
                   steps [tag "potential"; tag "connegative"]);
                  (one_of ["potential present"], tag "potential");
                  (one_of ["conditional present"], tag "conditional");
                  (one_of ["indicative present"], tag "present");
                  (one_of ["indicative past"], tag "past")]
                 (tag v)])].

(** One argument of [{{place}}] after the place types: what the place is
    part of. *)
Definition place_holonym (t : template) (x : string)
  : sense_state -> sense_state :=
  if String.eqb x "" then nothing
  else
    match find x "/" with
    | Some idx =>
        let prefix := substring 0 idx x in
        let prefix := match re_place_affix prefix with
                      | Some g => g
                      | None => prefix
                      end in
        match place_prefixes prefix with
        | Some kind =>
            let v := drop_chars (idx + 1) x in
            let v := match re_langtag_colon v with
                     | Some e => drop_chars e v
                     | None => v
                     end in
            steps [if contains v ":" then unknown_value t x else nothing;
                   put "holonyms" (typed_entry v kind)]
        | None => unknown_value t x
        end
    | None => put "holonyms" (word_entry x)
    end.

(** [{{place}}]: the tag [place], then every place type of the second
    argument as a tag and as a hypernym. *)
Definition place (t : template) : sense_state -> sense_state :=
  steps
    [tag "place";
     if String.eqb (targ t "t") "" then nothing
     else put "alt_of" (VStr (targ t "t"));
     match tvec t with
     | _ :: types :: rest =>
         steps
           [for_each (split types "/")
              (fun x => steps [tag x; put "hypernyms" (word_entry x)]);
            for_each rest (place_holonym t)]
     | _ => unknown_value t "TOO FEW ARGS"
     end].

Definition brazil : sense_state -> sense_state :=
  put "holonyms" (typed_entry "Brazil" "country").

Definition brazil_state (t : template) : sense_state -> sense_state :=
  steps
    [tag "place"; tag "province";
     if String.eqb (targ t "capital") "" then nothing
     else put "meronyms" (typed_entry (targ t "capital") "city");
     brazil].

(** [state = t_arg(config, t, "state")] binds the local variable. *)
Definition brazil_state_capital (t : template)
  : sense_state -> sense_state :=
  steps
    [tag "place"; tag "city";
     fun st => {| s_data := s_data st; s_state := Some (targ t "state");
                  s_diags := s_diags st |};
     if String.eqb (targ t "state") "" then nothing
     else put "holonyms" (typed_entry (targ t "state") "province");
     brazil].

(** [if state:] reads the local variable, which is bound only when a
    state capital came before in the same gloss. *)
Definition brazil_municipality (st : sense_state) : option sense_state :=
  match s_state st with
  | None => None
  | Some state =>
      Some (steps
              [tag "place"; tag "municipality";
               if String.eqb state "" then nothing
               else put "holonyms" (typed_entry state "province");
               brazil] st)
  end.
(** What a branch does with the template: the state after it, or [None]
    when it raises. *)
Definition sense_action := template -> sense_state -> option sense_state.

(** One [if] or [elif] of the chain: the test on the name and the body. *)
Definition sense_rule := ((string -> bool) * sense_action)%type.

Definition does (f : template -> sense_state -> sense_state) : sense_action :=
  fun t st => Some (f t st).

Definition just (f : sense_state -> sense_state) : sense_action :=
  fun _ st => Some (f st).

(** [for x in t_vec(config, t)[1:]: data_append(config, data, key,
    {"word": x})] *)
Definition words_under (key : string) : sense_action :=
  does (fun t => for_each (skipn 1 (tvec t))
                   (fun x => put key (word_entry x))).

(** The chain, first part: labels, glosses, names, taxons, colours,
    units, links to other projects. *)
Definition sense_rules_1 : list sense_rule :=
  [(one_of ["lb"; "label"; "context"; "term-context"; "term-label";
            "lbl"; "tlb"; "tcx"],
    does (fun t => put_all "tags"
                     (map VStr (clean_quals (skipn 1 (tvec t))))));
   (one_of ["g2"],
    does (fun t => choose (targ t "1")
                     [(one_of ["m"], tag "masculine");
                      (one_of ["f"], tag "feminine");
                      (one_of ["n"], tag "neuter")]
                     (unknown_value t (targ t "1"))));
   (one_of ["qual"; "qualifier"; "q"; "qf"; "i"; "a"; "accent"],
    does (fun t => put_all "tags" (map VStr (clean_quals (tvec t)))));
   (one_of ["ux"; "uxi"; "usex"; "afex"; "zh-x"; "prefixusex";
            "ko-usex"; "ko-x"; "hi-x"; "ja-usex-inline"; "ja-x";
            "quotei"],
    does (fun t => put "examples" (VDict (t_dict clean_value t))));
   (one_of ["non-gloss definition"; "n-g"; "ngd"; "non-gloss";
            "non gloss definition"],
    does (fun t => put "nonglosses" (VStr (targ t "1"))));
   (one_of ["senseid"],
    does (fun t => put "wikidata" (VStr (targ t "2"))));
   (one_of ["sense"; "Sense"],
    does (fun t => put "tags" (VStr (targ t "1"))));
   (one_of ["&lit"; "&oth"], just (tag "literal"));
   (one_of ["given name"; "forename"; "historical given name"],
    does given_name);
   (one_of ["surname"],
    does (fun t => steps
                     [tag_all ["surname"; "person"];
                      if String.eqb (targ t "from") "" then nothing
                      else put "origin" (VStr (targ t "from"))]));
   (one_of ["taxlink"; "taxlinkwiki"],
    does (fun t => steps [put "taxon" (VList (map VStr (tvec t)));
                          tag "organism"]));
   (one_of ["taxon"],
    does (fun t => steps [put "taxon" (VStr (targ t "3")); tag "organism"]));
   (one_of ["vern"],
    does (fun t => steps [put "taxon" (VStr (targ t "1")); tag "organism"]));
   (one_of ["color panel"; "colour panel"],
    does (fun t => upd (color_panel (tvec t))));
   (one_of ["colorbox"; "colourbox"],
    does (fun t => steps [tag "color_value";
                          put "color" (VStr (targ t "1"))]));
   (one_of ["number box"],
    does (fun t => steps [tag "number_value";
                          put "value" (VStr (targ t "2"))]));
   (one_of ["SI-unit"; "SI-unit-2";
            "SI-unit-np"; "SI-unit-abb"; "SI-unit-abbnp";
            "SI-unit-abb2"],
    does (fun t => steps [put "unit" (VDict (t_dict clean_value t));
                          tag "unit-of-measurement"]));
   (one_of ["slim-wikipedia"; "wikipedia"; "wikispecies"; "w"; "W";
            "swp"; "pedlink"; "specieslink"; "comcatlite";
            "Wikipedia"; "taxlinknew"; "wtorw"; "wj"],
    does (fun t => wikipedia_link
                     (if String.eqb (targ t "1") "" then word cfg
                      else targ t "1")));
   (one_of ["w2"], does (fun t => wikipedia_link (targ t "2")));
   (one_of ["morse code for"; "morse code of";
            "morse code abbreviation";
            "morse code prosign"],
    does (fun t => put "morse_code" (VStr (targ t "1"))));
   (one_of ["mul-semaphore-for"; "mul-semaphore for";
            "ja-semaphore for"],
    does (fun t => put "semaphore" (VStr (targ t "1"))));
   ((fun name => String.eqb name "Latn-def" || endswith name "-letter"),
    just (tag "character"));
   (one_of ["translation hub"; "translation only"],
    just (tag "translation_hub"))].
(** The chain, second part: alternative forms and spellings. *)
Definition sense_rules_2 : list sense_rule :=
  [(one_of ["alternative form of"; "alt form"; "alt form of";
            "alternative_form_of";
            "alternative spelling of"; "aspirate mutation of";
            "alternate spelling of"; "altspelling";
            "pt-apocopic-verb";
            "soft mutation of";
            "hard mutation of"; "mixed mutation of"; "lenition of";
            "alt form"; "altform"; "alt-form";
            "apocopic form of"; "altcaps";
            "alternative name of";
            "alternative capitalisation of"; "alt case";
            "alternative capitalization of"; "alternate form of";
            "Template:alternative case form of";
            "alternative case form of"; "alt-sp"; "alt sp";
            "alternative typography of";
            "elongated form of"; "alternative name of";
            "city nickname"; "Nom form of"; "han tu form of";
            "han form of";
            "caret notation of"; "syncopic form of";
            "alternative term for"; "altspell"; "alter"],
    does (alt_of ["alternative_spelling"]));
   (one_of ["combining form of"], does (alt_of ["combining_form"]));
   (one_of ["spelling of"],
    does (fun t => alt_of (split_ws (lower (targ t "2"))) t));
   (one_of ["honoraltcaps"; "honor alt case"], does (alt_of ["honorific"]));
   (one_of ["standspell"; "standard spelling of"; "stand sp";
            "standard form of"],
    does (alt_of ["standard_spelling"]));
   (one_of ["synonyms"; "synonym of"; "syonyms";
            "syn of"; "altname"; "synonym"],
    does (alt_of ["synonym"]));
   (one_of ["Br. English form of"], does (alt_of ["UK"]));
   (one_of ["eye dialect of"; "eye dialect"; "eye-dialect of";
            "pronunciation spelling";
            "pronunciation respelling of";
            "pronunciation spelling of"],
    does (alt_of ["spoken"]));
   (one_of ["obsolete spelling of"; "obsolete form of"; "obs sp";
            "obs form"; "obsolete typography of"; "obsolete sp";
            "medieval spelling of"],
    does (alt_of ["archaic"; "obsolete"]));
   (one_of ["superseded spelling of"; "former name of"; "sup sp";
            "archaic spelling of"; "dated spelling of";
            "archaic form of"; "dated form of"],
    does (alt_of ["archaic"]));
   (one_of ["informal spelling of"; "informal form of"],
    does (alt_of ["informal"]));
   (one_of ["euphemistic form of"; "euphemistic spelling of"],
    does (alt_of ["euphemism"]));
   (one_of ["eclipsis of"], does (alt_of ["eclipsis"]));
   (one_of ["singulative of"], does (alt_of ["singulative"]));
   (one_of ["lenition of"; "ga-lenition of"], does (alt_of ["lenition"]));
   (one_of ["t-prothesis of"; "h-prothesis of"], does (alt_of ["prothesis"]));
   (one_of ["deliberate misspelling of"; "misconstruction of";
            "misspelling of"; "common misspelling of";
            "misspelling form of"; "missp";
            "de-umlautless spelling of"],
    does (alt_of ["misspelling"]));
   (one_of ["nonstandard form of"; "nonstandard spelling of"],
    does (alt_of ["nonstandard"]));
   (one_of ["rare form of"; "rare spelling of";
            "rareform"; "uncommon spelling of";
            "uncommon form of"; "rare sp"],
    does (alt_of ["rare"]));
   (one_of ["initialism of"; "init of";
            "abbreviation of"; "abbr of"; "short for";
            "acronym of"; "clipping of"; "clip"; "clipping";
            "clip of"; "aphetic form of";
            "short form of"; "ellipsis of"; "ellipse of";
            "short of"; "abbreviation"; "abb"; "contraction of"],
    does abbreviation_of);
   (one_of ["only used in"; "only in"],
    does (fun t => put "only_in" (VStr (targ t "2"))));
   (one_of ["inflection of"; "infl of"],
    does (fun t => put "complex_inflection_of"
                     (VDict (t_dict clean_value t))));
   (one_of ["inflected form of"; "form of"], does form_of)].

(** [data_inflection_of(config, data, t, tags)] for every name of
    [names]. *)
Definition inflected (names tags : list string) : sense_rule :=
  (one_of names, does (inflection_of tags)).

(** The chain, third part: inflected forms. *)
Definition sense_rules_3 : list sense_rule :=
  [inflected ["native or resident of"] ["person"];
   inflected ["agent noun of"] ["agent"];
   inflected ["nominalization of"] ["nominalization"];
   inflected ["feminine plural of"] ["feminine"; "plural"];
   inflected ["feminine singular of"] ["feminine"; "singular"];
   inflected ["masculine plural of"] ["masculine"; "plural"];
   inflected ["neuter plural of"] ["neuter"; "plural"];
   inflected ["feminine noun of"; "feminine equivalent of"] ["feminine"];
   inflected ["verbal noun of"; "ar-verbal noun of"] ["verbal noun"];
   inflected ["abstract noun of"] ["abstract noun"];
   inflected ["masculine singular of"] ["masculine"; "singular"];
   inflected ["neuter singular of"] ["neuter"; "singular"];
   inflected ["feminine of"] ["feminine"];
   inflected ["masculine of"; "masculine noun of"] ["masculine"];
   inflected ["participle of"] ["participle"];
   inflected ["present participle of"; "gerund of"; "en-ing form of"]
             ["participle"; "present"];
   inflected ["present tense of"; "present of"] ["present"];
   inflected ["past of"; "past sense of"; "en-past of";
              "past tense of"; "en-simple past of"] ["past"];
   inflected ["passive of"] ["passive"];
   inflected ["past participle of"] ["past"; "participle"];
   inflected ["feminine plural past participle of"]
             ["feminine"; "plural"; "past"; "participle"];
   inflected ["feminine singular past participle of"]
             ["feminine"; "singular"; "past"; "participle"];
   inflected ["masculine plural past participle of"]
             ["masculine"; "plural"; "past"; "participle"];
   inflected ["masculine singular past participle of"]
             ["masculine"; "singular"; "past"; "participle"];
   inflected ["perfective form of"] ["perfective"];
   inflected ["en-third-person singular of"; "en-third person singular of"]
             ["present"; "singular"; "third-person"];
   inflected ["imperative of"] ["imperative"];
   inflected ["nominative plural of"] ["plural"; "nominative"];
   inflected ["alternative plural of"; "plural of";
              "en-plural noun"; "plural form of"] ["plural"];
   inflected ["singular of"; "singular form of"] ["singular"];
   inflected ["diminutive of"; "dim of"] ["diminutive"];
   inflected ["endearing form of"] ["endearing"];
   inflected ["vocative plural of"] ["vocative"; "plural"];
   inflected ["vocative singular of"] ["vocative"; "plural"];
   inflected ["imperfective form of"] ["imperfective"];
   inflected ["perfective form of"] ["perfective"];
   inflected ["comparative of"; "en-comparative of"] ["comparative"];
   inflected ["superlative of"; "en-superlative of"] ["superlative"];
   inflected ["attributive of"; "attributive form of"] ["attributive"]].
(** The chain, fourth part: cases, persons, objects, and the Spanish,
    Italian and Dutch forms. *)
Definition sense_rules_4 : list sense_rule :=
  [inflected ["accusative singular of"] ["accusative"; "singular"];
   inflected ["accusative plural of"] ["accusative"; "plural"];
   inflected ["genitive of"] ["genitive"];
   inflected ["genitive singular of"] ["genitive"; "singular"];
   inflected ["genitive plural of"] ["genitive"; "plural"];
   inflected ["dative plural of"] ["dative"; "plural"];
   inflected ["dative of"] ["dative"];
   inflected ["dative singular of"] ["dative"; "singular"];
   inflected ["female equivalent of"] ["feminine"];
   inflected ["augmentative of"] ["augmentative"];
   inflected ["reflexive of"] ["reflexive"];
   inflected ["en-irregular plural of"] ["plural"; "irregular"];
   inflected ["en-archaic second-person singular of"]
             ["archaic"; "singular"; "present"; "second-person"];
   inflected ["en-archaic second-person singular past of"]
             ["archaic"; "singular"; "past"; "second-person"];
   inflected ["second-person singular of"]
             ["singular"; "present"; "second-person"];
   inflected ["topic form"] ["topic"];
   inflected ["en-second-person singular past of";
              "en-second person singular past of";
              "second-person singular past of";
              "second person singular past of"]
             ["singular"; "past"; "second-person"];
   inflected ["en-archaic third-person singular of"]
             ["archaic"; "singular"; "third-person"];
   inflected ["pejorative of"] ["pejorative"];
   (one_of ["noun form of"], does noun_form_of);
   (one_of ["+preo"],
    does (fun t => put "object_preposition" (VStr (targ t "2"))));
   (one_of ["+obj"; "+OBJ"; "construed with"], does object_construction);
   (one_of ["verb form of"],
    fun t => verb_form_map_fn t generic_verb_form_map);
   (one_of ["es-adj form of"], es_adj_form_of);
   (one_of ["es-compound of"], does es_compound_of);
   (one_of ["es-verb form of"],
    fun t => verb_form_map_fn t es_verb_form_map);
   (one_of ["es-demonstrative-accent-usage"],
    just (tag "demonstrative-accent"));
   (one_of ["it-adj form of"],
    does (fun t => forms_after_base t
                     [(one_of ["f"; "feminine"], tag "feminine");
                      (one_of ["m"; "male"], tag "masculine");
                      (one_of ["s"; "sg"; "singular"], tag "singular");
                      (one_of ["p"; "pl"; "plural"], tag "plural")]));
   (one_of ["nl-verb form of"],
    fun t => verb_form_map_fn t nl_verb_form_map);
   (one_of ["nl-noun form of"],
    does (fun t => form_then_base t
                     [(one_of ["sg"], tag "singular");
                      (one_of ["pl"], tag "plural");
                      (one_of ["dim"], tag "diminutive");
                      (one_of ["gen"], tag "genitive");
                      (one_of ["dat"], tag "dative");
                      (one_of ["acc"], tag "accusative")]));
   (one_of ["nl-adj form of"],
    does (fun t => form_then_base t
                     [(one_of ["part"], tag "partitive");
                      (one_of ["comp"], tag "comparative");
                      (one_of ["sup"], tag "superlative");
                      (one_of ["infl"], nothing)]));
   (one_of ["nl-pronadv of"], just (tag "pronadv"))].

(** The chain, fifth part: the Swedish, German and Portuguese forms. *)
Definition sense_rules_5 : list sense_rule :=
  [inflected ["sv-noun-form-def"] ["definite"];
   inflected ["definite singular of"] ["definite"; "singular"];
   inflected ["definite plural of"] ["definite"; "plural"];
   inflected ["indefinite plural of"] ["indefinite"; "plural"];
   inflected ["sv-noun-form-def-pl"] ["definite"; "plural"];
   inflected ["sv-noun-form-indef-pl"] ["plural"; "indefinite"];
   inflected ["sv-noun-form-indef-gen"] ["genitive"; "indefinite"];
   inflected ["sv-noun-form-indef-gen-pl"]
             ["genitive"; "indefinite"; "plural"];
   inflected ["sv-noun-form-def-gen-pl"] ["genitive"; "definite"; "plural"];
   inflected ["sv-proper-noun-gen"] ["genitive"];
   inflected ["sv-noun-form-def-gen"] ["genitive"; "definite"];
   inflected ["sv-noun-form-abs-def+pl"] ["absolute"; "definite"; "plural"];
   inflected ["sv-noun-form-abs-pl"] ["absolute"; "plural"];
   inflected ["sv-adj-form-abs-def-m"] ["absolute"; "definite"; "masculine"];
   inflected ["sv-adj-form-abs-indef-n"]
             ["absolute"; "indefinite"; "neuter"];
   inflected ["sv-adj-form-abs-def+pl"] ["absolute"; "definite"; "plural"];
   inflected ["sv-adj-form-abs-pl"] ["absolute"; "plural"];
   inflected ["sv-adj-form-abs-def"] ["absolute"; "definite"];
   inflected ["sv-adj-form-comp"; "sv-adv-form-comp"] ["comparative"];
   inflected ["sv-adj-form-sup"; "sv-adv-form-sup"] ["superlative"];
   inflected ["sv-adj-form-sup-attr"] ["superlative"; "attributive"];
   inflected ["sv-adj-form-sup-attr-m"]
             ["superlative"; "attributive"; "masculine"];
   inflected ["sv-adj-form-sup-pred"; "superlative predicative of"]
             ["superlative"; "predicative"];
   inflected ["sv-verb-form-pre"] ["present"];
   inflected ["sv-verb-form-imp"] ["imperative"];
   inflected ["sv-verb-form-past"] ["past"];
   inflected ["supine of"; "sv-verb-form-sup"] ["supine"];
   inflected ["sv-verb-form-sup-pass"] ["supine"; "passive"];
   inflected ["sv-verb-form-subjunctive"] ["subjunctive"];
   inflected ["sv-verb-form-inf-pass"] ["infinitive"; "passive"];
   inflected ["sv-verb-form-pre-pass"] ["present"; "passive"];
   inflected ["sv-verb-form-past-pass"] ["past"; "passive"];
   inflected ["sv-verb-form-prepart"] ["participle"; "present"];
   inflected ["sv-verb-form-pastpart"] ["participle"; "past"];
   (one_of ["de-verb form of"],
    fun t => verb_form_map_fn t de_verb_form_map);
   inflected ["de-zu-infinitive of"] ["infinitive"];
   (one_of ["de-superseded spelling of"],
    does (fun t => steps [put "alt_of" (VStr (targ t "1")); tag "archaic"]));
   inflected ["pt-verb form of"; "pt-verb-form-of"] [];
   (one_of ["pt-obsolete-hellenism"; "pt-obsolete hellenism"],
    does (alt_of ["archaic"; "obsolete"; "hellenism"]));
   (one_of ["pt-superseded-silent-letter-1990";
            "pt-superseded-hyphen";
            "pt-superseded-paroxytone"],
    does (alt_of ["archaic"]));
   (one_of ["pt-obsolete-éia";
            "pt-obsolete-ü";
            "pt-obsolete-ôo";
            "pt-obsolete-secondary-stress";
            "pt-obsolete-differential-accent";
            "pt-obsolete-silent-letter-1911"],
    does (alt_of ["archaic"; "obsolete"]));
   (one_of ["pt-adj form of"; "pt-adj-form-of"],
    does (fun t => forms_after_base t
                     [(one_of ["f"; "female"], tag "feminine");
                      (one_of ["m"; "male"], tag "masculine");
                      (one_of ["s"; "sg"; "singular"], tag "singular");
                      (one_of ["p"; "pl"; "plural"], tag "plural");
                      (one_of ["mf"; "m-f"; "f-m"], nothing);
                      (one_of ["dim"; "diminutive"], tag "diminutive")]));
   (one_of ["pt-noun form of"],
    does (fun t => forms_after_base t
                     [(one_of ["onlym"; "m"; "male"], tag "masculine");
                      (one_of ["onlyf"; "f"; "female"], tag "feminine");
                      (one_of ["s"; "sg"; "singular"], tag "singular");
                      (one_of ["p"; "pl"; "plural"], tag "plural")]))].
(** The templates that are passed over without a warning. *)
Definition silenced : list string :=
  ["audio"; "audio-pron";
   "IPA"; "ipa"; "l"; "link"; "l-self"; "m"; "m+";
   "zh-m"; "zh-l"; "ja-l"; "ja-def"; "sumti"; "ko-l"; "vi-l";
   "alter"; "ISBN"; "syn"; "ISSN"; "gbooks"; "OCLC";
   "hyph"; "hyphenation"; "ja-r"; "ja-l"; "l/ja"; "l-ja";
   "ja-r/args"; "th-l"; "ja-r/multi";
   "lj"; "c."; "ca."; "a."; "CURRENTDAY"; "CURRENTMONTHNAME";
   "CURRENTYEAR"; "..."; "…"; "mdash"; "SIC"; "LCC";
   "homophones"; "wsource"; "nobr"; "NNBS"; "@"; "CE"; "BC";
   "pinyin reading of"; "enPR"; "J2G"; "C.E."; "BCE"; "A.D.";
   "B.C.E."; "B.C."; "AD"; "C."; "S"; "nb..."; ".."; "sic";
   "mul-kangxi radical-def"; "speciesabbrev"; "'"; "smc";
   "mul-shuowen radical-def";
   "mul-kanadef";
   "mul-domino def";
   "mul-cjk stroke-def"; "ryu-def"; "ja-def";
   "ja-kanjitab"; "ja-kana-def";
   "ja-see";
   "Han char"; "zh-only"; "sqbrace";
   "Brai-def";
   "abbreviated"; "ruby"; "hanja form of";
   "transterm";
   "phrasal verb"; "compound";
   "quote"; "quote-booken"; "quote-jounalen"; "quotebook";
   "quote-hansard"; "quote-video game";
   "quote-us-patent"; "quote-wikipedia";
   "quote web"; "quote-web"; "quote-webpage";
   "quote-article"; "cite-av";
   "glossary"; "The Last Man";
   "tpi-cite-bible";
   "small"; "bottom5"; "source";
   "glink"; "projectlink"; "maintenance line"; "JSTOR";
   "gloss"; "gl"; "clear"; "abbr"; "nc";
   "upright"; "tea room sense"; "1"; "0";
   "wCharles Molloy Westmacott";
   "source Louis-Ferdinand Céline";
   "presidential nomics";
   "video frames";
   "w:William Logan (poet)"; "w:";
   "blockquote"; "comment";
   "non-gloss definition"; "n-g"; "ngd"; "non-gloss"].

(** [{{fi-infinitive of}}], [{{fi-participle of}}] *)
Definition fi_nominal_form (form : string) (t : template)
  : sense_state -> sense_state :=
  steps
    [inflection_of [form] t;
     if String.eqb (targ t "t") "" then nothing
     else tag (form +++ "-" +++ targ t "t")].

(** The chain, last part: the Japanese, Chinese and Finnish forms,
    linkages, places, and what is passed over. *)
Definition sense_rules_6 : list sense_rule :=
  [(one_of ["ja-kyujitai spelling of"; "ja-kyu sp"],
    does (fun t => put "kyujitai_spelling" (VStr (targ t "1"))));
   inflected ["ja-past of verb"] ["past"];
   (one_of ["ja-usex"], just nothing);
   (one_of ["ja-verb"],
    does (fun t => for_each (t_dict clean_value t)
                     (fun kv => put "inflection_of" (snd kv))));
   (one_of ["zh-old-name"; "18th c."], just (tag "archaic"));
   (one_of ["zh-alt-form"; "zh-altname"; "zh-alt-name";
            "zh-alt-term"; "zh-altterm"],
    does (fun t => put "alt_of" (VStr (targ t "1"))));
   (one_of ["zh-short"; "zh-abbrev"; "zh-short-comp"; "mfe-short of"],
    does (fun t => steps [tag "abbreviation";
                          for_each (tvec t)
                            (fun x => put "alt_of" (VStr x))]));
   (one_of ["zh-misspelling"],
    does (fun t => steps [put "alt_of" (VStr (targ t "1"));
                          tag "misspelling"]));
   (* [if base != config] compares a string with the settings: it holds *)
   (one_of ["zh-synonym"; "zh-synonym of"; "zh-syn-saurus"],
    does (fun t => steps [tag "synonym"; put "alt_of" (VStr (targ t "1"))]));
   (one_of ["zh-dial"; "zh-erhua form of"],
    does (fun t => steps [put "alt_of" (VStr (targ t "1"));
                          tag "dialectical"]));
   (one_of ["zh-mw"],
    does (fun t => put_all "classifier" (map VStr (tvec t))));
   (one_of ["zh-classifier"], just (tag "classifier"));
   (one_of ["zh-div"],
    does (fun t => put "hypernyms" (word_entry (targ t "1"))));
   (one_of ["ant"; "antonym"; "antonyms"], words_under "antonyms");
   (one_of ["hypo"; "hyponym"; "hyponyms"], words_under "hyponyms");
   (one_of ["coordinate terms"], words_under "coordinate_terms");
   (one_of ["hyper"; "hypernym"; "hypernyms"], words_under "hypernyms");
   (one_of ["mer"; "meronym"; "meronyms"], words_under "meronyms");
   (one_of ["holonyms"; "holonym"], words_under "holonyms");
   (one_of ["troponyms"; "troponym"], words_under "troponyms");
   (one_of ["derived"; "derived terms"], words_under "derived");
   (one_of ["†"; "zh-obsolete"], just (tag_all ["archaic"; "obsolete"]));
   (one_of ["fi-infinitive of"], does (fi_nominal_form "infinitive"));
   (one_of ["fi-participle of"], does (fi_nominal_form "participle"));
   (one_of ["fi-verb form of"], does fi_verb_form_of);
   (one_of ["fi-form of"; "conjugation of"], does fi_form_of);
   (one_of ["place"], does place);
   (* the body reads [word], which is bound nowhere: it raises *)
   (one_of ["USstate"], fun _ _ => None);
   (one_of ["place:Brazil/state"], does brazil_state);
   (one_of ["place:Brazil/capital"],
    just (steps [tag "place"; tag "city"; brazil]));
   (one_of ["place:Brazil/state capital"; "place:state capital of Brazil"],
    does brazil_state_capital);
   (one_of ["place:Brazil/municipality"; "place:municipality of Brazil"],
    fun _ => brazil_municipality);
   (one_of silenced, just nothing);
   (is_reference_family, just nothing);
   (one_of ["hot sense"], just (tag "hot_sense"))].

(** The whole [if / elif] chain on the name of a template, in the order
    of the source. *)
Definition sense_rules : list sense_rule :=
  sense_rules_1 ++ sense_rules_2 ++ sense_rules_3 ++ sense_rules_4
  ++ sense_rules_5 ++ sense_rules_6.
(** The last [elif]: a name that is in none of the lists of templates to
    ignore is a table of a category, stored as a topic, or else reported. *)
Definition unrecognized (name : string) (st : sense_state) : sense_state :=
  if negb (in_names name ignored_templates)
     && negb (in_names name default_tags)
     && negb (in_names name default_parenthesize_tags)
  then
    match table_category name with
    | Some category => put "topics" (word_entry category) st
    | None => report (UnrecognizedTemplate name "inside gloss") st
    end
  else st.

(** One turn of [for t in p.templates]. *)
Definition parse_sense_template (t : template) (st : sense_state)
  : option sense_state :=
  let name := strip (t_name t) in
  match List.find (fun r : sense_rule => fst r name) sense_rules with
  | Some r => snd r t st
  | None => Some (unrecognized name st)
  end.

Fixpoint parse_sense_templates (ts : list template) (st : sense_state)
  : option sense_state :=
  match ts with
  | [] => Some st
  | t :: ts' =>
      match parse_sense_template t st with
      | Some st' => parse_sense_templates ts' st'
      | None => None
      end
  end.

Definition is_string (v : value) : bool :=
  match v with VStr _ => true | _ => false end.

(** The check of the fields that should hold strings only: a debug
    message for every value that is not a string. *)
Definition non_string_checks (data : record) : list diag :=
  flat_map
    (fun k =>
       match lookup k data with
       | Some (FList l) =>
           map (fun _ => DebugMsg ("produced incorrect non-string data for "
                                   +++ k +++ ": " +++ show_data data))
               (filter (fun x => negb (is_string x)) l)
       | _ => []
       end)
    ["tags"; "glosses"; "alt_of"; "inflection_of"; "color"; "wikidata"].

(** The gloss of the text, stored when [use_text] is set. *)
Definition with_gloss (data : record) (text : string) : record :=
  if use_text then
    if String.eqb (clean_value text) "" then data
    else data_append data "glosses" (VStr (clean_value text))
  else data.

(** [parse_sense(config, data, text, use_text)]: [data] on return and the
    diagnostics, or [None] when it raises. *)
Definition parse_sense (data : record) (text : string)
  : option (record * list diag) :=
  match parse_sense_templates (templates (wikitext_parse text))
          {| s_data := with_gloss data text; s_state := None;
             s_diags := [] |} with
  | Some st => Some (s_data st, s_diags st ++ non_string_checks (s_data st))
  | None => None
  end.

(** The name passes no test of the chain: no rule, no family of names,
    no list of names to pass over. *)
Definition matches_no_rule (name : string) : bool :=
  forallb (fun r => negb (fst r name)) sense_rules.

(** The name is left to the report of the last [elif]: it passes no test
    of the chain, is in no list of templates to ignore, and is no table of
    a category. *)
Definition unmatched (name : string) : bool :=
  matches_no_rule name
  && negb (in_names name ignored_templates)
  && negb (in_names name default_tags)
  && negb (in_names name default_parenthesize_tags)
  && match table_category name with Some _ => false | None => true end.

Lemma find_no_rule name :
  matches_no_rule name = true ->
  List.find (fun r : sense_rule => fst r name) sense_rules = None.
Proof.
  unfold matches_no_rule. generalize sense_rules as rules.
  induction rules as [|r rules IH]; cbn [forallb List.find]; auto.
  intros H. apply andb_true_iff in H. destruct H as [Hr H].
  apply negb_true_iff in Hr. rewrite Hr. now apply IH.
Qed.

Lemma parse_sense_template_unmatched t st :
  unmatched (strip (t_name t)) = true ->
  parse_sense_template t st
  = Some (report (UnrecognizedTemplate (strip (t_name t)) "inside gloss") st).
Proof.
  unfold unmatched, parse_sense_template, unrecognized. intros H.
  do 4 (apply andb_true_iff in H; destruct H as [H ?]).
  cbv zeta. rewrite (find_no_rule _ H).
  repeat match goal with
         | Hn : negb _ = true |- _ => rewrite Hn; clear Hn
         end.
  cbn [andb]. now destruct (table_category (strip (t_name t))).
Qed.

Lemma parse_sense_templates_unmatched ts : forall st,
  Forall (fun t => unmatched (strip (t_name t)) = true) ts ->
  parse_sense_templates ts st
  = Some {| s_data := s_data st; s_state := s_state st;
            s_diags := s_diags st
                       ++ map (fun t => UnrecognizedTemplate
                                          (strip (t_name t)) "inside gloss")
                              ts |}.
Proof.
  induction ts as [|t ts IH]; intros st H; cbn [parse_sense_templates map].
  - rewrite app_nil_r. now destruct st.
  - inversion H as [|? ? Ht Hts]; subst.
    rewrite (parse_sense_template_unmatched t st Ht).
    rewrite (IH _ Hts). unfold report. cbn [s_data s_state s_diags].
    now rewrite <- app_assoc.
Qed.

Lemma parse_sense_templates_app pre : forall post st,
  parse_sense_templates (pre ++ post) st
  = match parse_sense_templates pre st with
    | Some st1 => parse_sense_templates post st1
    | None => None
    end.
Proof.
  induction pre as [|t pre IH]; intros post st;
    cbn [app parse_sense_templates]; auto.
  destruct (parse_sense_template t st); auto.
Qed.

(** C2 (amended).  A template of the text that the chain leaves to its
    last branch (its name passes no test for a rule or a family of names,
    is in no list of templates to ignore and is no table of a category),
    whatever templates stand before and after it: its turn leaves [data]
    and the local state as they are and reports exactly one unrecognized
    template, and [parse_sense] goes on with the templates after it from
    there.  When every template of the text is such a one, [parse_sense]
    returns [data] with no field touched by the templates (only the gloss
    of the text is stored, when [use_text] is set) and one report for each
    of them, in their order. *)
Theorem parse_sense_unrecognized_templates_add_nothing
        (data : record) (text : string)
        (before after_ : list template) (t : template) :
  templates (wikitext_parse text) = before ++ t :: after_ ->
  unmatched (strip (t_name t)) = true ->
  let unrecognized_t :=
    UnrecognizedTemplate (strip (t_name t)) "inside gloss" in
  (forall st,
     parse_sense_template t st
     = Some {| s_data := s_data st; s_state := s_state st;
               s_diags := s_diags st ++ [unrecognized_t] |})
  /\ parse_sense data text
     = match parse_sense_templates before
               {| s_data := with_gloss data text; s_state := None;
                  s_diags := [] |} with
       | Some st1 =>
           match parse_sense_templates after_
                   {| s_data := s_data st1; s_state := s_state st1;
                      s_diags := s_diags st1 ++ [unrecognized_t] |} with
           | Some st2 =>
               Some (s_data st2, s_diags st2 ++ non_string_checks (s_data st2))
           | None => None
           end
       | None => None
       end
  /\ (Forall (fun t' => unmatched (strip (t_name t')) = true)
             (before ++ after_) ->
      parse_sense data text
      = Some (with_gloss data text,
              map (fun t' => UnrecognizedTemplate (strip (t_name t'))
                               "inside gloss")
                  (before ++ t :: after_)
              ++ non_string_checks (with_gloss data text))).
Proof.
  intros Hts Ht unrecognized_t.
  split; [|split].
  - intros st. now rewrite (parse_sense_template_unmatched t st Ht).
  - unfold parse_sense. rewrite Hts, parse_sense_templates_app.
    destruct (parse_sense_templates before _) as [st1|]; [|reflexivity].
    cbn [parse_sense_templates].
    now rewrite (parse_sense_template_unmatched t st1 Ht).
  - intros Hall. unfold parse_sense. rewrite Hts.
    rewrite parse_sense_templates_unmatched; [reflexivity|].
    apply Forall_app in Hall. destruct Hall as [H1 H2].
    apply Forall_app. split; [exact H1|]. constructor; assumption.
Qed.

End ParseSense.

(** *** A small setting for the examples

    The text holds at most one template without nesting; cleaning leaves a
    text as it is; the tables are empty. *)

Fixpoint numbered (i : nat) (l : list string) : list (string * string) :=
  match l with
  | [] => []
  | x :: l' => (decimal i, x) :: numbered (S i) l'
  end.

Definition flat_template (text : string) : parsed :=
  if startswith text "{{" && endswith text "}}" then
    match split (substring 2 (String.length text - 4) text) "|" with
    | name :: args =>
        {| templates := [{| t_name := name; t_arguments := numbered 1 args |}];
           wikilinks := [] |}
    | [] => {| templates := []; wikilinks := [] |}
    end
  else {| templates := []; wikilinks := [] |}.

Definition no_forms : form_map :=
  {| fm_keys := []; fm_tags := fun _ => None |}.

(** A text of such templates one after the other. *)
Definition flat_templates (text : string) : parsed :=
  {| templates :=
       flat_map (fun piece => templates (flat_template (piece +++ "}}")))
                (split text "}}");
     wikilinks := [] |}.

(** [parse_sense(config, data, text, False)] in this setting, for the
    parser [parser] of the text. *)
Definition example_parse_sense_with (parser : string -> parsed)
  : record -> string -> option (record * list diag) :=
  parse_sense (fun s => s) (fun l => l)
    (fun d _ tags => data_extend d "tags" (map VStr tags))
    (fun d _ tags => data_extend d "tags" (map VStr tags))
    no_forms no_forms no_forms no_forms
    (fun _ => None) (fun _ => None) [] [] []
    parser (fun _ => None) (fun _ => None)
    (fun t => t_name t) (fun s => s) (fun _ => "") cfg_all false
    lower_ascii.

Definition example_parse_sense
  : record -> string -> option (record * list diag) :=
  example_parse_sense_with flat_template.

Example flat_template_example :
  flat_template "{{place|en|city/port}}"
  = {| templates := [{| t_name := "place";
                        t_arguments := [("1", "en"); ("2", "city/port")] |}];
       wikilinks := [] |}.
Proof. reflexivity. Qed.

Example flat_templates_example :
  templates (flat_templates "{{hot sense}}{{frobnicate|x}}")
  = [{| t_name := "hot sense"; t_arguments := [] |};
     {| t_name := "frobnicate"; t_arguments := [("1", "x")] |}].
Proof. reflexivity. Qed.

(** A template that is not recognized after one that is. *)
Lemma parse_sense_unrecognized_templates_add_nothing_witness :
  example_parse_sense_with flat_templates
    [("glosses", FList [VStr "a tree"])] "{{hot sense}}{{frobnicate|x}}"
  = Some ([("glosses", FList [VStr "a tree"]);
           ("tags", FList [VStr "hot_sense"])],
          [UnrecognizedTemplate "frobnicate" "inside gloss"]).
Proof.
  unfold example_parse_sense_with.
  destruct (parse_sense_unrecognized_templates_add_nothing
              (fun s => s) (fun l => l)
              (fun d _ tags => data_extend d "tags" (map VStr tags))
              (fun d _ tags => data_extend d "tags" (map VStr tags))
              no_forms no_forms no_forms no_forms
              (fun _ => None) (fun _ => None) [] [] []
              flat_templates (fun _ => None) (fun _ => None)
              (fun t => t_name t) (fun s => s) (fun _ => "") cfg_all false
              lower_ascii
              [("glosses", FList [VStr "a tree"])]
              "{{hot sense}}{{frobnicate|x}}"
              [{| t_name := "hot sense"; t_arguments := [] |}] []
              {| t_name := "frobnicate"; t_arguments := [("1", "x")] |}
              eq_refl)
    as (_ & H & _).
  - vm_compute. reflexivity.
  - rewrite H. vm_compute. reflexivity.
Defined.

(** C2 as stated fails: the second argument of a place template is stored
    in [tags] piece by piece, whatever it says, without any diagnostic; so
    is the argument of a sense template. *)
Lemma parse_sense_stores_argument_text_as_tags :
  example_parse_sense [] "{{place|en|qwerty/xyzzy}}"
  = Some ([("tags", FList [VStr "place"; VStr "qwerty"; VStr "xyzzy"]);
           ("hypernyms", FList [VDict [("word", VStr "qwerty")];
                                VDict [("word", VStr "xyzzy")]])],
          [])
  /\ example_parse_sense [] "{{sense|anything at all}}"
     = Some ([("tags", FList [VStr "anything at all"])], []).
Proof. split; vm_compute; reflexivity. Qed.

(** A municipality of Brazil without a state capital before it reads a
    variable that is not bound, and a US state reads a name that is bound
    nowhere: [parse_sense] raises. *)
Example parse_sense_raises :
  example_parse_sense [] "{{place:Brazil/municipality}}" = None
  /\ example_parse_sense [] "{{USstate}}" = None.
Proof. split; vm_compute; reflexivity. Qed.

(** * Further properties of the walk of parse_language *)

(** ** The flushes *)

(** The senses that the buffers hold, counted. *)
Definition pending (st : wstate) : nat :=
  List.length (page_datas st) + List.length (etym_datas st)
  + List.length (pos_datas st)
  + (if is_empty (sense_data st) then 0 else 1).

Lemma merge_all_nothing ls scope : merge_all ls [] scope = (ls, [], []).
Proof. reflexivity. Qed.

Lemma push_pos_fields st :
  base (push_pos st) = base st /\ etym_data (push_pos st) = etym_data st
  /\ page_datas (push_pos st) = page_datas st /\ stack (push_pos st) = stack st
  /\ section_counts (push_pos st) = section_counts st
  /\ List.length (etym_datas (push_pos st))
     = List.length (etym_datas st) + List.length (pos_datas st)
       + (if is_empty (sense_data st) then 0 else 1).
Proof.
  unfold push_pos.
  pose proof (merge_all_length (pos_data (push_sense st))
                (pos_datas (push_sense st)) (objs (push_sense st))) as Hlen.
  destruct (merge_all (objs (push_sense st)) (pos_datas (push_sense st))
              (pos_data (push_sense st))) as [[ls merged] ds].
  cbn [fst snd] in Hlen.
  cbn [base etym_data page_datas stack section_counts etym_datas].
  rewrite length_app, Hlen. unfold push_sense.
  destruct (sense_data st) eqn:Es; cbn [is_empty];
    cbn [base etym_data page_datas stack section_counts etym_datas pos_datas];
    rewrite ?length_app; cbn [List.length]; repeat split; lia.
Qed.

Lemma push_etym_fields st :
  base (push_etym st) = base st /\ stack (push_etym st) = stack st
  /\ sense_data (push_etym st) = [] /\ pos_data (push_etym st) = []
  /\ etym_data (push_etym st) = [] /\ pos_datas (push_etym st) = []
  /\ etym_datas (push_etym st) = []
  /\ List.length (page_datas (push_etym st)) = pending st.
Proof.
  destruct (push_pos_fields st) as (Hb & He & Hpg & Hs & _ & Hlen).
  destruct (push_pos_clears st) as (Hsd & Hpd & Hp).
  unfold push_etym, pending.
  pose proof (merge_all_length (etym_data (push_pos st))
                (etym_datas (push_pos st)) (objs (push_pos st))) as Hm.
  destruct (merge_all (objs (push_pos st)) (etym_datas (push_pos st))
              (etym_data (push_pos st))) as [[ls merged] ds].
  cbn [fst snd] in Hm.
  cbn [base stack sense_data pos_data etym_data pos_datas etym_datas page_datas].
  rewrite length_app, Hm, Hlen, Hpg.
  repeat split; auto. lia.
Qed.

(** X1. A flush neither loses nor doubles a sense: every sense that the
    buffers hold is held after [push_sense] and [push_pos], and after
    [push_etym] all of them are records of the page.  A flush right after
    a flush changes nothing. *)
Theorem flushes_keep_every_sense (st : wstate) :
  pending (push_sense st) = pending st
  /\ pending (push_pos st) = pending st
  /\ List.length (page_datas (push_etym st)) = pending st
  /\ push_sense (push_sense st) = push_sense st
  /\ push_pos (push_pos st) = push_pos st
  /\ push_etym (push_etym st) = push_etym st.
Proof.
  destruct (push_pos_fields st) as (Hb & He & Hpg & Hs & Hc & Hlen).
  destruct (push_pos_clears st) as (Hsd & Hpd & Hp).
  destruct (push_etym_fields st) as (Eb & Es & Esd & Ep & Ee & Epd & Eed & El).
  split; [|split; [|split; [exact El|split; [|split]]]].
  - unfold pending, push_sense.
    destruct (sense_data st) eqn:E; cbn [is_empty]; [now rewrite E|].
    cbn [page_datas etym_datas pos_datas sense_data is_empty].
    rewrite length_app. cbn [List.length]. lia.
  - unfold pending. rewrite Hpg, Hlen, Hpd, Hsd. cbn [List.length is_empty]. lia.
  - apply push_sense_idle, sense_data_push_sense.
  - rewrite (push_pos_nothing_collected (push_pos st) Hsd Hpd).
    revert Hsd Hpd Hp. generalize (push_pos st) as s.
    intros []. cbn. intros; subst; reflexivity.
  - unfold push_etym at 1.
    rewrite (push_pos_nothing_collected (push_etym st) Esd Epd).
    cbn [objs etym_datas etym_data base sense_data pos_data pos_datas
         page_datas stack diags section_counts].
    rewrite Eed, merge_all_nothing, !app_nil_r.
    revert Esd Ep Ee Epd Eed. generalize (push_etym st) as s.
    intros []. cbn. intros; subst; reflexivity.
Qed.

(** ** Keys are never removed *)

(** The buffer has the key. *)
Definition has (k : string) (d : buffer) : Prop := lookup k d <> None.

(** Every key of the first buffer is a key of the second. *)
Definition grows (b b' : scoped) : Prop :=
  forall k, has k (snd b) -> has k (snd b').

Lemma grows_refl b : grows b b.
Proof. intros k H. exact H. Qed.

Lemma grows_trans a b c : grows a b -> grows b c -> grows a c.
Proof. intros H1 H2 k H. auto. Qed.

Lemma data_append_ref_grows (b : scoped) key v :
  grows b (data_append_ref b key v)
  /\ has key (snd (data_append_ref b key v)).
Proof.
  destruct b as [ls d]. unfold grows, has, data_append_ref.
  destruct (lookup key d) as [[s|n]|] eqn:El; cbn [fst snd new_object].
  - split; [auto | congruence].
  - split; [auto | congruence].
  - split.
    + intros k Hk. rewrite lookup_set_key.
      destruct (String.eqb k key); [discriminate | exact Hk].
    + rewrite lookup_set_key_same. discriminate.
Qed.

Lemma data_append_all_grows kvs : forall b : scoped,
  grows b (data_append_all b kvs).
Proof.
  unfold data_append_all.
  induction kvs as [|[key v] kvs IH]; intros b; cbn [fold_left].
  - apply grows_refl.
  - eapply grows_trans; [|apply IH].
    apply (data_append_ref_grows b key v).
Qed.

Lemma data_extend_ref_grows (b : scoped) key vs :
  grows b (data_extend_ref b key vs).
Proof.
  rewrite data_extend_ref_as_appends. apply data_append_all_grows.
Qed.

Section HookGrows.
Variable E : collaborators.

(** A hook that removes no key. *)
Definition hook_grows (fn : template_fn scoped) : Prop :=
  forall name args b, grows b (snd (fn name args b)).

Lemma run_expansion_grows fn :
  hook_grows fn -> forall e b, grows b (snd (run_expansion fn e b)).
Proof.
  intros Hfn e. induction e as [text|name args k IH]; intros b;
    cbn [run_expansion].
  - apply grows_refl.
  - specialize (Hfn name args b).
    destruct (fn name args b) as [answer b1]. cbn [snd] in Hfn.
    eapply grows_trans; [exact Hfn | apply IH].
Qed.

Lemma clean_node_grows fn value :
  hook_grows fn -> forall b, grows b (snd (clean_node E fn value b)).
Proof.
  intros Hfn. unfold clean_node.
  assert (H : forall b, grows b (snd (render_all E fn value b))).
  { induction value as [|n value IH]; intros b; cbn [render_all].
    - apply grows_refl.
    - destruct n as [t|kind sarg nargs children].
      + specialize (IH b). destruct (render_all E fn value b) as [r b']. exact IH.
      + pose proof (run_expansion_grows fn Hfn
                      (node_to_html E (WikiNode kind sarg nargs children)) b) as H1.
        destruct (run_expansion fn
                    (node_to_html E (WikiNode kind sarg nargs children)) b)
          as [h b1].
        specialize (IH b1). destruct (render_all E fn value b1) as [r b2].
        cbn [snd] in *. eapply grows_trans; eauto. }
  intros b. specialize (H b).
  destruct (render_all E fn value b) as [v b']. exact H.
Qed.

Lemma sense_template_fn_grows : hook_grows sense_template_fn.
Proof.
  intros name args b. unfold sense_template_fn.
  destruct (in_names name ["LDL"]); [apply grows_refl|].
  destruct (in_names name ["syn"; "synonyms"]); [|apply grows_refl].
  cbn [snd]. generalize (seq 2 18) as idx. intros idx. revert b.
  induction idx as [|i idx IH]; intros b.
  - apply grows_refl.
  - destruct (ht_get (KInt i) args) as [w|]; [|apply grows_refl].
    destruct (String.eqb w ""); [apply grows_refl|].
    eapply grows_trans; [|apply IH].
    apply data_append_ref_grows.
Qed.

Lemma head_template_fn_grows : hook_grows (head_template_fn E).
Proof.
  intros name args b. unfold head_template_fn.
  repeat match goal with
         | |- context [if ?c then _ else _] =>
             destruct c; cbn [snd]; try apply grows_refl
         end.
  apply data_append_ref_grows.
Qed.

Lemma decl_conj_template_fn_grows : hook_grows (decl_conj_template_fn E).
Proof.
  intros name args b. unfold decl_conj_template_fn.
  destruct (is_decl_conj_template name); cbn [snd].
  - apply data_append_ref_grows.
  - apply grows_refl.
Qed.

End HookGrows.

(** ** Sections without a sense list *)

Section NoSenseList.
Variable E : collaborators.
Variable cfg : config.

(** The heading [t] over [children] starts no sense list of its own: it is
    not the heading of a part of speech, or [parse_part_of_speech] finds no
    list among the children. *)
Definition no_own_list (t : string) (children : list node) : bool :=
  startswith t "Etymology"
  || negb (in_pos_map E (lower E t))
  || match lists (scan_pos_children children no_scan) with
     | [] => true
     | _ => false
     end.

(** No sense list below: no part-of-speech section, at any depth, has a
    list for [parse_part_of_speech]. *)
Fixpoint no_sense_list (n : node) : bool :=
  match n with
  | Text _ => true
  | WikiNode kind _ nargs children =>
      negb (is_sublevel kind) || leaf_title E (heading_title E nargs)
      || (no_own_list (heading_title E nargs) children
          && forallb no_sense_list children)
  end.

Lemma no_sense_list_node kind sarg nargs children :
  no_sense_list (WikiNode kind sarg nargs children)
  = negb (is_sublevel kind) || leaf_title E (heading_title E nargs)
    || (no_own_list (heading_title E nargs) children
        && forallb no_sense_list children).
Proof. reflexivity. Qed.

(** No sense waits for its part of speech. *)
Definition idle (st : wstate) : Prop :=
  sense_data st = [] /\ pos_datas st = [].

Lemma same_collected_idle st st' :
  same_collected st st' ->
  (idle st -> idle st') /\ pending st' = pending st /\ stack st' = stack st.
Proof.
  intros (A & B & C & D & F). unfold idle, pending.
  rewrite A, B, C, D. tauto.
Qed.

Lemma pending_push_pos st : pending (push_pos st) = pending st.
Proof.
  destruct (push_pos_fields st) as (_ & _ & Hpg & _ & _ & Hlen).
  destruct (push_pos_clears st) as (Hsd & Hpd & _).
  unfold pending. rewrite Hpg, Hlen, Hpd, Hsd. cbn [List.length is_empty].
  lia.
Qed.

Lemma pending_push_etym st : pending (push_etym st) = pending st.
Proof.
  destruct (push_etym_fields st) as (_ & _ & Hs & _ & _ & Hp & He & Hl).
  unfold pending at 1. rewrite Hs, Hp, He, Hl. cbn [List.length is_empty].
  lia.
Qed.

Lemma enter_pos_idle t dt st :
  idle (enter_pos t dt st)
  /\ pending (enter_pos t dt st) = pending st
  /\ stack (enter_pos t dt st) = stack st
  /\ etym_datas (enter_pos t dt st) = etym_datas (push_pos st)
  /\ page_datas (enter_pos t dt st) = page_datas st.
Proof.
  destruct (push_pos_clears st) as (Hsd & Hpd & _).
  destruct (push_pos_fields st) as (_ & _ & Hpg & Hst & _).
  pose proof (pending_push_pos st) as Hp.
  unfold enter_pos, idle, pending in *.
  destruct (pi_tags dt);
    cbn [sense_data pos_datas etym_datas page_datas stack set_pos_data
         add_diags];
    rewrite ?Hsd, ?Hpd, ?Hpg, ?Hst in *; auto.
Qed.

Lemma no_sense_list_step n :
  no_sense_list n = true ->
  forall st, idle st ->
  exists st',
    process_node E cfg n st = Some st'
    /\ idle st' /\ pending st' = pending st /\ stack st' = stack st.
Proof.
  induction n as [s|kind sarg nargs children IH] using node_induction;
    intros Hn st Hi.
  - exists st. auto.
  - rewrite no_sense_list_node in Hn.
    destruct (is_sublevel kind) eqn:Hk; cbn [negb orb] in Hn.
    2:{ exists st. cbn [process_node]. rewrite Hk. auto. }
    destruct (leaf_title E (heading_title E nargs)) eqn:Hleaf.
    { destruct (brings_no_sense_leaf E cfg kind sarg nargs children st Hk Hleaf)
        as (st' & Hrun & Hs).
      destruct (same_collected_idle _ _ Hs) as (A & B & C).
      exists st'. auto. }
    cbn [orb] in Hn. apply andb_true_iff in Hn. destruct Hn as [Hown Hch].
    assert (Hwalk : forall s, idle s -> exists s',
              process_children E cfg children s = Some s'
              /\ idle s' /\ pending s' = pending s /\ stack s' = stack s).
    { clear - IH Hch. induction IH as [|c l Hc Hl IHl]; intros s Hs;
        cbn [process_children].
      - exists s. auto.
      - cbn [forallb] in Hch. apply andb_true_iff in Hch.
        destruct Hch as [Hc' Hl'].
        destruct (Hc Hc' s Hs) as (s1 & -> & I1 & P1 & K1).
        destruct (IHl Hl' s1 I1) as (s2 & E2 & I2 & P2 & K2).
        exists s2. repeat split; try apply I2; congruence. }
    assert (Hpop : forall t s0 s2,
              stack s2 = stack (push_stack t s0) ->
              stack (pop_stack s2) = stack s0).
    { intros t s0 s2 H. unfold pop_stack. cbn [stack set_stack]. rewrite H.
      cbn [stack push_stack set_stack]. apply removelast_last. }
    rewrite process_node_heading by exact Hk. cbv zeta.
    unfold leaf_title in Hleaf.
    destruct (String.eqb (heading_title E nargs) "Pronunciation") eqn:Hp;
      [discriminate|].
    cbn [orb] in Hleaf. unfold no_own_list in Hown.
    destruct (startswith (heading_title E nargs) "Etymology") eqn:Het.
    { destruct (push_etym_fields st) as (_ & Hst & Hs & _ & _ & Hpd & _).
      destruct (Hwalk (push_stack (heading_title E nargs) (push_etym st)))
        as (s2 & -> & I2 & P2 & K2); [split; assumption|].
      exists (pop_stack s2). split; [reflexivity|].
      split; [exact I2|]. split.
      - unfold pop_stack, push_stack, pending in *.
        cbn [page_datas etym_datas pos_datas sense_data set_stack] in *.
        rewrite P2. apply pending_push_etym.
      - rewrite (Hpop _ _ _ K2). exact Hst. }
    cbn [orb negb andb] in Hown, Hleaf. unfold in_pos_map in *.
    destruct (part_of_speech_map E (lower E (heading_title E nargs)))
      as [dt|] eqn:Hpos.
    { cbn [negb orb] in Hown.
      destruct (lists (scan_pos_children children no_scan)) eqn:Hl;
        [|discriminate].
      rewrite (parse_part_of_speech_no_list E children (pi_pos dt) _ Hl).
      destruct (enter_pos_idle (heading_title E nargs) dt st)
        as (I1 & P1 & K1 & _).
      match goal with
      | |- context [process_children E cfg children ?s] =>
          destruct (Hwalk s) as (s2 & -> & I2 & P2 & K2); [exact I1|]
      end.
      exists (pop_stack s2). split; [reflexivity|].
      split; [exact I2|]. split.
      - unfold pop_stack, pending in *.
        cbn [page_datas etym_datas pos_datas sense_data set_stack] in *.
        rewrite P2. exact P1.
      - rewrite (Hpop _ _ _ K2). exact K1. }
    cbn [negb andb] in Hleaf.
    repeat match goal with
           | H : (_ || _) = false |- _ =>
               apply orb_false_iff in H; destruct H
           end.
    repeat match goal with
           | H : ?x = false |- context [?x] => rewrite H
           end.
    destruct (Hwalk (push_stack (heading_title E nargs)
                       (count_section (heading_title E nargs) st)) Hi)
      as (s2 & -> & I2 & P2 & K2).
    exists (pop_stack s2). split; [reflexivity|].
    split; [exact I2|]. split; [exact P2|].
    now rewrite (Hpop _ _ _ K2).
Qed.

Lemma no_sense_list_walk l : forall st,
  forallb no_sense_list l = true -> idle st ->
  exists st',
    process_children E cfg l st = Some st'
    /\ idle st' /\ pending st' = pending st /\ stack st' = stack st.
Proof.
  induction l as [|n l IH]; intros st Hl Hi; cbn [process_children].
  - exists st. auto.
  - cbn [forallb] in Hl. apply andb_true_iff in Hl. destruct Hl as [Hn Hl].
    destruct (no_sense_list_step n Hn st Hi) as (s1 & -> & I1 & P1 & K1).
    destruct (IH s1 Hl I1) as (s2 & E2 & I2 & P2 & K2).
    exists s2. repeat split; try apply I2; congruence.
Qed.

(** C10.  A part-of-speech section that holds no sense list, neither
    among its own children nor in a part-of-speech section below it, adds
    no record, whatever headings it holds otherwise: [parse_part_of_speech]
    only sets the part of speech and warns; when the section ends no sense
    waits for a part of speech, as many senses are held as before, and the
    next flush ([push_pos]) drops the part-of-speech buffer with everything
    in it.  When the children bring no sense at all (no heading of an
    etymology or of a part of speech below), the records of the etymology
    and of the page are the very ones that were there. *)
Theorem pos_section_without_sense_list_adds_no_record
        (kind : NodeKind) (sarg : string) (nargs children : list node)
        (dt : pos_info) (st : wstate) :
  is_sublevel kind = true ->
  String.eqb (heading_title E nargs) "Pronunciation" = false ->
  startswith (heading_title E nargs) "Etymology" = false ->
  part_of_speech_map E (lower E (heading_title E nargs)) = Some dt ->
  lists (scan_pos_children children no_scan) = [] ->
  forallb no_sense_list children = true ->
  (forall s, parse_part_of_speech E children (pi_pos dt) s
             = Some (add_diags [Warning (pi_pos dt +++ ": no sense list found")]
                       (set_pos (pi_pos dt) s)))
  /\ exists st',
       process_node E cfg (WikiNode kind sarg nargs children) st = Some st'
       /\ sense_data st' = [] /\ pos_datas st' = []
       /\ pending st' = pending st
       /\ stack st' = stack st
       /\ push_pos st' =
          {| objs := objs st'; base := base st'; sense_data := [];
             pos_data := []; etym_data := etym_data st'; pos_datas := [];
             etym_datas := etym_datas st'; page_datas := page_datas st';
             stack := stack st; diags := diags st';
             section_counts := section_counts st' |}
       /\ (forallb (brings_no_sense E) children = true ->
           etym_datas st' = etym_datas (push_pos st)
           /\ page_datas st' = page_datas st).
Proof.
  intros Hk Hp Het Hpos Hlists Hch.
  split; [intros s; now apply parse_part_of_speech_no_list|].
  rewrite process_node_heading by exact Hk. cbv zeta.
  rewrite Hp, Het, Hpos.
  rewrite parse_part_of_speech_no_list by exact Hlists.
  destruct (enter_pos_idle (heading_title E nargs) dt st)
    as (I1 & P1 & K1 & E1 & G1).
  set (s1 := push_stack (pi_pos dt)
               (add_diags [Warning (pi_pos dt +++ ": no sense list found")]
                  (set_pos (pi_pos dt) (enter_pos (heading_title E nargs) dt st)))).
  destruct (no_sense_list_walk children s1 Hch I1)
    as (s2 & E2 & [Hs2 Hp2] & P2 & K2).
  rewrite E2.
  assert (Hk2 : stack (pop_stack s2) = stack st).
  { unfold pop_stack. cbn [stack set_stack]. rewrite K2. unfold s1.
    cbn [stack push_stack set_stack add_diags set_pos set_pos_data].
    rewrite removelast_last. exact K1. }
  exists (pop_stack s2).
  split; [reflexivity|].
  split; [exact Hs2|]. split; [exact Hp2|].
  split.
  { unfold pop_stack, pending in *.
    cbn [page_datas etym_datas pos_datas sense_data set_stack] in *.
    rewrite P2. exact P1. }
  split; [exact Hk2|]. split.
  { rewrite push_pos_nothing_collected by assumption.
    cbn [objs base etym_data etym_datas page_datas stack diags section_counts
         pop_stack set_stack] in *.
    f_equal. exact Hk2. }
  intros Hq.
  destruct (brings_no_sense_walk E cfg children s1 Hq)
    as (s3 & E3 & _ & _ & Hed & Hpg & _).
  assert (s3 = s2) by congruence. subst s3.
  cbn [etym_datas page_datas pop_stack set_stack].
  rewrite Hed, Hpg. split; [exact E1 | exact G1].
Qed.

End NoSenseList.

(** A noun section with a usage note, a declension table in it, an empty
    verb section below, and no sense list. *)
Definition noun_with_notes : list node :=
  [Text "oak";
   heading LEVEL4 "Usage notes"
     [Text "Rare.";
      heading LEVEL5 "Declension" [template_node "en-decl-noun" ["oaks"]]];
   heading LEVEL4 "Verb" [Text "oak"]].

Lemma pos_section_without_sense_list_adds_no_record_witness :
  exists st',
    process_node example_env cfg_all (heading LEVEL3 "Noun" noun_with_notes)
      (push_stack "TOP" (start_state "oak" "English" "en")) = Some st'
    /\ sense_data st' = [] /\ pos_datas st' = []
    /\ pending st' = 0
    /\ pos_data (push_pos st') = [].
Proof.
  destruct (pos_section_without_sense_list_adds_no_record
              example_env cfg_all LEVEL3 "" [Text "Noun"] noun_with_notes
              {| pi_pos := "noun"; pi_tags := None; pi_warning := None;
                 pi_error := None |}
              (push_stack "TOP" (start_state "oak" "English" "en"))
              eq_refl eq_refl eq_refl eq_refl eq_refl eq_refl)
    as (_ & st' & H & A & B & C & _ & F & _).
  exists st'. split; [exact H|]. split; [exact A|]. split; [exact B|].
  split; [exact C|]. rewrite F. reflexivity.
Defined.

(** ** What every record holds *)

(** A sense merged with its part of speech: it has its gloss and [pos]. *)
Definition flushed (d : buffer) : Prop := has "glosses" d /\ has "pos" d.

(** The state of a walk in which no sense can come out incomplete: the
    base has its three fields; a sense that is held has a gloss; while
    senses wait for their part of speech, its buffer has [pos]; what is
    flushed has both. *)
Definition sound (st : wstate) : Prop :=
  (has "word" (base st) /\ has "lang" (base st) /\ has "lang_code" (base st))
  /\ (sense_data st = [] \/ has "glosses" (sense_data st))
  /\ Forall (has "glosses") (pos_datas st)
  /\ (sense_data st <> [] \/ pos_datas st <> [] -> has "pos" (pos_data st))
  /\ Forall flushed (etym_datas st)
  /\ Forall flushed (page_datas st).

Lemma sound_append_pos st b :
  sound st -> grows (objs st, pos_data st) b -> sound (set_pos_data b st).
Proof.
  intros (B & S & P & Hp & Ed & Pg) Hg. unfold sound.
  cbn [base sense_data pos_datas pos_data etym_datas page_datas set_pos_data].
  repeat split; try tauto. intros H. apply (Hg "pos"). cbn [snd]. auto.
Qed.

Lemma sound_append_etym st b : sound st -> sound (set_etym_data b st).
Proof. exact (fun H => H). Qed.

Lemma sound_append_base st b :
  sound st -> grows (objs st, base st) b -> sound (set_base b st).
Proof.
  intros ((Bw & Bl & Bc) & S & P & Hp & Ed & Pg) Hg. unfold sound.
  cbn [base sense_data pos_datas pos_data etym_datas page_datas set_base].
  repeat split; try tauto; apply Hg; assumption.
Qed.

Lemma sound_push_sense st : sound st -> sound (push_sense st).
Proof.
  intros (B & S & P & Hp & Ed & Pg). unfold push_sense.
  destruct (sense_data st) as [|kv d] eqn:Es; cbn [is_empty].
  - unfold sound. rewrite Es. tauto.
  - unfold sound.
    cbn [base sense_data pos_datas pos_data etym_datas page_datas].
    repeat split; try tauto.
    + apply Forall_app. split; [exact P|].
      constructor; [|constructor]. destruct S as [S|S]; [discriminate | exact S].
    + intros _. apply Hp. left. discriminate.
Qed.

Lemma merged_has data scope d' k :
  (forall k, lookup k d' = merged_slot data scope k) ->
  has k data \/ has k scope -> has k d'.
Proof.
  intros Hd H. unfold has in *. rewrite Hd. unfold merged_slot.
  destruct (lookup k data); [discriminate | tauto].
Qed.

Lemma sound_push_pos st : sound st -> sound (push_pos st).
Proof.
  intros H. apply sound_push_sense in H.
  pose proof (sense_data_push_sense st) as Hsd.
  unfold push_pos. set (s1 := push_sense st) in *.
  destruct H as (B & S & P & Hp & Ed & Pg).
  pose proof (merge_all_slots (pos_data s1) (pos_datas s1) (objs s1)) as Hsl.
  destruct (merge_all (objs s1) (pos_datas s1) (pos_data s1))
    as [[ls merged] ds].
  cbn [fst snd] in Hsl. unfold sound.
  cbn [base sense_data pos_datas pos_data etym_datas page_datas].
  split; [exact B|]. split; [left; exact Hsd|]. split; [constructor|].
  split; [intros [F|F]; [rewrite Hsd in F|]; now elim F|].
  split; [|exact Pg].
  - apply Forall_app. split; [exact Ed|].
    assert (Hpos : pos_datas s1 <> [] -> has "pos" (pos_data s1)) by auto.
    clear - Hsl P Hpos. revert P Hpos.
    induction Hsl as [|d d' ds ds' Hd Hsl IH]; intros P Hpos; constructor.
    + inversion P; subst. split.
      * eapply merged_has; eauto.
      * eapply merged_has; eauto. right. apply Hpos. discriminate.
    + inversion P; subst. apply IH; auto.
      intros _. apply Hpos. discriminate.
Qed.

Lemma sound_push_etym st : sound st -> sound (push_etym st).
Proof.
  intros H. apply sound_push_pos in H.
  destruct (push_pos_clears st) as (Hsd & Hpd & _).
  unfold push_etym. set (s1 := push_pos st) in *.
  destruct H as (B & S & P & Hp & Ed & Pg).
  pose proof (merge_all_slots (etym_data s1) (etym_datas s1) (objs s1)) as Hsl.
  destruct (merge_all (objs s1) (etym_datas s1) (etym_data s1))
    as [[ls merged] ds].
  cbn [fst snd] in Hsl. unfold sound.
  cbn [base sense_data pos_datas pos_data etym_datas page_datas].
  split; [exact B|]. split; [exact S|]. split; [exact P|].
  split; [exact Hp|]. split; [constructor|].
  apply Forall_app. split; [exact Pg|].
  clear - Hsl Ed. revert Ed.
  induction Hsl as [|d d' ds ds' Hd Hsl IH]; intros Ed; constructor;
    inversion Ed as [|? ? [Hg Hp] Ed']; subst; auto.
  split; eapply merged_has; eauto.
Qed.

Lemma sound_set_pos pos st :
  sound st -> sound (set_pos pos st) /\ has "pos" (pos_data (set_pos pos st)).
Proof.
  intros (B & S & P & Hp & Ed & Pg). unfold set_pos, sound, has.
  cbn [base sense_data pos_datas pos_data etym_datas page_datas set_pos_data
       snd].
  rewrite lookup_set_key_same.
  split; [|discriminate].
  split; [exact B|]. split; [exact S|]. split; [exact P|].
  split; [intros _; discriminate|]. split; [exact Ed | exact Pg].
Qed.

Section SoundWalk.
Variable E : collaborators.
Variable cfg : config.

(** [parse_sense] always ends with a sense that has a gloss. *)
Lemma parse_sense_item_shape pos children st :
  exists b ds,
    parse_sense_item E pos children st
    = add_diags ds (set_sense_data b (push_sense st))
    /\ has "glosses" (snd b).
Proof.
  unfold parse_sense_item.
  match goal with
  | |- context [clean_node ?a ?b ?c ?d] =>
      destruct (clean_node a b c d) as [gloss sense]
  end.
  destruct (split_gloss gloss) as [q g].
  eexists. eexists. split; [reflexivity|].
  apply data_append_ref_grows.
Qed.

Lemma has_not_empty k (d : buffer) : has k d -> d <> [].
Proof. intros H ->. now apply H. Qed.

(** A list item leaves a sense with a gloss, under a part of speech. *)
Lemma sound_parse_sense_item pos children st :
  sound st -> has "pos" (pos_data st) ->
  sound (parse_sense_item E pos children st)
  /\ has "pos" (pos_data (parse_sense_item E pos children st)).
Proof.
  intros H Hpos.
  destruct (parse_sense_item_shape pos children st) as (b & ds & -> & Hg).
  apply sound_push_sense in H.
  assert (Hpd : pos_data (push_sense st) = pos_data st).
  { unfold push_sense. now destruct (is_empty (sense_data st)). }
  set (s1 := push_sense st) in *.
  destruct H as (B & S & P & Hp & Ed & Pg).
  split.
  - unfold sound.
    cbn [base sense_data pos_datas pos_data etym_datas page_datas
         set_sense_data add_diags].
    split; [exact B|]. split; [right; exact Hg|]. split; [exact P|].
    split; [intros _; now rewrite Hpd|]. split; [exact Ed | exact Pg].
  - cbn [pos_data set_sense_data add_diags]. now rewrite Hpd.
Qed.

Lemma sound_parse_sense_list pos items : forall st st',
  sound st -> has "pos" (pos_data st) ->
  parse_sense_list E pos items st = Some st' ->
  sound st' /\ has "pos" (pos_data st').
Proof.
  induction items as [|n items IH]; intros st st' H Hpos Hrun;
    cbn [parse_sense_list] in Hrun.
  - inversion Hrun; subst. auto.
  - destruct n as [s|kind sarg nargs children]; [discriminate|].
    destruct (negb (NodeKind_eqb kind LIST_ITEM)).
    + apply IH in Hrun; auto.
    + destruct (ends_with_colon sarg) as [[|]|]; [| |discriminate].
      * apply IH in Hrun; auto.
      * destruct (sound_parse_sense_item pos children st H Hpos)
          as (H1 & H2).
        apply IH in Hrun; auto.
Qed.

Lemma sound_parse_sense_lists pos ls : forall st st',
  sound st -> has "pos" (pos_data st) ->
  parse_sense_lists E pos ls st = Some st' ->
  sound st' /\ has "pos" (pos_data st').
Proof.
  induction ls as [|n ls IH]; intros st st' H Hpos Hrun;
    cbn [parse_sense_lists] in Hrun.
  - inversion Hrun; subst. auto.
  - destruct n as [s|kind sarg nargs children]; [discriminate|].
    destruct (parse_sense_list E pos children st) as [s1|] eqn:E1;
      [|discriminate].
    destruct (sound_parse_sense_list pos children st s1 H Hpos E1).
    eapply IH; eauto.
Qed.

Lemma sound_enter_pos t dt st : sound st -> sound (enter_pos t dt st).
Proof.
  intros H. apply sound_push_pos in H. unfold enter_pos.
  destruct (pi_tags dt) as [tags|]; [|exact H].
  apply sound_append_pos; [exact H|].
  cbn [objs pos_data add_diags]. apply data_extend_ref_grows.
Qed.

Lemma sound_parse_part_of_speech children pos st st' :
  sound st ->
  parse_part_of_speech E children pos st = Some st' -> sound st'.
Proof.
  intros H Hrun. unfold parse_part_of_speech in Hrun.
  destruct (sound_set_pos pos st H) as [H1 Hpos].
  set (s1 := set_pos pos st) in *.
  destruct (lists (scan_pos_children children
                     {| pre := []; lists := []; first_para := true |}))
    as [|l ls] eqn:El.
  - inversion Hrun; subst. exact H1.
  - match type of Hrun with
    | context [clean_node ?a ?b ?c ?d] =>
        pose proof (clean_node_grows a b c (head_template_fn_grows a) d) as Hg;
        destruct (clean_node a b c d) as [text pd]
    end.
    cbn [snd] in Hg.
    match type of Hrun with
    | parse_sense_lists _ _ _ (set_pos_data ?b _) = _ =>
        assert (Hg2 : grows (objs s1, pos_data s1) b)
          by (eapply grows_trans; [exact Hg | apply data_append_all_grows])
    end.
    eapply sound_parse_sense_lists in Hrun.
    + apply Hrun.
    + apply sound_append_pos; assumption.
    + cbn [pos_data set_pos_data]. apply (Hg2 "pos"). exact Hpos.
Qed.

Lemma sound_into_pos_or_etym kvs ds st :
  sound st -> sound (into_pos_or_etym E kvs ds st).
Proof.
  intros H. unfold into_pos_or_etym.
  destruct (in_pos_map E (last (stack st) "")); [|exact H].
  apply sound_append_pos; [exact H | apply data_append_all_grows].
Qed.

Lemma sound_parse_pronunciation children st :
  sound st -> sound (parse_pronunciation E children st).
Proof.
  intros H. unfold parse_pronunciation.
  destruct (negb (is_empty (etym_data st))); [exact H|].
  apply sound_append_base; [exact H | apply data_append_all_grows].
Qed.

Lemma sound_push_stack t st : sound st -> sound (push_stack t st).
Proof. intros H. exact H. Qed.

Lemma sound_pop_stack st : sound st -> sound (pop_stack st).
Proof. intros H. exact H. Qed.

Lemma sound_count_section t st : sound st -> sound (count_section t st).
Proof. intros H. exact H. Qed.

Lemma sound_add_diags ds st : sound st -> sound (add_diags ds st).
Proof. intros H. exact H. Qed.

(** No section of the walk breaks the state. *)
Lemma sound_process_node n : forall st st',
  sound st -> process_node E cfg n st = Some st' -> sound st'.
Proof.
  induction n as [s|kind sarg nargs children IH] using node_induction;
    intros st st' H Hrun.
  - inversion Hrun; subst. exact H.
  - assert (Hch : forall st st', sound st ->
              process_children E cfg children st = Some st' -> sound st').
    { clear - IH. induction IH as [|c l Hc Hl IHl]; intros st st' H Hrun;
        cbn [process_children] in Hrun.
      - inversion Hrun; subst. exact H.
      - destruct (process_node E cfg c st) as [s1|] eqn:E1; [|discriminate].
        eapply IHl; [|exact Hrun]. eapply Hc; eauto. }
    destruct (is_sublevel kind) eqn:Hk.
    2:{ cbn [process_node] in Hrun. rewrite Hk in Hrun.
        inversion Hrun; subst. exact H. }
    rewrite process_node_heading in Hrun by exact Hk. cbv zeta in Hrun.
    destruct (String.eqb (heading_title E nargs) "Pronunciation").
    { destruct (capture_pronunciation cfg); [|inversion Hrun; subst; exact H].
      pose proof (sound_parse_pronunciation children st H) as Hs.
      destruct (negb (has_key "sounds" (etym_data (parse_pronunciation E children st)))
                && negb (has_key "sounds" (base (parse_pronunciation E children st))));
        inversion Hrun; subst; [apply sound_add_diags|]; exact Hs. }
    destruct (startswith (heading_title E nargs) "Etymology").
    { destruct (process_children E cfg children
                  (push_stack (heading_title E nargs) (push_etym st)))
        as [s1|] eqn:E1; [|discriminate].
      inversion Hrun; subst. apply sound_pop_stack.
      apply (Hch _ _ (sound_push_stack _ _ (sound_push_etym st H))) in E1.
      exact E1. }
    destruct (part_of_speech_map E (lower E (heading_title E nargs))) as [dt|].
    { destruct (parse_part_of_speech E children (pi_pos dt)
                  (enter_pos (heading_title E nargs) dt st)) as [s1|] eqn:E1;
        [|discriminate].
      apply sound_parse_part_of_speech in E1; [|now apply sound_enter_pos].
      destruct (process_children E cfg children (push_stack (pi_pos dt) s1))
        as [s2|] eqn:E2; [|discriminate].
      inversion Hrun; subst. apply sound_pop_stack.
      apply (Hch _ _ (sound_push_stack _ _ E1)) in E2. exact E2. }
    repeat match type of Hrun with
           | (if ?c then _ else _) = _ => destruct c
           end;
      try (inversion Hrun; subst;
           first [ exact H
                 | now apply sound_into_pos_or_etym
                 | apply sound_append_pos; [exact H|];
                   apply run_expansion_grows, decl_conj_template_fn_grows ]).
    destruct (process_children E cfg children
                (push_stack (heading_title E nargs)
                   (count_section (heading_title E nargs) st)))
      as [s1|] eqn:E1; [|discriminate].
    inversion Hrun; subst. apply sound_pop_stack.
    apply (Hch _ _ (sound_push_stack _ _ (sound_count_section _ _ H))) in E1.
    exact E1.
Qed.

Lemma sound_process_children l : forall st st',
  sound st -> process_children E cfg l st = Some st' -> sound st'.
Proof.
  induction l as [|c l IH]; intros st st' H Hrun;
    cbn [process_children] in Hrun.
  - inversion Hrun; subst. exact H.
  - destruct (process_node E cfg c st) as [s1|] eqn:E1; [|discriminate].
    eapply IH; [|exact Hrun]. eapply sound_process_node; eauto.
Qed.

End SoundWalk.

(** The five fields that every record of the output has. *)
Definition complete (r : record) : Prop :=
  forall k, In k ["word"; "lang"; "lang_code"; "pos"; "glosses"] ->
            In k (keys r).

Lemma sound_start_state title language lang_code :
  sound (start_state title language lang_code).
Proof.
  unfold sound, start_state, has.
  cbn [base sense_data pos_datas pos_data etym_datas page_datas].
  split; [repeat split; cbn; discriminate|].
  split; [now left|]. split; [constructor|].
  split; [intros [F|F]; now elim F|]. split; constructor.
Qed.

Lemma sound_finish st : sound st -> Forall complete (fst (finish st)).
Proof.
  intros H. apply sound_push_etym in H. unfold finish.
  set (s1 := push_etym st) in *.
  destruct H as ((Bw & Bl & Bc) & _ & _ & _ & _ & Pg).
  pose proof (merge_all_slots (base s1) (page_datas s1) (objs s1)) as Hsl.
  destruct (merge_all (objs s1) (page_datas s1) (base s1)) as [[ls ret] ds].
  cbn [fst snd] in *. clear - Hsl Pg Bw Bl Bc. revert Pg.
  induction Hsl as [|d d' l l' Hd Hsl IH]; intros Pg; cbn [map];
    constructor; inversion Pg as [|? ? [Hg Hp] Pg']; subst; auto.
  intros k Hk. rewrite keys_deref. apply in_keys_lookup.
  apply (merged_has d (base s1) d' k Hd).
  cbn [In] in Hk.
  destruct Hk as [<-|[<-|[<-|[<-|[<-|[]]]]]]; auto.
Qed.

Lemma walk_gives_complete_records
        E cfg title language lang_code children recs ds :
  parse_language E cfg title language lang_code children = Some (recs, ds) ->
  Forall complete recs.
Proof.
  intros Hrun. rewrite parse_language_finish in Hrun.
  unfold walked in Hrun.
  destruct (process_children E cfg children
              (push_stack "TOP" (start_state title language lang_code)))
    as [st|] eqn:Hw; [|discriminate].
  cbn [option_map] in Hrun.
  apply sound_process_children in Hw;
    [|apply sound_push_stack, sound_start_state].
  apply sound_pop_stack, sound_finish in Hw.
  inversion Hrun as [Hf]. rewrite Hf in Hw. exact Hw.
Qed.

(** X2. Whatever the page and whatever the collaborators do, every record
    that [parse_language] returns has the fields [word], [lang],
    [lang_code], [pos] and [glosses]: no sense leaves without a gloss, and
    none leaves without its part of speech or the fields of the base. *)
Theorem parse_language_records_are_complete
        E cfg title language lang_code children recs ds :
  parse_language E cfg title language lang_code children = Some (recs, ds) ->
  Forall complete recs.
Proof. apply walk_gives_complete_records. Qed.

Lemma parse_language_records_are_complete_witness :
  exists recs ds,
    parse_language example_env cfg_all "oak" "English" "en" oak_page
    = Some (recs, ds)
    /\ List.length recs = 4
    /\ Forall complete recs.
Proof.
  eexists. eexists. split; [vm_compute; reflexivity|].
  split; [reflexivity|].
  eapply (parse_language_records_are_complete
            example_env cfg_all "oak" "English" "en" oak_page).
  vm_compute. reflexivity.
Defined.

(** ** When the walk raises *)

(** A child of a sense list that the loop of [parse_part_of_speech] gets
    past: a node that is not a list item, or a list item with a prefix. *)
Definition sense_item_ok (n : node) : bool :=
  match n with
  | Text _ => false
  | WikiNode kind sarg _ _ =>
      negb (NodeKind_eqb kind LIST_ITEM) || negb (String.eqb sarg "")
  end.

(** Every list of the tree under [n] has only such children. *)
Fixpoint lists_ok (n : node) : bool :=
  match n with
  | Text _ => true
  | WikiNode kind _ _ children =>
      (negb (NodeKind_eqb kind LIST) || forallb sense_item_ok children)
      && (fix all (l : list node) : bool :=
            match l with
            | [] => true
            | c :: l' => lists_ok c && all l'
            end) children
  end.

Lemma lists_ok_node kind sarg nargs children :
  lists_ok (WikiNode kind sarg nargs children)
  = (negb (NodeKind_eqb kind LIST) || forallb sense_item_ok children)
    && forallb lists_ok children.
Proof.
  reflexivity.
Qed.

(** A node whose children [parse_part_of_speech] can go through. *)
Definition parsable (l : node) : Prop :=
  exists kind sarg nargs items,
    l = WikiNode kind sarg nargs items
    /\ forallb sense_item_ok items = true.

Lemma scan_pos_children_parsable children : forall sc,
  forallb lists_ok children = true ->
  Forall parsable (lists sc) ->
  Forall parsable (lists (scan_pos_children children sc)).
Proof.
  induction children as [|c children IH]; intros sc Hok Hsc;
    cbn [scan_pos_children]; auto.
  cbn [forallb] in Hok. apply andb_true_iff in Hok. destruct Hok as [Hc Hok].
  destruct c as [s|kind sarg nargs items].
  - apply IH; auto. now rewrite lists_scan_paragraphs.
  - destruct (NodeKind_eqb kind LIST) eqn:Hk.
    + cbn [lists]. apply Forall_app. split; [exact Hsc|].
      constructor; [|constructor].
      exists kind, sarg, nargs, items. split; [reflexivity|].
      rewrite lists_ok_node, Hk in Hc. cbn [negb orb] in Hc.
      now apply andb_true_iff in Hc.
    + destruct (is_level kind); [exact Hsc|].
      destruct (first_para sc); apply IH; auto.
Qed.

Section Raises.
Variable E : collaborators.
Variable cfg : config.

Lemma parse_sense_list_some pos items : forall st,
  forallb sense_item_ok items = true ->
  exists st', parse_sense_list E pos items st = Some st'.
Proof.
  induction items as [|n items IH]; intros st Hok; cbn [parse_sense_list].
  - now exists st.
  - cbn [forallb] in Hok. apply andb_true_iff in Hok. destruct Hok as [Hn Hok].
    destruct n as [s|kind sarg nargs children]; [discriminate|].
    cbn [sense_item_ok] in Hn.
    destruct (NodeKind_eqb kind LIST_ITEM); cbn [negb orb] in *.
    + unfold ends_with_colon. destruct (String.eqb sarg ""); [discriminate|].
      destruct (endswith sarg ":"); apply IH; exact Hok.
    + apply IH; exact Hok.
Qed.

Lemma parse_sense_list_none pos items : forall st,
  forallb sense_item_ok items = false ->
  parse_sense_list E pos items st = None.
Proof.
  induction items as [|n items IH]; intros st Hok; cbn [parse_sense_list].
  - discriminate.
  - cbn [forallb] in Hok.
    destruct n as [s|kind sarg nargs children]; [reflexivity|].
    cbn [sense_item_ok] in Hok.
    destruct (NodeKind_eqb kind LIST_ITEM); cbn [negb orb] in *.
    + unfold ends_with_colon. destruct (String.eqb sarg ""); [reflexivity|].
      cbn [negb andb] in Hok.
      destruct (endswith sarg ":"); apply IH; exact Hok.
    + apply IH; exact Hok.
Qed.

Lemma parse_sense_lists_some pos ls : forall st,
  Forall parsable ls ->
  exists st', parse_sense_lists E pos ls st = Some st'.
Proof.
  induction ls as [|l ls IH]; intros st Hok; cbn [parse_sense_lists].
  - now exists st.
  - inversion Hok as [|? ? (kind & sarg & nargs & items & -> & Hi) Hls]; subst.
    destruct (parse_sense_list_some pos items st Hi) as [s1 ->].
    apply IH; exact Hls.
Qed.

Lemma parse_part_of_speech_some children pos st :
  forallb lists_ok children = true ->
  exists st', parse_part_of_speech E children pos st = Some st'.
Proof.
  intros Hok. unfold parse_part_of_speech.
  pose proof (scan_pos_children_parsable children
                {| pre := []; lists := []; first_para := true |} Hok
                (Forall_nil _)) as Hp.
  destruct (lists (scan_pos_children children
                     {| pre := []; lists := []; first_para := true |}))
    as [|l ls]; [eexists; reflexivity|].
  match goal with
  | |- context [clean_node ?a ?b ?c ?d] =>
      destruct (clean_node a b c d) as [text pd]
  end.
  apply parse_sense_lists_some. exact Hp.
Qed.

Lemma process_node_some n :
  lists_ok n = true ->
  forall st, exists st', process_node E cfg n st = Some st'.
Proof.
  induction n as [s|kind sarg nargs children IH] using node_induction;
    intros Hok st.
  - eexists; reflexivity.
  - rewrite lists_ok_node in Hok. apply andb_true_iff in Hok.
    destruct Hok as [_ Hok].
    assert (Hch : forall st, exists st',
              process_children E cfg children st = Some st').
    { clear - IH Hok. induction IH as [|c l Hc Hl IHl]; intros st;
        cbn [process_children].
      - eexists; reflexivity.
      - cbn [forallb] in Hok. apply andb_true_iff in Hok.
        destruct Hok as [Hc' Hl'].
        destruct (Hc Hc' st) as [s1 ->]. apply IHl; exact Hl'. }
    destruct (is_sublevel kind) eqn:Hk.
    2:{ cbn [process_node]. rewrite Hk. eexists; reflexivity. }
    rewrite process_node_heading by exact Hk. cbv zeta.
    destruct (String.eqb (heading_title E nargs) "Pronunciation").
    { repeat match goal with
             | |- context [if ?c then _ else _] => destruct c
             end; eexists; reflexivity. }
    destruct (startswith (heading_title E nargs) "Etymology").
    { destruct (Hch (push_stack (heading_title E nargs) (push_etym st)))
        as [s1 ->]. eexists; reflexivity. }
    destruct (part_of_speech_map E (lower E (heading_title E nargs))) as [dt|].
    { destruct (parse_part_of_speech_some children (pi_pos dt)
                  (enter_pos (heading_title E nargs) dt st) Hok) as [s1 ->].
      destruct (Hch (push_stack (pi_pos dt) s1)) as [s2 ->].
      eexists; reflexivity. }
    repeat match goal with
           | |- exists _, (if ?c then _ else _) = _ => destruct c
           end; try (eexists; reflexivity).
    destruct (Hch (push_stack (heading_title E nargs)
                     (count_section (heading_title E nargs) st))) as [s1 ->].
    eexists; reflexivity.
Qed.

End Raises.

(** X3. [parse_language] returns, whatever the collaborators do, when
    every list of the section has only children that are nodes, and its
    list items have a prefix: nothing else in the walk can raise. *)
Theorem parse_language_returns_on_well_formed_lists
        E cfg title language lang_code children :
  forallb lists_ok children = true ->
  exists recs ds,
    parse_language E cfg title language lang_code children = Some (recs, ds).
Proof.
  intros Hok. rewrite parse_language_finish. unfold walked.
  assert (Hch : forall l st, forallb lists_ok l = true ->
            exists st', process_children E cfg l st = Some st').
  { induction l as [|c l IH]; intros st Hl; cbn [process_children].
    - eexists; reflexivity.
    - cbn [forallb] in Hl. apply andb_true_iff in Hl. destruct Hl as [Hc Hl].
      destruct (process_node_some E cfg c Hc st) as [s1 ->]. now apply IH. }
  destruct (Hch children
              (push_stack "TOP" (start_state title language lang_code)) Hok)
    as [st ->].
  cbn [option_map]. destruct (finish (pop_stack st)) as [recs ds].
  now exists recs, ds.
Qed.

Lemma parse_language_returns_on_well_formed_lists_witness :
  exists recs ds,
    parse_language example_env cfg_all "oak" "English" "en" oak_page
    = Some (recs, ds).
Proof.
  apply (parse_language_returns_on_well_formed_lists
           example_env cfg_all "oak" "English" "en" oak_page).
  vm_compute. reflexivity.
Defined.

(** X4. A part-of-speech section raises exactly when its first list has a
    child that is a string, or a list item without a prefix; what comes
    after that list, and the state, make no difference. *)
Theorem parse_part_of_speech_raises_iff E P la ln items Q pos st :
  forallb before_list P = true ->
  parse_part_of_speech E (P ++ WikiNode LIST la ln items :: Q) pos st = None
  <-> forallb sense_item_ok items = false.
Proof.
  intros HP. unfold parse_part_of_speech.
  rewrite (scan_finds_the_list P la ln items Q _ HP). cbn [lists app].
  match goal with
  | |- context [clean_node ?a ?b ?c ?d] =>
      destruct (clean_node a b c d) as [text pd]
  end.
  cbn [parse_sense_lists].
  destruct (forallb sense_item_ok items) eqn:Hok.
  - match goal with
    | |- context [parse_sense_list E pos items ?s] =>
        destruct (parse_sense_list_some E pos items s Hok) as [s1 ->]
    end.
    split; discriminate.
  - rewrite (parse_sense_list_none E pos items _ Hok). split; reflexivity.
Qed.

Lemma parse_part_of_speech_raises_iff_witness :
  parse_part_of_speech example_env
    ([Text "oak"] ++ WikiNode LIST "#" [] [Text "a tree"] :: [])
    "noun" (start_state "oak" "English" "en") = None
  /\ exists st,
       parse_part_of_speech example_env
         ([Text "oak"] ++ WikiNode LIST "#" []
                            [WikiNode LIST_ITEM "#" [] [Text "a tree"]] :: [])
         "noun" (start_state "oak" "English" "en") = Some st.
Proof.
  split.
  - apply (parse_part_of_speech_raises_iff example_env [Text "oak"] "#" []
             [Text "a tree"] [] "noun" _ eq_refl).
    reflexivity.
  - destruct (parse_part_of_speech example_env
                ([Text "oak"] ++ WikiNode LIST "#" []
                   [WikiNode LIST_ITEM "#" [] [Text "a tree"]] :: [])
                "noun" (start_state "oak" "English" "en")) as [st|] eqn:Hrun.
    + now exists st.
    + apply (parse_part_of_speech_raises_iff example_env [Text "oak"] "#" []
               [WikiNode LIST_ITEM "#" [] [Text "a tree"]] [] "noun" _ eq_refl)
        in Hrun.
      discriminate Hrun.
Defined.

(** ** Records come from part-of-speech sections only *)

(** No sense is held and none is flushed. *)
Definition quiet (st : wstate) : Prop :=
  sense_data st = [] /\ pos_datas st = [] /\ etym_datas st = []
  /\ page_datas st = [].

Lemma quiet_pending st : quiet st -> pending st = 0.
Proof.
  intros (H1 & H2 & H3 & H4). unfold pending.
  now rewrite H1, H2, H3, H4.
Qed.

Lemma quiet_push_etym st : quiet st -> quiet (push_etym st).
Proof.
  intros H. apply quiet_pending in H.
  destruct (push_etym_fields st) as (_ & _ & Hs & _ & _ & Hp & He & Hl).
  rewrite H in Hl. apply length_zero_iff_nil in Hl.
  repeat split; assumption.
Qed.

Section NoPartOfSpeech.
Variable E : collaborators.
Variable cfg : config.

(** The heading of a section that [process_children] would take for a
    part of speech. *)
Definition is_pos_heading (n : node) : bool :=
  match n with
  | Text _ => false
  | WikiNode kind _ nargs _ =>
      is_sublevel kind
      && match part_of_speech_map E (lower E (heading_title E nargs)) with
         | Some _ => true
         | None => false
         end
  end.

(** No node of the tree under [n] is such a heading. *)
Fixpoint no_pos_heading (n : node) : bool :=
  negb (is_pos_heading n)
  && match n with
     | Text _ => true
     | WikiNode _ _ _ children =>
         (fix all (l : list node) : bool :=
            match l with
            | [] => true
            | c :: l' => no_pos_heading c && all l'
            end) children
     end.

Lemma no_pos_heading_node kind sarg nargs children :
  no_pos_heading (WikiNode kind sarg nargs children)
  = negb (is_pos_heading (WikiNode kind sarg nargs children))
    && forallb no_pos_heading children.
Proof. reflexivity. Qed.

Lemma quiet_into_pos_or_etym kvs ds st :
  quiet st -> quiet (into_pos_or_etym E kvs ds st).
Proof.
  intros H. unfold into_pos_or_etym.
  destruct (in_pos_map E (last (stack st) "")); exact H.
Qed.

Lemma quiet_parse_pronunciation children st :
  quiet st -> quiet (parse_pronunciation E children st).
Proof.
  intros H. unfold parse_pronunciation.
  destruct (negb (is_empty (etym_data st))); exact H.
Qed.

Lemma process_node_quiet n :
  no_pos_heading n = true ->
  forall st, quiet st ->
  exists st', process_node E cfg n st = Some st' /\ quiet st'.
Proof.
  induction n as [s|kind sarg nargs children IH] using node_induction;
    intros Hok st Hq.
  - exists st. split; [reflexivity | exact Hq].
  - rewrite no_pos_heading_node in Hok. apply andb_true_iff in Hok.
    destruct Hok as [Hpos Hok]. apply negb_true_iff in Hpos.
    assert (Hch : forall st, quiet st -> exists st',
              process_children E cfg children st = Some st' /\ quiet st').
    { clear - IH Hok. induction IH as [|c l Hc Hl IHl]; intros st Hq;
        cbn [process_children].
      - exists st. split; [reflexivity | exact Hq].
      - cbn [forallb] in Hok. apply andb_true_iff in Hok.
        destruct Hok as [Hc' Hl'].
        destruct (Hc Hc' st Hq) as (s1 & -> & Hq1). apply IHl; assumption. }
    destruct (is_sublevel kind) eqn:Hk.
    2:{ cbn [process_node]. rewrite Hk. exists st. split; [reflexivity|exact Hq]. }
    rewrite process_node_heading by exact Hk. cbv zeta.
    cbn [is_pos_heading] in Hpos. rewrite Hk in Hpos. cbn [andb] in Hpos.
    destruct (String.eqb (heading_title E nargs) "Pronunciation").
    { pose proof (quiet_parse_pronunciation children st Hq) as Hq1.
      repeat match goal with
             | |- context [if ?c then _ else _] => destruct c
             end; eexists; (split; [reflexivity|]); assumption. }
    destruct (startswith (heading_title E nargs) "Etymology").
    { destruct (Hch (push_stack (heading_title E nargs) (push_etym st))
                  (quiet_push_etym st Hq)) as (s1 & -> & Hq1).
      eexists. split; [reflexivity | exact Hq1]. }
    destruct (part_of_speech_map E (lower E (heading_title E nargs))) as [dt|];
      [discriminate|].
    repeat match goal with
           | |- exists _, (if ?c then _ else _) = _ /\ _ => destruct c
           end;
      try (eexists; split; [reflexivity|];
           first [exact Hq | now apply quiet_into_pos_or_etym]).
    destruct (Hch (push_stack (heading_title E nargs)
                     (count_section (heading_title E nargs) st)) Hq)
      as (s1 & -> & Hq1).
    eexists. split; [reflexivity | exact Hq1].
Qed.

(** X5. A language section in which no heading is the heading of a part
    of speech gives no record, and [parse_language] returns: whatever
    lists, pronunciations, translations and linkages the section has,
    records come from part-of-speech sections only. *)
Theorem parse_language_without_part_of_speech
        title language lang_code children :
  forallb no_pos_heading children = true ->
  exists ds,
    parse_language E cfg title language lang_code children = Some ([], ds).
Proof.
  intros Hok. rewrite parse_language_finish. unfold walked.
  assert (Hch : forall l st, forallb no_pos_heading l = true -> quiet st ->
            exists st', process_children E cfg l st = Some st' /\ quiet st').
  { induction l as [|c l IH]; intros st Hl Hq; cbn [process_children].
    - exists st. split; [reflexivity | exact Hq].
    - cbn [forallb] in Hl. apply andb_true_iff in Hl. destruct Hl as [Hc Hl].
      destruct (process_node_quiet c Hc st Hq) as (s1 & -> & Hq1).
      now apply IH. }
  destruct (Hch children
              (push_stack "TOP" (start_state title language lang_code)) Hok)
    as (st & -> & Hq).
  { repeat split. }
  cbn [option_map]. unfold finish.
  assert (Hq' : quiet (push_etym (pop_stack st)))
    by (apply quiet_push_etym; exact Hq).
  destruct Hq' as (_ & _ & _ & Hpg). rewrite Hpg. cbn [merge_all map].
  eexists. reflexivity.
Qed.

End NoPartOfSpeech.

Lemma parse_language_without_part_of_speech_witness :
  exists ds,
    parse_language example_env cfg_all "oak" "English" "en"
      [Text "An oak."; sense_list ["not a sense"];
       heading LEVEL3 "Etymology"
         [Text "From somewhere.";
          heading LEVEL4 "Pronunciation" [Text "/ouk/"]];
       heading LEVEL3 "Synonyms" [entry_list ["quercus"]]]
    = Some ([], ds).
Proof.
  apply (parse_language_without_part_of_speech example_env cfg_all).
  vm_compute. reflexivity.
Defined.

(** ** One sense for each list item *)

(** A child of the sense list that [parse_part_of_speech] hands to
    [parse_sense]: a list item whose prefix does not end with a colon. *)
Definition is_sense_item (n : node) : bool :=
  match n with
  | Text _ => false
  | WikiNode kind sarg _ _ =>
      NodeKind_eqb kind LIST_ITEM && negb (endswith sarg ":")
  end.

Lemma pending_push_sense st : pending (push_sense st) = pending st.
Proof.
  unfold pending, push_sense.
  destruct (sense_data st) eqn:Es; cbn [is_empty]; [now rewrite Es|].
  cbn [page_datas etym_datas pos_datas sense_data is_empty].
  rewrite length_app. cbn [List.length]. lia.
Qed.

Section OneSenseEach.
Variable E : collaborators.

Lemma pending_parse_sense_item pos children st :
  pending (parse_sense_item E pos children st) = S (pending st).
Proof.
  destruct (parse_sense_item_shape E pos children st) as (b & ds & -> & Hg).
  rewrite <- (pending_push_sense st).
  pose proof (sense_data_push_sense st) as Hsd.
  unfold pending.
  cbn [page_datas etym_datas pos_datas sense_data set_sense_data add_diags].
  rewrite Hsd. cbn [is_empty].
  destruct (snd b) eqn:Eb; [now elim (has_not_empty _ _ Hg)|].
  cbn [is_empty]. lia.
Qed.

Lemma pending_parse_sense_list pos items : forall st st',
  parse_sense_list E pos items st = Some st' ->
  pending st' = pending st + List.length (filter is_sense_item items).
Proof.
  induction items as [|n items IH]; intros st st' Hrun;
    cbn [parse_sense_list filter] in *.
  - inversion Hrun; subst. cbn [List.length]. lia.
  - destruct n as [s|kind sarg nargs children]; [discriminate|].
    cbn [is_sense_item].
    destruct (NodeKind_eqb kind LIST_ITEM); cbn [negb andb] in *.
    + unfold ends_with_colon in Hrun.
      destruct (String.eqb sarg ""); [discriminate|].
      destruct (endswith sarg ":"); cbn [negb].
      * now apply IH in Hrun.
      * apply IH in Hrun. rewrite Hrun, pending_parse_sense_item.
        cbn [List.length]. lia.
    + now apply IH in Hrun.
Qed.

(** X6. A part-of-speech section adds exactly one sense for each list
    item of its first list whose prefix does not end with a colon, also
    when the gloss of the item is empty; the other children of the list
    and everything after the list add none. *)
Theorem parse_part_of_speech_one_sense_per_item
        P la ln items Q pos st st' :
  forallb before_list P = true ->
  parse_part_of_speech E (P ++ WikiNode LIST la ln items :: Q) pos st
  = Some st' ->
  pending st' = pending st + List.length (filter is_sense_item items).
Proof.
  intros HP Hrun. unfold parse_part_of_speech in Hrun.
  rewrite (scan_finds_the_list P la ln items Q _ HP) in Hrun.
  cbn [lists app] in Hrun.
  match type of Hrun with
  | context [clean_node ?a ?b ?c ?d] =>
      destruct (clean_node a b c d) as [text pd]
  end.
  cbn [parse_sense_lists] in Hrun.
  match type of Hrun with
  | context [parse_sense_list E pos items ?s] =>
      destruct (parse_sense_list E pos items s) as [s1|] eqn:H1;
      [|discriminate]
  end.
  inversion Hrun; subst. apply pending_parse_sense_list in H1.
  exact H1.
Qed.

End OneSenseEach.

Lemma parse_part_of_speech_one_sense_per_item_witness :
  exists st',
    parse_part_of_speech example_env
      ([Text "oak"]
         ++ WikiNode LIST "#" []
              [WikiNode LIST_ITEM "#" [] [Text "a tree"];
               WikiNode LIST_ITEM "#:" [] [Text "an old oak"];
               WikiNode LIST_ITEM "#" [] []]
         :: [sense_list ["in a second list"]])
      "noun" (start_state "oak" "English" "en") = Some st'
    /\ pending st' = 2.
Proof.
  eexists. split; [vm_compute; reflexivity|].
  change 2 with
    (pending (start_state "oak" "English" "en")
     + List.length
         (filter is_sense_item
            [WikiNode LIST_ITEM "#" [] [Text "a tree"];
             WikiNode LIST_ITEM "#:" [] [Text "an old oak"];
             WikiNode LIST_ITEM "#" [] []])).
  apply (parse_part_of_speech_one_sense_per_item example_env
           [Text "oak"] "#" [] _ [sense_list ["in a second list"]]
           "noun" (start_state "oak" "English" "en") _ eq_refl).
  vm_compute. reflexivity.
Defined.

(** * Further properties of the template helpers *)

Lemma pop_empty_nth vec : forall i, nth i (pop_empty vec) "" = nth i vec "".
Proof.
  induction vec as [|v vec IH]; intros i; cbn [pop_empty]; [reflexivity|].
  destruct (pop_empty vec) as [|r rs] eqn:Ep.
  - destruct (String.eqb v "") eqn:Ev.
    + apply String.eqb_eq in Ev. subst v.
      destruct i as [|i]; cbn [nth]; [reflexivity|].
      rewrite <- IH. now destruct i.
    + destruct i as [|i]; cbn [nth]; [reflexivity|].
      rewrite <- IH. now destruct i.
  - destruct i as [|i]; cbn [nth]; [reflexivity|]. apply IH.
Qed.

Lemma pop_empty_last vec :
  pop_empty vec = [] \/ last (pop_empty vec) "" <> "".
Proof.
  induction vec as [|v vec IH]; cbn [pop_empty]; [now left|].
  destruct (pop_empty vec) as [|r rs] eqn:Ep.
  - destruct (String.eqb v "") eqn:Ev; [now left|].
    right. cbn [last]. now apply String.eqb_neq.
  - right. destruct IH as [IH|IH]; [discriminate|].
    change (last (v :: r :: rs) "") with (last (r :: rs) ""). exact IH.
Qed.

Lemma pop_empty_length vec : List.length (pop_empty vec) <= List.length vec.
Proof.
  induction vec as [|v vec IH]; cbn [pop_empty List.length]; [lia|].
  destruct (pop_empty vec) as [|r rs].
  - destruct (String.eqb v ""); cbn [List.length]; lia.
  - cbn [List.length] in *. lia.
Qed.



Section TemplateFacts.
Variable clean_value : string -> string.

(** X7. [t_vec] loses no argument and keeps no empty end: position [j] of
    the vector, with the empty string past its end, is [t_arg] of [j + 1]
    for each of the nineteen positions; the vector has at most nineteen
    values, and its last value, if it has one, is not empty. *)
Theorem t_vec_is_t_arg_without_empty_end (t : template) :
  (forall j, j < 19 ->
     nth j (t_vec clean_value t) "" = t_arg clean_value t (str_of_nat (S j)))
  /\ List.length (t_vec clean_value t) <= 19
  /\ (t_vec clean_value t = [] \/ last (t_vec clean_value t) "" <> "").
Proof.
  unfold t_vec. split; [|split].
  - intros j Hj. rewrite pop_empty_nth.
    do 19 (destruct j as [|j]; [reflexivity|]). lia.
  - etransitivity; [apply pop_empty_length|].
    rewrite length_map, length_seq. lia.
  - apply pop_empty_last.
Qed.


End TemplateFacts.

Lemma t_vec_is_t_arg_without_empty_end_witness :
  let t := {| t_name := "t";
              t_arguments := [("1", "fi"); ("2", ""); ("3", "tammi");
                              ("4", "")] |} in
  t_vec plain t = ["fi"; ""; "tammi"]
  /\ nth 2 (t_vec plain t) "" = t_arg plain t (str_of_nat 3)
  /\ nth 3 (t_vec plain t) "" = t_arg plain t (str_of_nat 4).
Proof.
  intros t. split; [reflexivity|].
  split; apply (proj1 (t_vec_is_t_arg_without_empty_end plain t)); lia.
Defined.


(** * Further properties of parse_any *)

Section AnyReturns.
Variable clean_value : string -> string.
Variable cfg : config.
Variable sectitle : string.

(** X9. [parse_any] returns whenever each [alter] template of the section
    has a positional argument: no other template and no link can make it
    raise. *)
Theorem parse_any_returns_when_alter_has_arguments
        (data : record) (p : parsed) :
  Forall (alter_ok clean_value) (templates p) ->
  exists d ds, parse_any clean_value cfg data sectitle p = Some (d, ds).
Proof.
  intros Hok. unfold parse_any.
  destruct (run_returns clean_value cfg sectitle (templates p)
              {| a_data := data; translation_sense := None;
                 a_brk := None; a_diags := [] |} Hok) as [st ->].
  eexists. eexists. reflexivity.
Qed.

Lemma step_keeps_brk st t st' :
  parse_any_template clean_value cfg sectitle st t = Some st' ->
  String.eqb (strip (t_name t)) "alter" = false ->
  a_brk st' = a_brk st.
Proof.
  unfold parse_any_template. intros H Ha. rewrite Ha in H.
  repeat match type of H with
         | context [if ?c then _ else _] => destruct c
         | context [match ?c with Some _ => _ | None => _ end] => destruct c
         | context [let '(_, _) := ?c in _] => destruct c
         end;
    inversion H; subst; reflexivity.
Qed.

(** X10. The first [alter] template of a section makes [parse_any] raise
    when it has no positional argument: the loop variable that the code
    reads after its loop was never bound.  Whatever comes before it that
    is not an [alter] template, and whatever comes after it, makes no
    difference. *)
Theorem parse_any_raises_on_first_empty_alter
        (data : record) (pre rest : list template) (t : template)
        (links : list string) :
  Forall (fun t => String.eqb (strip (t_name t)) "alter" = false) pre ->
  strip (t_name t) = "alter" ->
  t_vec clean_value t = [] ->
  parse_any clean_value cfg data sectitle
    {| templates := pre ++ t :: rest; wikilinks := links |} = None.
Proof.
  intros Hpre Hn Hv. unfold parse_any. cbn [templates wikilinks].
  assert (Hrun : forall st, a_brk st = None ->
            parse_any_templates clean_value cfg sectitle (pre ++ t :: rest) st
            = None).
  { induction Hpre as [|t0 pre H0 Hpre IH]; intros st Hb;
      cbn [app parse_any_templates].
    - unfold parse_any_template. rewrite Hn, Hv, Hb. reflexivity.
    - destruct (parse_any_template clean_value cfg sectitle st t0)
        as [s1|] eqn:E1; [|reflexivity].
      apply IH. rewrite (step_keeps_brk _ _ _ E1 H0). exact Hb. }
  now rewrite Hrun.
Qed.

End AnyReturns.

Lemma parse_any_returns_when_alter_has_arguments_witness :
  exists d ds,
    parse_any plain cfg_all [] "alternative forms"
      {| templates := [tmpl "alter" ["colour"; ""; "UK"]; tmpl "alter" ["x"]];
         wikilinks := ["Category:en:Colors"] |} = Some (d, ds).
Proof.
  apply (parse_any_returns_when_alter_has_arguments plain cfg_all).
  repeat constructor; intros _; vm_compute; discriminate.
Defined.

Lemma parse_any_raises_on_first_empty_alter_witness :
  parse_any plain cfg_all [] "alternative forms"
    {| templates := [tmpl "t" ["de"; "Haus"]] ++ tmpl "alter" []
                    :: [tmpl "alter" ["colour"]];
       wikilinks := [] |} = None.
Proof.
  apply (parse_any_raises_on_first_empty_alter plain cfg_all
           "alternative forms" [] [tmpl "t" ["de"; "Haus"]]
           [tmpl "alter" ["colour"]] (tmpl "alter" []) []).
  - repeat constructor.
  - reflexivity.
  - reflexivity.
Defined.

(** * parse_etymology *)

(** The values of the list under [k], none when [k] is not a key of [d]. *)
Definition entries (k : string) (d : record) : list value :=
  match lookup k d with
  | Some (FList l) => l
  | _ => []
  end.

(** The key is new to [d], or holds a list. *)
Definition appendable (k : string) (d : record) : bool :=
  match lookup k d with
  | Some (FStr _) => false
  | _ => true
  end.

Lemma data_append_entries d k v :
  appendable k d = true ->
  entries k (data_append d k v) = entries k d ++ [v]
  /\ appendable k (data_append d k v) = true.
Proof.
  unfold appendable, entries, data_append.
  destruct (lookup k d) as [[s|l]|] eqn:El; [discriminate| |]; intros _;
    rewrite lookup_set_key_same; auto.
Qed.

Lemma data_append_other d k v k' :
  k' <> k -> lookup k' (data_append d k v) = lookup k' d.
Proof.
  intros Hne. unfold data_append.
  destruct (lookup k d) as [[s|l]|]; auto;
    now apply lookup_set_key_other.
Qed.

Section Etymology.
Variable clean_value : string -> string.

(** [name in ("compound", "affix", "prefix")] *)
Definition is_compound_template (t : template) : bool :=
  in_names (strip (t_name t)) ["compound"; "affix"; "prefix"].

(** [parse_etymology(config, data, text, p)] *)
Definition parse_etymology (data : record) (p : parsed) : record :=
  fold_left (fun d t =>
               if is_compound_template t
               then data_append d "compound" (VDict (t_dict clean_value t))
               else d)
            (templates p) data.

(** X11. [parse_etymology] appends to [compound], in document order, the
    argument dictionary of each template named [compound], [affix] or
    [prefix], keeps what the list held, and leaves every other field as it
    was; a [suffix] template, which the comment of the function names, is
    not among them. *)
Theorem parse_etymology_collects_compounds (data : record) (p : parsed) :
  appendable "compound" data = true ->
  entries "compound" (parse_etymology data p)
  = entries "compound" data
    ++ map (fun t => VDict (t_dict clean_value t))
           (filter is_compound_template (templates p))
  /\ (forall k, k <> "compound" ->
        lookup k (parse_etymology data p) = lookup k data)
  /\ forall t, strip (t_name t) = "suffix" -> is_compound_template t = false.
Proof.
  intros Hd. unfold parse_etymology. split; [|split].
  - revert data Hd.
    induction (templates p) as [|t ts IH]; intros data Hd;
      cbn [fold_left filter map].
    + now rewrite app_nil_r.
    + destruct (is_compound_template t); [|now apply IH].
      destruct (data_append_entries data "compound"
                  (VDict (t_dict clean_value t)) Hd) as [He Ha].
      rewrite (IH _ Ha), He. cbn [map]. now rewrite <- app_assoc.
  - intros k Hk. revert data Hd.
    induction (templates p) as [|t ts IH]; intros data Hd; cbn [fold_left].
    + reflexivity.
    + destruct (is_compound_template t); [|now apply IH].
      rewrite IH.
      * now apply data_append_other.
      * now apply data_append_entries.
  - intros t Ht. unfold is_compound_template. now rewrite Ht.
Qed.

End Etymology.

Lemma parse_etymology_collects_compounds_witness :
  let p := {| templates := [tmpl "affix" ["en"; "oak"; "-en"];
                            tmpl "suffix" ["en"; "oak"; "en"];
                            tmpl " prefix " ["en"; "un"; "oak"]];
              wikilinks := [] |} in
  appendable "compound" [("word", FStr "oaken")] = true
  /\ entries "compound" (parse_etymology plain [("word", FStr "oaken")] p)
     = [VDict (t_dict plain (tmpl "affix" ["en"; "oak"; "-en"]));
        VDict (t_dict plain (tmpl " prefix " ["en"; "un"; "oak"]))].
Proof.
  intros p. split; [reflexivity|].
  apply (proj1 (parse_etymology_collects_compounds plain
                  [("word", FStr "oaken")] p eq_refl)).
Defined.

(** * tree_flatten_iter *)

(** [isinstance(node, WikiNode) and node.kind in (LEVEL2, ..., LEVEL6)] *)
Definition is_heading (n : node) : bool :=
  match n with
  | Text _ => false
  | WikiNode kind _ _ _ => is_level kind
  end.

Definition children_of (n : node) : list node :=
  match n with
  | Text _ => []
  | WikiNode _ _ _ children => children
  end.

(** The [while stack] loop of [tree_flatten_iter]: a frame of the stack is
    a list of nodes and the index of the next one, the top of the stack is
    the head of the list; the result is what the generator yields, in
    order.  One unit of [fuel] is one test of [while stack]. *)
Fixpoint flatten_loop (fuel : nat) (stack : list (list node * nat))
  : option (list node) :=
  match fuel with
  | 0 => None
  | S fuel =>
      match stack with
      | [] => Some []
      | (lst, idx) :: below =>
          match nth_error lst idx with
          | None => flatten_loop fuel below
          | Some n =>
              let stack := (lst, S idx) :: below in
              let stack := if is_heading n
                           then (children_of n, 0) :: stack else stack in
              option_map (cons n) (flatten_loop fuel stack)
          end
      end
  end.

(** [tree_flatten_iter(root)]; [None] also when [root] is a string (the
    assertion fails). *)
Definition tree_flatten_iter (fuel : nat) (root : node)
  : option (list node) :=
  match root with
  | Text _ => None
  | WikiNode _ _ _ children => flatten_loop fuel [(children, 0)]
  end.

(** The nodes under [n] in document order: [n], then, when [n] is a
    heading, what is under its children. *)
Fixpoint flatten (n : node) : list node :=
  n :: match n with
       | Text _ => []
       | WikiNode kind _ _ children =>
           if is_level kind
           then (fix all (l : list node) : list node :=
                   match l with
                   | [] => []
                   | c :: l' => flatten c ++ all l'
                   end) children
           else []
       end.

Definition flatten_all (l : list node) : list node := flat_map flatten l.

Lemma flatten_heading n :
  flatten n = n :: (if is_heading n then flatten_all (children_of n) else []).
Proof. destruct n as [s|kind sarg nargs children]; reflexivity. Qed.

(** The loop on what is left of each frame. *)
Fixpoint flatten_rest (fuel : nat) (stack : list (list node))
  : option (list node) :=
  match fuel with
  | 0 => None
  | S fuel =>
      match stack with
      | [] => Some []
      | [] :: below => flatten_rest fuel below
      | (n :: rest) :: below =>
          option_map (cons n)
            (flatten_rest fuel
               (if is_heading n then children_of n :: rest :: below
                else rest :: below))
      end
  end.

Lemma skipn_nth_error {A : Type} (l : list A) : forall i n,
  nth_error l i = Some n -> skipn i l = n :: skipn (S i) l.
Proof.
  induction l as [|a l IH]; intros [|i] n H; cbn in *; try discriminate.
  - now inversion H.
  - now apply IH.
Qed.

Lemma flatten_loop_rest fuel : forall stack,
  flatten_loop fuel stack
  = flatten_rest fuel (map (fun fr => skipn (snd fr) (fst fr)) stack).
Proof.
  induction fuel as [|fuel IH]; intros stack; [reflexivity|].
  cbn [flatten_loop flatten_rest].
  destruct stack as [|[lst idx] below]; [reflexivity|].
  cbn [map fst snd].
  destruct (nth_error lst idx) as [n|] eqn:En.
  - rewrite (skipn_nth_error lst idx n En). rewrite IH.
    destruct (is_heading n); reflexivity.
  - apply nth_error_None in En. rewrite (skipn_all2 lst En). apply IH.
Qed.

Lemma option_map_app_nil (x : option (list node)) :
  option_map (app []) x = x.
Proof. now destruct x. Qed.

Lemma option_map_app (a b : list node) (x : option (list node)) :
  option_map (app a) (option_map (app b) x) = option_map (app (a ++ b)) x.
Proof. destruct x; cbn; [|reflexivity]. now rewrite app_assoc. Qed.

(** With enough turns the loop gets through a list of nodes, yields what
    is under them, and goes on with the frames below. *)
Lemma flatten_rest_list l :
  Forall (fun n => forall rest below, exists f0, forall f,
            flatten_rest (f0 + f) ((n :: rest) :: below)
            = option_map (app (flatten n)) (flatten_rest f (rest :: below)))
         l ->
  forall below, exists f0, forall f,
    flatten_rest (f0 + f) (l :: below)
    = option_map (app (flatten_all l)) (flatten_rest f below).
Proof.
  induction 1 as [|n l Hn Hl IH]; intros below.
  - exists 1. intros f. cbn [Nat.add flatten_rest flatten_all flat_map].
    now rewrite option_map_app_nil.
  - destruct (Hn l below) as [f1 H1]. destruct (IH below) as [f2 H2].
    exists (f1 + f2). intros f. rewrite <- Nat.add_assoc, H1, H2.
    cbn [flatten_all flat_map]. apply option_map_app.
Qed.

Lemma flatten_rest_node n : forall rest below, exists f0, forall f,
  flatten_rest (f0 + f) ((n :: rest) :: below)
  = option_map (app (flatten n)) (flatten_rest f (rest :: below)).
Proof.
  induction n as [s|kind sarg nargs children IH] using node_induction;
    intros rest below.
  - exists 1. intros f. cbn [Nat.add flatten_rest is_heading flatten].
    now destruct (flatten_rest f (rest :: below)).
  - destruct (is_level kind) eqn:Hk.
    + destruct (flatten_rest_list children IH (rest :: below)) as [f2 H2].
      exists (S f2). intros f.
      cbn [Nat.add flatten_rest is_heading children_of]. rewrite Hk, H2.
      rewrite (flatten_heading (WikiNode kind sarg nargs children)).
      cbn [is_heading children_of]. rewrite Hk.
      now destruct (flatten_rest f (rest :: below)).
    + exists 1. intros f.
      cbn [Nat.add flatten_rest is_heading]. rewrite Hk.
      rewrite (flatten_heading (WikiNode kind sarg nargs children)).
      cbn [is_heading]. rewrite Hk.
      now destruct (flatten_rest f (rest :: below)).
Qed.

(** X12. [tree_flatten_iter] yields every child of the root once, in
    document order, each heading followed by what is under it and no other
    node descended into: with enough turns of its loop, and with any
    number of turns more, the explicit stack gives the preorder of the
    recursive definition. *)
Theorem tree_flatten_iter_is_preorder kind sarg nargs children :
  exists fuel, forall more,
    tree_flatten_iter (fuel + more) (WikiNode kind sarg nargs children)
    = Some (flatten_all children).
Proof.
  destruct (flatten_rest_list children) with (below := @nil (list node))
    as [f0 H0].
  { apply Forall_forall. intros n _. apply flatten_rest_node. }
  exists (f0 + 1). intros more. cbn [tree_flatten_iter].
  rewrite flatten_loop_rest. cbn [map fst snd skipn].
  rewrite <- Nat.add_assoc, H0. cbn [Nat.add flatten_rest option_map].
  now rewrite app_nil_r.
Qed.

(** A section with a heading, a list and a nested heading. *)
Example tree_flatten_iter_example :
  let inner := heading LEVEL4 "Noun" [Text "oak"; sense_list ["a tree"]] in
  tree_flatten_iter 10
    (heading LEVEL2 "English"
       [Text "intro"; heading LEVEL3 "Etymology" [inner]; Text "end"])
  = Some [Text "intro"; heading LEVEL3 "Etymology" [inner]; inner;
          Text "oak"; sense_list ["a tree"]; Text "end"]
  /\ tree_flatten_iter 9
       (heading LEVEL2 "English"
          [Text "intro"; heading LEVEL3 "Etymology" [inner]; Text "end"])
     = None.
Proof. split; reflexivity. Qed.

(** * Further properties of parse_page *)

Lemma by_lang_from_only rs : forall i groups groups' x,
  by_lang_from i rs groups = Some groups' ->
  In x (group_indices groups') ->
  In x (group_indices groups)
  \/ (i <= x /\ x < i + List.length rs
      /\ lookup "lang" (nth (x - i) rs []) <> None).
Proof.
  induction rs as [|r rs IH]; intros i groups groups' x H Hin; simpl in H.
  - inversion H; subst. now left.
  - assert (Hlater : i < x -> S i <= x -> x < S i + List.length rs ->
              lookup "lang" (nth (x - S i) rs []) <> None ->
              i <= x /\ x < i + List.length (r :: rs)
              /\ lookup "lang" (nth (x - i) (r :: rs) []) <> None).
    { intros H0 H1 H2 H3. split; [lia|]. split; [simpl; lia|].
      replace (x - i) with (S (x - S i)) by lia. exact H3. }
    destruct (lookup "lang" r) as [[lang|l]|] eqn:El; try discriminate.
    + destruct (IH _ _ _ x H Hin) as [Hg|(H1 & H2 & H3)].
      * apply (Permutation_in _ (group_add_perm lang i groups)) in Hg.
        destruct Hg as [<-|Hg]; [|now left].
        right. split; [lia|]. split; [simpl; lia|].
        rewrite Nat.sub_diag. cbn [nth]. rewrite El. discriminate.
      * right. apply Hlater; auto; lia.
    + destruct (IH _ _ _ x H Hin) as [Hg|(H1 & H2 & H3)]; [now left|].
      right. apply Hlater; auto; lia.
Qed.

Lemma parse_page_frame (ident : nat -> nat -> nat)
        (outputs : list (list record)) (ret : list record) :
  parse_page ident outputs = Some ret ->
  exists idxs,
    NoDup idxs
    /\ (forall x, In x idxs <->
          x < List.length (concat outputs)
          /\ lookup "lang" (fetch (concat outputs) x) <> None)
    /\ Forall2 (fun x r =>
                  forall k, k <> "conjugation" -> k <> "topics" ->
                    lookup k r = lookup k (fetch (concat outputs) x))
               idxs ret.
Proof.
  unfold parse_page. cbv zeta. intros H.
  destruct (by_lang_from 0 (concat outputs) []) as [groups|] eqn:Hg;
    [|discriminate].
  destruct (process_groups (last_datas outputs) groups _)
    as [[st' ids']|] eqn:Hp; [|discriminate].
  cbn [fst] in H. inversion H; subst ret. clear H.
  destruct (by_lang_from_indices _ _ _ _ Hg) as [Hnd Hr];
    [constructor | intros x [] |].
  exists (group_indices groups). split; [exact Hnd|]. split.
  - intros x. split.
    + intros Hin.
      destruct (by_lang_from_only _ _ _ _ x Hg Hin) as [[]|(_ & H2 & H3)].
      rewrite Nat.sub_0_r in H3. split; [exact H2 | exact H3].
    + intros [Hx Hl].
      exact (by_lang_from_member _ 0 [] groups x Hg Hx Hl).
  - destruct (process_groups_evolves _ _ _ _ _ _ Hp) as [_ Hev].
    unfold group_indices. clear - Hev.
    induction groups as [|[l g] groups IH]; cbn [flat_map snd];
      [constructor|].
    apply Forall2_app; [|exact IH].
    clear IH. induction g as [|i g IHg]; cbn [map]; constructor; auto.
    intros k Hk1 Hk2. now apply (Hev i).
Qed.

(** X13. When [parse_page] returns, it returns each record that has a
    [lang] exactly once and no other record, and every field of a record
    other than [conjugation] and [topics] is as [parse_language] gave it;
    a record without [lang] is dropped. *)
Theorem parse_page_returns_each_record_with_lang_once
        (ident : nat -> nat -> nat)
        (outputs : list (list record)) (ret : list record) :
  parse_page ident outputs = Some ret ->
  exists idxs,
    NoDup idxs
    /\ (forall x, In x idxs <->
          x < List.length (concat outputs)
          /\ lookup "lang" (fetch (concat outputs) x) <> None)
    /\ Forall2 (fun x r =>
                  forall k, k <> "conjugation" -> k <> "topics" ->
                    lookup k r = lookup k (fetch (concat outputs) x))
               idxs ret.
Proof. apply parse_page_frame. Qed.

Definition page_with_stray : list (list record) :=
  [[noun_without; [("glosses", FList [VStr "stray"])]]; [adj_with_x]].

Lemma parse_page_returns_each_record_with_lang_once_witness :
  exists ret idxs,
    parse_page own_topics page_with_stray = Some ret
    /\ List.length ret = 2
    /\ NoDup idxs
    /\ Forall2 (fun x r =>
                  forall k, k <> "conjugation" -> k <> "topics" ->
                    lookup k r = lookup k (fetch (concat page_with_stray) x))
               idxs ret.
Proof.
  assert (Hrun : parse_page own_topics page_with_stray
                 = Some (match parse_page own_topics page_with_stray with
                         | Some r => r
                         | None => []
                         end))
    by (vm_compute; reflexivity).
  destruct (parse_page_returns_each_record_with_lang_once _ _ _ Hrun)
    as (idxs & Hnd & _ & Hall).
  eexists. exists idxs. split; [exact Hrun|].
  split; [vm_compute; reflexivity|]. split; assumption.
Defined.

(** * verb_form_map_fn *)

Lemma data_extend_app d k a b :
  data_extend d k (a ++ b) = data_extend (data_extend d k a) k b.
Proof. unfold data_extend. apply fold_left_app. Qed.

Section VerbForms.
Variable clean_value : string -> string.

(** The tags of the value that the template has for the key [k] of a form
    map. *)
Definition form_tags (t : template) (fm : form_map) (k : ht_key)
  : list string :=
  let v := arg_of_key clean_value t k in
  if String.eqb v "" then []
  else match fm_tags fm v with Some tags => tags | None => [] end.

(** The report of a value that the form map does not have. *)
Definition form_unknown (t : template) (fm : form_map) (k : ht_key)
  : list diag :=
  let v := arg_of_key clean_value t k in
  if String.eqb v "" then []
  else match fm_tags fm v with
       | Some _ => []
       | None => [UnknownValue (strip (t_name t)) v]
       end.

Lemma tags_fold (tags : list string) : forall s,
  fold_left (fun acc x =>
               match acc, x with
               | Some s, Some x => Some (tag x s)
               | _, _ => None
               end) (map Some tags) (Some s)
  = Some (tag_all tags s).
Proof.
  unfold tag_all, put_all, tag, put, upd, data_extend.
  induction tags as [|x tags IH]; intros s; cbn [map fold_left].
  - now destruct s.
  - rewrite IH. reflexivity.
Qed.

(** X14. [verb_form_map_fn] stores the first argument under
    [inflection_of], then for the keys of the form map, in their order,
    the tags of each value that the map knows, and reports each value that
    it does not know, adding nothing for it; a key without a value is
    passed over.  It returns whenever no argument has the value [_keys],
    the one entry of the map that is not a list of tags. *)
Theorem verb_form_map_fn_tags_and_reports
        (t : template) (fm : form_map) (st : sense_state) :
  Forall (fun k => arg_of_key clean_value t k <> "_keys") (fm_keys fm) ->
  verb_form_map_fn clean_value t fm st
  = Some {| s_data :=
              data_extend
                (data_append (s_data st) "inflection_of"
                   (VStr (t_arg clean_value t "1")))
                "tags" (map VStr (flat_map (form_tags t fm) (fm_keys fm)));
            s_state := s_state st;
            s_diags := s_diags st ++ flat_map (form_unknown t fm) (fm_keys fm) |}.
Proof.
  intros Hk. unfold verb_form_map_fn.
  set (s0 := put "inflection_of" (VStr (targ clean_value t "1")) st).
  change (data_append (s_data st) "inflection_of"
            (VStr (t_arg clean_value t "1"))) with (s_data s0).
  change (s_state st) with (s_state s0).
  change (s_diags st) with (s_diags s0).
  generalize s0. clear s0.
  induction Hk as [|k ks Hk Hks IH]; intros s; cbn [fold_left flat_map map].
  - rewrite app_nil_r. now destruct s.
  - unfold form_tags at 1, form_unknown at 1. unfold fm_lookup.
    destruct (String.eqb (arg_of_key clean_value t k) "") eqn:Ev.
    + rewrite IH. reflexivity.
    + apply String.eqb_neq in Hk. rewrite Hk.
      destruct (fm_tags fm (arg_of_key clean_value t k)) as [tags|];
        cbn [option_map].
      * rewrite tags_fold, IH. rewrite map_app, data_extend_app.
        cbn [app]. reflexivity.
      * rewrite IH. cbn [app map s_data s_state s_diags unknown_value report].
        rewrite <- app_assoc. reflexivity.
Qed.

End VerbForms.

Lemma verb_form_map_fn_tags_and_reports_witness :
  let fm := {| fm_keys := [KInt 2; KInt 3; KStr "mood"];
               fm_tags := fun v =>
                 if String.eqb v "pres" then Some ["present"]
                 else if String.eqb v "1s" then Some ["first-person"; "singular"]
                 else None |} in
  let t := {| t_name := "es-verb form of";
              t_arguments := [("1", "hablar"); ("2", "pres"); ("3", "");
                              ("mood", "odd")] |} in
  verb_form_map_fn plain t fm
    {| s_data := []; s_state := None; s_diags := [] |}
  = Some {| s_data := [("inflection_of", FList [VStr "hablar"]);
                       ("tags", FList [VStr "present"])];
            s_state := None;
            s_diags := [UnknownValue "es-verb form of" "odd"] |}.
Proof.
  intros fm t.
  rewrite (verb_form_map_fn_tags_and_reports plain t fm).
  - reflexivity.
  - repeat constructor; discriminate.
Defined.

(** * parse_page, from the title to the records *)

(** [kind.name] *)
Definition kind_name (k : NodeKind) : string :=
  match k with
  | ROOT => "ROOT" | LEVEL2 => "LEVEL2" | LEVEL3 => "LEVEL3"
  | LEVEL4 => "LEVEL4" | LEVEL5 => "LEVEL5" | LEVEL6 => "LEVEL6"
  | ITALIC => "ITALIC" | BOLD => "BOLD" | HLINE => "HLINE" | LIST => "LIST"
  | LIST_ITEM => "LIST_ITEM" | PREFORMATTED => "PREFORMATTED"
  | LINK => "LINK" | TEMPLATE => "TEMPLATE" | TABLE => "TABLE"
  | TABLE_ROW => "TABLE_ROW" | TABLE_CELL => "TABLE_CELL" | HTML => "HTML"
  end.

(** [config.word = word] *)
Definition with_word (w : string) (cfg : config) : config :=
  {| capture_translations := capture_translations cfg;
     capture_pronunciation := capture_pronunciation cfg;
     capture_compounds := capture_compounds cfg;
     word := w |}.

Section Page.
Variable E : collaborators.
Variable cfg : config.
(** [languages_by_name[lang]["code"]], [config.capture_languages] and
    [unsupported_title_map], and how a string and a record are printed in
    a message. *)
Variable languages_by_name : string -> option string.
Variable capture_languages : list string.
Variable unsupported_title_map : string -> option string.
Variable py_repr : string -> string.
Variable show_data : record -> string.
(** Which dictionaries the lists under [topics] of the records hold: the
    walk shares them between the records of a part of speech or an
    etymology; [ident i p] names the one at place [p] of record [i]. *)
Variable ident : nat -> nat -> nat.

(** [not (config.capture_languages and lang not in
    config.capture_languages)]: no choice of languages means all. *)
Definition captured (lang : string) : bool :=
  match capture_languages with
  | [] => true
  | l => in_names lang l
  end.

(** The title that the page is parsed under. *)
Definition page_title (word : string) : string * list diag :=
  if startswith word "Unsupported titles/" then
    match unsupported_title_map (drop_chars 19 word) with
    | Some w => (w, [])
    | None => (word, [DebugMsg ("Unimplemented title: " +++ word)])
    end
  else (word, []).

(** [for data in datas: if "lang" not in data: config.debug(...)] *)
Definition no_lang_reports (recs : list record) : list diag :=
  flat_map (fun r => if has_key "lang" r then []
                     else [DebugMsg ("no lang in data: " +++ show_data r)])
           recs.

(** [for langnode in tree.children]: what [parse_language] returned for
    each language section that is parsed, in page order, and the
    diagnostics; [None] when [parse_language] raises. *)
Fixpoint parse_sections (title : string) (nodes : list node)
  : option (list (list record) * list diag) :=
  match nodes with
  | [] => Some ([], [])
  | Text _ :: rest => parse_sections title rest
  | WikiNode kind _ nargs children :: rest =>
      let skip (ds : list diag) :=
        match parse_sections title rest with
        | Some (outs, ds') => Some (outs, ds ++ ds')
        | None => None
        end in
      if negb (NodeKind_eqb kind LEVEL2) then
        skip [ErrorMsg ("unexpected top-level node " +++ kind_name kind)]
      else
        let lang := heading_title E nargs in
        match languages_by_name lang with
        | None =>
            skip [ErrorMsg ("unrecognized language name at top-level "
                            +++ py_repr lang)]
        | Some lang_code =>
            if negb (captured lang) then skip []
            else
              match parse_language E (with_word title cfg) title lang
                      lang_code children with
              | None => None
              | Some (recs, ds) =>
                  match parse_sections title rest with
                  | Some (outs, ds') =>
                      Some (recs :: outs, ds ++ no_lang_reports recs ++ ds')
                  | None => None
                  end
              end
        end
  end.

(** [parse_page(ctx, word, text, config)], for the tree that [ctx.parse]
    gives for the text. *)
Definition parse_page_tree (word : string) (tree : node)
  : option (list record * list diag) :=
  let '(title, ds0) := page_title word in
  match parse_sections title (children_of tree) with
  | None => None
  | Some (outputs, ds) =>
      match parse_page ident outputs with
      | None => None
      | Some ret => Some (ret, ds0 ++ ds)
      end
  end.

Lemma parse_sections_complete title nodes : forall outs ds,
  parse_sections title nodes = Some (outs, ds) ->
  Forall complete (concat outs).
Proof.
  induction nodes as [|n nodes IH]; intros outs ds H;
    cbn [parse_sections] in H.
  - inversion H; subst. constructor.
  - destruct n as [s|kind sarg nargs children]; [eauto|].
    assert (Hskip : forall d0,
              match parse_sections title nodes with
              | Some (outs, ds') => Some (outs, d0 ++ ds')
              | None => None
              end = Some (outs, ds) -> Forall complete (concat outs)).
    { intros d0 H0.
      destruct (parse_sections title nodes) as [[o d]|]; [|discriminate].
      inversion H0; subst. eauto. }
    destruct (negb (NodeKind_eqb kind LEVEL2)); [eauto|].
    destruct (languages_by_name (heading_title E nargs)) as [code|];
      [|eauto].
    destruct (negb (captured (heading_title E nargs))); [eauto|].
    destruct (parse_language E (with_word title cfg) title
                (heading_title E nargs) code children) as [[recs d1]|] eqn:Hl;
      [|discriminate].
    destruct (parse_sections title nodes) as [[o d]|]; [|discriminate].
    inversion H; subst. cbn [concat]. apply Forall_app. split.
    + eapply walk_gives_complete_records; eauto.
    + eauto.
Qed.

(** X15. Every record that [parse_page] returns for a page has the fields
    [word], [lang], [lang_code], [pos] and [glosses], whatever the page is
    and whatever the collaborators do: the walk gives no record without
    them, and the post-processing of the page touches no other field than
    [conjugation] and [topics]. *)
Theorem parse_page_records_are_complete word tree ret ds :
  parse_page_tree word tree = Some (ret, ds) ->
  Forall complete ret.
Proof.
  unfold parse_page_tree. destruct (page_title word) as [title ds0].
  destruct (parse_sections title (children_of tree)) as [[outputs d1]|] eqn:Hs;
    [|discriminate].
  destruct (parse_page ident outputs) as [r|] eqn:Hp; [|discriminate].
  intros H. inversion H; subst. clear H.
  apply parse_sections_complete in Hs.
  destruct (parse_page_frame _ _ _ Hp) as (idxs & _ & Hin & Hall).
  assert (Hidx : Forall (fun x => x < List.length (concat outputs)) idxs).
  { apply Forall_forall. intros x Hx. now apply Hin. }
  clear Hin Hp. revert Hidx.
  induction Hall as [|x r0 idxs rs Hx Hall IH]; intros Hidx; constructor.
  - inversion Hidx as [|? ? Hlt _]; subst.
    assert (Hc : complete (fetch (concat outputs) x)).
    { rewrite Forall_forall in Hs. apply Hs. now apply nth_In. }
    intros k Hk. apply in_keys_lookup. rewrite Hx.
    + apply in_keys_lookup. now apply Hc.
    + cbn [In] in Hk.
      destruct Hk as [<-|[<-|[<-|[<-|[<-|[]]]]]]; discriminate.
    + cbn [In] in Hk.
      destruct Hk as [<-|[<-|[<-|[<-|[<-|[]]]]]]; discriminate.
  - apply IH. now inversion Hidx.
Qed.

End Page.

Definition example_languages (name : string) : option string :=
  if String.eqb name "English" then Some "en"
  else if String.eqb name "Finnish" then Some "fi" else None.

Definition oak_tree : node :=
  WikiNode ROOT "" []
    [Text "intro"; heading LEVEL2 "English" oak_page;
     heading LEVEL2 "Klingon" oak_page; heading LEVEL3 "Noun" []].

Lemma parse_page_records_are_complete_witness :
  exists ret ds,
    parse_page_tree example_env cfg_all example_languages [] (fun _ => None)
      plain (fun _ => "") own_topics "oak" oak_tree = Some (ret, ds)
    /\ List.length ret = 4
    /\ Forall complete ret.
Proof.
  eexists. eexists. split; [vm_compute; reflexivity|].
  split; [reflexivity|].
  eapply (parse_page_records_are_complete example_env cfg_all
            example_languages [] (fun _ => None) plain (fun _ => "")
            own_topics "oak" oak_tree).
  vm_compute. reflexivity.
Defined.

(** * parse_pronunciation, the parser of the text of a section *)

Definition field_value (f : field) : value :=
  match f with
  | FStr s => VStr s
  | FList l => VList l
  end.

(** A dictionary built by [data_append] and [data_extend], as the value
    that is stored when it is appended to a list. *)
Definition record_value (r : record) : value :=
  VDict (map (fun kv => (fst kv, field_value (snd kv))) r).

(** The [re.search] that comes last in [parse_variant]: a name that starts
    with [R:], [RQ:], [&], [en-] or [fi-], that contains one of the
    endings, that ends with [ of], or, the last alternative of the
    pattern being empty, any name at all. *)
Definition pronunciation_ignored_re (name : string) : bool :=
  startswith name "R:" || startswith name "RQ:" || startswith name "&"
  || existsb (contains name)
       ["-form"; "-def"; "-verb"; "-adj"; "-noun"; "-adv"; "-prep"]
  || endswith name " of"
  || existsb (contains name) ["-romanization"; "-romanji"; "-letter"]
  || startswith name "en-" || startswith name "fi-"
  || contains name "".

Definition pronunciation_ignored_names : list string :=
  ["inflection of"; "l"; "link"; "l-self"; "m"; "w"; "W"; "label";
   "gloss"; "zh-m"; "zh-l"; "ja-l"; "wtorw";
   "ux"; "ant"; "syn"; "synonyms"; "antonyms";
   "wikipedia"; "Wikipedia";
   "alternative form of"; "alt form";
   "altform"; "alt-form"; "abb"; "rareform";
   "alter"; "hyph"; "honoraltcaps";
   "non-gloss definition"; "n-g"; "non-gloss"; "ngd";
   "senseid"; "defn"; "ja-r"; "ja-l"; "ja-r/args"; "ja-r/multi";
   "place:Brazil/state"; "place:Brazil/municipality";
   "place"; "taxlink";
   "pedlink"; "vern"; "prefix"; "affix";
   "suffix"; "wikispecies"; "ISBN"; "slim-wikipedia";
   "swp"; "comcatlite"; "forename";
   "given name"; "surname"; "head"].

(** The variables of [parse_variant] and what it shares with its caller:
    [data], [variant], [sense], and the diagnostics. *)
Record variant_state : Type := {
  v_data : record;
  v_variant : record;
  v_sense : option string;
  v_diags : list diag
}.

Definition on_data (f : record -> record) (st : variant_state)
  : variant_state :=
  {| v_data := f (v_data st); v_variant := v_variant st;
     v_sense := v_sense st; v_diags := v_diags st |}.

Definition on_variant (f : record -> record) (st : variant_state)
  : variant_state :=
  {| v_data := v_data st; v_variant := f (v_variant st);
     v_sense := v_sense st; v_diags := v_diags st |}.

(** The keys of a variant that are no pronunciation. *)
Definition qualifier_keys : list string := ["tags"; "sense"; "accent"].

(** [len(set(variant.keys()) - set(["tags", "sense", "accent"]))] is not
    zero. *)
Definition informative (variant : list string) : bool :=
  existsb (fun k => negb (in_names k qualifier_keys)) variant.

Section TextPronunciation.
Variable clean_value : string -> string.
Variable clean_quals : list string -> list string.
Variable wikitext_parse : string -> parsed.

(** One turn of [for t in p.templates] of [parse_variant]. *)
Definition parse_variant_template (st : variant_state) (t : template)
  : variant_state :=
  let name := strip (t_name t) in
  let vec := t_vec clean_value t in
  let arg := t_arg clean_value t in
  if String.eqb name "sense" then
    {| v_data := v_data st; v_variant := v_variant st;
       v_sense := Some (arg "1"); v_diags := v_diags st |}
  else if in_names name ["a"; "accent"] then
    on_variant (fun v => data_extend v "accent" (map VStr (clean_quals vec))) st
  else if in_names name ["qual"; "qualifier"; "q"; "qf"] then
    on_variant (fun v => data_extend v "tags" (map VStr vec)) st
  else if in_names name ["lb"; "context"; "term-context"; "tcx";
                         "term-label"; "tlb"; "i"] then
    on_variant
      (fun v => data_extend v "tags" (map VStr (clean_quals (tl vec)))) st
  else if in_names name ["topics"; "categorize"; "catlangname"; "c"; "C";
                         "cln"; "top"; "categorise"; "catlangcode"] then
    on_data
      (fun d => fold_left
                  (fun d topic =>
                     data_append d "topics" (VDict [("word", VStr topic)]))
                  (tl vec) d) st
  else if in_names name ["IPA"; "ipa"] then
    on_variant
      (fun v => fold_left (fun v ipa => data_append v "ipa" (VStr ipa))
                          (tl vec) v) st
  else if in_names name ["IPAchar"; "audio-IPA"] then st
  else if contains name "IPA" then
    on_variant
      (fun v => data_append v "special_ipa" (VDict (t_dict clean_value t))) st
  else if String.eqb name "enPR" then
    on_variant (fun v => data_append v "enpr" (VStr (arg "1"))) st
  else if in_names name ["it-stress"] then
    on_variant (fun v => data_append v "stress" (VStr (arg "1"))) st
  else if String.eqb name "PIE root" then
    on_variant (fun v => data_append v "pie_root" (VStr (arg "2"))) st
  else if in_names name ["audio"; "audio-pron"] then
    on_variant
      (fun v => data_append v "audios"
                  (VTuple [VStr (arg "lang"); VStr (arg "1"); VStr (arg "2")]))
      st
  else if in_names name ["homophones"; "homophone"] then
    on_variant (fun v => data_extend v "homophones" (map VStr vec)) st
  else if String.eqb name "hyphenation" then
    on_data (fun d => data_append d "hyphenation" (VList (map VStr vec))) st
  else if in_names name pronunciation_ignored_names then st
  else if pronunciation_ignored_re name then st
  else
    {| v_data := v_data st; v_variant := v_variant st; v_sense := v_sense st;
       v_diags := v_diags st ++ [UnrecognizedTemplate name "pronunciation"] |}.

(** [parse_variant(text)], on [data] and the diagnostics. *)
Definition parse_variant (text : string) (acc : record * list diag)
  : record * list diag :=
  let st := fold_left parse_variant_template
              (templates (wikitext_parse text))
              {| v_data := fst acc; v_variant := []; v_sense := None;
                 v_diags := snd acc |} in
  let variant :=
    match v_sense st with
    | Some s => if String.eqb s "" then v_variant st
                else set_key "sense" (FStr s) (v_variant st)
    | None => v_variant st
    end in
  (if informative (keys variant)
   then data_append (v_data st) "pronunciations" (record_value variant)
   else v_data st,
   v_diags st).

End TextPronunciation.

(** The parser of the text shares its name with the function nested in
    [parse_language]. *)
Module Text.

(** [parse_pronunciation(config, data, text, p)]: [items] are the texts of
    the items of [p.lists()], in order, and [rest] is the text that is left
    when the lists are cut out. *)
Definition parse_pronunciation (clean_value : string -> string)
           (clean_quals : list string -> list string)
           (wikitext_parse : string -> parsed)
           (data : record) (items : list string) (rest : string)
  : record * list diag :=
  let variant := parse_variant clean_value clean_quals wikitext_parse in
  let acc := fold_left (fun acc item => variant item acc) items (data, []) in
  if String.eqb (strip rest) "" then acc else variant (strip rest) acc.

End Text.

Lemma contains_empty s : contains s "" = true.
Proof. destruct s; reflexivity. Qed.

Lemma pronunciation_ignored_re_always name :
  pronunciation_ignored_re name = true.
Proof.
  unfold pronunciation_ignored_re. rewrite contains_empty.
  apply orb_true_r.
Qed.

Lemma data_append_keeps d k v k' :
  k' <> k ->
  entries k' (data_append d k v) = entries k' d
  /\ appendable k' (data_append d k v) = appendable k' d.
Proof.
  intros Hne. unfold entries, appendable.
  now rewrite (data_append_other d k v k' Hne).
Qed.

Section TextPronunciationFacts.
Variable clean_value : string -> string.
Variable clean_quals : list string -> list string.
Variable wikitext_parse : string -> parsed.

Lemma parse_variant_template_diags st t :
  v_diags (parse_variant_template clean_value clean_quals st t) = v_diags st.
Proof.
  unfold parse_variant_template.
  rewrite pronunciation_ignored_re_always.
  repeat match goal with
         | |- context [if ?c then _ else _] => destruct c
         end; reflexivity.
Qed.

Lemma parse_variant_diags text acc :
  snd (parse_variant clean_value clean_quals wikitext_parse text acc)
  = snd acc.
Proof.
  unfold parse_variant. cbn [snd].
  generalize (templates (wikitext_parse text)).
  intros ts.
  set (st0 := {| v_data := fst acc; v_variant := []; v_sense := None;
                 v_diags := snd acc |}).
  change (snd acc) with (v_diags st0). generalize st0. clear st0.
  induction ts as [|t ts IH]; intros st; cbn [fold_left]; [reflexivity|].
  rewrite IH. apply parse_variant_template_diags.
Qed.

(** X16. The parser of the text of a pronunciation section never reports
    a template: the pattern that is tried last before the report has an
    empty alternative, which every name matches, so the branch that would
    call [config.unrecognized_template] is never taken, whatever the
    templates of the section are. *)
Theorem text_pronunciation_never_reports
        (data : record) (items : list string) (rest : string) :
  snd (Text.parse_pronunciation clean_value clean_quals wikitext_parse
         data items rest) = [].
Proof.
  unfold Text.parse_pronunciation.
  assert (H : forall acc,
            snd (fold_left
                   (fun acc item =>
                      parse_variant clean_value clean_quals wikitext_parse
                        item acc) items acc) = snd acc).
  { induction items as [|i items IH]; intros acc; cbn [fold_left];
      [reflexivity|].
    rewrite IH. apply parse_variant_diags. }
  destruct (String.eqb (strip rest) "").
  - now rewrite H.
  - now rewrite parse_variant_diags, H.
Qed.

(** What a variant is stored as: a dictionary with a key that is no
    qualifier. *)
Definition is_pronunciation (v : value) : Prop :=
  exists r, v = record_value r /\ informative (keys r) = true.

(** The state of [parse_variant] while [data] has gained nothing under
    [pronunciations]. *)
Definition same_pronunciations (d : record) (st : variant_state) : Prop :=
  entries "pronunciations" (v_data st) = entries "pronunciations" d
  /\ appendable "pronunciations" (v_data st) = true.

Lemma topics_fold_keeps topics : forall d,
  entries "pronunciations"
    (fold_left (fun d topic =>
                  data_append d "topics" (VDict [("word", VStr topic)]))
               topics d)
  = entries "pronunciations" d
  /\ appendable "pronunciations"
       (fold_left (fun d topic =>
                     data_append d "topics" (VDict [("word", VStr topic)]))
                  topics d)
     = appendable "pronunciations" d.
Proof.
  induction topics as [|x topics IH]; intros d; cbn [fold_left]; [auto|].
  destruct (IH (data_append d "topics" (VDict [("word", VStr x)])))
    as [H1 H2].
  destruct (data_append_keeps d "topics" (VDict [("word", VStr x)])
              "pronunciations") as [H3 H4]; [discriminate|].
  split; congruence.
Qed.

Lemma parse_variant_template_same d st t :
  same_pronunciations d st ->
  same_pronunciations d (parse_variant_template clean_value clean_quals st t).
Proof.
  intros [He Ha]. unfold parse_variant_template.
  repeat match goal with
         | |- context [if ?c then _ else _] => destruct c
         end; try (split; assumption); unfold same_pronunciations;
    cbn [v_data on_data].
  - destruct (topics_fold_keeps (tl (t_vec clean_value t)) (v_data st))
      as [H1 H2].
    split; congruence.
  - destruct (data_append_keeps (v_data st) "hyphenation"
                (VList (map VStr (t_vec clean_value t))) "pronunciations")
      as [H1 H2]; [discriminate|].
    split; congruence.
Qed.

Lemma parse_variant_pronunciations text acc :
  appendable "pronunciations" (fst acc) = true ->
  let acc' := parse_variant clean_value clean_quals wikitext_parse text acc in
  appendable "pronunciations" (fst acc') = true
  /\ exists added,
       entries "pronunciations" (fst acc')
       = entries "pronunciations" (fst acc) ++ added
       /\ List.length added <= 1
       /\ Forall is_pronunciation added.
Proof.
  intros Ha. unfold parse_variant. cbn [fst].
  assert (Hs : same_pronunciations (fst acc)
                 (fold_left (parse_variant_template clean_value clean_quals)
                    (templates (wikitext_parse text))
                    {| v_data := fst acc; v_variant := []; v_sense := None;
                       v_diags := snd acc |})).
  { generalize (templates (wikitext_parse text)). intros ts.
    assert (H0 : same_pronunciations (fst acc)
                   {| v_data := fst acc; v_variant := []; v_sense := None;
                      v_diags := snd acc |}) by (split; [reflexivity|exact Ha]).
    revert H0. generalize {| v_data := fst acc; v_variant := [];
                            v_sense := None; v_diags := snd acc |}.
    induction ts as [|t ts IH]; intros st H0; cbn [fold_left]; [exact H0|].
    apply IH. now apply parse_variant_template_same. }
  set (st := fold_left (parse_variant_template clean_value clean_quals)
               (templates (wikitext_parse text))
               {| v_data := fst acc; v_variant := []; v_sense := None;
                  v_diags := snd acc |}) in *.
  destruct Hs as [He Hap].
  set (variant := match v_sense st with
                  | Some s => if String.eqb s "" then v_variant st
                              else set_key "sense" (FStr s) (v_variant st)
                  | None => v_variant st
                  end).
  destruct (informative (keys variant)) eqn:Hi.
  - destruct (data_append_entries (v_data st) "pronunciations"
                (record_value variant) Hap) as [H1 H2].
    split; [exact H2|].
    exists [record_value variant]. rewrite H1, He.
    split; [reflexivity|]. split; [cbn; lia|].
    constructor; [|constructor]. now exists variant.
  - split; [exact Hap|]. exists []. rewrite app_nil_r.
    split; [exact He|]. split; [cbn; lia | constructor].
Qed.

(** X17. Under [pronunciations] the parser of the text keeps what was
    there and appends at most one variant for each list item and one for
    the rest of the text, and every variant it appends has a key other
    than [tags], [sense] and [accent]: an item that has only qualifiers
    stores no variant. *)
Theorem text_pronunciation_stores_informative_variants
        (data : record) (items : list string) (rest : string) :
  appendable "pronunciations" data = true ->
  exists added,
    entries "pronunciations"
      (fst (Text.parse_pronunciation clean_value clean_quals wikitext_parse
              data items rest))
    = entries "pronunciations" data ++ added
    /\ List.length added <= S (List.length items)
    /\ Forall is_pronunciation added.
Proof.
  intros Ha. unfold Text.parse_pronunciation.
  assert (H : forall acc, appendable "pronunciations" (fst acc) = true ->
            let acc' := fold_left
                          (fun acc item =>
                             parse_variant clean_value clean_quals
                               wikitext_parse item acc) items acc in
            appendable "pronunciations" (fst acc') = true
            /\ exists added,
                 entries "pronunciations" (fst acc')
                 = entries "pronunciations" (fst acc) ++ added
                 /\ List.length added <= List.length items
                 /\ Forall is_pronunciation added).
  { induction items as [|i items IH]; intros acc Hacc; cbn [fold_left].
    - split; [exact Hacc|]. exists []. rewrite app_nil_r.
      split; [reflexivity|]. split; [cbn; lia | constructor].
    - destruct (parse_variant_pronunciations i acc Hacc)
        as (H1 & a1 & E1 & L1 & F1).
      destruct (IH _ H1) as (H2 & a2 & E2 & L2 & F2).
      split; [exact H2|]. exists (a1 ++ a2).
      rewrite E2, E1, <- app_assoc. split; [reflexivity|].
      split; [rewrite length_app; cbn [List.length]; lia|].
      apply Forall_app. now split. }
  destruct (H (data, []) Ha) as (H1 & a1 & E1 & L1 & F1).
  cbn [fst] in E1.
  destruct (String.eqb (strip rest) "").
  - exists a1. split; [exact E1|]. split; [lia | exact F1].
  - destruct (parse_variant_pronunciations (strip rest) _ H1)
      as (_ & a2 & E2 & L2 & F2).
    exists (a1 ++ a2). rewrite E2, E1, <- app_assoc.
    split; [reflexivity|]. split; [rewrite length_app; lia|].
    apply Forall_app. now split.
Qed.

End TextPronunciationFacts.

(** A parse for the examples: the text [q] holds a qualifier only, any
    other text a transcription after an accent. *)
Definition example_parse (text : string) : parsed :=
  {| templates :=
       if String.eqb text "q" then [tmpl "qual" ["UK"]; tmpl "sense" ["tree"]]
       else [tmpl "a" ["US"]; tmpl "IPA" ["en"; "/ouk/"];
             tmpl "no such template" []];
     wikilinks := [] |}.

Example text_pronunciation_example :
  Text.parse_pronunciation plain (fun q => q) example_parse [] ["q"; "ipa"] " "
  = ([("pronunciations",
       FList [VDict [("accent", VList [VStr "US"]);
                     ("ipa", VList [VStr "/ouk/"])]])],
     []).
Proof. reflexivity. Qed.

Lemma text_pronunciation_stores_informative_variants_witness :
  exists added,
    entries "pronunciations"
      (fst (Text.parse_pronunciation plain (fun q => q) example_parse
              [] ["q"; "ipa"] " "))
    = [] ++ added
    /\ List.length added <= 3
    /\ Forall is_pronunciation added.
Proof.
  apply (text_pronunciation_stores_informative_variants
           plain (fun q => q) example_parse [] ["q"; "ipa"] " ").
  reflexivity.
Defined.

(** * A list that several records share *)

Lemma merge_base_shared_list ls (d scope : buffer) k n m :
  NoDup (keys scope) ->
  lookup k scope = Some (SRef m) ->
  lookup k d = Some (SRef n) ->
  n <> m -> n < List.length (objects ls k) ->
  object (m_lists (merge_base ls d scope)) k n
  = object ls k n ++ object ls k m
  /\ object (m_lists (merge_base ls d scope)) k m = object ls k m
  /\ List.length (objects (m_lists (merge_base ls d scope)) k)
     = List.length (objects ls k).
Proof.
  intros Hnd Hs Hd Hne Hlt. unfold merge_base.
  destruct (merge_fold scope ls d [] Hnd) as (_ & H2 & _). cbn zeta in H2.
  destruct (H2 k _ Hs) as [_ B]. rewrite Hd in B.
  cbn [settled_objects slot_items] in B.
  unfold object. rewrite B, !nth_set_nth, set_nth_length, Nat.eqb_refl.
  apply Nat.ltb_lt in Hlt. rewrite Hlt. cbn [andb].
  assert (Hmn : Nat.eqb m n = false) by (apply Nat.eqb_neq; congruence).
  rewrite Hmn. cbn [andb]. auto.
Qed.

(** X18. Records that hold one and the same list under a key get the
    values that the scope has under that key once for each of them: the
    merge of the scope extends the list where it is, so after the merge of
    [N] records that share it, every one of them shows the values of the
    scope [N] times after its own. *)
Theorem merge_all_extends_a_shared_list_once_per_record
        (scope : buffer) (datas : list buffer) (ls : list_store)
        (k : string) (n m : nat) :
  NoDup (keys scope) ->
  lookup k scope = Some (SRef m) ->
  Forall (fun d : buffer => lookup k d = Some (SRef n)) datas ->
  n <> m -> n < List.length (objects ls k) ->
  let shown := object ls k n
               ++ concat (repeat (object ls k m) (List.length datas)) in
  object (fst (fst (merge_all ls datas scope))) k n = shown
  /\ Forall (fun d' : buffer =>
               lookup k (deref (fst (fst (merge_all ls datas scope))) d')
               = Some (FList shown))
            (snd (fst (merge_all ls datas scope))).
Proof.
  intros Hnd Hs Hall Hne Hlt shown.
  assert (Hobj : object (fst (fst (merge_all ls datas scope))) k n = shown).
  { unfold shown. clear shown. revert ls Hlt.
    induction Hall as [|d datas Hd Hall IH]; intros ls Hlt;
      cbn [merge_all List.length repeat concat].
    - now rewrite app_nil_r.
    - destruct (merge_base_shared_list ls d scope k n m Hnd Hs Hd Hne Hlt)
        as (E1 & E2 & E3).
      specialize (IH (m_lists (merge_base ls d scope))).
      rewrite E1, E2, E3 in IH. specialize (IH Hlt).
      destruct (merge_all (m_lists (merge_base ls d scope)) datas scope)
        as [[ls' merged] ds].
      cbn [fst snd] in *. rewrite IH. now rewrite <- app_assoc. }
  split; [exact Hobj|].
  pose proof (merge_all_slots scope datas ls) as Hsl.
  rewrite <- Hobj.
  generalize (fst (fst (merge_all ls datas scope))) as ls'. intros ls'.
  clear Hobj. induction Hsl as [|d d' ds ds' Hd' Hsl IH]; constructor.
  - inversion Hall as [|? ? Hd _]; subst.
    rewrite lookup_deref, Hd'. unfold merged_slot. rewrite Hd. reflexivity.
  - apply IH. now inversion Hall.
Qed.

Lemma merge_all_extends_a_shared_list_once_per_record_witness :
  let ls := [("synonyms", [[VStr "quercus"]; [VStr "tree"]]);
             ("glosses", [[VStr "a tree"]; [VStr "wood"]])] in
  let datas := [[("glosses", SRef 0); ("synonyms", SRef 0)];
                [("glosses", SRef 1); ("synonyms", SRef 0)]] in
  let scope := [("synonyms", SRef 1)] in
  Forall (fun d' : buffer =>
            lookup "synonyms" (deref (fst (fst (merge_all ls datas scope))) d')
            = Some (FList [VStr "quercus"; VStr "tree"; VStr "tree"]))
         (snd (fst (merge_all ls datas scope))).
Proof.
  intros ls datas scope.
  apply (merge_all_extends_a_shared_list_once_per_record
           scope datas ls "synonyms" 0 1).
  - repeat constructor. intros [].
  - reflexivity.
  - repeat constructor.
  - discriminate.
  - cbn. lia.
Defined.

(** * The pieces of a pronunciation section *)

Lemma split_go_length sep s : forall skip cur,
  1 <= List.length (split_go sep s skip cur).
Proof.
  induction s as [|c s IH]; intros skip cur; cbn [split_go].
  - cbn. lia.
  - destruct skip as [|k]; [|apply IH].
    destruct (String.prefix sep (String c s)); [cbn; lia | apply IH].
Qed.

Lemma app_four {A : Type} (a b c d e : list A) :
  a ++ b ++ c ++ d ++ e = (a ++ b ++ c ++ d) ++ e.
Proof. now rewrite <- !app_assoc. Qed.

Section PronunciationPieces.
Variable E : collaborators.

Lemma pronunciation_piece_has_audios enprs audios origtext :
  exists before after,
    pronunciation_piece E enprs audios origtext
    = before ++ map (fun a => ("sounds", a)) audios ++ after.
Proof.
  unfold pronunciation_piece.
  destruct (match re_pron_tags E origtext with
            | Some (tags, rest) => (tags, rest)
            | None => (EmptyString, origtext)
            end) as [tagstext text].
  cbv zeta. eexists. eexists. apply app_four.
Qed.

(** X19. [parse_pronunciation] stores every audio file of the section once
    for each piece of the text that an asterisk separates, and there is
    always at least one piece, also when the section has no text: what it
    appends is one block for each piece, and each block holds all the
    audios that the templates of the section gave. *)
Theorem pronunciation_stores_audios_for_every_piece (children : list node) :
  let out := clean_node E (parse_pronunciation_template_fn E) children
               ([], []) in
  exists blocks,
    pronunciation_appends E children = concat blocks
    /\ List.length blocks = List.length (split (fst out) "*")
    /\ 1 <= List.length blocks
    /\ Forall (fun b => exists before after,
                 b = before
                     ++ map (fun a => ("sounds", a)) (snd (snd out))
                     ++ after)
              blocks.
Proof.
  unfold pronunciation_appends.
  destruct (clean_node E (parse_pronunciation_template_fn E) children
              ([], [])) as [text [enprs audios]].
  cbn [fst snd].
  exists (map (pronunciation_piece E enprs audios) (split text "*")).
  split; [apply flat_map_concat_map|].
  split; [apply length_map|].
  split; [rewrite length_map; apply split_go_length|].
  apply Forall_forall. intros b Hb. apply in_map_iff in Hb.
  destruct Hb as (p & <- & _). apply pronunciation_piece_has_audios.
Qed.

End PronunciationPieces.

(** Two items and an audio file between them: the text has three pieces,
    and the audio file is stored three times. *)
Example pronunciation_stores_one_audio_three_times :
  pronunciation_appends example_env
    [Text "* /ouk/"; template_node "audio" ["en"; "oak.ogg"; "Audio (US)"];
     Text "* /o:k/"]
  = [("sounds", VDict [("file", VStr "oak.ogg"); ("text", VStr "Audio (US)")]);
     ("sounds", VDict [("other", VStr "/ouk/")]);
     ("sounds", VDict [("file", VStr "oak.ogg"); ("text", VStr "Audio (US)")]);
     ("sounds", VDict [("other", VStr "/o:k/")]);
     ("sounds", VDict [("file", VStr "oak.ogg"); ("text", VStr "Audio (US)")])].
Proof. vm_compute. reflexivity. Qed.

(** * The stack of open sections *)

Lemma stack_push_sense st : stack (push_sense st) = stack st.
Proof. unfold push_sense. now destruct (is_empty (sense_data st)). Qed.

Section StackWalk.
Variable E : collaborators.
Variable cfg : config.

Lemma stack_parse_sense_item pos children st :
  stack (parse_sense_item E pos children st) = stack st.
Proof.
  destruct (parse_sense_item_shape E pos children st) as (b & ds & -> & _).
  cbn [stack add_diags set_sense_data]. apply stack_push_sense.
Qed.

Lemma stack_parse_sense_list pos items : forall st st',
  parse_sense_list E pos items st = Some st' -> stack st' = stack st.
Proof.
  induction items as [|n items IH]; intros st st' Hrun;
    cbn [parse_sense_list] in Hrun.
  - now inversion Hrun.
  - destruct n as [s|kind sarg nargs children]; [discriminate|].
    destruct (negb (NodeKind_eqb kind LIST_ITEM)).
    + now apply IH in Hrun.
    + destruct (ends_with_colon sarg) as [[|]|]; [| |discriminate].
      * now apply IH in Hrun.
      * apply IH in Hrun. rewrite Hrun. apply stack_parse_sense_item.
Qed.

Lemma stack_parse_sense_lists pos ls : forall st st',
  parse_sense_lists E pos ls st = Some st' -> stack st' = stack st.
Proof.
  induction ls as [|n ls IH]; intros st st' Hrun;
    cbn [parse_sense_lists] in Hrun.
  - now inversion Hrun.
  - destruct n as [s|kind sarg nargs children]; [discriminate|].
    destruct (parse_sense_list E pos children st) as [s1|] eqn:E1;
      [|discriminate].
    apply IH in Hrun. rewrite Hrun.
    now apply stack_parse_sense_list in E1.
Qed.

Lemma stack_parse_part_of_speech children pos st st' :
  parse_part_of_speech E children pos st = Some st' -> stack st' = stack st.
Proof.
  unfold parse_part_of_speech. intros Hrun.
  destruct (lists (scan_pos_children children
                     {| pre := []; lists := []; first_para := true |}))
    as [|l ls].
  - now inversion Hrun.
  - match type of Hrun with
    | context [clean_node ?a ?b ?c ?d] =>
        destruct (clean_node a b c d) as [text pd]
    end.
    now apply stack_parse_sense_lists in Hrun.
Qed.

Lemma stack_enter_pos t dt st : stack (enter_pos t dt st) = stack st.
Proof.
  destruct (push_pos_fields st) as (_ & _ & _ & Hs & _).
  unfold enter_pos. now destruct (pi_tags dt).
Qed.

Lemma stack_into_pos_or_etym kvs ds st :
  stack (into_pos_or_etym E kvs ds st) = stack st.
Proof.
  unfold into_pos_or_etym. now destruct (in_pos_map E (last (stack st) "")).
Qed.

Lemma stack_parse_pronunciation children st :
  stack (parse_pronunciation E children st) = stack st.
Proof.
  unfold parse_pronunciation. now destruct (negb (is_empty (etym_data st))).
Qed.

Lemma stack_pop_push t st st' :
  stack st' = stack (push_stack t st) -> stack (pop_stack st') = stack st.
Proof.
  intros H. cbn [stack pop_stack set_stack push_stack] in *.
  rewrite H. apply removelast_last.
Qed.

(** X20. A section leaves the stack of open sections as it found it:
    whatever a heading pushes is popped when its children are done, and
    nothing else in the walk touches the stack, so the scope that
    translations and linkages choose by the top of the stack is the one of
    the section that they stand in. *)
Theorem process_node_keeps_the_stack (n : node) : forall st st',
  process_node E cfg n st = Some st' -> stack st' = stack st.
Proof.
  induction n as [s|kind sarg nargs children IH] using node_induction;
    intros st st' Hrun.
  - now inversion Hrun.
  - assert (Hch : forall st st',
              process_children E cfg children st = Some st' ->
              stack st' = stack st).
    { clear - IH. induction IH as [|c l Hc Hl IHl]; intros st st' Hrun;
        cbn [process_children] in Hrun.
      - now inversion Hrun.
      - destruct (process_node E cfg c st) as [s1|] eqn:E1; [|discriminate].
        apply IHl in Hrun. rewrite Hrun. now apply Hc. }
    destruct (is_sublevel kind) eqn:Hk.
    2:{ cbn [process_node] in Hrun. rewrite Hk in Hrun. now inversion Hrun. }
    rewrite process_node_heading in Hrun by exact Hk. cbv zeta in Hrun.
    destruct (String.eqb (heading_title E nargs) "Pronunciation").
    { pose proof (stack_parse_pronunciation children st) as Hs.
      repeat match type of Hrun with
             | (if ?c then _ else _) = _ => destruct c
             end; inversion Hrun; subst; auto. }
    destruct (startswith (heading_title E nargs) "Etymology").
    { destruct (process_children E cfg children
                  (push_stack (heading_title E nargs) (push_etym st)))
        as [s1|] eqn:E1; [|discriminate].
      inversion Hrun; subst. apply Hch in E1.
      rewrite (stack_pop_push _ _ _ E1).
      now destruct (push_etym_fields st) as (_ & Hs & _). }
    destruct (part_of_speech_map E (lower E (heading_title E nargs))) as [dt|].
    { destruct (parse_part_of_speech E children (pi_pos dt)
                  (enter_pos (heading_title E nargs) dt st)) as [s1|] eqn:E1;
        [|discriminate].
      apply stack_parse_part_of_speech in E1.
      destruct (process_children E cfg children (push_stack (pi_pos dt) s1))
        as [s2|] eqn:E2; [|discriminate].
      inversion Hrun; subst. apply Hch in E2.
      rewrite (stack_pop_push _ _ _ E2), E1. apply stack_enter_pos. }
    repeat match type of Hrun with
           | (if ?c then _ else _) = _ => destruct c
           end;
      try (inversion Hrun; subst;
           first [ reflexivity | apply stack_into_pos_or_etym ]).
    destruct (process_children E cfg children
                (push_stack (heading_title E nargs)
                   (count_section (heading_title E nargs) st)))
      as [s1|] eqn:E1; [|discriminate].
    inversion Hrun; subst. apply Hch in E1.
    now rewrite (stack_pop_push _ _ _ E1).
Qed.

End StackWalk.

Lemma process_node_keeps_the_stack_witness :
  exists st',
    process_node example_env cfg_all oak_noun
      (push_stack "Etymology"
         (push_stack "TOP" (start_state "oak" "English" "en"))) = Some st'
    /\ stack st' = ["TOP"; "Etymology"].
Proof.
  eexists. split; [vm_compute; reflexivity|].
  apply (process_node_keeps_the_stack example_env cfg_all oak_noun
           (push_stack "Etymology"
              (push_stack "TOP" (start_state "oak" "English" "en")))).
  vm_compute. reflexivity.
Defined.

(** * The words that parse_linkage links *)

Definition link_word (k : link_key) : string := snd (fst (fst k)).

(** No identity in [added] is for the empty word or for [en]. *)
Definition real_words (st : link_state) : Prop :=
  Forall (fun k => link_word k <> "" /\ link_word k <> "en") (l_added st).

Lemma linkage_word_real lower v w :
  linkage_word lower v = Some w -> w <> "" /\ w <> "en".
Proof.
  unfold linkage_word.
  repeat match goal with
         | |- context [if ?c then None else _] =>
             destruct c eqn:?; [discriminate|]
         end.
  intros H. inversion H; subst. clear H.
  match goal with
  | Hn : in_names _ [""; "en"] = false |- _ =>
      unfold in_names in Hn; cbn [existsb] in Hn;
      apply orb_false_iff in Hn; destruct Hn as [H1 H2]
  end.
  apply orb_false_iff in H2. destruct H2 as [H2 _].
  split; now apply String.eqb_neq.
Qed.

Section LinkWords.

Variable lower : string -> string.

Lemma real_same st st' :
  l_added st' = l_added st -> real_words st -> real_words st'.
Proof. unfold real_words. now intros ->. Qed.

Lemma real_with_kind k st : real_words st -> real_words (with_kind k st).
Proof. now apply real_same. Qed.

Lemma real_with_sense s st : real_words st -> real_words (with_sense s st).
Proof. now apply real_same. Qed.

Lemma real_with_quals q st : real_words st -> real_words (with_quals q st).
Proof. now apply real_same. Qed.

Lemma real_with_diag d st : real_words st -> real_words (with_diag d st).
Proof. now apply real_same. Qed.

Lemma real_add_topic topic st : real_words st -> real_words (add_topic topic st).
Proof. now apply real_same. Qed.

Lemma real_add_linkage kind v st :
  real_words st -> real_words (add_linkage lower kind v st).
Proof.
  intros Hl. unfold add_linkage.
  destruct (linkage_word lower v) as [w|] eqn:Hw; auto.
  destruct (key_in _ _); auto.
  unfold real_words. cbn [l_added]. apply Forall_app. split; [exact Hl|].
  constructor; [|constructor]. cbn [link_word fst snd].
  now apply (linkage_word_real lower v).
Qed.

Lemma real_fold {A : Type} (f : link_state -> A -> link_state) xs :
  (forall s x, real_words s -> real_words (f s x)) ->
  forall st, real_words st -> real_words (fold_left f xs st).
Proof.
  intros Hf. induction xs as [|x xs IH]; intros st Hl; simpl; auto.
Qed.

Lemma real_add_linkages kind xs st :
  real_words st -> real_words (add_linkages lower kind xs st).
Proof.
  unfold add_linkages. apply real_fold.
  intros s x. apply real_add_linkage.
Qed.

Variable clean_value : string -> string.
Variable clean_quals : list string -> list string.
Variable ignored_templates : list string.
Variable re_italics : string -> list string.
Variable re_paren_head : string -> option (string * string).
Variable re_drop_parens : string -> string.
Variable cfg : config.

Lemma real_titled_group kind t st :
  real_words st -> real_words (titled_group lower clean_value kind t st).
Proof.
  intros Hl. unfold titled_group.
  apply real_with_sense, real_add_linkages, real_with_sense,
    real_with_quals, Hl.
Qed.

Create HintDb real_words.
Hint Resolve real_with_kind real_with_sense real_with_quals
     real_with_diag real_add_topic real_add_linkage
     real_add_linkages real_titled_group : real_words.

Lemma real_parse_item_template st t :
  real_words st ->
  real_words (parse_item_template lower clean_value clean_quals ignored_templates
                                  cfg st t).
Proof.
  intros Hl. unfold parse_item_template.
  repeat match goal with
         | |- real_words (if ?c then _ else _) => destruct c
         | |- real_words (match ?c with Some _ => _ | None => _ end) =>
             destruct c
         end;
    auto 6 with real_words;
    try (apply real_fold; auto; intros s x Hs;
         repeat match goal with
                | |- real_words (if ?c then _ else _) => destruct c
                | |- real_words (match ?c with Some _ => _ | None => _ end) =>
                    destruct c
                end; auto with real_words).
Qed.

Lemma real_add_thesaurus_links links st :
  real_words st -> real_words (add_thesaurus_links lower links st).
Proof.
  unfold add_thesaurus_links. apply real_fold.
  intros s x Hs. destruct (startswith (strip x) "Thesaurus:");
    auto with real_words.
Qed.

Lemma real_pair_fold {A B : Type}
      (f : link_state * B -> A -> link_state * B) xs :
  (forall s x, real_words (fst s) -> real_words (fst (f s x))) ->
  forall st, real_words (fst st) -> real_words (fst (fold_left f xs st)).
Proof.
  intros Hf. induction xs as [|x xs IH]; intros st Hl; simpl; auto.
Qed.

Lemma real_parse_item it kind st :
  real_words st ->
  real_words (parse_item lower clean_value clean_quals ignored_templates
                         re_italics re_paren_head re_drop_parens cfg
                         it kind st).
Proof.
  intros Hl. unfold parse_item.
  set (st1 := with_kind kind (with_sense None (with_quals [] st))).
  assert (H1 : real_words st1) by (unfold st1; auto with real_words).
  clearbody st1.
  destruct (_ && _).
  - assert (H2 : real_words
              (fst (fold_left (scan_short_item clean_value)
                              (templates (i_parsed it)) (st1, [])))).
    { apply real_pair_fold; auto.
      intros [s l] x Hs. unfold scan_short_item. cbn [fst] in Hs.
      repeat match goal with
             | |- context [if ?c then _ else _] => destruct c
             end; cbn [fst]; auto with real_words. }
    destruct (fold_left (scan_short_item clean_value) _ _) as [st2 links].
    cbn [fst] in H2.
    destruct links as [|[k link] links]; [|auto with real_words].
    assert (H3 : real_words
              (fst (fold_left (scan_italic lower clean_value)
                              (re_italics (i_text it)) (st2, false)))).
    { apply real_pair_fold; auto.
      intros [s b] x Hs. unfold scan_italic. cbn [fst] in Hs.
      destruct (_ && _); cbn [fst]; auto with real_words. }
    destruct (fold_left (scan_italic lower clean_value) _ _) as [st3 found].
    cbn [fst] in H3.
    destruct found; auto.
    match goal with
    | |- context [re_paren_head ?x] => destruct (re_paren_head x) as [[q r]|]
    end.
    + match goal with
      | |- real_words (if _ then add_thesaurus_links lower _ ?s else ?s) =>
          assert (H4 : real_words s)
      end.
      { apply real_fold; auto with real_words.
        intros s x Hs. apply real_fold; auto with real_words. }
      destruct (String.eqb _ _); auto using real_add_thesaurus_links.
    + match goal with
      | |- real_words (if _ then add_thesaurus_links lower _ ?s else ?s) =>
          assert (H4 : real_words s)
      end.
      { apply real_fold; auto with real_words.
        intros s x Hs. apply real_fold; auto with real_words. }
      destruct (String.eqb _ _); auto using real_add_thesaurus_links.
  - apply real_add_thesaurus_links, real_fold; auto.
    intros s x. apply real_parse_item_template.
Qed.

(** X21. [parse_linkage] links no empty word and never the word [en]:
    whatever the items, the templates and the links of the section are,
    every identity that the call has added, and so every edge that it has
    stored, is for a word that [add_linkage] has let through. *)
Theorem parse_linkage_links_real_words
        (data : record) (kind : string) (lists : list (list item))
        (rest : item) :
  Forall (fun k => link_word k <> "" /\ link_word k <> "en")
         (l_added (parse_linkage lower clean_value clean_quals ignored_templates
                     re_italics re_paren_head re_drop_parens cfg
                     data kind lists rest)).
Proof.
  change (real_words
            (parse_linkage lower clean_value clean_quals ignored_templates
               re_italics re_paren_head re_drop_parens cfg
               data kind lists rest)).
  unfold parse_linkage.
  match goal with
  | |- real_words (if _ then ?s else _) => assert (H : real_words s)
  end.
  { apply real_fold.
    - intros s x. apply real_parse_item.
    - constructor. }
  destruct (String.eqb _ _); auto.
  now apply real_parse_item.
Qed.

End LinkWords.
